(** * Pixel-based CTE correction for ACS images: [lib/acstools/PixCteCorr.py]

  A shallow embedding of the numeric core of [PixCteCorr.py] and the
  properties of its calibration tables, of the signal/noise separation and
  of the per-amplifier correction loop.

  Numbers.  Pixel values, calibration values and table entries are
  rationals ([Q]) and the arithmetic on them is exact: the functions are
  modelled as the algorithms they are, without the rounding of binary64.
  Equality of values is [Qeq] ([==]), the relation numpy's [==] computes on
  finite values.  The two library functions that leave the rationals,
  [numpy.log10] and [numpy.sqrt], are parameters of the definitions that
  call them, and so are the casts to the dtypes of the science and error
  arrays.  A value that numpy would make non-finite (a division by zero
  inside an array) is kept apart from the finite ones, see [npfloat].
  The separation of signal and noise, [_DecomposeRN], is modelled a second
  time over binary64 ([Binary64]), with the rounding of every operation:
  the statements about its pixel values that rounding breaks are stated
  there as the code computes them.

  Control.  A Python exception is a [Raise] of the [result] monad; the
  module-level variable [_YCTE_QMAX] is passed and returned explicitly. *)

From Stdlib Require Import QArith Qround Qabs Lqa ZArith Lia List String Ascii
  Sorted Floats.
From stdpp Require Import gmap strings list fin_maps.

Local Open Scope Q_scope.

(** ** The Python and numpy operations the module relies on *)

Module Py.

(** The exceptions the modelled code can raise. *)
Inductive exn : Set :=
| IndexError
| ValueError
| KeyError
| ZeroDivisionError.

Inductive result (A : Type) : Type :=
| Ok (a : A)
| Raise (e : exn).
Arguments Ok {A} a.
Arguments Raise {A} e.

#[export] Instance result_ret : MRet result := fun A a => Ok a.
#[export] Instance result_bind : MBind result :=
  fun A B f m => match m with Ok a => f a | Raise e => Raise e end.

(** [returns r P]: the call ended normally with a value satisfying [P]. *)
Definition returns {A} (r : result A) (P : A -> Prop) : Prop :=
  exists a, r = Ok a /\ P a.

(** Comparisons of floats, as booleans. *)
Definition Qlt_bool (x y : Q) : bool := negb (Qle_bool y x).

(** [int(x)] and [astype('int')]: truncation toward zero. *)
Definition np_int (x : Q) : Z :=
  if Qle_bool 0 x then Qfloor x else Qceiling x.

(** [numpy.clip(x, lo, hi)], that is [minimum(maximum(x, lo), hi)]. *)
Definition np_clip (x lo hi : Q) : Q :=
  let y := if Qlt_bool x lo then lo else x in
  if Qlt_bool hi y then hi else y.

(** [numpy.sign]. *)
Definition np_sign (x : Q) : Q :=
  if Qlt_bool x 0 then -1 else if Qlt_bool 0 x then 1 else 0.

(** [a / b] on Python floats. *)
Definition truediv (a b : Q) : result Q :=
  if Qeq_bool b 0 then Raise ZeroDivisionError else Ok (a / b).

(** [d[k]] on a dict with string keys. *)
Definition dict_getitem {V} (d : gmap string V) (k : string) : result V :=
  match d !! k with
  | Some v => Ok v
  | None => Raise KeyError
  end.

(** An index into a sequence of length [n]: negative indices count from
    the end, anything outside [-n .. n-1] raises. *)
Definition py_index (n : nat) (i : Z) : result nat :=
  if ((0 <=? i) && (i <? Z.of_nat n))%Z then Ok (Z.to_nat i)
  else if ((- Z.of_nat n <=? i) && (i <? 0))%Z then Ok (Z.to_nat (i + Z.of_nat n))
  else Raise IndexError.

Definition getitem {A} (a : list A) (i : Z) : result A :=
  j ← py_index (length a) i;
  match a !! j with
  | Some x => Ok x
  | None => Raise IndexError
  end.

(** A bound of the slice [a[start:stop]]: negative bounds count from the
    end and every bound is clamped to [0 .. n]; a slice never raises. *)
Definition slice_bound (n : nat) (i : Z) : nat :=
  if (i <? 0)%Z then Z.to_nat (Z.max 0 (i + Z.of_nat n))
  else Z.to_nat (Z.min i (Z.of_nat n)).

Definition slice {A} (a : list A) (start stop : Z) : list A :=
  let s := slice_bound (length a) start in
  let e := slice_bound (length a) stop in
  take (e - s) (drop s a).

(** [a[start:]]. *)
Definition slice_from {A} (a : list A) (start : Z) : list A :=
  drop (slice_bound (length a) start) a.

(** [range(start, stop)]. *)
Fixpoint zrange_len (start : Z) (len : nat) : list Z :=
  match len with
  | O => []
  | S len' => start :: zrange_len (start + 1)%Z len'
  end.

Definition range (start stop : Z) : list Z :=
  zrange_len start (Z.to_nat (stop - start)).

(** A [for] loop whose body may raise, and a comprehension of the same kind. *)
Fixpoint foldM {A S} (body : S -> A -> result S) (l : list A) (s : S) : result S :=
  match l with
  | [] => Ok s
  | x :: l' => s' ← body s x; foldM body l' s'
  end.

Fixpoint mapM {A B} (f : A -> result B) (l : list A) : result (list B) :=
  match l with
  | [] => Ok []
  | x :: l' => y ← f x; ys ← mapM f l'; Ok (y :: ys)
  end.

(** A float that numpy computed inside an array, where a division by zero
    or the logarithm of a non-positive number raises nothing: [NonFin]
    stands for [inf], [-inf] and [nan]. *)
Inductive npfloat : Type :=
| Fin (q : Q)
| NonFin.

Definition np_add (x y : npfloat) : npfloat :=
  match x, y with
  | Fin a, Fin b => Fin (a + b)
  | _, _ => NonFin
  end.

Definition np_div (x y : npfloat) : npfloat :=
  match x, y with
  | Fin a, Fin b => if Qeq_bool b 0 then NonFin else Fin (a / b)
  | _, _ => NonFin
  end.

(** The running sums of a loop [sumt += x; out[i] = sumt]. *)
Fixpoint running_sum (sumt : Q) (l : list Q) : list Q :=
  match l with
  | [] => []
  | x :: l' => let s := sumt + x in s :: running_sum s l'
  end.

Fixpoint np_running_sum (sumt : npfloat) (l : list npfloat) : list npfloat :=
  match l with
  | [] => []
  | x :: l' => let s := np_add sumt x in s :: np_running_sum s l'
  end.

End Py.

Import Py.

(** A 2-D numpy array, as the list of its rows. *)
Abbreviation array := (list (list Q)).

Module Np.

Definition shape0 (a : array) : nat := length a.

(** All rows have [w] entries. *)
Definition rect {A} (w : nat) (a : list (list A)) : Prop :=
  Forall (fun r => length r = w) a.

(** [shaped h w a]: [a] has [h] rows of [w] entries. *)
Definition shaped {A} (h w : nat) (a : list (list A)) : Prop :=
  length a = h /\ Forall (fun r => length r = w) a.

(** Same number of rows and the same number of entries in each. *)
Definition same_shape {A B} (a : list (list A)) (b : list (list B)) : Prop :=
  Forall2 (fun r s => length r = length s) a b.

(** Entrywise [==]. *)
Definition array_eq (a b : array) : Prop := Forall2 (Forall2 Qeq) a b.

Definition map2 {A B C} (f : A -> B -> C)
    (a : list (list A)) (b : list (list B)) : list (list C) :=
  zip_with (zip_with f) a b.

Definition amap {A B} (f : A -> B) (a : list (list A)) : list (list B) :=
  map (map f) a.

Definition add (a b : array) : array := map2 Qplus a b.
Definition sub (a b : array) : array := map2 Qminus a b.
Definition scale (c : Q) (a : array) : array := amap (Qmult c) a.

(** [numpy.zeros(a.shape)] and [numpy.ones(a.shape)]. *)
Definition zeros_like {A} (a : list (list A)) : array := amap (fun _ => 0) a.
Definition full_like {A B} (v : B) (a : list (list A)) : list (list B) :=
  amap (fun _ => v) a.

(** [a + b] on operands whose first axes numpy must broadcast: equal
    lengths pair up, a single row is repeated, anything else raises.  The
    second axis is the same in every use. *)
Definition bcast2 {A} (f : A -> A -> A) (a b : list (list A))
    : result (list (list A)) :=
  if decide (length a = length b) then Ok (map2 f a b)
  else match a, b with
       | [ra], _ => Ok (map (fun rb => zip_with f ra rb) b)
       | _, [rb] => Ok (map (fun ra => zip_with f ra rb) a)
       | _, _ => Raise ValueError
       end.

(** [f(a, b)] entry by entry for two 2-D operands, under numpy's
    broadcasting: on each axis equal lengths pair up and a length of one is
    repeated; any other pair of lengths raises [ValueError]. *)
Definition broadcast_row {A B C} (f : A -> B -> C)
    (ra : list A) (rb : list B) : result (list C) :=
  if decide (length ra = length rb) then Ok (zip_with f ra rb)
  else match ra, rb with
       | [x], _ => Ok (map (f x) rb)
       | _, [y] => Ok (map (fun x => f x y) ra)
       | _, _ => Raise ValueError
       end.

Definition broadcast {A B C} (f : A -> B -> C)
    (a : list (list A)) (b : list (list B)) : result (list (list C)) :=
  if decide (length a = length b)
  then mapM (fun p => broadcast_row f p.1 p.2) (zip a b)
  else match a, b with
       | [ra], _ => mapM (fun rb => broadcast_row f ra rb) b
       | _, [rb] => mapM (fun ra => broadcast_row f ra rb) a
       | _, _ => Raise ValueError
       end.

(** [a[:,:] = v]: the new contents of [a].  On each axis [v] has the
    length of [a], or a length of one that is repeated; any other length
    raises [ValueError]. *)
Definition assign_row {A} (ra rv : list A) : result (list A) :=
  if decide (length rv = length ra) then Ok rv
  else match rv with
       | [x] => Ok (map (fun _ => x) ra)
       | _ => Raise ValueError
       end.

Definition assign_all {A} (a v : list (list A)) : result (list (list A)) :=
  if decide (length v = length a)
  then mapM (fun p => assign_row p.1 p.2) (zip a v)
  else match v with
       | [rv] => mapM (fun ra => assign_row ra rv) a
       | _ => Raise ValueError
       end.

(** A buffer [buf] after a function that writes into it has put the
    entries [out] there: the buffer keeps its shape, an entry that [out]
    does not have stays as it was, and an entry of [out] outside the buffer
    is not written. *)
Definition fill_row {A} (buf out : list A) : list A :=
  take (length buf) out ++ drop (length out) buf.

Definition fill {A} (buf out : list (list A)) : list (list A) :=
  zip_with fill_row buf out ++ drop (length out) buf.

(** [a[start:stop, :] = v]: the rows of the slice are replaced; [v] must
    have as many rows as the slice, or one row that is repeated. *)
Definition set_slice {A} (a : list (list A)) (start stop : Z)
    (v : list (list A)) : result (list (list A)) :=
  let s := slice_bound (length a) start in
  let e := slice_bound (length a) stop in
  let n := (e - s)%nat in
  if decide (length v = n) then Ok (take s a ++ v ++ drop (s + n) a)
  else match v with
       | [r] => Ok (take s a ++ replicate n r ++ drop (s + n) a)
       | _ => Raise ValueError
       end.

(** [a[i, :] = v] for a scalar [v]. *)
Definition set_row {A} (a : list (list A)) (i : Z) (v : A) : result (list (list A)) :=
  j ← py_index (length a) i;
  Ok (alter (map (fun _ => v)) j a).

(** A write through the view [a[s:s+len(v), :]]: the rows from [s] on are
    replaced by those of [v], which has the view's shape. *)
Definition write_view {A} (a : list (list A)) (s : nat)
    (v : list (list A)) : list (list A) :=
  take s a ++ v ++ drop (s + length v) a.

(** [a.sum()] of a 1-D array, in index order. *)
Definition sum (l : list Q) : Q := fold_left Qplus l 0.
Definition np_sum (l : list npfloat) : npfloat := fold_left np_add l (Fin 0).

(** [a.shape[1]]; an array without rows has no second axis to ask for. *)
Definition shape1 {A} (a : list (list A)) : result nat :=
  match a with
  | [] => Raise IndexError
  | r :: _ => Ok (length r)
  end.

(** Entry [[r, c]] of an array, for statements about entries that exist. *)
Definition item (a : array) (r c : nat) : Q :=
  default 0 (row ← a !! r; row !! c).

(** [a[i, k]]. *)
Definition getitem2 {A} (a : list (list A)) (i k : Z) : result A :=
  r ← getitem a i; getitem r k.

(** [a[start:stop, k] = v] for a 1-D [v]: entry [k] of each row of the
    slice is replaced; [v] must have as many entries as the slice has rows,
    or one entry that is repeated. *)
Definition set_col_slice {A} (a : list (list A)) (start stop k : Z)
    (v : list A) : result (list (list A)) :=
  let s := slice_bound (length a) start in
  let e := slice_bound (length a) stop in
  let n := (e - s)%nat in
  w ← shape1 a;
  j ← py_index w k;
  v' ← (if decide (length v = n) then Ok v
        else match v with
             | [x] => Ok (replicate n x)
             | _ => Raise ValueError
             end);
  Ok (take s a ++ zip_with (fun r x => <[j := x]> r) (take n (drop s a)) v'
        ++ drop (s + n) a).

End Np.

(** ** The module *)

Module PixCteCorr.

(** *** [_CalcCteFrac] *)

(** The two epochs of the linear time dependence, per detector. *)
Definition c1 : gmap string Q := {[ "WFC"%string := 52335.0 ]}.
Definition c2 : gmap string Q := {[ "WFC"%string := 55105.0 ]}.

(** The function over arbitrary epoch tables; [_CalcCteFrac] is its
    instance at the tables of the source. *)
Definition CalcCteFrac_with (c1 c2 : gmap string Q)
    (mjd : Q) (detector : string) : result Q :=
  a ← dict_getitem c1 detector;
  b ← dict_getitem c2 detector;
  a' ← dict_getitem c1 detector;
  truediv (mjd - a) (b - a').

Definition _CalcCteFrac (mjd : Q) (detector : string) : result Q :=
  CalcCteFrac_with c1 c2 mjd detector.

(** *** [_DecomposeRN] *)

(** The function in exact arithmetic; [Binary64] below has it in the
    arithmetic of the source. *)

(** Correction thresholds of model 1, in electrons. *)
Definition nseLo : Q := -20.
Definition nseHi : Q := 100.

Definition out_of_band (d : Q) : bool :=
  Qlt_bool d nseLo || Qlt_bool nseHi d.

(** The mask of the entries one row above (toward higher indices) and one
    row below each entry of a mask: [rows_above m] holds at [(i, j)] when
    [m] holds at [(i+1, j)].  Nothing enters from outside the array. *)
Definition rows_above (m : list (list bool)) : list (list bool) :=
  drop 1 m ++ take 1 (Np.full_like false m).
Definition rows_below (m : list (list bool)) : list (list bool) :=
  take 1 (Np.full_like false m) ++ take (length m - 1) m.

Definition clear (flags mask : list (list bool)) : list (list bool) :=
  Np.map2 (fun f i => f && negb i) flags mask.

(** The array [doNsCor], its ones and zeros as booleans.  [idx], the result
    of [numpy.where], is kept as a mask; it is empty on the first and the
    last row, which are cleared before it is taken, so [idx[0]-1] and
    [idx[0]+1] name rows of the array. *)
Definition doNsCor (data_e : array) : result (list (list bool)) :=
  let flags := Np.full_like true data_e in
  flags ← Np.set_row flags 0 false;
  flags ← Np.set_row flags (-1) false;
  let idx := Np.map2 (fun d f => out_of_band d && f) data_e flags in
  let flags := clear flags idx in
  let flags := clear flags (rows_above idx) in
  let flags := clear flags (rows_below idx) in
  Ok flags.

(** One pass of the loop over [nit]: every read of [sigArr] comes before
    the write [rowCen -= col_dd]. *)
Definition remove_one_electron (flgCen : list (list bool)) (sigArr : array) : array :=
  let rowCen := slice sigArr 1 (-1) in
  let rowLow := slice sigArr 0 (-2) in
  let rowUpp := slice_from sigArr 2 in
  let bar := Np.scale 0.5 (Np.add rowLow rowUpp) in
  let col_dd := Np.map2 (fun (f : bool) r => if f then r else 0)
                  flgCen (Np.sub rowCen bar) in
  let col_dd := Np.amap (fun x => np_clip x (-1) 1) col_dd in
  Np.write_view sigArr 1 (Np.sub rowCen col_dd).

Definition model1 (data_e : array) (nitrn : Z) : result (array * array) :=
  flags ← doNsCor data_e;
  let flgCen := slice flags 1 (-1) in
  let sigArr := Nat.iter (Z.to_nat nitrn) (remove_one_electron flgCen) data_e in
  Ok (sigArr, Np.sub data_e sigArr).

Definition model100 (data_e : array) (readNoise : Q) : result (array * array) :=
  let sigCut := 2 in
  let nseSigLo := sigCut * readNoise in
  let nseSigHi := sigCut * nseSigLo in
  let y1 := 1%Z in
  let y2 := (Z.of_nat (length data_e) - 4)%Z in
  let sigCen := slice data_e y1 y2 in
  let sigLow := slice data_e (y1 - 1) (y2 - 1) in
  let sigUpp := slice data_e (y1 + 1) (y2 + 1) in
  s ← Np.bcast2 Qplus (Np.scale 0.333 sigLow) (Np.scale 0.334 sigCen);
  s ← Np.bcast2 Qplus s (Np.scale 0.333 sigUpp);
  sigArr ← Np.set_slice data_e y1 y2 s;
  let nseArr := Np.sub data_e sigArr in
  let nseArrAbs := Np.amap Qabs nseArr in
  let nseArr := Np.map2 (fun a n => if Qlt_bool nseSigHi a then 0 else n)
                  nseArrAbs nseArr in
  let nseArr := Np.map2 (fun a n => if Qlt_bool nseSigLo a
                                    then (nseSigHi - a) * np_sign n else n)
                  nseArrAbs nseArr in
  Ok (Np.sub data_e nseArr, nseArr).

Definition _DecomposeRN (data_e : array) (model : Z) (nitrn : Z)
    (readNoise : Q) : result (array * array) :=
  if (model =? 1)%Z then model1 data_e nitrn
  else if (model =? 100)%Z then model100 data_e readNoise
  else Ok (data_e, Np.zeros_like data_e).

(** *** [_DecomposeRN] in binary64 *)

(** The arrays of the source hold binary64 floats, and every sum, product
    and difference on them rounds.  The function again, statement by
    statement, over the floats of the kernel: IEEE 754 binary64, rounding
    to nearest, ties to even. *)
Module Binary64.

Abbreviation farray := (list (list float)).

Definition nseLo : float := (-20)%float.
Definition nseHi : float := 100%float.

(** A comparison with a NaN is false. *)
Definition out_of_band (d : float) : bool :=
  (d <? nseLo)%float || (nseHi <? d)%float.

(** [numpy.clip] and [numpy.sign]; both hand a NaN through. *)
Definition np_clip (x lo hi : float) : float :=
  let y := if (x <? lo)%float then lo else x in
  if (hi <? y)%float then hi else y.

Definition np_sign (x : float) : float :=
  if (0 <? x)%float then 1%float
  else if (x <? 0)%float then (-1)%float
  else if (x =? 0)%float then 0%float
  else x.

Definition add (a b : farray) : farray := Np.map2 PrimFloat.add a b.
Definition sub (a b : farray) : farray := Np.map2 PrimFloat.sub a b.
Definition scale (c : float) (a : farray) : farray := Np.amap (PrimFloat.mul c) a.
Definition zeros_like {A} (a : list (list A)) : farray :=
  Np.amap (fun _ => 0%float) a.

Definition doNsCor (data_e : farray) : result (list (list bool)) :=
  let flags := Np.full_like true data_e in
  flags ← Np.set_row flags 0 false;
  flags ← Np.set_row flags (-1) false;
  let idx := Np.map2 (fun d f => out_of_band d && f) data_e flags in
  let flags := clear flags idx in
  let flags := clear flags (rows_above idx) in
  let flags := clear flags (rows_below idx) in
  Ok flags.

(** The array [col_dd] of one pass, after the clipping. *)
Definition col_dd_of (flgCen : list (list bool)) (sigArr : farray) : farray :=
  let rowCen := slice sigArr 1 (-1) in
  let rowLow := slice sigArr 0 (-2) in
  let rowUpp := slice_from sigArr 2 in
  let bar := scale 0.5 (add rowLow rowUpp) in
  let col_dd := Np.map2 (fun (f : bool) r => if f then r else 0%float)
                  flgCen (sub rowCen bar) in
  Np.amap (fun x => np_clip x (-1) 1) col_dd.

Definition remove_one_electron (flgCen : list (list bool)) (sigArr : farray)
    : farray :=
  let rowCen := slice sigArr 1 (-1) in
  Np.write_view sigArr 1 (sub rowCen (col_dd_of flgCen sigArr)).

Definition model1 (data_e : farray) (nitrn : Z) : result (farray * farray) :=
  flags ← doNsCor data_e;
  let flgCen := slice flags 1 (-1) in
  let sigArr := Nat.iter (Z.to_nat nitrn) (remove_one_electron flgCen) data_e in
  Ok (sigArr, sub data_e sigArr).

(** The weights 0.333 and 0.334 as Python reads them. *)
Definition weight_333 : float := 0x1.54fdf3b645a1dp-2%float.
Definition weight_334 : float := 0x1.5604189374bc7p-2%float.

Definition model100 (data_e : farray) (readNoise : float)
    : result (farray * farray) :=
  let sigCut := 2%float in
  let nseSigLo := (sigCut * readNoise)%float in
  let nseSigHi := (sigCut * nseSigLo)%float in
  let y1 := 1%Z in
  let y2 := (Z.of_nat (length data_e) - 4)%Z in
  let sigCen := slice data_e y1 y2 in
  let sigLow := slice data_e (y1 - 1) (y2 - 1) in
  let sigUpp := slice data_e (y1 + 1) (y2 + 1) in
  s ← Np.bcast2 PrimFloat.add (scale weight_333 sigLow) (scale weight_334 sigCen);
  s ← Np.bcast2 PrimFloat.add s (scale weight_333 sigUpp);
  sigArr ← Np.set_slice data_e y1 y2 s;
  let nseArr := sub data_e sigArr in
  let nseArrAbs := Np.amap PrimFloat.abs nseArr in
  let nseArr := Np.map2 (fun a n => if (nseSigHi <? a)%float then 0%float else n)
                  nseArrAbs nseArr in
  let nseArr := Np.map2 (fun a n => if (nseSigLo <? a)%float
                                    then ((nseSigHi - a) * np_sign n)%float
                                    else n)
                  nseArrAbs nseArr in
  Ok (sub data_e nseArr, nseArr).

Definition _DecomposeRN (data_e : farray) (model : Z) (nitrn : Z)
    (readNoise : float) : result (farray * farray) :=
  if (model =? 1)%Z then model1 data_e nitrn
  else if (model =? 100)%Z then model100 data_e readNoise
  else Ok (data_e, zeros_like data_e).

End Binary64.

(** *** [_InterpolatePsi] *)

Definition max_node : nat := 100.

(** The body of the loop over [n1]: the rows of offsets [psi1 .. psi2-1]
    are filled, one column [k] at a time. *)
Definition interpolate_between (chg_leak : array) (psi_node : list Z)
    (kRange : list Z) (chg_leak_kt : array) (n1 : Z) : result array :=
  let n2 := (n1 + 1)%Z in
  psi1 ← getitem psi_node n1;
  psi2 ← getitem psi_node n2;
  let rangeInterp := map inject_Z (range psi1 psi2) in
  let ftt := map (fun r => (r - inject_Z psi1) / inject_Z (psi2 - psi1)) rangeInterp in
  foldM (fun chg_leak_kt k =>
           a ← Np.getitem2 chg_leak n1 k;
           b ← Np.getitem2 chg_leak n2 k;
           a' ← Np.getitem2 chg_leak n1 k;
           Np.set_col_slice chg_leak_kt (psi1 - 1) (psi2 - 1) k
             (map (fun f => a + f * (b - a')) ftt))
        kRange chg_leak_kt.

Definition _InterpolatePsi (chg_leak : array) (psi_node : list Z) : result array :=
  ncols ← Np.shape1 chg_leak;
  let chg_leak_kt := replicate max_node (replicate ncols 0) in
  let kRange := range 0 (Z.of_nat ncols) in
  chg_leak_kt ← foldM (interpolate_between chg_leak psi_node kRange)
                  (range 0 (Z.of_nat (length chg_leak) - 1)) chg_leak_kt;
  last ← getitem chg_leak (-1);
  j ← py_index (length chg_leak_kt) (-1);
  Ok (<[j := last]> chg_leak_kt).

(** The offset of calibration node [j], and the value interpolated between
    nodes [j] and [j+1] for column [c] at row [r], that is at offset [r+1]. *)
Definition node_offset (psi_node : list Z) (j : nat) : Z :=
  default 0%Z (psi_node !! j).

Definition interpolated (chg_leak : array) (psi_node : list Z)
    (j r c : nat) : Q :=
  let a := Np.item chg_leak j c in
  let b := Np.item chg_leak (S j) c in
  a + (inject_Z (Z.of_nat r + 1) - inject_Z (node_offset psi_node j))
        / inject_Z (node_offset psi_node (S j) - node_offset psi_node j)
      * (b - a).

Section Log10.

(** [numpy.log10] on positive arguments.  Its values at zero ([-inf]) and
    below ([nan]) are dealt with where it is called. *)
Variable log10 : Q -> Q.

(** *** [_InterpolatePhi] *)

Definition p_max : nat := Z.to_nat 49999.

(** [dtde_q]: the interpolated PHI at every charge level of [p1_range],
    scaled by [cte_frac]. *)
Definition dtde_q_of (p1_range : list Z) (dtde_l : list Q) (cte_frac : Q)
    : result (list Q) :=
  let rl := map (fun p1 => 1 + 2 * log10 (inject_Z p1)) p1_range in
  let ll := map np_int rl in
  let fl := zip_with (fun r l => r - inject_Z l) rl ll in
  let kl := map (fun l => (l - 1)%Z) ll in
  lo ← mapM (getitem dtde_l) kl;
  hi ← mapM (getitem dtde_l) ll;
  lo' ← mapM (getitem dtde_l) kl;
  Ok (map (fun x => x * cte_frac)
        (zip_with Qplus lo (zip_with Qmult fl (zip_with Qminus hi lo')))).

(** The running sum [ctde_q] and the mapping [q_pix_array]. *)
Definition ctde_q_of (dtde_q : list Q) : list Q := running_sum 0 dtde_q.

Definition q_pix_array_of (ctde_q : list Q) : list Z :=
  map (fun c => Z.max (np_int c) 1) ctde_q.

(** [pix_q_array[q_pix_array - 1] = p1_range]: the assignments in index
    order, so that the last one to an entry stays. *)
Definition pix_q_array_of (n : nat) (q_pix_array p1_range : list Z)
    : result (list Q) :=
  foldM (fun a '(q, p1) =>
           j ← py_index (length a) (q - 1);
           Ok (<[j := inject_Z p1]> a))
        (zip q_pix_array p1_range) (replicate n 0).

(** The function for a dense domain [1 .. n]; the last component of the
    result is the new value of [_YCTE_QMAX]. *)
Definition InterpolatePhi_upto (n : nat) (dtde_l : list Q) (cte_frac : Q)
    : result (list Q * list Z * list Q * Z) :=
  let p0_range := range 0 (Z.of_nat n) in
  let p1_range := map (fun p => (p + 1)%Z) p0_range in
  dtde_q ← dtde_q_of p1_range dtde_l cte_frac;
  let ctde_q := ctde_q_of dtde_q in
  let q_pix_array := q_pix_array_of ctde_q in
  pix_q_array ← pix_q_array_of n q_pix_array p1_range;
  let _YCTE_QMAX := np_int (Np.sum dtde_q) in
  Ok (dtde_q, q_pix_array, pix_q_array, _YCTE_QMAX).

Definition _InterpolatePhi (dtde_l : list Q) (cte_frac : Q)
    : result (list Q * list Z * list Q * Z) :=
  InterpolatePhi_upto p_max dtde_l cte_frac.

(** *** [_TrackChargeTrap] *)

Definition lp_min : Q := 1.
Definition lp_max : Q := 4.

(** [numpy.log10(p).clip(lp_min, lp_max)]: [-inf], the logarithm of an
    unset entry, is clipped to [lp_min]; [nan] stays. *)
Definition lp_of (p : Q) : npfloat :=
  if Qlt_bool p 0 then NonFin
  else if Qeq_bool p 0 then Fin lp_min
  else Fin (np_clip (log10 p) lp_min lp_max).

(** The index [k] of the lower PSI column: ones, then [0] where [lp < 2]
    and [2] where [lp >= 3]; no comparison holds of [nan]. *)
Definition k_of (lp : npfloat) : Z :=
  match lp with
  | Fin v => if Qlt_bool v 2 then 0 else if Qle_bool 3 v then 2 else 1
  | NonFin => 1
  end%Z.

(** Entry [t] of a column before it is normalised:
    [chg_leak_kt[t,k] + flp*(chg_leak_kt[t,k2]-chg_leak_kt[t,k])]. *)
Definition leak_entry (chg_leak_kt : array) (lp : npfloat) (t : Z) : result npfloat :=
  let k := k_of lp in
  let k2 := (k + 1)%Z in
  a ← Np.getitem2 chg_leak_kt t k;
  b ← Np.getitem2 chg_leak_kt t k2;
  a' ← Np.getitem2 chg_leak_kt t k;
  Ok (match lp with
      | Fin v => let flp := v - inject_Z k2 in Fin (a + flp * (b - a'))
      | NonFin => NonFin
      end).

(** The body of the loop over [q], on the column [chg_leak_tq[:,q]]. *)
Definition normalize (column : list npfloat) : list npfloat :=
  let total := Np.np_sum column in
  map (fun x => np_div x total) column.

Definition open_column (column : list npfloat) : list npfloat :=
  np_running_sum (Fin 0) column.

(** The two tables are kept as the lists of their columns: entry [[t,q]]
    of a table is entry [t] of its column [q].  [QMAX] is the value of
    [_YCTE_QMAX] at the call.

    [raw_leak_columns] is [chg_leak_tq] after the loop over [t] and before
    the loop over [q].  The rows of that first loop are computed here column
    by column; a row of [n] entries is stored into a row of [QMAX] entries
    when [n = QMAX] or, repeated, when [n = 1]. *)
Definition raw_leak_columns (QMAX : Z) (pix_q_array : list Q)
    (chg_leak_kt : array) : result (list (list npfloat)) :=
  let max_node := length chg_leak_kt in
  let t_range := range 0 (Z.of_nat max_node) in
  if (QMAX <? 0)%Z then Raise ValueError else
  let lp := map lp_of (slice pix_q_array 0 QMAX) in
  columns ← mapM (fun lpq => mapM (leak_entry chg_leak_kt lpq) t_range) lp;
  if decide (max_node = 0%nat) then Ok (replicate (Z.to_nat QMAX) [])
  else if decide (length columns = Z.to_nat QMAX) then Ok columns
  else match columns with
       | [c] => Ok (replicate (Z.to_nat QMAX) c)
       | _ => Raise ValueError
       end.

Definition _TrackChargeTrap (QMAX : Z) (pix_q_array : list Q)
    (chg_leak_kt : array)
    : result (list (list npfloat) * list (list npfloat)) :=
  chg_leak_tq ← raw_leak_columns QMAX pix_q_array chg_leak_kt;
  let chg_leak_tq := map normalize chg_leak_tq in
  let chg_open_tq := map open_column chg_leak_tq in
  Ok (chg_leak_tq, chg_open_tq).

End Log10.

(** *** [YCte] *)

Section Correction.

Variable log10 : Q -> Q.
Variable sqrt : Q -> Q.

(** The C extension [PixCte_FixY.FixYCte], called with the noiseless
    signal in DN, [_YCTE_QMAX], [q_pix_array], the two tables, the amplifier
    and the name of the log file.  It writes into the buffer [sciAmpCor]
    and returns a status; here it returns what it writes and the status. *)
Variable FixYCte :
  list (list npfloat) -> Z -> list Z -> list (list npfloat) ->
  list (list npfloat) -> string -> string -> array * Z.

(** What the loop over the amplifiers reads and does not change. *)
Record tables : Type := {
  QMAX : Z;
  q_pix_array : list Z;
  chg_leak_tq : list (list npfloat);
  chg_open_tq : list (list npfloat)
}.

(** [astype_sci amp] and [astype_err amp] are the casts
    [.astype(sciQuadData[amp].dtype)] and [.astype(errQuadData[amp].dtype)]
    of a pixel: the dtype of an array is not changed by the writes of the
    loop. *)
Record settings : Type := {
  noise : Z;
  rn2_nit : Z;
  gain : gmap string Q;
  rdns : gmap string Q;
  amp2log : string;
  outLog : string;
  astype_sci : string -> Q -> Q;
  astype_err : string -> Q -> Q
}.

(** What it changes: the science and error arrays by amplifier, and the
    amplifiers reported as failed on the standard output. *)
Record quadrants : Type := {
  sciQuadData : gmap string array;
  errQuadData : gmap string array;
  failed : list string
}.

(** The first half of the body of the loop over [ampList], up to the call
    of the C extension: the gain, the noise that was separated, the buffer
    [sciAmpCor] as the call left it, and the status.  The buffer is
    [numpy.zeros(sciAmpOrig.shape)] before the call. *)
Definition call_kernel (tb : tables) (cfg : settings)
    (sciAmpOrig : array) (amp : string) : result (Q * array * array * Z) :=
  g ← dict_getitem (gain cfg) amp;
  rn ← dict_getitem (rdns cfg) amp;
  '(sciAmpSig, sciAmpNse) ← _DecomposeRN sciAmpOrig (noise cfg) (rn2_nit cfg) rn;
  let sciAmpSig := Np.amap (fun x => np_div (Fin x) (Fin g)) sciAmpSig in
  let outLog2 := if decide (amp = amp2log cfg) then outLog cfg else ""%string in
  let sciAmpCor := Np.zeros_like sciAmpOrig in
  let '(written, retCode) :=
    FixYCte sciAmpSig (QMAX tb) (q_pix_array tb) (chg_leak_tq tb)
      (chg_open_tq tb) amp outLog2 in
  Ok (g, sciAmpNse, Np.fill sciAmpCor written, retCode).

(** The body of the loop over [ampList].  The copies
    [.copy().astype('float')] hold the values of the arrays they are taken
    from.  The arithmetic on whole arrays and the two writes [[:,:] = ...]
    raise where numpy raises, on shapes that cannot be broadcast; [dcte] is
    taken from [sciAmpFin] as computed, before its cast to the dtype of the
    science array. *)
Definition correct_amp (tb : tables) (cfg : settings)
    (qd : quadrants) (amp : string) : result quadrants :=
  sciAmpOrig ← dict_getitem (sciQuadData qd) amp;
  '(g, sciAmpNse, sciAmpCor, retCode) ← call_kernel tb cfg sciAmpOrig amp;
  if negb (retCode =? 0)%Z then
    Ok {| sciQuadData := sciQuadData qd;
          errQuadData := errQuadData qd;
          failed := failed qd ++ [amp] |}
  else
    sciAmpFin ← Np.broadcast Qplus (Np.amap (fun c => c * g) sciAmpCor) sciAmpNse;
    sciAmpNew ← Np.assign_all sciAmpOrig (Np.amap (astype_sci cfg amp) sciAmpFin);
    diff ← Np.broadcast Qminus sciAmpFin sciAmpOrig;
    let dcte := Np.amap (fun d => 0.1 * Qabs d) diff in
    errAmpSig ← dict_getitem (errQuadData qd) amp;
    errAmpFin ← Np.broadcast (fun e d => sqrt (e ^ 2 + d ^ 2)) errAmpSig dcte;
    errAmpNew ← Np.assign_all errAmpSig (Np.amap (astype_err cfg amp) errAmpFin);
    Ok {| sciQuadData := <[amp := sciAmpNew]> (sciQuadData qd);
          errQuadData := <[amp := errAmpNew]> (errQuadData qd);
          failed := failed qd |}.

Definition correct_amps (tb : tables) (cfg : settings)
    (ampList : list string) (qd : quadrants) : result quadrants :=
  foldM (correct_amp tb cfg) ampList qd.

(** The amplifier whose call is logged in detail. *)
Definition ampPriorityOrder : list string := ["C"; "D"; "A"; "B"]%string.

Definition choose_amp2log (ampList : list string) : string :=
  match filter (fun amp => amp ∈ ampList) ampPriorityOrder with
  | amp :: _ => amp
  | [] => ""%string
  end.

(** The exposure as [ImageOpByAmp] hands it over, with the casts to the
    dtypes of its science and error arrays, and the contents of PCTEFILE as
    [_PixCteParams] returns them. *)
Record exposure : Type := {
  detector : string;
  expstart : Q;
  ampList : list string;
  hdr_gain : gmap string Q;
  hdr_noise : gmap string Q;
  sci : gmap string array;
  err : gmap string array;
  sci_dtype : string -> Q -> Q;
  err_dtype : string -> Q -> Q
}.

Record pctefile : Type := {
  dtde_l : list Q;
  chg_leak : array;
  psi_node : list Z;
  RN2_NIT : Z
}.

Definition YCte (ex : exposure) (ref : pctefile) (noise : Z)
    (logName : string) : result quadrants :=
  cte_frac ← _CalcCteFrac (expstart ex) (detector ex);
  chg_leak_kt ← _InterpolatePsi (chg_leak ref) (psi_node ref);
  '(dtde_q, q_pix_array, pix_q_array, QMAX) ←
     _InterpolatePhi log10 (dtde_l ref) cte_frac;
  let rdns : gmap string Q :=
    if negb (noise =? 100)%Z
    then list_to_map (map (fun amp => (amp, 0)) (ampList ex))
    else hdr_noise ex in
  '(chg_leak_tq, chg_open_tq) ← _TrackChargeTrap log10 QMAX pix_q_array chg_leak_kt;
  correct_amps
    {| QMAX := QMAX; q_pix_array := q_pix_array;
       chg_leak_tq := chg_leak_tq; chg_open_tq := chg_open_tq |}
    {| noise := noise; rn2_nit := RN2_NIT ref; gain := hdr_gain ex;
       rdns := rdns; amp2log := choose_amp2log (ampList ex);
       outLog := logName;
       astype_sci := sci_dtype ex; astype_err := err_dtype ex |}
    (ampList ex)
    {| sciQuadData := sci ex; errQuadData := err ex; failed := [] |}.

End Correction.

(** *** [_ResolveRefFile] *)

(** [s.split(sep)] for a separator that is not empty: the pieces between
    the occurrences of [sep], found from the left without overlap.
    [skip] counts the characters of an occurrence that are still to be
    passed over, [cur] is the piece read so far. *)
Fixpoint split_from (sep : string) (skip : nat) (cur s : string) : list string :=
  match s with
  | EmptyString => [cur]
  | String c s' =>
      match skip with
      | S k => split_from sep k cur s'
      | O =>
          if String.prefix sep s
          then cur :: split_from sep (String.length sep - 1) EmptyString s'
          else split_from sep 0 (cur +:+ String c EmptyString) s'
      end
  end.

Definition str_split (s sep : string) : result (list string) :=
  match sep with
  | EmptyString => Raise ValueError
  | _ => Ok (split_from sep 0 EmptyString s)
  end.

Section RefFile.

(** The environment ([os.getenv]), the separator of path components
    ([os.sep]) and [os.path.abspath]. *)
Variable getenv : string -> option string.
Variable os_sep : string.
Variable abspath : string -> string.

Definition _ResolveRefFile (refText sep : string) : result string :=
  s ← str_split refText sep;
  let n := length s in
  if (1 <? n)%nat then
    s0 ← getitem s 0;
    let p := match getenv s0 with
             | Some p => if decide (p = EmptyString) then EmptyString
                         else p +:+ os_sep
             | None => EmptyString
             end in
    s1 ← getitem s 1;
    Ok (p +:+ s1)
  else Ok (abspath refText).

End RefFile.

(** *** [_InterpolatePsi_NOT_USED] *)

(** [x * y] on floats inside an array. *)
Definition np_mul (x y : npfloat) : npfloat :=
  match x, y with
  | Fin a, Fin b => Fin (a * b)
  | _, _ => NonFin
  end.

(** [a[t, k] = v]. *)
Definition set_item {A} (a : list (list A)) (t k : Z) (v : A)
    : result (list (list A)) :=
  i ← py_index (length a) t;
  row ← getitem a t;
  j ← py_index (length row) k;
  Ok (<[i := <[j := v]> row]> a).

(** The loop over [tt]: the last node of [p_range] that is not beyond
    [t]. *)
Definition last_node_upto (tlist : list Q) (p_range : list Z) (t : Z) : result Z :=
  foldM (fun ttu tt =>
           v ← getitem tlist tt;
           Ok (if Qle_bool v (inject_Z t) then tt else ttu))
        p_range 1%Z.

(** The body of the loop over [t], for column [k]. *)
Definition interpolate_at (tlist : list Q) (chg_leak2 : array)
    (p_range : list Z) (k : Z) (chg_leak_kt : list (list npfloat)) (t : Z)
    : result (list (list npfloat)) :=
  ttu ← last_node_upto tlist p_range t;
  t1 ← getitem tlist ttu;
  t2 ← getitem tlist (ttu + 1);
  t1' ← getitem tlist ttu;
  let ftt := np_div (Fin ((inject_Z t - t1) * 1)) (Fin (t2 - t1')) in
  a ← Np.getitem2 chg_leak2 ttu k;
  b ← Np.getitem2 chg_leak2 (ttu + 1) k;
  a' ← Np.getitem2 chg_leak2 ttu k;
  set_item chg_leak_kt t k (np_add (Fin a) (np_mul ftt (Fin (b - a')))).

(** Indices start from 1: [tlist] and [chg_leak2] are the nodes and the
    table behind a zero, and the first row and the first column of the
    result are dropped at the end. *)
Definition _InterpolatePsi_NOT_USED (chg_leak : array) (psi_node : list Z)
    : result (list (list npfloat)) :=
  ncols ← Np.shape1 chg_leak;
  let k_range := range 1 (Z.of_nat ncols + 1) in
  let t_range := range 1 (Z.of_nat max_node + 1) in
  let p_range := range 1 (Z.of_nat (length psi_node)) in
  let chg_leak_kt := replicate (max_node + 1) (replicate (ncols + 1) (Fin 0)) in
  let tlist := 0 :: map inject_Z psi_node in
  let chg_leak2 := replicate (ncols + 1) 0 :: map (cons 0) chg_leak in
  chg_leak_kt ←
    foldM (fun chg_leak_kt k =>
             foldM (interpolate_at tlist chg_leak2 p_range k) t_range chg_leak_kt)
          k_range chg_leak_kt;
  Ok (map (drop 1) (drop 1 chg_leak_kt)).

(** *** [_InterpolatePhi_NOT_USED] *)

(** [a[i] = v] on a 1-D array. *)
Definition set_entry {A} (a : list A) (i : Z) (v : A) : result (list A) :=
  j ← py_index (length a) i;
  Ok (<[j := v]> a).

(** The variables that the loop over [p] updates. *)
Record slow_phi : Type := {
  slow_dtde_q : list Q;
  slow_ctde_q : list Q;
  slow_q_pix_array : list Q;
  slow_pix_q_array : list Q;
  slow_sumt : Q;
  slow_q : Z
}.

Section SlowPhi.

Variable log10 : Q -> Q.

(** The body of the loop over [p]; [dtde_l] is the array of the nodes
    behind a zero. *)
Definition interpolate_level (dtde_l : list Q) (cte_frac : Q)
    (st : slow_phi) (p : Z) : result slow_phi :=
  let rl := 1 + 2 * log10 (inject_Z p) in
  let ll := np_int rl in
  let fl := rl - inject_Z ll in
  lo ← getitem dtde_l ll;
  hi ← getitem dtde_l (ll + 1);
  lo' ← getitem dtde_l ll;
  dtde_q ← set_entry (slow_dtde_q st) p ((lo + fl * (hi - lo')) * cte_frac);
  v ← getitem dtde_q p;
  let sumt := slow_sumt st + v in
  ctde_q ← set_entry (slow_ctde_q st) p sumt;
  let q := np_int sumt in
  let q := if (q <? 1)%Z then 1%Z else q in
  q_pix_array ← set_entry (slow_q_pix_array st) p (inject_Z q);
  pix_q_array ← set_entry (slow_pix_q_array st) q (inject_Z p);
  Ok {| slow_dtde_q := dtde_q; slow_ctde_q := ctde_q;
        slow_q_pix_array := q_pix_array; slow_pix_q_array := pix_q_array;
        slow_sumt := sumt; slow_q := q |}.

(** The function for the charge levels [1 .. n], on arrays of [n + 1]
    entries; the last component of the result is the new value of
    [_YCTE_QMAX].  The loop runs at least once for the [p_max] of the
    source, so that [q] is bound when it ends; it starts here from 0. *)
Definition InterpolatePhi_NOT_USED_upto (n : nat) (dtde_l2 : list Q)
    (cte_frac : Q) : result (list Q * list Q * list Q * Z) :=
  let p_max := S n in
  let dtde_l := 0 :: dtde_l2 in
  let zeros := replicate p_max 0 in
  st ← foldM (interpolate_level dtde_l cte_frac)
         (range 1 (Z.of_nat p_max))
         {| slow_dtde_q := zeros; slow_ctde_q := zeros;
            slow_q_pix_array := zeros; slow_pix_q_array := zeros;
            slow_sumt := 0; slow_q := 0 |};
  let _YCTE_QMAX := slow_q st in
  Ok (drop 1 (slow_dtde_q st), drop 1 (slow_q_pix_array st),
      drop 1 (slow_pix_q_array st), _YCTE_QMAX).

Definition _InterpolatePhi_NOT_USED (dtde_l2 : list Q) (cte_frac : Q)
    : result (list Q * list Q * list Q * Z) :=
  InterpolatePhi_NOT_USED_upto p_max dtde_l2 cte_frac.

End SlowPhi.

(** *** [_TrackChargeTrap_NOT_USED] *)

Section SlowTrack.

Variable log10 : Q -> Q.

(** [numpy.log10(p)] of a scalar, clipped by the [if] and [elif]: [-inf],
    the logarithm of 0, is below [lp_min]; no comparison holds of [nan],
    the logarithm of a negative number. *)
Definition slow_lp_of (p : Q) : npfloat :=
  if Qlt_bool p 0 then NonFin
  else if Qeq_bool p 0 then Fin lp_min
  else let lp := log10 p in
       Fin (if Qlt_bool lp lp_min then lp_min
            else if Qlt_bool lp_max lp then lp_max
            else lp).

(** [k = 3; if lp < 3: k = 2; if lp < 2: k = 1]. *)
Definition slow_k_of (lp : npfloat) : Z :=
  match lp with
  | Fin v =>
      let k := 3%Z in
      let k := if Qlt_bool v 3 then 2%Z else k in
      if Qlt_bool v 2 then 1%Z else k
  | NonFin => 3%Z
  end.

(** [chg_leak_kt2[t,k] + flp*(chg_leak_kt2[t,k+1]-chg_leak_kt2[t,k])] with
    [flp = lp - k]. *)
Definition slow_leak_entry (chg_leak_kt2 : array) (lp : npfloat) (k t : Z)
    : result npfloat :=
  a ← Np.getitem2 chg_leak_kt2 t k;
  b ← Np.getitem2 chg_leak_kt2 t (k + 1);
  a' ← Np.getitem2 chg_leak_kt2 t k;
  Ok (match lp with
      | Fin v => let flp := v - inject_Z k in Fin (a + flp * (b - a'))
      | NonFin => NonFin
      end).

(** The body of the loop over [q], on the two tables. *)
Definition track_trap (chg_leak_kt2 : array) (pix_q_array2 : list Q)
    (t_range : list Z) (tables : list (list npfloat) * list (list npfloat))
    (q : Z) : result (list (list npfloat) * list (list npfloat)) :=
  let '(chg_leak_tq, chg_open_tq) := tables in
  p ← getitem pix_q_array2 q;
  let lp := slow_lp_of p in
  let k := slow_k_of lp in
  '(chg_leak_tq, sumt) ←
    foldM (fun '(chg_leak_tq, sumt) t =>
             x ← slow_leak_entry chg_leak_kt2 lp k t;
             chg_leak_tq ← set_item chg_leak_tq t q x;
             y ← Np.getitem2 chg_leak_tq t q;
             Ok (chg_leak_tq, np_add sumt y))
          t_range (chg_leak_tq, Fin 0);
  chg_leak_tq ←
    foldM (fun chg_leak_tq t =>
             y ← Np.getitem2 chg_leak_tq t q;
             set_item chg_leak_tq t q (np_div y sumt))
          t_range chg_leak_tq;
  '(chg_open_tq, _) ←
    foldM (fun '(chg_open_tq, sumt) t =>
             y ← Np.getitem2 chg_leak_tq t q;
             let sumt := np_add sumt y in
             chg_open_tq ← set_item chg_open_tq t q sumt;
             Ok (chg_open_tq, sumt))
          t_range (chg_open_tq, Fin 0);
  Ok (chg_leak_tq, chg_open_tq).

(** The tables are arrays here, entry [[t,q]] of a table being entry [q]
    of its row [t].  [QMAX] is the value of [_YCTE_QMAX] at the call. *)
Definition _TrackChargeTrap_NOT_USED (QMAX : Z) (pix_q_array : list Q)
    (chg_leak_kt : array)
    : result (list (list npfloat) * list (list npfloat)) :=
  let max_node := length chg_leak_kt in
  let t_range := range 1 (Z.of_nat max_node + 1) in
  let q_range := range 1 (QMAX + 1) in
  let pix_q_array2 := 0 :: pix_q_array in
  ncols ← Np.shape1 chg_leak_kt;
  let chg_leak_kt2 := replicate (ncols + 1) 0 :: map (cons 0) chg_leak_kt in
  if (QMAX + 1 <? 0)%Z then Raise ValueError else
  let chg_leak_tq :=
    replicate (max_node + 1) (replicate (Z.to_nat (QMAX + 1)) (Fin 0)) in
  let chg_open_tq := chg_leak_tq in
  '(chg_leak_tq, chg_open_tq) ←
    foldM (track_trap chg_leak_kt2 pix_q_array2 t_range) q_range
          (chg_leak_tq, chg_open_tq);
  Ok (map (drop 1) (drop 1 chg_leak_tq), map (drop 1) (drop 1 chg_open_tq)).

End SlowTrack.

End PixCteCorr.

Import PixCteCorr.

(** ** Predicates of the statements *)

(** What every model returns once the two arrays have the shape of the
    input and one is the input minus the other. *)
Definition separated (data_e : array) (out : array * array) : Prop :=
  Np.same_shape (fst out) data_e /\
  Np.same_shape (snd out) data_e /\
  Np.array_eq (Np.add (fst out) (snd out)) data_e.

(** [within b a c]: the arrays have the same shape and differ by at most
    [b] at every entry. *)
Definition within (b : Q) (a c : array) : Prop :=
  Forall2 (Forall2 (fun x y => Qabs (x - y) <= b)) a c.

(** What the separation in binary64 returns: two arrays of the shape of
    the input, one of them the difference of the input and the other,
    entry by entry, each difference rounded once; model 0 returns the input
    and zeros. *)
Definition derived (model : Z) (data_e : Binary64.farray)
    (out : Binary64.farray * Binary64.farray) : Prop :=
  Np.same_shape (fst out) data_e /\
  Np.same_shape (snd out) data_e /\
  if (model =? 1)%Z then snd out = Binary64.sub data_e (fst out)
  else if (model =? 100)%Z then fst out = Binary64.sub data_e (snd out)
  else out = (data_e, Binary64.zeros_like data_e).

(** [v] is a value that [numpy.clip(_, -1, 1)] returns: none below -1 and
    none above 1. *)
Definition clipped (v : float) : Prop :=
  (v <? -1)%float = false /\ (1 <? v)%float = false.

(** Entry [[r, c]] of a mask; [false] outside it. *)
Definition flag (m : list (list bool)) (r c : nat) : bool :=
  default false (row ← m !! r; row !! c).

(** [c] does not occur in [s]. *)
Fixpoint without_char (c : ascii) (s : string) : Prop :=
  match s with
  | EmptyString => True
  | String a s' => a <> c /\ without_char c s'
  end.

(** Entry [[r, c]] of an array of any kind, when there is one. *)
Definition cell {A} (a : list (list A)) (r c : nat) : option A :=
  row ← a !! r; row !! c.

(** The node that the loop over [tt] ends on, as a function of [t]: the
    last of the nodes 1 .. n-1 (counted from 1) whose offset is not beyond
    [t], or node 1. *)
Definition last_node_of (psi_node : list Z) (t : Z) : nat :=
  fold_left (fun u tt => if (node_offset psi_node (tt - 1) <=? t)%Z then tt else u)
    (seq 1 (length psi_node - 1)) 1%nat.

(** The value that the slow loop stores at row [t] and column [k], both
    counted from 1: the interpolation between node [u], the last node not
    beyond [t], and node [u + 1]. *)
Definition slow_value (chg_leak : array) (psi_node : list Z) (t k : nat)
    : npfloat :=
  let u := last_node_of psi_node (Z.of_nat t) in
  let p := node_offset psi_node (u - 1) in
  let q := node_offset psi_node u in
  let a := Np.item chg_leak (u - 1) (k - 1) in
  let b := Np.item chg_leak u (k - 1) in
  Fin (a + (inject_Z (Z.of_nat t) - inject_Z p) * 1
            / (inject_Z q - inject_Z p) * (b - a)).

(** Entry [t] of the column of [chg_leak_tq] for the charge level [p],
    before the normalisation; offsets count from 0. *)
Definition raw_leak (log10 : Q -> Q) (chg_leak_kt : array) (p : Q) (t : nat)
    : npfloat :=
  match lp_of log10 p with
  | Fin v =>
      let k := Z.to_nat (k_of (Fin v)) in
      Fin (Np.item chg_leak_kt t k
           + (v - inject_Z (k_of (Fin v) + 1))
             * (Np.item chg_leak_kt t (S k) - Np.item chg_leak_kt t k))
  | NonFin => NonFin
  end.

(** The column of the leak table and of the open table for the charge
    level [p], over [h] offsets. *)
Definition leak_column (log10 : Q -> Q) (chg_leak_kt : array) (h : nat) (p : Q)
    : list npfloat :=
  normalize (map (raw_leak log10 chg_leak_kt p) (seq 0 h)).

Section Quadrants.

Variable sqrt : Q -> Q.
Variable FixYCte :
  list (list npfloat) -> Z -> list Z -> list (list npfloat) ->
  list (list npfloat) -> string -> string -> array * Z.
Variables (tb : tables) (cfg : settings).

(** On arrays of one shape numpy neither broadcasts nor raises, and the
    arrays of a pass are these, entry by entry: [sciAmpFin], the corrected
    image in electrons with the noise added back, and [errAmpFin], the
    error with 10 percent of the correction added in quadrature. *)
Definition sciAmpFin_of (g : Q) (sciAmpCor sciAmpNse : array) : array :=
  Np.add (Np.amap (fun c => c * g) sciAmpCor) sciAmpNse.

Definition errAmpFin_of (errAmpSig sciAmpFin sciAmpOrig : array) : array :=
  let dcte := Np.amap (fun d => 0.1 * Qabs d) (Np.sub sciAmpFin sciAmpOrig) in
  Np.map2 (fun e d => sqrt (e ^ 2 + d ^ 2)) errAmpSig dcte.

(** The quadrants the loop is run on: each has its science array and an
    error array of the same shape, and the pass reaches the call of the C
    extension. *)
Definition runnable (qd : quadrants) (amp : string) : Prop :=
  exists sciAmpOrig errAmpSig r h w,
    sciQuadData qd !! amp = Some sciAmpOrig /\
    errQuadData qd !! amp = Some errAmpSig /\
    Np.shaped h w sciAmpOrig /\
    Np.shaped h w errAmpSig /\
    call_kernel FixYCte tb cfg sciAmpOrig amp = Ok r.

(** What the loop has made of the quadrant of [amp], given the arrays it
    started from. *)
Definition settled (qd qd' : quadrants) (amp : string) : Prop :=
  forall sciAmpOrig errAmpSig g sciAmpNse sciAmpCor retCode,
    sciQuadData qd !! amp = Some sciAmpOrig ->
    errQuadData qd !! amp = Some errAmpSig ->
    call_kernel FixYCte tb cfg sciAmpOrig amp =
      Ok (g, sciAmpNse, sciAmpCor, retCode) ->
    (retCode <> 0%Z ->
       sciQuadData qd' !! amp = Some sciAmpOrig /\
       errQuadData qd' !! amp = Some errAmpSig /\
       amp ∈ failed qd') /\
    (retCode = 0%Z ->
       sciQuadData qd' !! amp =
         Some (Np.amap (astype_sci cfg amp)
                 (sciAmpFin_of g sciAmpCor sciAmpNse)) /\
       errQuadData qd' !! amp =
         Some (Np.amap (astype_err cfg amp)
                 (errAmpFin_of errAmpSig
                    (sciAmpFin_of g sciAmpCor sciAmpNse) sciAmpOrig))).

End Quadrants.

(** ** Inputs of the examples *)

(** The integer part of the decimal logarithm on [1 <= x < 100000], which
    stands for [numpy.log10] where a statement is instantiated: it agrees
    with the logarithm at the powers of ten. *)
Definition log10_floor (x : Q) : Q :=
  if Qlt_bool x 10 then 0
  else if Qlt_bool x 100 then 1
  else if Qlt_bool x 1000 then 2
  else if Qlt_bool x 10000 then 3
  else 4.

(** The values of the examples that are not binary64 numbers, as Python
    reads them: 0.3 and 0.001. *)
Definition float_0_3 : float := 0x1.3333333333333p-2%float.
Definition float_0_001 : float := 0x1.0624dd2f1a9fcp-10%float.

(** The integer part of the square root, which stands for [numpy.sqrt]
    where a statement is instantiated: it agrees with the square root at
    the squares of the integers. *)
Definition sqrt_floor (x : Q) : Q := inject_Z (Z.sqrt (Qfloor x)).

(** A kernel for the examples, in place of the C extension: it puts every
    pixel of the signal, 10 DN higher, into the buffer, and fails on
    amplifier B. *)
Definition FixYCte_plus10 (sciAmpSig : list (list npfloat)) (QMAX : Z)
    (q_pix_array : list Z) (chg_leak_tq chg_open_tq : list (list npfloat))
    (amp outLog2 : string) : array * Z :=
  (Np.amap (fun x => match x with Fin q => q + 10 | NonFin => 0 end) sciAmpSig,
   if decide (amp = "B"%string) then 1%Z else 0%Z).

(** An exposure of two amplifiers with quadrants of two by two pixels, a
    gain of 2 and no separation of the noise. *)
Definition two_amps : list string := ["A"; "B"]%string.

Definition two_quadrants : quadrants :=
  {| sciQuadData := {[ "A"%string := [[30; 40]; [50; 60]];
                       "B"%string := [[31; 41]; [51; 61]] ]};
     errQuadData := {[ "A"%string := [[0; 0]; [0; 0]];
                       "B"%string := [[1; 1]; [1; 1]] ]};
     failed := [] |}.

Definition no_tables : tables :=
  {| QMAX := 0; q_pix_array := []; chg_leak_tq := []; chg_open_tq := [] |}.

Definition gain_two : settings :=
  {| noise := 0; rn2_nit := 0;
     gain := {[ "A"%string := 2; "B"%string := 2 ]};
     rdns := {[ "A"%string := 0; "B"%string := 0 ]};
     amp2log := "A"; outLog := "";
     astype_sci := fun _ x => x; astype_err := fun _ x => x |}.

(** A quadrant of one pixel whose science array holds integers, as the
    arrays of a raw exposure do: the cast to its dtype drops the fraction.
    The gain is 10.05. *)
Definition one_pixel : quadrants :=
  {| sciQuadData := {[ "A"%string := [[0]] ]};
     errQuadData := {[ "A"%string := [[4.5]] ]};
     failed := [] |}.

Definition gain_integer_pixels : settings :=
  {| noise := 0; rn2_nit := 0;
     gain := {[ "A"%string := 10.05 ]};
     rdns := {[ "A"%string := 0 ]};
     amp2log := "A"; outLog := "";
     astype_sci := fun _ x => inject_Z (np_int x);
     astype_err := fun _ x => x |}.

(** A WFC exposure of two amplifiers taken at the second epoch, and a
    PCTEFILE with three PSI nodes and a flat PHI. *)
Definition wfc_exposure : exposure :=
  {| detector := "WFC"; expstart := 55105; ampList := two_amps;
     hdr_gain := gain gain_two; hdr_noise := ∅;
     sci := sciQuadData two_quadrants; err := errQuadData two_quadrants;
     sci_dtype := fun _ x => x; err_dtype := fun _ x => x |}.

Definition three_nodes : pctefile :=
  {| dtde_l := replicate 11 0.1;
     chg_leak := [[4; 3; 2; 1]; [2; 2; 1; 1]; [1; 1; 1; 1]];
     psi_node := [1; 3; 100]%Z;
     RN2_NIT := 7 |}.

(** A WFC exposure taken a thousand days before the first epoch. *)
Definition early_exposure : exposure :=
  {| detector := "WFC"; expstart := 51335; ampList := two_amps;
     hdr_gain := gain gain_two; hdr_noise := ∅;
     sci := sciQuadData two_quadrants; err := errQuadData two_quadrants;
     sci_dtype := fun _ x => x; err_dtype := fun _ x => x |}.

(** An exposure of the other channel of the camera. *)
Definition hrc_exposure : exposure :=
  {| detector := "HRC"; expstart := 55000; ampList := ["A"; "B"]%string;
     hdr_gain := ∅; hdr_noise := ∅; sci := ∅; err := ∅;
     sci_dtype := fun _ x => x; err_dtype := fun _ x => x |}.

(** * Properties *)

(** ** Comparisons, truncation and clipping *)

Lemma Qlt_bool_iff (x y : Q) : Qlt_bool x y = true <-> x < y.
Proof.
  unfold Qlt_bool. rewrite negb_true_iff.
  destruct (Qle_bool y x) eqn:E.
  - apply Qle_bool_iff in E. split; [discriminate | intros; lra].
  - split; [intros _ | reflexivity].
    destruct (Qlt_le_dec x y) as [H | H]; [exact H |].
    apply Qle_bool_iff in H. congruence.
Qed.

Lemma Qlt_bool_false (x y : Q) : Qlt_bool x y = false <-> y <= x.
Proof.
  rewrite <- not_true_iff_false, Qlt_bool_iff. split; intros; lra.
Qed.

Lemma Qle_bool_false (x y : Q) : Qle_bool x y = false <-> y < x.
Proof.
  rewrite <- not_true_iff_false, Qle_bool_iff. split; intros; lra.
Qed.

Lemma Qeq_bool_false (x y : Q) : Qeq_bool x y = false <-> ~ x == y.
Proof.
  rewrite <- not_true_iff_false, Qeq_bool_iff. reflexivity.
Qed.

(** Case analysis on every comparison of the goal, each outcome turned into
    the order fact it stands for. *)
Ltac qcases :=
  repeat match goal with
    | |- context [Qlt_bool ?a ?b] =>
        let E := fresh "E" in
        destruct (Qlt_bool a b) eqn:E;
        [apply Qlt_bool_iff in E | apply Qlt_bool_false in E]
    | |- context [Qle_bool ?a ?b] =>
        let E := fresh "E" in
        destruct (Qle_bool a b) eqn:E;
        [apply Qle_bool_iff in E | apply Qle_bool_false in E]
    | |- context [Qeq_bool ?a ?b] =>
        let E := fresh "E" in
        destruct (Qeq_bool a b) eqn:E;
        [apply Qeq_bool_iff in E | apply Qeq_bool_false in E]
    end.

Lemma np_clip_bounds (x lo hi : Q) :
  lo <= hi -> lo <= np_clip x lo hi /\ np_clip x lo hi <= hi.
Proof. intros H. unfold np_clip. qcases; lra. Qed.

Lemma np_clip_in_range (x lo hi : Q) :
  lo <= x -> x <= hi -> np_clip x lo hi = x.
Proof.
  intros H1 H2. unfold np_clip.
  destruct (Qlt_bool x lo) eqn:E1.
  - apply Qlt_bool_iff in E1. lra.
  - destruct (Qlt_bool hi x) eqn:E2; [apply Qlt_bool_iff in E2; lra | reflexivity].
Qed.

Lemma np_int_floor (x : Q) : 0 <= x -> np_int x = Qfloor x.
Proof.
  intros H. unfold np_int. apply Qle_bool_iff in H. now rewrite H.
Qed.

Lemma np_int_comp (x y : Q) : x == y -> np_int x = np_int y.
Proof.
  intros H. unfold np_int.
  assert (Qle_bool 0 x = Qle_bool 0 y) as ->.
  { destruct (Qle_bool 0 y) eqn:E.
    - apply Qle_bool_iff. apply Qle_bool_iff in E. lra.
    - apply Qle_bool_false. apply Qle_bool_false in E. lra. }
  destruct (Qle_bool 0 y); [now apply Qfloor_comp | now apply Qceiling_comp].
Qed.

Lemma Qabs_le_iff (x b : Q) : Qabs x <= b <-> - b <= x /\ x <= b.
Proof. apply Qabs_Qle_condition. Qed.

(** ** [_CalcCteFrac] *)

Lemma bind_Ok {A B} (a : A) (f : A -> result B) : Ok a ≫= f = f a.
Proof. reflexivity. Qed.

Lemma returns_Ok {A} (a : A) (P : A -> Prop) : P a -> returns (Ok a) P.
Proof. intros H. exists a. split; [reflexivity | exact H]. Qed.

Lemma truediv_nonzero (a b : Q) :
  ~ b == 0 -> truediv a b = Ok (a / b).
Proof.
  intros H. unfold truediv. apply Qeq_bool_false in H. now rewrite H.
Qed.

Lemma truediv_zero (a b : Q) :
  b == 0 -> truediv a b = Raise ZeroDivisionError.
Proof.
  intros H. unfold truediv. apply Qeq_bool_iff in H. now rewrite H.
Qed.

Lemma CalcCteFrac_with_epochs (c1 c2 : gmap string Q) (detector : string)
    (epoch1 epoch2 mjd : Q) :
  c1 !! detector = Some epoch1 ->
  c2 !! detector = Some epoch2 ->
  CalcCteFrac_with c1 c2 mjd detector = truediv (mjd - epoch1) (epoch2 - epoch1).
Proof.
  intros H1 H2. unfold CalcCteFrac_with, dict_getitem.
  rewrite H1, H2. reflexivity.
Qed.

(** C9.  The time scale is [(mjd - epoch1) / (epoch2 - epoch1)], whatever
    [mjd] is: nothing is clipped, the value is 0 at the first epoch and 1 at
    the second, and equal epochs make the division raise.  The epochs are
    those the tables [c1] and [c2] give for the detector; for the tables of
    the source and WFC they are 52335 and 55105. *)
Theorem CalcCteFrac_linear_in_epoch (c1 c2 : gmap string Q)
    (detector : string) (epoch1 epoch2 mjd : Q) :
  c1 !! detector = Some epoch1 ->
  c2 !! detector = Some epoch2 ->
  (~ epoch2 == epoch1 ->
     returns (CalcCteFrac_with c1 c2 mjd detector)
       (fun frac => frac == (mjd - epoch1) / (epoch2 - epoch1)) /\
     returns (CalcCteFrac_with c1 c2 epoch1 detector) (fun frac => frac == 0) /\
     returns (CalcCteFrac_with c1 c2 epoch2 detector) (fun frac => frac == 1)) /\
  (epoch2 == epoch1 ->
     CalcCteFrac_with c1 c2 mjd detector = Raise ZeroDivisionError) /\
  returns (_CalcCteFrac mjd "WFC")
    (fun frac => frac == (mjd - 52335.0) / (55105.0 - 52335.0)).
Proof.
  intros H1 H2. split; [| split].
  - intros Hne.
    assert (~ epoch2 - epoch1 == 0) as Hd by (intros H; apply Hne; lra).
    rewrite !(CalcCteFrac_with_epochs _ _ _ _ _ _ H1 H2).
    rewrite !truediv_nonzero by exact Hd.
    repeat split; apply returns_Ok.
    + reflexivity.
    + unfold Qdiv. ring.
    + field. exact Hd.
  - intros He. rewrite (CalcCteFrac_with_epochs _ _ _ _ _ _ H1 H2).
    apply truediv_zero. lra.
  - unfold _CalcCteFrac.
    rewrite (CalcCteFrac_with_epochs _ _ _ 52335.0 55105.0) by reflexivity.
    rewrite truediv_nonzero by (intros H; vm_compute in H; discriminate).
    apply returns_Ok. reflexivity.
Qed.

(** With one epoch in both tables the division raises, whatever [mjd]
    is. *)
Example CalcCteFrac_equal_epochs_raise :
  CalcCteFrac_with {[ "WFC"%string := 52335.0 ]} {[ "WFC"%string := 52335.0 ]}
    56000 "WFC" = Raise ZeroDivisionError.
Proof. vm_compute. reflexivity. Qed.

(** ** Slices and shapes *)

Section Shapes.

Context {A : Type}.
Implicit Types a b : list (list A).

Lemma slice_bound_le (n : nat) (i : Z) : (slice_bound n i <= n)%nat.
Proof. unfold slice_bound. destruct (i <? 0)%Z eqn:E; lia. Qed.

Lemma slice_bound_nonneg (n : nat) (i : Z) :
  (0 <= i <= Z.of_nat n)%Z -> slice_bound n i = Z.to_nat i.
Proof. intros H. unfold slice_bound. destruct (i <? 0)%Z eqn:E; lia. Qed.

Lemma slice_bound_neg (n : nat) (i : Z) :
  (i < 0)%Z -> slice_bound n i = (n - Z.to_nat (- i))%nat.
Proof. intros H. unfold slice_bound. destruct (i <? 0)%Z eqn:E; lia. Qed.

Lemma length_slice {B} (l : list B) (start stop : Z) :
  length (slice l start stop) =
  (slice_bound (length l) stop - slice_bound (length l) start)%nat.
Proof.
  unfold slice. rewrite length_take, length_drop.
  pose proof (slice_bound_le (length l) stop). lia.
Qed.

Lemma length_slice_from {B} (l : list B) (start : Z) :
  length (slice_from l start) = (length l - slice_bound (length l) start)%nat.
Proof. unfold slice_from. now rewrite length_drop. Qed.

Lemma Forall_slice {B} (P : B -> Prop) (l : list B) (start stop : Z) :
  Forall P l -> Forall P (slice l start stop).
Proof. intros H. unfold slice. now apply Forall_take, Forall_drop. Qed.

Lemma Forall_slice_from {B} (P : B -> Prop) (l : list B) (start : Z) :
  Forall P l -> Forall P (slice_from l start).
Proof. intros H. unfold slice_from. now apply Forall_drop. Qed.

Lemma shaped_same_shape {B} (h w : nat) a (b : list (list B)) :
  Np.shaped h w a -> Np.shaped h w b -> Np.same_shape a b.
Proof.
  intros [Ha Hra] [Hb Hrb]. unfold Np.same_shape.
  revert h b Ha Hb Hrb. induction Hra as [| r a Hr Hra IH]; intros h b Ha Hb Hrb.
  - destruct b; [constructor | simpl in *; lia].
  - destruct b as [| s b]; [simpl in *; lia |].
    inversion Hrb; subst. constructor; [congruence |].
    apply (IH (length a)); simpl in *; auto with lia.
Qed.

Lemma shaped_slice h w a (start stop : Z) :
  Np.shaped h w a ->
  Np.shaped (slice_bound h stop - slice_bound h start) w (slice a start stop).
Proof.
  intros [Ha Hr]. split.
  - now rewrite length_slice, Ha.
  - now apply Forall_slice.
Qed.

Lemma shaped_slice_from h w a (start : Z) :
  Np.shaped h w a -> Np.shaped (h - slice_bound h start) w (slice_from a start).
Proof.
  intros [Ha Hr]. split.
  - now rewrite length_slice_from, Ha.
  - now apply Forall_slice_from.
Qed.

Lemma shaped_write_view h w a (s : nat) (v : list (list A)) n :
  Np.shaped h w a -> Np.shaped n w v -> (s + n <= h)%nat ->
  Np.shaped h w (Np.write_view a s v).
Proof.
  intros [Ha Hr] [Hv Hrv] Hle. unfold Np.write_view. split.
  - rewrite !length_app, length_take, length_drop. lia.
  - rewrite !Forall_app. auto using Forall_take, Forall_drop.
Qed.

End Shapes.

Lemma shaped_map2 {A B C} (f : A -> B -> C) h w
    (a : list (list A)) (b : list (list B)) :
  Np.shaped h w a -> Np.shaped h w b -> Np.shaped h w (Np.map2 f a b).
Proof.
  intros [Ha Hra] [Hb Hrb]. unfold Np.map2. split.
  - rewrite length_zip_with. lia.
  - apply Forall_lookup. intros i r Hr.
    apply lookup_zip_with_Some in Hr as (x & y & -> & Hx & Hy).
    rewrite length_zip_with.
    rewrite (Forall_lookup_1 _ _ _ _ Hra Hx), (Forall_lookup_1 _ _ _ _ Hrb Hy).
    lia.
Qed.

Lemma shaped_amap {A B} (f : A -> B) h w (a : list (list A)) :
  Np.shaped h w a -> Np.shaped h w (Np.amap f a).
Proof.
  intros [Ha Hr]. unfold Np.amap. split.
  - now rewrite length_map.
  - apply Forall_map. eapply Forall_impl; [exact Hr |].
    intros r Hl. simpl. now rewrite length_map.
Qed.

(** Boolean comparisons of integers in the hypotheses, as order facts. *)
Ltac zbool :=
  repeat match goal with
    | H : (_ && _)%bool = true |- _ => apply andb_true_iff in H as [? ?]
    | H : (_ && _)%bool = false |- _ => apply andb_false_iff in H as [? | ?]
    | H : (_ <=? _)%Z = true |- _ => apply Z.leb_le in H
    | H : (_ <=? _)%Z = false |- _ => apply Z.leb_gt in H
    | H : (_ <? _)%Z = true |- _ => apply Z.ltb_lt in H
    | H : (_ <? _)%Z = false |- _ => apply Z.ltb_ge in H
    | H : (_ =? _)%Z = true |- _ => apply Z.eqb_eq in H
    | H : (_ =? _)%Z = false |- _ => apply Z.eqb_neq in H
    end.

Lemma py_index_first (n : nat) : (1 <= n)%nat -> py_index n 0 = Ok 0%nat.
Proof.
  intros H. unfold py_index.
  destruct (0 <=? 0)%Z eqn:E1; [| lia].
  destruct (0 <? Z.of_nat n)%Z eqn:E2; [reflexivity | lia].
Qed.

Lemma py_index_last (n : nat) : (1 <= n)%nat -> py_index n (-1) = Ok (n - 1)%nat.
Proof.
  intros H. unfold py_index.
  destruct ((0 <=? -1) && (-1 <? Z.of_nat n))%Z eqn:E1; [lia |].
  destruct ((- Z.of_nat n <=? -1) && (-1 <? 0))%Z eqn:E2; [| lia].
  f_equal. lia.
Qed.

Lemma py_index_nonneg (n : nat) (i : Z) :
  (0 <= i < Z.of_nat n)%Z -> py_index n i = Ok (Z.to_nat i).
Proof.
  intros H. unfold py_index.
  destruct (0 <=? i)%Z eqn:E1; [| lia].
  destruct (i <? Z.of_nat n)%Z eqn:E2; [reflexivity | lia].
Qed.

Lemma py_index_lt (n : nat) (i : Z) (j : nat) :
  py_index n i = Ok j -> (j < n)%nat.
Proof.
  unfold py_index.
  destruct ((0 <=? i) && (i <? Z.of_nat n))%Z eqn:E1.
  - intros [= <-]. lia.
  - destruct ((- Z.of_nat n <=? i) && (i <? 0))%Z eqn:E2; [| discriminate].
    intros [= <-]. lia.
Qed.

Lemma py_index_empty (i : Z) : py_index 0 i = Raise IndexError.
Proof.
  unfold py_index.
  destruct ((0 <=? i) && (i <? Z.of_nat 0))%Z eqn:E1; [exfalso; zbool; lia |].
  destruct ((- Z.of_nat 0 <=? i) && (i <? 0))%Z eqn:E2;
    [exfalso; zbool; lia | reflexivity].
Qed.

Lemma set_row_shaped {A} h w (a a' : list (list A)) (i : Z) (v : A) :
  Np.shaped h w a -> Np.set_row a i v = Ok a' -> Np.shaped h w a'.
Proof.
  intros [Ha Hr]. unfold Np.set_row.
  destruct (py_index (length a) i) as [j |]; [| discriminate].
  intros [= <-]. split.
  - now rewrite length_alter.
  - apply Forall_alter; [exact Hr |]. intros r _ Hl. now rewrite length_map.
Qed.

(** ** [_DecomposeRN] *)

Lemma rows_above_shaped h w (m : list (list bool)) :
  Np.shaped h w m -> Np.shaped h w (rows_above m).
Proof.
  intros Hm. pose proof (shaped_amap (fun _ => false) _ _ _ Hm) as [Hz Hrz].
  destruct Hm as [Hm Hr]. unfold rows_above, Np.full_like. split.
  - rewrite length_app, length_drop, length_take, Hz. lia.
  - apply Forall_app. auto using Forall_take, Forall_drop.
Qed.

Lemma rows_below_shaped h w (m : list (list bool)) :
  Np.shaped h w m -> Np.shaped h w (rows_below m).
Proof.
  intros Hm. pose proof (shaped_amap (fun _ => false) _ _ _ Hm) as [Hz Hrz].
  destruct Hm as [Hm Hr]. unfold rows_below, Np.full_like. split.
  - rewrite length_app, !length_take, Hz. lia.
  - apply Forall_app. auto using Forall_take, Forall_drop.
Qed.

Lemma doNsCor_shaped h w (data_e : array) :
  Np.shaped h w data_e -> (1 <= h)%nat ->
  exists flags, doNsCor data_e = Ok flags /\ Np.shaped h w flags.
Proof.
  intros Hd Hh. unfold doNsCor.
  pose proof (shaped_amap (fun _ => true) _ _ _ Hd) as H0.
  fold (@Np.full_like Q bool true data_e) in H0.
  set (f0 := Np.full_like true data_e) in *.
  assert (exists f1, Np.set_row f0 0 false = Ok f1) as [f1 E1].
  { unfold Np.set_row. rewrite py_index_first by (destruct H0; lia). eauto. }
  pose proof (set_row_shaped _ _ _ _ _ _ H0 E1) as H1.
  assert (exists f2, Np.set_row f1 (-1) false = Ok f2) as [f2 E2].
  { unfold Np.set_row. rewrite py_index_last by (destruct H1; lia). eauto. }
  pose proof (set_row_shaped _ _ _ _ _ _ H1 E2) as H2.
  rewrite E1. simpl. rewrite E2. simpl.
  eexists. split; [reflexivity |].
  assert (Np.shaped h w (Np.map2 (fun d f => out_of_band d && f) data_e f2))
    as Hidx by now apply shaped_map2.
  unfold clear.
  auto using shaped_map2, rows_above_shaped, rows_below_shaped.
Qed.

Lemma doNsCor_no_rows : doNsCor [] = Raise IndexError.
Proof. reflexivity. Qed.

Lemma remove_one_electron_shaped h w (flgCen : list (list bool)) (sigArr : array) :
  Np.shaped h w sigArr -> Np.shaped (h - 2) w flgCen ->
  Np.shaped h w (remove_one_electron flgCen sigArr).
Proof.
  intros Hs Hf. unfold remove_one_electron.
  assert (Np.shaped (h - 2) w (slice sigArr 1 (-1))) as Hcen.
  { pose proof (shaped_slice _ _ _ 1 (-1) Hs) as H.
    replace (h - 2)%nat with (slice_bound h (-1) - slice_bound h 1)%nat; [exact H |].
    unfold slice_bound; simpl; lia. }
  assert (Np.shaped (h - 2) w (slice sigArr 0 (-2))) as Hlow.
  { pose proof (shaped_slice _ _ _ 0 (-2) Hs) as H.
    replace (h - 2)%nat with (slice_bound h (-2) - slice_bound h 0)%nat; [exact H |].
    unfold slice_bound; simpl; lia. }
  assert (Np.shaped (h - 2) w (slice_from sigArr 2)) as Hupp.
  { pose proof (shaped_slice_from _ _ _ 2 Hs) as H.
    replace (h - 2)%nat with (h - slice_bound h 2)%nat; [exact H |].
    unfold slice_bound; simpl; lia. }
  destruct (decide (h = 0%nat)) as [-> | Hh].
  - destruct Hs as [Hl _]. apply nil_length_inv in Hl. subst sigArr.
    split; [reflexivity | constructor].
  - apply (shaped_write_view h w _ 1%nat _ (h - 2)%nat); [exact Hs | | lia].
    unfold Np.sub, Np.add, Np.scale.
    auto 10 using shaped_map2, shaped_amap.
Qed.

Lemma iter_remove_one_electron_shaped h w flgCen (data_e : array) (n : nat) :
  Np.shaped h w data_e -> Np.shaped (h - 2) w flgCen ->
  Np.shaped h w (Nat.iter n (remove_one_electron flgCen) data_e).
Proof.
  intros Hd Hf. induction n as [| n IH]; simpl.
  - exact Hd.
  - now apply remove_one_electron_shaped.
Qed.

Lemma same_shape_refl {A} (a : list (list A)) : Np.same_shape a a.
Proof. unfold Np.same_shape. induction a; constructor; auto. Qed.

Lemma zeros_like_same_shape {A} (a : list (list A)) :
  Np.same_shape (Np.zeros_like a) a.
Proof.
  unfold Np.same_shape, Np.zeros_like, Np.amap.
  induction a; simpl; constructor; auto. now rewrite length_map.
Qed.

(** The two ways in which one array is derived from the other. *)
Lemma add_sub_cancel (s d : array) :
  Np.same_shape s d -> Np.array_eq (Np.add s (Np.sub d s)) d.
Proof.
  unfold Np.same_shape, Np.array_eq, Np.add, Np.sub, Np.map2.
  induction 1 as [| r t s d Hl _ IH]; simpl; constructor; [| exact IH].
  clear IH. revert t Hl. induction r as [| x r IHr]; intros [| y t] Hl;
    simpl in *; try discriminate; constructor.
  - ring.
  - apply IHr. congruence.
Qed.

Lemma sub_add_cancel (n d : array) :
  Np.same_shape n d -> Np.array_eq (Np.add (Np.sub d n) n) d.
Proof.
  unfold Np.same_shape, Np.array_eq, Np.add, Np.sub, Np.map2.
  induction 1 as [| r t n d Hl _ IH]; simpl; constructor; [| exact IH].
  clear IH. revert t Hl. induction r as [| x r IHr]; intros [| y t] Hl;
    simpl in *; try discriminate; constructor.
  - ring.
  - apply IHr. congruence.
Qed.

Lemma add_zeros_like (d : array) : Np.array_eq (Np.add d (Np.zeros_like d)) d.
Proof.
  unfold Np.array_eq, Np.add, Np.zeros_like, Np.amap, Np.map2.
  induction d as [| r d IH]; simpl; constructor; [| exact IH].
  clear IH. induction r; simpl; constructor; [ring | assumption].
Qed.

Lemma model1_separated h w (data_e : array) (nitrn : Z) :
  Np.shaped h w data_e -> (1 <= h)%nat ->
  returns (model1 data_e nitrn) (separated data_e).
Proof.
  intros Hd Hh. unfold model1.
  destruct (doNsCor_shaped _ _ _ Hd Hh) as (flags & -> & Hf). simpl.
  apply returns_Ok.
  assert (Np.shaped (h - 2) w (slice flags 1 (-1))) as Hcen.
  { pose proof (shaped_slice _ _ _ 1 (-1) Hf) as H.
    replace (h - 2)%nat with (slice_bound h (-1) - slice_bound h 1)%nat; [exact H |].
    unfold slice_bound; simpl; lia. }
  pose proof (iter_remove_one_electron_shaped _ _ _ _ (Z.to_nat nitrn) Hd Hcen) as Hs.
  set (sigArr := Nat.iter _ _ _) in *.
  assert (Np.same_shape sigArr data_e) as Hsame by eauto using shaped_same_shape.
  repeat split; simpl.
  - exact Hsame.
  - eapply shaped_same_shape; [| exact Hd]. unfold Np.sub. now apply shaped_map2.
  - now apply add_sub_cancel.
Qed.

(** Arithmetic on the bounds of slices, once the sign of every bound is
    known. *)
Ltac slice_arith :=
  unfold slice_bound;
  repeat match goal with
    | |- context [(?a <? ?b)%Z] => destruct (Z.ltb_spec a b)
    end;
  lia.

Lemma set_slice_shaped {A} h w n (a v : list (list A)) (start stop : Z) :
  Np.shaped h w a -> Np.shaped n w v ->
  n = (slice_bound h stop - slice_bound h start)%nat ->
  returns (Np.set_slice a start stop v) (Np.shaped h w).
Proof.
  intros Ha Hv Hn. unfold Np.set_slice.
  destruct Ha as [Hla Hra], Hv as [Hlv Hrv].
  rewrite Hla, decide_True by congruence.
  apply returns_Ok. split.
  - rewrite !length_app, length_take, length_drop, Hla, Hlv.
    pose proof (slice_bound_le h stop). pose proof (slice_bound_le h start). lia.
  - rewrite !Forall_app. auto using Forall_take, Forall_drop.
Qed.

Lemma bcast2_same_length {A} (f : A -> A -> A) (a b : list (list A)) :
  length a = length b -> Np.bcast2 f a b = Ok (Np.map2 f a b).
Proof. intros H. unfold Np.bcast2. now rewrite decide_True. Qed.

Lemma model100_separated h w (data_e : array) (readNoise : Q) :
  Np.shaped h w data_e -> h <> 3%nat -> h <> 4%nat ->
  returns (model100 data_e readNoise) (separated data_e).
Proof.
  intros Hd H3 H4. unfold model100.
  pose proof Hd as [Hl _].
  set (y2 := (Z.of_nat (length data_e) - 4)%Z).
  assert (Np.shaped (h - 5) w (slice data_e 1 y2)) as Hcen.
  { pose proof (shaped_slice _ _ _ 1 y2 Hd) as H.
    replace (h - 5)%nat with (slice_bound h y2 - slice_bound h 1)%nat; [exact H |].
    subst y2. rewrite Hl. slice_arith. }
  assert (Np.shaped (h - 5) w (slice data_e (1 - 1) (y2 - 1))) as Hlow.
  { pose proof (shaped_slice _ _ _ (1 - 1) (y2 - 1) Hd) as H.
    replace (h - 5)%nat
      with (slice_bound h (y2 - 1) - slice_bound h (1 - 1))%nat; [exact H |].
    subst y2. rewrite Hl. slice_arith. }
  assert (Np.shaped (h - 5) w (slice data_e (1 + 1) (y2 + 1))) as Hupp.
  { pose proof (shaped_slice _ _ _ (1 + 1) (y2 + 1) Hd) as H.
    replace (h - 5)%nat
      with (slice_bound h (y2 + 1) - slice_bound h (1 + 1))%nat; [exact H |].
    subst y2. rewrite Hl. slice_arith. }
  pose proof (shaped_amap (Qmult 0.333) _ _ _ Hlow) as Hlow'.
  pose proof (shaped_amap (Qmult 0.334) _ _ _ Hcen) as Hcen'.
  pose proof (shaped_amap (Qmult 0.333) _ _ _ Hupp) as Hupp'.
  pose proof (shaped_map2 Qplus _ _ _ _ Hlow' Hcen') as Hs1.
  pose proof (shaped_map2 Qplus _ _ _ _ Hs1 Hupp') as Hs2.
  unfold Np.scale.
  rewrite bcast2_same_length by (destruct Hlow', Hcen'; congruence). simpl.
  rewrite bcast2_same_length by (destruct Hs1, Hupp'; congruence). simpl.
  destruct (set_slice_shaped h w (h - 5) data_e _ 1 y2 Hd Hs2)
    as (sigArr & -> & Hsig).
  { subst y2. rewrite Hl. slice_arith. }
  simpl. apply returns_Ok.
  set (nseArr := Np.map2 _ _ (Np.map2 _ _ _)).
  assert (Np.shaped h w nseArr) as Hn.
  { subst nseArr. unfold Np.sub. auto 10 using shaped_map2, shaped_amap. }
  assert (Np.same_shape nseArr data_e) as Hsame by eauto using shaped_same_shape.
  repeat split; simpl.
  - eapply shaped_same_shape; [| exact Hd]. unfold Np.sub. now apply shaped_map2.
  - exact Hsame.
  - now apply sub_add_cancel.
Qed.

Lemma within_refl (b : Q) (a : array) : 0 <= b -> within b a a.
Proof.
  intros Hb. unfold within. induction a as [| r a IH]; constructor; [| exact IH].
  clear IH. induction r as [| x r IHr]; constructor; [| exact IHr].
  apply Qabs_le_iff. lra.
Qed.

Lemma within_app (b : Q) (a1 a2 c1 c2 : array) :
  within b a1 c1 -> within b a2 c2 -> within b (a1 ++ a2) (c1 ++ c2).
Proof. apply Forall2_app. Qed.

Lemma row_within_step (b1 b2 : Q) (r s t : list Q) :
  Forall2 (fun x y => Qabs (x - y) <= b1) r s ->
  Forall2 (fun z y => Qabs (z - y) <= b2) t s ->
  Forall2 (fun x z => Qabs (x - z) <= b1 + b2) r t.
Proof.
  intros H. revert t. induction H as [| x y r s Hxy _ IH]; intros t Ht;
    inversion Ht as [| z ? t' ? Hzy Ht']; subst; constructor; [| now apply IH].
  apply Qabs_le_iff in Hxy. apply Qabs_le_iff in Hzy. apply Qabs_le_iff. lra.
Qed.

Lemma within_step (b1 b2 : Q) (a c d : array) :
  within b1 a c -> within b2 d c -> within (b1 + b2) a d.
Proof.
  unfold within. intros H. revert d.
  induction H as [| r s a c Hrs _ IH]; intros d Hd;
    inversion Hd as [| t ? d' ? Hts Hd']; subst; constructor; [| now apply IH].
  eapply row_within_step; eassumption.
Qed.

Lemma within_sub (b : Q) (a c : array) :
  within b a c -> Forall (Forall (fun v => Qabs v <= b)) (Np.sub a c).
Proof.
  unfold within, Np.sub, Np.map2.
  induction 1 as [| r s a c Hrs _ IH]; simpl; constructor; [| exact IH].
  clear IH. induction Hrs; simpl; constructor; assumption.
Qed.

Lemma amap_Forall {A} (P : Q -> Prop) (f : A -> Q) (a : list (list A)) :
  (forall x, P (f x)) -> Forall (Forall P) (Np.amap f a).
Proof.
  intros H. unfold Np.amap. apply Forall_map, Forall_true. intros r.
  apply Forall_map, Forall_true. intros x. apply H.
Qed.

(** Subtracting an adjustment of at most one electron moves every entry by
    at most one. *)
Lemma within_sub_adjustment m w (c dd : array) :
  Np.shaped m w c -> Np.shaped m w dd ->
  Forall (Forall (fun x => - (1) <= x /\ x <= 1)) dd ->
  within 1 (Np.sub c dd) c.
Proof.
  intros Hc Hdd Hb.
  pose proof (shaped_same_shape _ _ _ _ Hc Hdd) as Hs.
  clear Hc Hdd. unfold within, Np.sub, Np.map2, Np.same_shape in *.
  induction Hs as [| r s c dd Hl _ IH]; cbn [zip_with]; [constructor |].
  inversion Hb as [| ? ? Hs Hb']; subst.
  constructor; [| now apply IH].
  clear IH Hb Hb'. revert s Hl Hs.
  induction r as [| x r IHr]; intros [| y s] Hl Hs;
    cbn [zip_with length] in *; try discriminate; constructor.
  - inversion Hs as [| ? ? [Hlo Hhi] ?]; subst. apply Qabs_le_iff. split; lra.
  - inversion Hs; subst. apply IHr; [congruence | assumption].
Qed.

(** The central rows of an array, and the array around them. *)
Lemma slice_central {A} (a : list (list A)) :
  slice a 1 (-1) = take (length a - 2) (drop 1 a).
Proof.
  unfold slice.
  replace (slice_bound (length a) (-1) - slice_bound (length a) 1)%nat
    with (length a - 2)%nat by (unfold slice_bound; simpl; lia).
  destruct a as [| r a]; [reflexivity |].
  replace (slice_bound (length (r :: a)) 1) with 1%nat
    by (unfold slice_bound; simpl; lia).
  reflexivity.
Qed.

Lemma around_central {A} (a : list (list A)) :
  a = take 1 a ++ slice a 1 (-1) ++ drop (1 + (length a - 2)) a.
Proof.
  rewrite slice_central, <- drop_drop, take_drop, take_drop. reflexivity.
Qed.

Lemma adjusted_rows_shaped h w flgCen (sigArr : array) :
  Np.shaped h w sigArr -> Np.shaped (h - 2) w flgCen ->
  let rowCen := slice sigArr 1 (-1) in
  let bar := Np.scale 0.5 (Np.add (slice sigArr 0 (-2)) (slice_from sigArr 2)) in
  let col_dd := Np.amap (fun x => np_clip x (-1) 1)
                  (Np.map2 (fun (f : bool) r => if f then r else 0)
                     flgCen (Np.sub rowCen bar)) in
  Np.shaped (h - 2) w rowCen /\ Np.shaped (h - 2) w col_dd.
Proof.
  intros Hs Hf.
  assert (Np.shaped (h - 2) w (slice sigArr 1 (-1))) as Hcen.
  { pose proof (shaped_slice _ _ _ 1 (-1) Hs) as H.
    replace (h - 2)%nat with (slice_bound h (-1) - slice_bound h 1)%nat; [exact H |].
    unfold slice_bound; simpl; lia. }
  assert (Np.shaped (h - 2) w (slice sigArr 0 (-2))) as Hlow.
  { pose proof (shaped_slice _ _ _ 0 (-2) Hs) as H.
    replace (h - 2)%nat with (slice_bound h (-2) - slice_bound h 0)%nat; [exact H |].
    unfold slice_bound; simpl; lia. }
  assert (Np.shaped (h - 2) w (slice_from sigArr 2)) as Hupp.
  { pose proof (shaped_slice_from _ _ _ 2 Hs) as H.
    replace (h - 2)%nat with (h - slice_bound h 2)%nat; [exact H |].
    unfold slice_bound; simpl; lia. }
  split; [exact Hcen |].
  unfold Np.sub, Np.add, Np.scale. auto 10 using shaped_map2, shaped_amap.
Qed.

(** One pass moves every entry by at most one electron. *)
Lemma remove_one_electron_within h w flgCen (sigArr : array) :
  Np.shaped h w sigArr -> Np.shaped (h - 2) w flgCen ->
  within 1 (remove_one_electron flgCen sigArr) sigArr.
Proof.
  intros Hs Hf.
  destruct (adjusted_rows_shaped _ _ _ _ Hs Hf) as [Hcen Hdd].
  unfold remove_one_electron, Np.write_view.
  set (rowCen := slice sigArr 1 (-1)) in *.
  set (col_dd := Np.amap _ _) in *.
  assert (Np.shaped (h - 2) w (Np.sub rowCen col_dd)) as [Hnew _]
    by (unfold Np.sub; now apply shaped_map2).
  rewrite Hnew.
  assert (within 1 (take 1 sigArr ++ Np.sub rowCen col_dd
                      ++ drop (1 + (h - 2)) sigArr)
            (take 1 sigArr ++ rowCen ++ drop (1 + (h - 2)) sigArr)) as H.
  { repeat apply within_app; try (apply within_refl; lra).
    eapply within_sub_adjustment; [exact Hcen | exact Hdd |].
    subst col_dd. apply amap_Forall. intros x.
    apply (np_clip_bounds x (-1) 1). lra. }
  destruct Hs as [Hl _]. subst rowCen. rewrite <- Hl in H at 2.
  now rewrite <- around_central in H.
Qed.

(** One pass leaves the first and the last row as they are. *)
Lemma remove_one_electron_first h w flgCen (sigArr : array) :
  Np.shaped h w sigArr -> Np.shaped (h - 2) w flgCen ->
  remove_one_electron flgCen sigArr !! 0%nat = sigArr !! 0%nat.
Proof.
  intros Hs Hf. destruct sigArr as [| r sigArr]; [reflexivity |].
  reflexivity.
Qed.

Lemma remove_one_electron_last h w flgCen (sigArr : array) :
  Np.shaped h w sigArr -> Np.shaped (h - 2) w flgCen ->
  last (remove_one_electron flgCen sigArr) = last sigArr.
Proof.
  intros Hs Hf.
  pose proof (remove_one_electron_shaped _ _ _ _ Hs Hf) as [Hl' _].
  pose proof (remove_one_electron_first _ _ _ _ Hs Hf) as Hfirst.
  destruct (adjusted_rows_shaped _ _ _ _ Hs Hf) as [Hcen Hdd].
  rewrite !last_lookup, Hl'. destruct Hs as [Hl _]. rewrite Hl.
  destruct (decide (h <= 1)%nat) as [Hh | Hh].
  - replace (pred h) with 0%nat by lia. exact Hfirst.
  - unfold remove_one_electron, Np.write_view in *.
    set (rowCen := slice sigArr 1 (-1)) in *.
    set (col_dd := Np.amap _ _) in *.
    assert (Np.shaped (h - 2) w (Np.sub rowCen col_dd)) as [Hnew _]
      by (unfold Np.sub; now apply shaped_map2).
    rewrite Hnew.
    rewrite lookup_app_r by (rewrite length_take; lia).
    rewrite lookup_app_r by (rewrite length_take, Hnew; lia).
    rewrite lookup_drop. f_equal. rewrite length_take, Hnew. lia.
Qed.

(** *** The separation in binary64 *)

Lemma binary64_doNsCor_shaped h w (data_e : Binary64.farray) :
  Np.shaped h w data_e -> (1 <= h)%nat ->
  exists flags, Binary64.doNsCor data_e = Ok flags /\ Np.shaped h w flags.
Proof.
  intros Hd Hh. unfold Binary64.doNsCor.
  pose proof (shaped_amap (fun _ => true) _ _ _ Hd) as H0.
  fold (@Np.full_like float bool true data_e) in H0.
  set (f0 := Np.full_like true data_e) in *.
  assert (exists f1, Np.set_row f0 0 false = Ok f1) as [f1 E1].
  { unfold Np.set_row. rewrite py_index_first by (destruct H0; lia). eauto. }
  pose proof (set_row_shaped _ _ _ _ _ _ H0 E1) as H1.
  assert (exists f2, Np.set_row f1 (-1) false = Ok f2) as [f2 E2].
  { unfold Np.set_row. rewrite py_index_last by (destruct H1; lia). eauto. }
  pose proof (set_row_shaped _ _ _ _ _ _ H1 E2) as H2.
  rewrite E1. simpl. rewrite E2. simpl.
  eexists. split; [reflexivity |].
  assert (Np.shaped h w
            (Np.map2 (fun d f => Binary64.out_of_band d && f) data_e f2))
    as Hidx by now apply shaped_map2.
  unfold clear.
  auto using shaped_map2, rows_above_shaped, rows_below_shaped.
Qed.

Lemma central_rows_shaped {A} h w (a : list (list A)) :
  Np.shaped h w a -> Np.shaped (h - 2) w (slice a 1 (-1)).
Proof.
  intros Ha. pose proof (shaped_slice _ _ _ 1 (-1) Ha) as H.
  replace (h - 2)%nat with (slice_bound h (-1) - slice_bound h 1)%nat; [exact H |].
  unfold slice_bound; simpl; lia.
Qed.

Lemma binary64_col_dd_shaped h w flgCen (sigArr : Binary64.farray) :
  Np.shaped h w sigArr -> Np.shaped (h - 2) w flgCen ->
  Np.shaped (h - 2) w (Binary64.col_dd_of flgCen sigArr).
Proof.
  intros Hs Hf.
  pose proof (central_rows_shaped _ _ _ Hs) as Hcen.
  assert (Np.shaped (h - 2) w (slice sigArr 0 (-2))) as Hlow.
  { pose proof (shaped_slice _ _ _ 0 (-2) Hs) as H.
    replace (h - 2)%nat with (slice_bound h (-2) - slice_bound h 0)%nat; [exact H |].
    unfold slice_bound; simpl; lia. }
  assert (Np.shaped (h - 2) w (slice_from sigArr 2)) as Hupp.
  { pose proof (shaped_slice_from _ _ _ 2 Hs) as H.
    replace (h - 2)%nat with (h - slice_bound h 2)%nat; [exact H |].
    unfold slice_bound; simpl; lia. }
  unfold Binary64.col_dd_of, Binary64.sub, Binary64.add, Binary64.scale.
  auto 10 using shaped_map2, shaped_amap.
Qed.

Lemma binary64_remove_one_electron_shaped h w flgCen
    (sigArr : Binary64.farray) :
  Np.shaped h w sigArr -> Np.shaped (h - 2) w flgCen ->
  Np.shaped h w (Binary64.remove_one_electron flgCen sigArr).
Proof.
  intros Hs Hf. unfold Binary64.remove_one_electron.
  pose proof (central_rows_shaped _ _ _ Hs) as Hcen.
  pose proof (binary64_col_dd_shaped _ _ _ _ Hs Hf) as Hdd.
  destruct (decide (h = 0%nat)) as [-> | Hh].
  - destruct Hs as [Hl _]. apply nil_length_inv in Hl. subst sigArr.
    split; [reflexivity | constructor].
  - apply (shaped_write_view h w _ 1%nat _ (h - 2)%nat); [exact Hs | | lia].
    unfold Binary64.sub. now apply shaped_map2.
Qed.

Lemma binary64_iter_shaped h w flgCen (data_e : Binary64.farray) (n : nat) :
  Np.shaped h w data_e -> Np.shaped (h - 2) w flgCen ->
  Np.shaped h w (Nat.iter n (Binary64.remove_one_electron flgCen) data_e).
Proof.
  intros Hd Hf. induction n as [| n IH]; simpl.
  - exact Hd.
  - now apply binary64_remove_one_electron_shaped.
Qed.

(** One pass leaves the first and the last row as they are. *)
Lemma binary64_remove_one_electron_first flgCen (sigArr : Binary64.farray) :
  Binary64.remove_one_electron flgCen sigArr !! 0%nat = sigArr !! 0%nat.
Proof. destruct sigArr as [| r sigArr]; reflexivity. Qed.

Lemma binary64_remove_one_electron_last h w flgCen (sigArr : Binary64.farray) :
  Np.shaped h w sigArr -> Np.shaped (h - 2) w flgCen ->
  last (Binary64.remove_one_electron flgCen sigArr) = last sigArr.
Proof.
  intros Hs Hf.
  pose proof (binary64_remove_one_electron_shaped _ _ _ _ Hs Hf) as [Hl' _].
  pose proof (binary64_remove_one_electron_first flgCen sigArr) as Hfirst.
  pose proof (central_rows_shaped _ _ _ Hs) as Hcen.
  pose proof (binary64_col_dd_shaped _ _ _ _ Hs Hf) as Hdd.
  rewrite !last_lookup, Hl'. destruct Hs as [Hl _]. rewrite Hl.
  destruct (decide (h <= 1)%nat) as [Hh | Hh].
  - replace (pred h) with 0%nat by lia. exact Hfirst.
  - unfold Binary64.remove_one_electron, Np.write_view in *.
    set (rowCen := slice sigArr 1 (-1)) in *.
    set (col_dd := Binary64.col_dd_of _ _) in *.
    assert (Np.shaped (h - 2) w (Binary64.sub rowCen col_dd)) as [Hnew _]
      by (unfold Binary64.sub; now apply shaped_map2).
    rewrite Hnew.
    rewrite lookup_app_r by (rewrite length_take; lia).
    rewrite lookup_app_r by (rewrite length_take, Hnew; lia).
    rewrite lookup_drop. f_equal. rewrite length_take, Hnew. lia.
Qed.

(** What [numpy.clip(_, -1, 1)] returns is neither below -1 nor above 1. *)
Lemma binary64_np_clip_clipped (x : float) :
  clipped (Binary64.np_clip x (-1) 1).
Proof.
  unfold clipped, Binary64.np_clip.
  destruct (x <? -1)%float eqn:E1.
  - split; reflexivity.
  - destruct (1 <? x)%float eqn:E2; [split; reflexivity |]. auto.
Qed.

Lemma binary64_col_dd_clipped flgCen (sigArr : Binary64.farray) :
  Forall (Forall clipped) (Binary64.col_dd_of flgCen sigArr).
Proof.
  unfold Binary64.col_dd_of, Np.amap. apply Forall_map, Forall_true. intros r.
  apply Forall_map, Forall_true. intros x. apply binary64_np_clip_clipped.
Qed.

Lemma binary64_model1_derived h w (data_e : Binary64.farray) (nitrn : Z) :
  Np.shaped h w data_e -> (1 <= h)%nat ->
  returns (Binary64.model1 data_e nitrn) (derived 1 data_e).
Proof.
  intros Hd Hh. unfold Binary64.model1.
  destruct (binary64_doNsCor_shaped _ _ _ Hd Hh) as (flags & -> & Hf). simpl.
  apply returns_Ok.
  pose proof (central_rows_shaped _ _ _ Hf) as Hcen.
  pose proof (binary64_iter_shaped _ _ _ _ (Z.to_nat nitrn) Hd Hcen) as Hs.
  set (sigArr := Nat.iter _ _ _) in *.
  split; [eauto using shaped_same_shape |]. split; [| reflexivity].
  eapply shaped_same_shape; [| exact Hd].
  unfold Binary64.sub. now apply shaped_map2.
Qed.

Lemma binary64_model100_derived h w (data_e : Binary64.farray)
    (readNoise : float) :
  Np.shaped h w data_e -> h <> 3%nat -> h <> 4%nat ->
  returns (Binary64.model100 data_e readNoise) (derived 100 data_e).
Proof.
  intros Hd H3 H4. unfold Binary64.model100.
  pose proof Hd as [Hl _].
  set (y2 := (Z.of_nat (length data_e) - 4)%Z).
  assert (Np.shaped (h - 5) w (slice data_e 1 y2)) as Hcen.
  { pose proof (shaped_slice _ _ _ 1 y2 Hd) as H.
    replace (h - 5)%nat with (slice_bound h y2 - slice_bound h 1)%nat; [exact H |].
    subst y2. rewrite Hl. slice_arith. }
  assert (Np.shaped (h - 5) w (slice data_e (1 - 1) (y2 - 1))) as Hlow.
  { pose proof (shaped_slice _ _ _ (1 - 1) (y2 - 1) Hd) as H.
    replace (h - 5)%nat
      with (slice_bound h (y2 - 1) - slice_bound h (1 - 1))%nat; [exact H |].
    subst y2. rewrite Hl. slice_arith. }
  assert (Np.shaped (h - 5) w (slice data_e (1 + 1) (y2 + 1))) as Hupp.
  { pose proof (shaped_slice _ _ _ (1 + 1) (y2 + 1) Hd) as H.
    replace (h - 5)%nat
      with (slice_bound h (y2 + 1) - slice_bound h (1 + 1))%nat; [exact H |].
    subst y2. rewrite Hl. slice_arith. }
  pose proof (shaped_amap (PrimFloat.mul Binary64.weight_333) _ _ _ Hlow) as Hlow'.
  pose proof (shaped_amap (PrimFloat.mul Binary64.weight_334) _ _ _ Hcen) as Hcen'.
  pose proof (shaped_amap (PrimFloat.mul Binary64.weight_333) _ _ _ Hupp) as Hupp'.
  pose proof (shaped_map2 PrimFloat.add _ _ _ _ Hlow' Hcen') as Hs1.
  pose proof (shaped_map2 PrimFloat.add _ _ _ _ Hs1 Hupp') as Hs2.
  unfold Binary64.scale.
  rewrite bcast2_same_length by (destruct Hlow', Hcen'; congruence). simpl.
  rewrite bcast2_same_length by (destruct Hs1, Hupp'; congruence). simpl.
  destruct (set_slice_shaped h w (h - 5) data_e _ 1 y2 Hd Hs2)
    as (sigArr & -> & Hsig).
  { subst y2. rewrite Hl. slice_arith. }
  simpl. apply returns_Ok.
  set (nseArr := Np.map2 _ _ (Np.map2 _ _ _)).
  assert (Np.shaped h w nseArr) as Hn.
  { subst nseArr. unfold Binary64.sub. auto 10 using shaped_map2, shaped_amap. }
  split; [| split; [eauto using shaped_same_shape | reflexivity]].
  eapply shaped_same_shape; [| exact Hd].
  unfold Binary64.sub. now apply shaped_map2.
Qed.

Lemma binary64_DecomposeRN_derived h w (data_e : Binary64.farray)
    (model nitrn : Z) (readNoise : float) :
  Np.shaped h w data_e ->
  (model = 1%Z -> (1 <= h)%nat) ->
  (model = 100%Z -> h <> 3%nat /\ h <> 4%nat) ->
  returns (Binary64._DecomposeRN data_e model nitrn readNoise)
    (derived model data_e).
Proof.
  intros Hd H1 H100. unfold Binary64._DecomposeRN.
  destruct (model =? 1)%Z eqn:E1; [| destruct (model =? 100)%Z eqn:E100].
  - apply Z.eqb_eq in E1. subst model. apply (binary64_model1_derived h w); auto.
  - apply Z.eqb_eq in E100. subst model. destruct H100 as [H3 H4]; [reflexivity |].
    now apply (binary64_model100_derived h w).
  - apply returns_Ok. unfold derived. rewrite E1, E100. cbn [fst snd].
    split; [apply same_shape_refl |]. split; [| reflexivity].
    unfold Binary64.zeros_like, Np.same_shape.
    clear. induction data_e; simpl; constructor; auto. now rewrite length_map.
Qed.

(** The separation in exact arithmetic: the two arrays add up to the
    input.  A model that is neither 1 nor 100 is treated as model 0. *)
Lemma DecomposeRN_separated (h w : nat) (data_e : array)
    (model nitrn : Z) (readNoise : Q) :
  Np.shaped h w data_e ->
  (model = 1%Z -> (1 <= h)%nat) ->
  (model = 100%Z -> h <> 3%nat /\ h <> 4%nat) ->
  returns (_DecomposeRN data_e model nitrn readNoise) (separated data_e).
Proof.
  intros Hd H1 H100. unfold _DecomposeRN.
  destruct (model =? 1)%Z eqn:E1; [| destruct (model =? 100)%Z eqn:E100].
  - apply Z.eqb_eq in E1. eapply model1_separated; eauto.
  - apply Z.eqb_eq in E100. destruct (H100 E100) as [H3 H4].
    eapply model100_separated; eauto.
  - apply returns_Ok. repeat split; simpl.
    + apply same_shape_refl.
    + apply zeros_like_same_shape.
    + apply add_zeros_like.
Qed.

(** C1, as amended.  On every 2-D input on which the separation returns,
    the signal and the noise have the shape of the input.  In binary64,
    the arithmetic of the source, one of them is the difference of the
    input and the other, entry by entry, each difference rounded once: the
    noise under model 1, the signal under model 100; any other model
    returns the input and zeros.  In exact arithmetic the two add up to the
    input, entry by entry.  The separation returns on every input with at
    least one row for model 1, on every input whose number of rows is
    neither 3 nor 4 for model 100, and on every input for any other
    model. *)
Theorem DecomposeRN_signal_plus_noise (h w : nat)
    (data_f : Binary64.farray) (data_e : array)
    (model nitrn : Z) (readNoise_f : float) (readNoise : Q) :
  Np.shaped h w data_f -> Np.shaped h w data_e ->
  (model = 1%Z -> (1 <= h)%nat) ->
  (model = 100%Z -> h <> 3%nat /\ h <> 4%nat) ->
  returns (Binary64._DecomposeRN data_f model nitrn readNoise_f)
    (derived model data_f) /\
  returns (_DecomposeRN data_e model nitrn readNoise) (separated data_e).
Proof.
  intros Hf Hd H1 H100. split.
  - now apply (binary64_DecomposeRN_derived h w).
  - now apply (DecomposeRN_separated h w).
Qed.

Lemma DecomposeRN_signal_plus_noise_witness :
  returns (Binary64._DecomposeRN
             [[1; 0]; [3; 200]; [2; 10]; [7; 9]; [10; 5]]%float 1 7 5)
    (derived 1 [[1; 0]; [3; 200]; [2; 10]; [7; 9]; [10; 5]]%float) /\
  returns (_DecomposeRN [[1; 0]; [3; 200]; [2; 10]; [7; 9]; [10; 5]] 1 7 5.0)
    (separated [[1; 0]; [3; 200]; [2; 10]; [7; 9]; [10; 5]]).
Proof.
  apply (DecomposeRN_signal_plus_noise 5 2).
  - split; [reflexivity | repeat constructor].
  - split; [reflexivity | repeat constructor].
  - intros _. lia.
  - intros H. discriminate H.
Defined.

(** C1 as stated fails in binary64 and on small inputs.  Under model 1
    with one pass, the column -10, 0.3, -10 gives the signal
    -0.69999999999999996 and the noise 1 at its middle entry, and their sum
    is 0.30000000000000004: [signal + noise == input] is false there.
    Model 100 raises on an array of four rows (its three views have 0, 3
    and 0 rows) and on one of three, and model 1 raises on an array without
    rows. *)
Lemma DecomposeRN_sum_differs_from_input :
  (exists sigArr nseArr,
     Binary64._DecomposeRN [[-10]; [float_0_3]; [-10]]%float 1 1 5
       = Ok (sigArr, nseArr) /\
     Np.map2 PrimFloat.eqb (Binary64.add sigArr nseArr)
       [[-10]; [float_0_3]; [-10]]%float = [[true]; [false]; [true]]) /\
  Binary64._DecomposeRN [[0]; [0]; [0]; [0]]%float 100 7 5 = Raise ValueError /\
  Binary64._DecomposeRN [[0]; [0]; [0]]%float 100 7 5 = Raise ValueError /\
  Binary64._DecomposeRN [] 1 7 5 = Raise IndexError.
Proof.
  split; [eexists _, _; split; vm_compute; reflexivity |].
  repeat split; vm_compute; reflexivity.
Qed.

(** In exact arithmetic the separation raises on the same small inputs. *)
Lemma DecomposeRN_raises_on_small_arrays :
  _DecomposeRN [[0]; [0]; [0]; [0]] 100 7 5.0 = Raise ValueError /\
  _DecomposeRN [[0]; [0]; [0]] 100 7 5.0 = Raise ValueError /\
  _DecomposeRN [] 1 7 5.0 = Raise IndexError.
Proof. repeat split; vm_compute; reflexivity. Qed.

Lemma iter_remove_one_electron_within h w flgCen (data_e : array) (n : nat) :
  Np.shaped h w data_e -> Np.shaped (h - 2) w flgCen ->
  within (inject_Z (Z.of_nat n)) data_e
    (Nat.iter n (remove_one_electron flgCen) data_e).
Proof.
  intros Hd Hf. induction n as [| n IH].
  - apply within_refl. exact (Qle_refl 0).
  - cbn [Nat.iter].
    pose proof (iter_remove_one_electron_shaped _ _ _ _ n Hd Hf) as Hs.
    pose proof (remove_one_electron_within _ _ _ _ Hs Hf) as H1.
    pose proof (within_step _ _ _ _ _ IH H1) as H.
    unfold within in *. eapply Forall2_impl; [exact H |].
    intros r s Hrs. eapply Forall2_impl; [exact Hrs |].
    intros x y Hxy. cbv beta in Hxy.
    rewrite Nat2Z.inj_succ, <- Z.add_1_r, inject_Z_plus. exact Hxy.
Qed.

(** C10, as amended.  In model 1 with [nitrn >= 0] passes, on an input
    with at least one row.  In binary64, the arithmetic of the source: in
    every pass the amount [col_dd] taken from an entry is neither below -1
    nor above 1, the first and the last row of the signal stay as they
    were, and the noise returned is the difference of the input and the
    signal after the passes, rounded once.  In exact arithmetic: each pass
    moves every entry of the signal by at most one electron and leaves the
    first and the last row as they were, and every entry of the noise
    returned is at most [nitrn] in absolute value. *)
Theorem model1_noise_within_nitrn (h w : nat)
    (data_f : Binary64.farray) (data_e : array) (nitrn : Z) (readNoise : Q) :
  Np.shaped h w data_f -> Np.shaped h w data_e ->
  (1 <= h)%nat -> (0 <= nitrn)%Z ->
  (exists flags,
     Binary64.doNsCor data_f = Ok flags /\
     let flgCen := slice flags 1 (-1) in
     let pass := Binary64.remove_one_electron flgCen in
     (forall n : nat,
        let sigArr := Nat.iter n pass data_f in
        Forall (Forall clipped) (Binary64.col_dd_of flgCen sigArr) /\
        sigArr !! 0%nat = data_f !! 0%nat /\
        last sigArr = last data_f) /\
     Binary64.model1 data_f nitrn =
       Ok (Nat.iter (Z.to_nat nitrn) pass data_f,
           Binary64.sub data_f (Nat.iter (Z.to_nat nitrn) pass data_f))) /\
  (exists flags,
     doNsCor data_e = Ok flags /\
     let pass := remove_one_electron (slice flags 1 (-1)) in
     (forall n : nat,
        let sigArr := Nat.iter n pass data_e in
        within 1 (pass sigArr) sigArr /\
        sigArr !! 0%nat = data_e !! 0%nat /\
        last sigArr = last data_e) /\
     returns (_DecomposeRN data_e 1 nitrn readNoise)
       (fun out =>
          fst out = Nat.iter (Z.to_nat nitrn) pass data_e /\
          Forall (Forall (fun v => Qabs v <= inject_Z nitrn)) (snd out))).
Proof.
  intros Hdf Hd Hh Hn. split.
  - destruct (binary64_doNsCor_shaped _ _ _ Hdf Hh) as (flags & Hflags & Hf).
    exists flags. split; [exact Hflags |]. cbv zeta.
    pose proof (central_rows_shaped _ _ _ Hf) as Hcen.
    split; [| unfold Binary64.model1; rewrite Hflags; reflexivity].
    intros n. split; [apply binary64_col_dd_clipped |].
    induction n as [| n [IH0 IHl]]; [split; reflexivity |].
    pose proof (binary64_iter_shaped _ _ _ _ n Hdf Hcen) as Hs'.
    rewrite !Nat.iter_succ. split.
    + rewrite binary64_remove_one_electron_first. exact IH0.
    + erewrite binary64_remove_one_electron_last by eassumption. exact IHl.
  - destruct (doNsCor_shaped _ _ _ Hd Hh) as (flags & Hflags & Hf).
    exists flags. split; [exact Hflags |]. cbv zeta.
    pose proof (central_rows_shaped _ _ _ Hf) as Hcen.
    split.
    + intros n.
      pose proof (iter_remove_one_electron_shaped _ _ _ _ n Hd Hcen) as Hs.
      split; [exact (remove_one_electron_within _ _ _ _ Hs Hcen) |].
      clear Hs. induction n as [| n [IH0 IHl]]; [split; reflexivity |].
      pose proof (iter_remove_one_electron_shaped _ _ _ _ n Hd Hcen) as Hs'.
      rewrite !Nat.iter_succ. split.
      * erewrite remove_one_electron_first by eassumption. exact IH0.
      * erewrite remove_one_electron_last by eassumption. exact IHl.
    + unfold _DecomposeRN, model1. simpl. rewrite Hflags. simpl.
      apply returns_Ok. split; [reflexivity |]. simpl.
      pose proof (iter_remove_one_electron_within _ _ _ _ (Z.to_nat nitrn) Hd Hcen) as H.
      rewrite Z2Nat.id in H by exact Hn.
      now apply within_sub.
Qed.

Lemma model1_noise_within_nitrn_witness :
  (exists flags,
     Binary64.doNsCor [[1; 0]; [3; 200]; [2; 10]; [7; 9]; [10; 5]]%float
       = Ok flags /\
     let flgCen := slice flags 1 (-1) in
     let pass := Binary64.remove_one_electron flgCen in
     (forall n : nat,
        let sigArr :=
          Nat.iter n pass [[1; 0]; [3; 200]; [2; 10]; [7; 9]; [10; 5]]%float in
        Forall (Forall clipped) (Binary64.col_dd_of flgCen sigArr) /\
        sigArr !! 0%nat = Some [1; 0]%float /\
        last sigArr = Some [10; 5]%float) /\
     Binary64.model1 [[1; 0]; [3; 200]; [2; 10]; [7; 9]; [10; 5]]%float 7 =
       Ok (Nat.iter 7 pass [[1; 0]; [3; 200]; [2; 10]; [7; 9]; [10; 5]]%float,
           Binary64.sub [[1; 0]; [3; 200]; [2; 10]; [7; 9]; [10; 5]]%float
             (Nat.iter 7 pass
                [[1; 0]; [3; 200]; [2; 10]; [7; 9]; [10; 5]]%float))) /\
  (exists flags,
     doNsCor [[1; 0]; [3; 200]; [2; 10]; [7; 9]; [10; 5]] = Ok flags /\
     let pass := remove_one_electron (slice flags 1 (-1)) in
     (forall n : nat,
        let sigArr := Nat.iter n pass [[1; 0]; [3; 200]; [2; 10]; [7; 9]; [10; 5]] in
        within 1 (pass sigArr) sigArr /\
        sigArr !! 0%nat = Some [1; 0] /\
        last sigArr = Some [10; 5]) /\
     returns (_DecomposeRN [[1; 0]; [3; 200]; [2; 10]; [7; 9]; [10; 5]] 1 7 5.0)
       (fun out =>
          fst out = Nat.iter 7 pass [[1; 0]; [3; 200]; [2; 10]; [7; 9]; [10; 5]] /\
          Forall (Forall (fun v => Qabs v <= 7)) (snd out))).
Proof.
  apply (model1_noise_within_nitrn 5 2
           [[1; 0]; [3; 200]; [2; 10]; [7; 9]; [10; 5]]%float
           [[1; 0]; [3; 200]; [2; 10]; [7; 9]; [10; 5]] 7 5.0).
  - split; [reflexivity | repeat constructor].
  - split; [reflexivity | repeat constructor].
  - lia.
  - lia.
Defined.

(** C10 as stated fails in binary64.  With the seven passes of the
    default, the column -20, 0.001, -20 gives the signal
    -6.9990000000000006 at its middle entry and the noise
    7.0000000000000009 there, above 7: the seven differences of the passes
    and the one of the noise round. *)
Lemma model1_noise_above_nitrn_in_binary64 :
  exists sigArr nse,
    Binary64._DecomposeRN [[-20]; [float_0_001]; [-20]]%float 1 7 5
      = Ok (sigArr, [[0]; [nse]; [0]]%float) /\
    (7 <? nse)%float = true /\
    (7 <? PrimFloat.abs nse)%float = true.
Proof.
  eexists _, _. split; [vm_compute; reflexivity |].
  split; vm_compute; reflexivity.
Qed.

(** ** [_InterpolatePsi] *)

Lemma getitem_nonneg {A} (l : list A) (i : Z) (x : A) :
  (0 <= i)%Z -> l !! Z.to_nat i = Some x -> getitem l i = Ok x.
Proof.
  intros Hi Hx. unfold getitem.
  rewrite py_index_nonneg.
  - simpl. now rewrite Hx.
  - apply lookup_lt_Some in Hx. lia.
Qed.

Lemma getitem_last {A} (l : list A) (x : A) :
  last l = Some x -> getitem l (-1) = Ok x.
Proof.
  intros Hx. rewrite last_lookup in Hx. unfold getitem.
  pose proof (lookup_lt_Some _ _ _ Hx) as Hlt.
  rewrite py_index_last by lia. simpl.
  replace (length l - 1)%nat with (pred (length l)) by lia. now rewrite Hx.
Qed.

Lemma shape1_shaped {A} h w (a : list (list A)) :
  Np.shaped h w a -> (0 < h)%nat -> Np.shape1 a = Ok w.
Proof.
  intros [Hl Hr] Hh. destruct a as [| r a]; [simpl in Hl; lia |].
  inversion Hr; subst. reflexivity.
Qed.

(** The rows of an array after [a[start:stop, k] = v]. *)
Lemma set_col_slice_rows {A} h w (a : list (list A)) (start stop k : Z)
    (v : list A) (s n : nat) :
  Np.shaped h w a -> (0 < h)%nat ->
  s = slice_bound h start -> n = (slice_bound h stop - s)%nat ->
  length v = n -> (0 <= k < Z.of_nat w)%Z ->
  exists a',
    Np.set_col_slice a start stop k v = Ok a' /\
    Np.shaped h w a' /\
    forall r : nat,
      a' !! r =
      if decide (s <= r < s + n)%nat
      then row ← a !! r; x ← v !! (r - s)%nat; Some (<[Z.to_nat k := x]> row)
      else a !! r.
Proof.
  intros Ha Hh Hs Hn Hv Hk. unfold Np.set_col_slice.
  rewrite (shape1_shaped _ _ _ Ha Hh). simpl.
  rewrite py_index_nonneg by exact Hk. simpl.
  destruct Ha as [Hl Hr]. rewrite Hl, <- Hs, <- Hn.
  rewrite decide_True by exact Hv. simpl.
  assert (s + n <= h)%nat as Hsn.
  { pose proof (slice_bound_le h stop). pose proof (slice_bound_le h start). lia. }
  eexists. split; [reflexivity |]. split; [split |].
  - rewrite !length_app, length_take, length_zip_with, length_take,
      !length_drop. lia.
  - rewrite !Forall_app. split; [now apply Forall_take |].
    split; [| now apply Forall_drop].
    apply Forall_lookup. intros i r Hi.
    apply lookup_zip_with_Some in Hi as (row & x & -> & Hrow & _).
    rewrite length_insert.
    assert (Forall (fun r : list A => length r = w) (take n (drop s a))) as Hr'
      by now apply Forall_take, Forall_drop.
    exact (Forall_lookup_1 _ _ _ _ Hr' Hrow).
  - intros r. destruct (decide (s <= r < s + n)%nat) as [Hin | Hout].
    + rewrite lookup_app_r by (rewrite length_take; lia).
      rewrite length_take, Nat.min_l by lia.
      rewrite lookup_app_l
        by (rewrite length_zip_with, length_take, length_drop; lia).
      rewrite lookup_zip_with, lookup_take, decide_True by lia.
      rewrite lookup_drop. replace (s + (r - s))%nat with r by lia.
      reflexivity.
    + destruct (decide (r < s)%nat) as [Hlt | Hge].
      * rewrite lookup_app_l by (rewrite length_take; lia).
        rewrite lookup_take, decide_True by lia. reflexivity.
      * rewrite lookup_app_r by (rewrite length_take; lia).
        rewrite length_take, Nat.min_l by lia.
        rewrite lookup_app_r
          by (rewrite length_zip_with, length_take, length_drop; lia).
        rewrite length_zip_with, length_take, length_drop, lookup_drop.
        f_equal. lia.
Qed.

Lemma item_set_col_slice h w (a a' : array) (v : list Q) (s n j : nat) :
  Np.shaped h w a -> (s + n <= h)%nat -> length v = n -> (j < w)%nat ->
  (forall r : nat,
     a' !! r =
     if decide (s <= r < s + n)%nat
     then row ← a !! r; x ← v !! (r - s)%nat; Some (<[j := x]> row)
     else a !! r) ->
  forall r c : nat,
    Np.item a' r c =
    if decide ((s <= r < s + n)%nat /\ c = j)
    then default 0 (v !! (r - s)%nat)
    else Np.item a r c.
Proof.
  intros [Hl Hr] Hsn Hv Hj Hrows r c. unfold Np.item. rewrite Hrows.
  destruct (decide (s <= r < s + n)%nat) as [Hin | Hout].
  - destruct (lookup_lt_is_Some_2 a r) as [row Hrow]; [lia |].
    destruct (lookup_lt_is_Some_2 v (r - s)%nat) as [x Hx]; [lia |].
    rewrite Hrow, Hx. simpl.
    pose proof (Forall_lookup_1 _ _ _ _ Hr Hrow) as Hw. simpl in Hw.
    destruct (decide (c = j)) as [-> | Hc].
    + rewrite decide_True by auto. rewrite list_lookup_insert_eq by lia. reflexivity.
    + rewrite decide_False by (intros [_ ?]; contradiction).
      rewrite list_lookup_insert_ne by congruence. reflexivity.
  - rewrite decide_False by (intros [? _]; contradiction). reflexivity.
Qed.

Lemma lookup_zrange_len (start : Z) (len i : nat) :
  (i < len)%nat -> zrange_len start len !! i = Some (start + Z.of_nat i)%Z.
Proof.
  revert start i. induction len as [| len IH]; intros start i Hi; [lia |].
  destruct i as [| i]; simpl.
  - f_equal. lia.
  - rewrite IH by lia. f_equal. lia.
Qed.

Lemma length_zrange_len (start : Z) (len : nat) :
  length (zrange_len start len) = len.
Proof. revert start. induction len; intros; simpl; auto. Qed.

Section FillColumns.

Variables (h w : nat) (chg_leak : array) (n1 n2 : Z) (r1 r2 : list Q).
Variables (start stop : Z) (ftt : list Q) (s n : nat).
Hypothesis Hr1 : chg_leak !! Z.to_nat n1 = Some r1.
Hypothesis Hr2 : chg_leak !! Z.to_nat n2 = Some r2.
Hypothesis Hn1 : (0 <= n1)%Z.
Hypothesis Hn2 : (0 <= n2)%Z.
Hypothesis Hw1 : length r1 = w.
Hypothesis Hw2 : length r2 = w.
Hypothesis Hs : s = slice_bound h start.
Hypothesis Hn : n = (slice_bound h stop - s)%nat.
Hypothesis Hftt : length ftt = n.
Hypothesis Hh : (0 < h)%nat.

(** The value stored at row [r] and column [c] of the slice. *)
Let value (r c : nat) : Q :=
  let a := default 0 (r1 !! c) in
  let b := default 0 (r2 !! c) in
  let f := default 0 (ftt !! (r - s)%nat) in
  a + f * (b - a).

Let body (chg_leak_kt : array) (k : Z) : result array :=
  a ← Np.getitem2 chg_leak n1 k;
  b ← Np.getitem2 chg_leak n2 k;
  a' ← Np.getitem2 chg_leak n1 k;
  Np.set_col_slice chg_leak_kt start stop k (map (fun f => a + f * (b - a')) ftt).

Lemma fill_columns (m k0 : nat) (st : array) :
  (k0 + m = w)%nat -> Np.shaped h w st ->
  exists st',
    foldM body (zrange_len (Z.of_nat k0) m) st = Ok st' /\
    Np.shaped h w st' /\
    forall r c : nat,
      Np.item st' r c =
      if decide ((s <= r < s + n)%nat /\ (k0 <= c < w)%nat)
      then value r c
      else Np.item st r c.
Proof.
  revert k0 st. induction m as [| m IH]; intros k0 st Hk Hst.
  - exists st. split; [reflexivity |]. split; [exact Hst |].
    intros r c. rewrite decide_False by lia. reflexivity.
  - cbn [zrange_len foldM].
    destruct (lookup_lt_is_Some_2 r1 k0) as [a Ha]; [lia |].
    destruct (lookup_lt_is_Some_2 r2 k0) as [b Hb]; [lia |].
    assert (Np.getitem2 chg_leak n1 (Z.of_nat k0) = Ok a) as Ea.
    { unfold Np.getitem2. rewrite (getitem_nonneg _ _ _ Hn1 Hr1). simpl.
      apply getitem_nonneg; [lia |]. now rewrite Nat2Z.id. }
    assert (Np.getitem2 chg_leak n2 (Z.of_nat k0) = Ok b) as Eb.
    { unfold Np.getitem2. rewrite (getitem_nonneg _ _ _ Hn2 Hr2). simpl.
      apply getitem_nonneg; [lia |]. now rewrite Nat2Z.id. }
    unfold body at 2. rewrite Ea, Eb. simpl.
    destruct (set_col_slice_rows h w st start stop (Z.of_nat k0)
                (map (fun f => a + f * (b - a)) ftt) s n)
      as (st1 & -> & Hst1 & Hrows); auto; [now rewrite length_map | lia |].
    simpl. rewrite Nat2Z.id in Hrows.
    assert (s + n <= h)%nat as Hsn.
    { pose proof (slice_bound_le h stop). pose proof (slice_bound_le h start). lia. }
    assert (length (map (fun f => a + f * (b - a)) ftt) = n) as Hlen
      by now rewrite length_map.
    assert (k0 < w)%nat as Hk0 by lia.
    pose proof (item_set_col_slice h w st st1 _ s n k0 Hst Hsn Hlen Hk0 Hrows)
      as Hitem.
    replace (Z.of_nat k0 + 1)%Z with (Z.of_nat (S k0)) by lia.
    destruct (IH (S k0) st1) as (st' & -> & Hst' & Hitem'); [lia | exact Hst1 |].
    exists st'. split; [reflexivity |]. split; [exact Hst' |].
    intros r c. rewrite Hitem', Hitem.
    destruct (decide ((s <= r < s + n)%nat /\ (S k0 <= c < w)%nat)) as [H1 | H1].
    + rewrite decide_True by lia. reflexivity.
    + destruct (decide ((s <= r < s + n)%nat /\ c = k0)) as [[H2 ->] | H2].
      * rewrite decide_True by lia. unfold value.
        rewrite Ha, Hb, list_lookup_fmap.
        destruct (lookup_lt_is_Some_2 ftt (r - s)%nat) as [f Hf]; [lia |].
        rewrite Hf. reflexivity.
      * rewrite decide_False by lia. reflexivity.
Qed.

End FillColumns.

Section DenseLeakProfile.

Variables (w nn : nat) (chg_leak : array) (psi_node : list Z).
Hypothesis Hleak : Np.shaped nn w chg_leak.
Hypothesis Hlen : length psi_node = nn.

Let psi : nat -> Z := node_offset psi_node.

Hypothesis Hfirst : psi 0 = 1%Z.
Hypothesis Hinc : forall j : nat, (S j < nn)%nat -> (psi j < psi (S j))%Z.
Hypothesis Hlast : (psi (nn - 1) <= 100)%Z.

Let interp : nat -> nat -> nat -> Q := interpolated chg_leak psi_node.

Lemma psi_mono (j k : nat) : (j <= k < nn)%nat -> (psi j <= psi k)%Z.
Proof.
  intros [Hjk Hk]. induction Hjk as [| k Hjk IH]; [lia |].
  specialize (IH ltac:(lia)). pose proof (Hinc k Hk). lia.
Qed.

Lemma psi_bounds (j : nat) : (j < nn)%nat -> (1 <= psi j <= 100)%Z.
Proof.
  intros Hj. pose proof (psi_mono 0 j ltac:(lia)).
  pose proof (psi_mono j (nn - 1) ltac:(lia)). lia.
Qed.

Lemma psi_lookup (j : nat) : (j < nn)%nat -> psi_node !! j = Some (psi j).
Proof.
  intros Hj. unfold psi, node_offset.
  destruct (lookup_lt_is_Some_2 psi_node j) as [p ->]; [lia | reflexivity].
Qed.

Lemma interpolate_between_spec (i : nat) (kt : array) :
  (S i < nn)%nat -> Np.shaped max_node w kt ->
  exists kt',
    interpolate_between chg_leak psi_node (range 0 (Z.of_nat w)) kt (Z.of_nat i)
      = Ok kt' /\
    Np.shaped max_node w kt' /\
    forall r c : nat,
      Np.item kt' r c =
      if decide ((psi i - 1 <= Z.of_nat r < psi (S i) - 1)%Z /\ (c < w)%nat)
      then interp i r c
      else Np.item kt r c.
Proof.
  intros Hi Hkt. unfold interpolate_between.
  pose proof (psi_bounds i ltac:(lia)) as Hb1.
  pose proof (psi_bounds (S i) ltac:(lia)) as Hb2.
  pose proof (Hinc i Hi) as Hlt.
  rewrite (getitem_nonneg psi_node (Z.of_nat i) (psi i))
    by (try lia; rewrite Nat2Z.id; apply psi_lookup; lia).
  simpl.
  rewrite (getitem_nonneg psi_node (Z.of_nat i + 1) (psi (S i)))
    by (try lia; replace (Z.to_nat (Z.of_nat i + 1)) with (S i) by lia;
        apply psi_lookup; lia).
  simpl.
  destruct Hleak as [Hll Hlr].
  destruct (lookup_lt_is_Some_2 chg_leak i) as [r1 Hr1]; [lia |].
  destruct (lookup_lt_is_Some_2 chg_leak (S i)) as [r2 Hr2]; [lia |].
  set (ftt := map _ (map inject_Z (range (psi i) (psi (S i))))).
  assert (length ftt = Z.to_nat (psi (S i) - psi i)) as Hftt.
  { subst ftt. unfold range. now rewrite !length_map, length_zrange_len. }
  unfold range at 1. rewrite Z.sub_0_r, Nat2Z.id.
  destruct (fill_columns max_node w chg_leak (Z.of_nat i) (Z.of_nat i + 1) r1 r2
              (psi i - 1) (psi (S i) - 1) ftt
              (Z.to_nat (psi i - 1)) (Z.to_nat (psi (S i) - psi i)))
    with (m := w) (k0 := 0%nat) (st := kt)
    as (kt' & Hfold & Hkt' & Hitem); auto; try lia.
  - now rewrite Nat2Z.id.
  - now replace (Z.to_nat (Z.of_nat i + 1)) with (S i) by lia.
  - exact (Forall_lookup_1 _ _ _ _ Hlr Hr1).
  - exact (Forall_lookup_1 _ _ _ _ Hlr Hr2).
  - unfold max_node. rewrite slice_bound_nonneg; lia.
  - unfold max_node. rewrite !slice_bound_nonneg; lia.
  - unfold max_node. lia.
  - exists kt'. split; [exact Hfold |]. split; [exact Hkt' |].
    intros r c. rewrite Hitem.
    destruct (decide ((psi i - 1 <= Z.of_nat r < psi (S i) - 1)%Z /\ (c < w)%nat))
      as [[Hr Hc] | Hout].
    + rewrite decide_True by lia. unfold interp, interpolated, Np.item.
      rewrite Hr1, Hr2. simpl. subst ftt. unfold range.
      rewrite !list_lookup_fmap, lookup_zrange_len by lia. simpl.
      replace (psi i + Z.of_nat (r - Z.to_nat (psi i - 1)))%Z
        with (Z.of_nat r + 1)%Z by lia.
      reflexivity.
    + rewrite decide_False by lia. reflexivity.
Qed.

(** What holds of the dense table once the first [i] pairs of nodes are
    done: the rows between the nodes seen so far are interpolated, the rows
    from node [i] on are still zero. *)
Let filled (i : nat) (st : array) : Prop :=
  Np.shaped max_node w st /\
  (forall j r c : nat,
     (j < i)%nat -> (psi j - 1 <= Z.of_nat r < psi (S j) - 1)%Z -> (c < w)%nat ->
     Np.item st r c = interp j r c) /\
  (forall r c : nat, (psi i - 1 <= Z.of_nat r)%Z -> Np.item st r c = 0).

Lemma filled_zeros : filled 0 (replicate max_node (replicate w 0)).
Proof.
  split; [| split].
  - split; [apply length_replicate |].
    apply Forall_replicate. apply length_replicate.
  - intros j r c Hj. lia.
  - intros r c _. unfold Np.item.
    destruct (replicate max_node (replicate w 0) !! r) as [row |] eqn:E;
      [| reflexivity].
    apply lookup_replicate in E as [-> _]. simpl.
    destruct (replicate w 0 !! c) as [x |] eqn:E; [| reflexivity].
    apply lookup_replicate in E as [-> _]. reflexivity.
Qed.

Lemma interpolate_all (m i : nat) (st : array) :
  (i + m = nn - 1)%nat -> (1 <= nn)%nat -> filled i st ->
  exists st',
    foldM (interpolate_between chg_leak psi_node (range 0 (Z.of_nat w)))
      (zrange_len (Z.of_nat i) m) st = Ok st' /\
    filled (nn - 1) st'.
Proof.
  revert i st. induction m as [| m IH]; intros i st Him Hnn Hst.
  - exists st. split; [reflexivity |]. now replace (nn - 1)%nat with i by lia.
  - cbn [zrange_len foldM]. destruct Hst as (Hsh & Hdone & Hzero).
    destruct (interpolate_between_spec i st ltac:(lia) Hsh)
      as (st1 & -> & Hsh1 & Hitem).
    simpl. replace (Z.of_nat i + 1)%Z with (Z.of_nat (S i)) by lia.
    apply IH; [lia | exact Hnn |].
    pose proof (Hinc i ltac:(lia)) as Hlt.
    split; [exact Hsh1 | split].
    + intros j r c Hj Hr Hc. rewrite Hitem.
      destruct (decide (j = i)) as [-> | Hne].
      * rewrite decide_True by lia. reflexivity.
      * pose proof (psi_mono (S j) i ltac:(lia)).
        rewrite decide_False by lia. apply Hdone; [lia | exact Hr | exact Hc].
    + intros r c Hr. rewrite Hitem, decide_False by lia. apply Hzero. lia.
Qed.

End DenseLeakProfile.

Lemma item_insert_row (a : array) (i r c : nat) (row : list Q) :
  (i < length a)%nat ->
  Np.item (<[i := row]> a) r c =
  if decide (r = i) then default 0 (row !! c) else Np.item a r c.
Proof.
  intros Hi. unfold Np.item. destruct (decide (r = i)) as [-> | Hne].
  - now rewrite list_lookup_insert_eq.
  - now rewrite list_lookup_insert_ne.
Qed.

(** What the function builds for calibration nodes with strictly
    increasing offsets that start at 1 and end at or below 100: a table of
    100 rows that holds, between two adjacent nodes, the linear
    interpolation, so that the row at the offset of every node but the last
    equals the calibration input of that node, and whose last row, offset
    100, holds the values of the last node as they are.  The rows from the
    offset of the last node up to offset 99 are never written and keep the
    zeros the table was created with. *)
Theorem InterpolatePsi_dense_table (w nn : nat) (chg_leak : array)
    (psi_node : list Z) :
  Np.shaped nn w chg_leak -> length psi_node = nn -> (1 <= nn)%nat ->
  node_offset psi_node 0 = 1%Z ->
  (forall j : nat, (S j < nn)%nat ->
     (node_offset psi_node j < node_offset psi_node (S j))%Z) ->
  (node_offset psi_node (nn - 1) <= 100)%Z ->
  returns (_InterpolatePsi chg_leak psi_node) (fun chg_leak_kt =>
    Np.shaped 100 w chg_leak_kt /\
    (forall j r c : nat,
       (S j < nn)%nat -> (c < w)%nat ->
       (node_offset psi_node j - 1 <= Z.of_nat r
          < node_offset psi_node (S j) - 1)%Z ->
       Np.item chg_leak_kt r c = interpolated chg_leak psi_node j r c) /\
    (forall j c : nat,
       (S j < nn)%nat -> (c < w)%nat ->
       Np.item chg_leak_kt (Z.to_nat (node_offset psi_node j - 1)) c
         == Np.item chg_leak j c) /\
    chg_leak_kt !! 99%nat = chg_leak !! (nn - 1)%nat /\
    (forall r c : nat,
       (node_offset psi_node (nn - 1) - 1 <= Z.of_nat r < 99)%Z ->
       Np.item chg_leak_kt r c = 0)).
Proof.
  intros Hleak Hlen Hnn Hfirst Hinc Hlast. unfold _InterpolatePsi.
  rewrite (shape1_shaped _ _ _ Hleak) by lia. rewrite bind_Ok.
  pose proof Hleak as [Hll Hlr]. rewrite Hll.
  unfold range at 2.
  replace (Z.to_nat (Z.of_nat nn - 1 - 0)) with (nn - 1)%nat by lia.
  destruct (interpolate_all w nn chg_leak psi_node Hleak Hlen Hfirst Hinc Hlast
              (nn - 1) 0 (replicate max_node (replicate w 0)))
    as (kt & Hfold & Hsh & Hdone & Hzero);
    [lia | exact Hnn | exact (filled_zeros w nn chg_leak psi_node Hlen) |].
  change (Z.of_nat 0) with 0%Z in Hfold. rewrite Hfold, bind_Ok.
  destruct (lookup_lt_is_Some_2 chg_leak (nn - 1)) as [row Hrow]; [lia |].
  rewrite (getitem_last chg_leak row)
    by (rewrite last_lookup, Hll; now replace (pred nn) with (nn - 1)%nat by lia).
  rewrite bind_Ok. destruct Hsh as [Hkl Hkr].
  rewrite Hkl, py_index_last by (unfold max_node; lia). rewrite bind_Ok.
  apply returns_Ok. unfold max_node in *.
  assert (forall j r : nat, (S j < nn)%nat ->
            (Z.of_nat r < node_offset psi_node (S j) - 1)%Z -> r <> 99%nat) as Hne.
  { intros j r Hj Hr.
    pose proof (psi_mono nn psi_node Hlen Hinc (S j) (nn - 1) ltac:(lia)). lia. }
  assert (forall j r c : nat,
            (S j < nn)%nat -> (c < w)%nat ->
            (node_offset psi_node j - 1 <= Z.of_nat r
               < node_offset psi_node (S j) - 1)%Z ->
            Np.item (<[(100 - 1)%nat := row]> kt) r c
              = interpolated chg_leak psi_node j r c) as Hinterp.
  { intros j r c Hj Hc Hr.
    rewrite item_insert_row, decide_False by (try eapply Hne; eauto; lia).
    apply Hdone; [lia | exact Hr | exact Hc]. }
  split; [| split; [| split; [| split]]].
  - split; [now rewrite length_insert |].
    apply Forall_insert; [exact Hkr |]. exact (Forall_lookup_1 _ _ _ _ Hlr Hrow).
  - exact Hinterp.
  - intros j c Hj Hc.
    pose proof (psi_bounds nn psi_node Hlen Hfirst Hinc Hlast j ltac:(lia)) as Hb.
    pose proof (Hinc j Hj) as Hlt.
    rewrite (Hinterp j _ c Hj Hc) by lia.
    unfold interpolated. rewrite Z2Nat.id by lia.
    replace (node_offset psi_node j - 1 + 1)%Z with (node_offset psi_node j) by lia.
    unfold Qdiv. ring.
  - rewrite list_lookup_insert_eq by lia. now rewrite Hrow.
  - intros r c Hr. rewrite item_insert_row, decide_False by lia.
    apply Hzero. exact (proj1 Hr).
Qed.

Lemma InterpolatePsi_dense_table_witness :
  returns (_InterpolatePsi [[1; 10]; [2; 20]; [4; 40]] [1; 3; 6]%Z)
    (fun chg_leak_kt =>
       Np.shaped 100 2 chg_leak_kt /\
       (forall j r c : nat,
          (S j < 3)%nat -> (c < 2)%nat ->
          (node_offset [1; 3; 6]%Z j - 1 <= Z.of_nat r
             < node_offset [1; 3; 6]%Z (S j) - 1)%Z ->
          Np.item chg_leak_kt r c
            = interpolated [[1; 10]; [2; 20]; [4; 40]] [1; 3; 6]%Z j r c) /\
       (forall j c : nat,
          (S j < 3)%nat -> (c < 2)%nat ->
          Np.item chg_leak_kt (Z.to_nat (node_offset [1; 3; 6]%Z j - 1)) c
            == Np.item [[1; 10]; [2; 20]; [4; 40]] j c) /\
       chg_leak_kt !! 99%nat = Some [4; 40] /\
       (forall r c : nat,
          (node_offset [1; 3; 6]%Z 2 - 1 <= Z.of_nat r < 99)%Z ->
          Np.item chg_leak_kt r c = 0)).
Proof.
  apply (InterpolatePsi_dense_table 2 3 [[1; 10]; [2; 20]; [4; 40]] [1; 3; 6]%Z).
  - split; [reflexivity | repeat constructor].
  - reflexivity.
  - lia.
  - reflexivity.
  - intros [| [| j]] Hj; [vm_compute; reflexivity.. | lia].
  - vm_compute. discriminate.
Defined.

(** C5.  The code at nodes of offsets 1 and 3 that hold 1 and 2: the row
    of offset 3, the last node's own, and the row of offset 50, beyond it,
    are left at 0 and do not hold 2, the value of the last node; only the
    row of offset 100 holds it.  The docstring has the curve interpolated
    at all offsets from 1 to 100, and the slow version of the function,
    documented as the same, writes these rows: its row of offset 3 holds
    the value of the node. *)
Lemma InterpolatePsi_zero_after_last_node :
  returns (_InterpolatePsi [[1]; [2]] [1; 3]%Z)
    (fun chg_leak_kt =>
       chg_leak_kt !! 2%nat = Some [0] /\
       chg_leak_kt !! 49%nat = Some [0] /\
       chg_leak_kt !! 99%nat = Some [2]) /\
  returns (_InterpolatePsi_NOT_USED [[1]; [2]] [1; 3]%Z)
    (fun chg_leak_kt =>
       exists v v',
         chg_leak_kt !! 2%nat = Some [Fin v] /\ v == 2 /\
         chg_leak_kt !! 49%nat = Some [Fin v'] /\ ~ v' == 0) /\
  ~ 0 == 2.
Proof.
  split; [| split].
  - eexists. split; [vm_compute; reflexivity |]. repeat split.
  - eexists. split; [vm_compute; reflexivity |].
    eexists _, _. split; [reflexivity |]. split; [reflexivity |].
    split; [reflexivity |]. intros H. discriminate H.
  - intros H. discriminate H.
Qed.

(** ** [_InterpolatePhi] *)

Lemma getitem_elem_of {A} (l : list A) (i : Z) (x : A) :
  getitem l i = Ok x -> x ∈ l.
Proof.
  unfold getitem. destruct (py_index (length l) i) as [j |]; [| discriminate].
  rewrite bind_Ok. destruct (l !! j) as [y |] eqn:E; [| discriminate].
  intros [= <-]. eapply list_elem_of_lookup_2. exact E.
Qed.

(** A gather [l[idx]] that returns, entry by entry. *)
Lemma mapM_getitem_Ok {A} (l : list A) (idx : list Z) (vals : list A) :
  mapM (getitem l) idx = Ok vals ->
  Forall2 (fun i v => getitem l i = Ok v) idx vals.
Proof.
  revert vals. induction idx as [| i idx IH]; intros vals.
  - intros [= <-]. constructor.
  - cbn [mapM]. destruct (getitem l i) as [v |] eqn:Ev; [| discriminate].
    rewrite bind_Ok. destruct (mapM (getitem l) idx) as [vs |]; [| discriminate].
    rewrite bind_Ok. intros [= <-]. constructor; [exact Ev | now apply IH].
Qed.

Lemma mapM_getitem_in_range {A} (l : list A) (idx : list Z) :
  Forall (fun i => (0 <= i < Z.of_nat (length l))%Z) idx ->
  exists vals, mapM (getitem l) idx = Ok vals.
Proof.
  induction 1 as [| i idx Hi _ [vs IH]]; [eexists; reflexivity |].
  cbv beta in Hi.
  destruct (lookup_lt_is_Some_2 l (Z.to_nat i)) as [v Hv]; [lia |].
  cbn [mapM]. rewrite (getitem_nonneg l i v (proj1 Hi) Hv).
  rewrite bind_Ok, IH, bind_Ok. eauto.
Qed.

(** The fractional part taken by [fl = rl - ll]. *)
Lemma fraction_bounds (rl : Q) :
  0 <= rl -> 0 <= rl - inject_Z (np_int rl) /\ rl - inject_Z (np_int rl) < 1.
Proof.
  intros H. rewrite np_int_floor by exact H.
  pose proof (Qfloor_le rl). pose proof (Qlt_floor rl) as Hlt.
  rewrite inject_Z_plus in Hlt. change (inject_Z 1) with 1 in Hlt. split; lra.
Qed.

Lemma np_int_le (x y : Q) : 0 <= x -> x <= y -> (np_int x <= np_int y)%Z.
Proof.
  intros Hx Hxy. rewrite !np_int_floor by lra. now apply Qfloor_resp_le.
Qed.

Lemma np_int_nonneg (x : Q) : 0 <= x -> (0 <= np_int x)%Z.
Proof.
  intros Hx. rewrite np_int_floor by exact Hx.
  change 0%Z with (Qfloor 0). now apply Qfloor_resp_le.
Qed.

(** Running sums of non-negative terms. *)
Lemma running_sum_length (sumt : Q) (l : list Q) :
  length (running_sum sumt l) = length l.
Proof. revert sumt. induction l; intros; simpl; auto. Qed.

Lemma running_sum_ge (sumt : Q) (l : list Q) :
  Forall (fun x => 0 <= x) l ->
  Forall (fun c => sumt <= c) (running_sum sumt l).
Proof.
  intros H. revert sumt. induction H as [| x l Hx _ IH]; intros sumt;
    cbn [running_sum]; constructor.
  - lra.
  - eapply Forall_impl; [apply IH |]. intros c Hc. cbv beta in Hc. lra.
Qed.

Lemma running_sum_sorted (sumt : Q) (l : list Q) :
  Forall (fun x => 0 <= x) l -> StronglySorted Qle (running_sum sumt l).
Proof.
  intros H. revert sumt. induction H as [| x l Hx Hl IH]; intros sumt;
    cbn [running_sum]; constructor.
  - apply IH.
  - now apply running_sum_ge.
Qed.

Lemma running_sum_last (sumt : Q) (l : list Q) :
  last (running_sum sumt l) =
  match l with [] => None | _ => Some (fold_left Qplus l sumt) end.
Proof.
  revert sumt. induction l as [| x l IH]; intros sumt; [reflexivity |].
  cbn [running_sum fold_left]. destruct l as [| y l]; [reflexivity |].
  specialize (IH (sumt + x)). cbn [running_sum] in *.
  rewrite last_cons, IH. reflexivity.
Qed.

Lemma fold_left_Qplus_comp (l : list Q) (s t : Q) :
  s == t -> fold_left Qplus l s == fold_left Qplus l t.
Proof.
  revert s t. induction l as [| x l IH]; intros s t Hst; simpl; [exact Hst |].
  apply IH. now rewrite Hst.
Qed.

Lemma fold_left_Qplus_ge (l : list Q) (s : Q) :
  Forall (fun x => 0 <= x) l -> s <= fold_left Qplus l s.
Proof.
  intros H. revert s. induction H as [| x l Hx _ IH]; intros s; simpl; [lra |].
  specialize (IH (s + x)). lra.
Qed.

Lemma sum_nonneg (l : list Q) : Forall (fun x => 0 <= x) l -> 0 <= Np.sum l.
Proof. apply fold_left_Qplus_ge. Qed.

Lemma convex_nonneg (a b f : Q) :
  0 <= a -> 0 <= b -> 0 <= f -> f <= 1 -> 0 <= a + f * (b - a).
Proof.
  intros Ha Hb Hf Hf1.
  assert (a + f * (b - a) == (1 - f) * a + f * b) as -> by ring.
  assert (0 <= (1 - f) * a) by (apply Qmult_le_0_compat; lra).
  assert (0 <= f * b) by (apply Qmult_le_0_compat; lra).
  lra.
Qed.

Lemma convex_le (a b f c : Q) :
  a <= c -> b <= c -> 0 <= f -> f <= 1 -> a + f * (b - a) <= c.
Proof.
  intros Ha Hb Hf Hf1.
  assert (c - (a + f * (b - a)) == (1 - f) * (c - a) + f * (c - b)) as H by ring.
  assert (0 <= (1 - f) * (c - a)) by (apply Qmult_le_0_compat; lra).
  assert (0 <= f * (c - b)) by (apply Qmult_le_0_compat; lra).
  lra.
Qed.

Section FillCurve.

Variable log10 : Q -> Q.
Hypothesis log10_nonneg : forall p : Z, (1 <= p)%Z -> 0 <= log10 (inject_Z p).

Variables (dtde_l : list Q) (cte_frac : Q).

(** The entries of [dtde_q], one by one: each is a value between two
    entries of [dtde_l], scaled. *)
Lemma dtde_q_entries (p1_range : list Z) (dtde_q : list Q) :
  Forall (fun p => (1 <= p)%Z) p1_range ->
  dtde_q_of log10 p1_range dtde_l cte_frac = Ok dtde_q ->
  length dtde_q = length p1_range /\
  Forall (fun x => exists a b f,
            a ∈ dtde_l /\ b ∈ dtde_l /\ 0 <= f /\ f <= 1 /\
            x = (a + f * (b - a)) * cte_frac) dtde_q.
Proof.
  intros Hp. unfold dtde_q_of.
  set (rl := map _ p1_range). set (ll := map np_int rl).
  set (fl := zip_with _ rl ll). set (kl := map _ ll).
  destruct (mapM (getitem dtde_l) kl) as [lo |] eqn:Elo; [| discriminate].
  rewrite bind_Ok.
  destruct (mapM (getitem dtde_l) ll) as [hi |] eqn:Ehi; [| discriminate].
  rewrite !bind_Ok. intros [= <-].
  apply mapM_getitem_Ok in Elo, Ehi.
  pose proof (Forall2_length _ _ _ Elo) as Hllo.
  pose proof (Forall2_length _ _ _ Ehi) as Hlhi.
  assert (length rl = length p1_range) as Hlrl by (subst rl; apply length_map).
  assert (length ll = length p1_range) as Hlll
    by (subst ll; now rewrite length_map).
  assert (length kl = length p1_range) as Hlkl
    by (subst kl; now rewrite length_map).
  assert (length fl = length p1_range) as Hlfl
    by (subst fl; rewrite length_zip_with; lia).
  split.
  - rewrite length_map, !length_zip_with. lia.
  - apply Forall_lookup. intros i x Hx.
    rewrite list_lookup_fmap in Hx. apply fmap_Some in Hx as (y & Hy & ->).
    apply lookup_zip_with_Some in Hy as (a & z & -> & Ha & Hz).
    apply lookup_zip_with_Some in Hz as (f & d & -> & Hf & Hd).
    apply lookup_zip_with_Some in Hd as (b & a' & -> & Hb & Ha').
    rewrite Ha in Ha'. injection Ha' as <-.
    exists a, b, f.
    destruct (Forall2_lookup_r _ _ _ _ _ Elo Ha) as (ia & _ & Hga).
    destruct (Forall2_lookup_r _ _ _ _ _ Ehi Hb) as (ib & _ & Hgb).
    apply getitem_elem_of in Hga, Hgb.
    subst fl. apply lookup_zip_with_Some in Hf as (r & l & -> & Hr & Hl).
    subst ll. rewrite list_lookup_fmap, Hr in Hl. injection Hl as <-.
    subst rl. rewrite list_lookup_fmap in Hr.
    apply fmap_Some in Hr as (p & Hp1 & ->).
    pose proof (Forall_lookup_1 _ _ _ _ Hp Hp1) as Hp2. cbv beta in Hp2.
    pose proof (log10_nonneg p Hp2) as Hlog.
    destruct (fraction_bounds (1 + 2 * log10 (inject_Z p))) as [H0 H1];
      [lra |].
    repeat split; auto. lra.
Qed.

Hypothesis dtde_l_nonneg : Forall (fun x => 0 <= x) dtde_l.
Hypothesis cte_frac_nonneg : 0 <= cte_frac.

Lemma dtde_q_nonneg (p1_range : list Z) (dtde_q : list Q) :
  Forall (fun p => (1 <= p)%Z) p1_range ->
  dtde_q_of log10 p1_range dtde_l cte_frac = Ok dtde_q ->
  Forall (fun x => 0 <= x) dtde_q.
Proof.
  intros Hp Hq. destruct (dtde_q_entries _ _ Hp Hq) as [_ H].
  eapply Forall_impl; [exact H |].
  intros x (a & b & f & Ha & Hb & Hf0 & Hf1 & ->).
  rewrite Forall_forall in dtde_l_nonneg.
  apply Qmult_le_0_compat; [| exact cte_frac_nonneg].
  apply convex_nonneg; auto.
Qed.

End FillCurve.

Lemma zrange_len_bounds (start : Z) (len : nat) :
  Forall (fun p => (start <= p < start + Z.of_nat len)%Z) (zrange_len start len).
Proof.
  revert start. induction len as [| len IH]; intros start; simpl; constructor.
  - lia.
  - eapply Forall_impl; [apply IH |]. intros p Hp. cbv beta in Hp. lia.
Qed.

(** The charge levels [p1_range = p0_range + 1] of a dense domain. *)
Lemma p1_range_bounds (n : nat) :
  Forall (fun p => (1 <= p <= Z.of_nat n)%Z)
    (map (fun p => (p + 1)%Z) (range 0 (Z.of_nat n))).
Proof.
  apply Forall_map. unfold range.
  eapply Forall_impl; [apply zrange_len_bounds |].
  intros p Hp. cbv beta in *. lia.
Qed.

Lemma p1_range_ge_1 (n : nat) :
  Forall (fun p => (1 <= p)%Z)
    (map (fun p => (p + 1)%Z) (range 0 (Z.of_nat n))).
Proof.
  eapply Forall_impl; [apply p1_range_bounds |].
  intros p Hp. cbv beta in *. lia.
Qed.

Lemma p1_range_length (n : nat) :
  length (map (fun p => (p + 1)%Z) (range 0 (Z.of_nat n))) = n.
Proof. unfold range. rewrite length_map, length_zrange_len. lia. Qed.

Lemma q_pix_array_ge_1 (ctde_q : list Q) :
  Forall (fun q => (1 <= q)%Z) (q_pix_array_of ctde_q).
Proof. unfold q_pix_array_of. apply Forall_map, Forall_true. intros c. lia. Qed.

Lemma running_sum_le_total (sumt : Q) (l : list Q) :
  Forall (fun x => 0 <= x) l ->
  Forall (fun c => c <= fold_left Qplus l sumt) (running_sum sumt l).
Proof.
  intros H. revert sumt. induction H as [| x l Hx Hl IH]; intros sumt;
    cbn [running_sum fold_left]; constructor.
  - now apply fold_left_Qplus_ge.
  - apply IH.
Qed.

(** The largest entry of [q_pix_array] is its last one, the floor of the
    total clipped at 1. *)
Lemma q_pix_array_max (dtde_q : list Q) :
  dtde_q <> [] -> Forall (fun x => 0 <= x) dtde_q ->
  let q_pix_array := q_pix_array_of (ctde_q_of dtde_q) in
  let top := Z.max 1 (np_int (Np.sum dtde_q)) in
  top ∈ q_pix_array /\ Forall (fun q => (q <= top)%Z) q_pix_array.
Proof.
  intros Hne Hq. cbv zeta. unfold q_pix_array_of, ctde_q_of, Np.sum.
  split.
  - apply list_elem_of_fmap. exists (fold_left Qplus dtde_q 0). split; [lia |].
    pose proof (running_sum_last 0 dtde_q) as Hl.
    destruct dtde_q; [contradiction |].
    apply last_Some_elem_of. exact Hl.
  - apply Forall_map.
    pose proof (running_sum_le_total 0 _ Hq) as Hle.
    pose proof (running_sum_ge 0 _ Hq) as Hge.
    pose proof (List.Forall_and Hle Hge) as H. clear Hle Hge.
    eapply Forall_impl; [exact H |]. intros c [Hc1 Hc2]. cbv beta.
    assert (0 <= c) by (cbv beta in Hc2; lra).
    pose proof (np_int_le c _ ltac:(assumption) Hc1). lia.
Qed.

Lemma pix_q_array_of_returns (n : nat) (q_pix_array p1_range : list Z) :
  Forall (fun q => (1 <= q <= Z.of_nat n)%Z) q_pix_array ->
  exists pix_q_array, pix_q_array_of n q_pix_array p1_range = Ok pix_q_array.
Proof.
  intros Hq. unfold pix_q_array_of.
  assert (length (replicate n 0) = n) as Hl by apply length_replicate.
  revert Hl. generalize (replicate n 0) as a.
  revert p1_range. induction Hq as [| q qs Hq1 _ IH]; intros p1 a Hl.
  - eexists. reflexivity.
  - destruct p1 as [| p p1]; [eexists; reflexivity |].
    cbn [zip zip_with foldM]. rewrite Hl, py_index_nonneg by lia.
    rewrite !bind_Ok. apply IH. now rewrite length_insert.
Qed.

Lemma fold_left_Qplus_le (l : list Q) (s : Q) :
  Forall (fun x => x <= 1) l ->
  fold_left Qplus l s <= s + inject_Z (Z.of_nat (length l)).
Proof.
  intros H. revert s. induction H as [| x l Hx _ IH]; intros s.
  - cbn [fold_left length]. change (inject_Z (Z.of_nat 0)) with 0. lra.
  - cbn [fold_left length]. specialize (IH (s + x)).
    rewrite Nat2Z.inj_succ, <- Z.add_1_r, inject_Z_plus.
    change (inject_Z 1) with 1. lra.
Qed.

Lemma np_int_le_nat (x : Q) (n : nat) :
  0 <= x -> x <= inject_Z (Z.of_nat n) -> (np_int x <= Z.of_nat n)%Z.
Proof.
  intros H0 Hn. rewrite np_int_floor by exact H0.
  rewrite <- (Qfloor_Z (Z.of_nat n)). now apply Qfloor_resp_le.
Qed.

Section FillCurveReturns.

Variable log10 : Q -> Q.
Hypothesis log10_nonneg : forall p : Z, (1 <= p)%Z -> 0 <= log10 (inject_Z p).

Variables (n : nat) (dtde_l : list Q) (cte_frac : Q).
Hypothesis dtde_l_nonneg : Forall (fun x => 0 <= x) dtde_l.
Hypothesis cte_frac_nonneg : 0 <= cte_frac.

(** Every node index resolved from [int(rl)] lies inside [dtde_l]. *)
Hypothesis nodes_in_range :
  forall p : Z, (1 <= p <= Z.of_nat n)%Z ->
    (np_int (1 + 2 * log10 (inject_Z p)) < Z.of_nat (length dtde_l))%Z.

Let p1_range : list Z := map (fun p => (p + 1)%Z) (range 0 (Z.of_nat n)).

Lemma dtde_q_of_returns :
  exists dtde_q, dtde_q_of log10 p1_range dtde_l cte_frac = Ok dtde_q.
Proof.
  unfold dtde_q_of.
  set (rl := map _ p1_range). set (ll := map np_int rl).
  assert (Forall (fun i => (1 <= i < Z.of_nat (length dtde_l))%Z) ll) as Hll.
  { subst ll rl. rewrite map_map. apply Forall_map.
    eapply Forall_impl; [apply p1_range_bounds |].
    intros p Hp. cbv beta in *.
    split; [| now apply nodes_in_range].
    pose proof (log10_nonneg p ltac:(lia)).
    assert (1 <= 1 + 2 * log10 (inject_Z p)) as Hrl by lra.
    pose proof (np_int_le 1 _ ltac:(lra) Hrl) as Hge.
    change (np_int 1) with 1%Z in Hge. exact Hge. }
  destruct (mapM_getitem_in_range dtde_l (map (fun l => (l - 1)%Z) ll))
    as [lo ->].
  { apply Forall_map. eapply Forall_impl; [exact Hll |].
    intros i Hi. cbv beta in *. lia. }
  rewrite bind_Ok.
  destruct (mapM_getitem_in_range dtde_l ll) as [hi ->].
  { eapply Forall_impl; [exact Hll |]. intros i Hi. cbv beta in *. lia. }
  rewrite !bind_Ok. eauto.
Qed.

(** No level takes more than one trap. *)
Hypothesis fill_at_most_one : Forall (fun x => x * cte_frac <= 1) dtde_l.

Lemma dtde_q_at_most_one (dtde_q : list Q) :
  dtde_q_of log10 p1_range dtde_l cte_frac = Ok dtde_q ->
  Forall (fun x => x <= 1) dtde_q.
Proof.
  intros Hq.
  pose proof (p1_range_ge_1 n) as Hp. fold p1_range in Hp.
  destruct (dtde_q_entries log10 log10_nonneg _ _ _ _ Hp Hq) as [_ H].
  eapply Forall_impl; [exact H |].
  intros x (a & b & f & Ha & Hb & Hf0 & Hf1 & ->).
  rewrite Forall_forall in fill_at_most_one.
  pose proof (fill_at_most_one a Ha). pose proof (fill_at_most_one b Hb).
  assert ((a + f * (b - a)) * cte_frac
            == a * cte_frac + f * (b * cte_frac - a * cte_frac)) as -> by ring.
  now apply convex_le.
Qed.

Lemma InterpolatePhi_upto_returns :
  exists r, InterpolatePhi_upto log10 n dtde_l cte_frac = Ok r.
Proof.
  unfold InterpolatePhi_upto. fold p1_range.
  destruct dtde_q_of_returns as [dtde_q Hq]. rewrite Hq, bind_Ok.
  pose proof (p1_range_ge_1 n) as Hp. fold p1_range in Hp.
  pose proof (dtde_q_nonneg log10 log10_nonneg _ _ dtde_l_nonneg
                cte_frac_nonneg _ _ Hp Hq) as H0.
  pose proof (dtde_q_at_most_one _ Hq) as H1.
  destruct (dtde_q_entries log10 log10_nonneg _ _ _ _ Hp Hq) as [Hlen _].
  unfold p1_range in Hlen. rewrite p1_range_length in Hlen.
  destruct (pix_q_array_of_returns n (q_pix_array_of (ctde_q_of dtde_q)) p1_range)
    as [pix_q_array ->]; [| rewrite bind_Ok; eauto].
  unfold q_pix_array_of, ctde_q_of. apply Forall_map.
  pose proof (running_sum_le_total 0 _ H0) as Hle.
  pose proof (running_sum_ge 0 _ H0) as Hge.
  pose proof (List.Forall_and Hle Hge) as H. clear Hle Hge.
  rewrite Forall_lookup in H. apply Forall_lookup. intros i c Hc.
  destruct (H i c Hc) as [Hc1 Hc2]. cbv beta in *.
  pose proof (lookup_lt_Some _ _ _ Hc) as Hi.
  rewrite running_sum_length, Hlen in Hi.
  pose proof (fold_left_Qplus_le dtde_q 0 H1) as Htot. rewrite Hlen in Htot.
  assert (0 <= c) by lra.
  pose proof (np_int_le_nat c n ltac:(assumption) ltac:(lra)). lia.
Qed.

End FillCurveReturns.

Lemma p_max_value : Z.of_nat p_max = 49999%Z.
Proof. unfold p_max. lia. Qed.

(** What a returning call of [_InterpolatePhi] has computed. *)
Lemma InterpolatePhi_upto_Ok (log10 : Q -> Q) (n : nat) (dtde_l : list Q)
    (cte_frac : Q) dtde_q q_pix_array pix_q_array QMAX :
  InterpolatePhi_upto log10 n dtde_l cte_frac
    = Ok (dtde_q, q_pix_array, pix_q_array, QMAX) ->
  dtde_q_of log10 (map (fun p => (p + 1)%Z) (range 0 (Z.of_nat n)))
    dtde_l cte_frac = Ok dtde_q /\
  q_pix_array = q_pix_array_of (ctde_q_of dtde_q) /\
  QMAX = np_int (Np.sum dtde_q).
Proof.
  unfold InterpolatePhi_upto.
  destruct (dtde_q_of log10 _ dtde_l cte_frac) as [dq |]; [| discriminate].
  rewrite bind_Ok.
  destruct (pix_q_array_of n _ _) as [pq |]; [| discriminate].
  rewrite bind_Ok. intros [= <- <- <- <-]. auto.
Qed.

Lemma InterpolatePhi_unfold (log10 : Q -> Q) (dtde_l : list Q) (cte_frac : Q) :
  _InterpolatePhi log10 dtde_l cte_frac
    = InterpolatePhi_upto log10 p_max dtde_l cte_frac.
Proof. reflexivity. Qed.

Lemma log10_floor_nonneg (p : Z) : (1 <= p)%Z -> 0 <= log10_floor (inject_Z p).
Proof. intros _. unfold log10_floor. qcases; lra. Qed.

Lemma log10_floor_nodes (p : Z) :
  (np_int (1 + 2 * log10_floor (inject_Z p)) < 11)%Z.
Proof. unfold log10_floor. qcases; vm_compute; reflexivity. Qed.

(** C7.  For non-negative fill values and a non-negative time scalar whose
    node indices lie inside the node array, the fill curve is computed, its
    running sum [ctde_q] is non-decreasing in the charge level and every
    entry of the mapping [q_pix_array] taken from it is at least 1; these
    are the curve and the mapping that a returning call hands back, and the
    call returns when no scaled fill value exceeds 1. *)
Theorem InterpolatePhi_running_sum_monotone (log10 : Q -> Q)
    (dtde_l : list Q) (cte_frac : Q) :
  (forall p : Z, (1 <= p)%Z -> 0 <= log10 (inject_Z p)) ->
  Forall (fun x => 0 <= x) dtde_l ->
  0 <= cte_frac ->
  (forall p : Z, (1 <= p <= Z.of_nat p_max)%Z ->
     (np_int (1 + 2 * log10 (inject_Z p)) < Z.of_nat (length dtde_l))%Z) ->
  returns
    (dtde_q_of log10 (map (fun p => (p + 1)%Z) (range 0 (Z.of_nat p_max)))
       dtde_l cte_frac)
    (fun dtde_q =>
       StronglySorted Qle (ctde_q_of dtde_q) /\
       Forall (fun q => (1 <= q)%Z) (q_pix_array_of (ctde_q_of dtde_q)) /\
       (forall dq qp pq QMAX,
          _InterpolatePhi log10 dtde_l cte_frac = Ok (dq, qp, pq, QMAX) ->
          dq = dtde_q /\ qp = q_pix_array_of (ctde_q_of dtde_q)) /\
       (Forall (fun x => x * cte_frac <= 1) dtde_l ->
        exists pq QMAX,
          _InterpolatePhi log10 dtde_l cte_frac
            = Ok (dtde_q, q_pix_array_of (ctde_q_of dtde_q), pq, QMAX))).
Proof.
  intros Hlog Hl Hc Hnodes.
  destruct (dtde_q_of_returns log10 Hlog p_max dtde_l cte_frac Hnodes)
    as [dtde_q Hq].
  exists dtde_q. split; [exact Hq |].
  pose proof (dtde_q_nonneg log10 Hlog _ _ Hl Hc _ _ (p1_range_ge_1 p_max) Hq)
    as H0.
  split; [| split; [| split]].
  - now apply running_sum_sorted.
  - apply q_pix_array_ge_1.
  - intros dq qp pq QMAX Hr. rewrite InterpolatePhi_unfold in Hr.
    apply InterpolatePhi_upto_Ok in Hr as (Hq' & -> & _).
    rewrite Hq in Hq'. injection Hq' as ->. auto.
  - intros H1.
    destruct (InterpolatePhi_upto_returns log10 Hlog p_max dtde_l cte_frac
                Hl Hc Hnodes H1) as [[[[dq qp] pq] QMAX] Hr].
    pose proof Hr as Hr'.
    apply InterpolatePhi_upto_Ok in Hr' as (Hq' & -> & _).
    rewrite Hq in Hq'. injection Hq' as ->. exists pq, QMAX.
    rewrite InterpolatePhi_unfold. exact Hr.
Qed.

Lemma InterpolatePhi_running_sum_monotone_witness :
  returns
    (dtde_q_of log10_floor (map (fun p => (p + 1)%Z) (range 0 (Z.of_nat p_max)))
       (replicate 11 0.1) 1)
    (fun dtde_q =>
       StronglySorted Qle (ctde_q_of dtde_q) /\
       Forall (fun q => (1 <= q)%Z) (q_pix_array_of (ctde_q_of dtde_q)) /\
       (forall dq qp pq QMAX,
          _InterpolatePhi log10_floor (replicate 11 0.1) 1 = Ok (dq, qp, pq, QMAX) ->
          dq = dtde_q /\ qp = q_pix_array_of (ctde_q_of dtde_q)) /\
       (Forall (fun x => x * 1 <= 1) (replicate 11 0.1) ->
        exists pq QMAX,
          _InterpolatePhi log10_floor (replicate 11 0.1) 1
            = Ok (dtde_q, q_pix_array_of (ctde_q_of dtde_q), pq, QMAX))).
Proof.
  apply (InterpolatePhi_running_sum_monotone log10_floor (replicate 11 0.1) 1).
  - exact log10_floor_nonneg.
  - repeat constructor; vm_compute; discriminate.
  - vm_compute. discriminate.
  - intros p _. exact (log10_floor_nodes p).
Defined.

Lemma dtde_q_nonempty (log10 : Q -> Q) (dtde_l : list Q) (cte_frac : Q)
    (dtde_q : list Q) :
  (forall p : Z, (1 <= p)%Z -> 0 <= log10 (inject_Z p)) ->
  dtde_q_of log10 (map (fun p => (p + 1)%Z) (range 0 (Z.of_nat p_max)))
    dtde_l cte_frac = Ok dtde_q ->
  dtde_q <> [].
Proof.
  intros Hlog Hq.
  destruct (dtde_q_entries log10 Hlog _ _ _ _ (p1_range_ge_1 p_max) Hq)
    as [Hlen _].
  rewrite p1_range_length in Hlen. intros ->. cbn [length] in Hlen.
  pose proof p_max_value. lia.
Qed.

Lemma floor_ge_1 (x : Q) : (1 <= Qfloor x)%Z <-> 1 <= x.
Proof.
  split; intros H.
  - pose proof (Qfloor_le x) as Hle.
    assert (inject_Z 1 <= inject_Z (Qfloor x)) as H1
      by now rewrite <- Zle_Qle.
    change (inject_Z 1) with 1 in H1. lra.
  - change 1%Z with (Qfloor 1). now apply Qfloor_resp_le.
Qed.

(** C6, as amended.  After [_InterpolatePhi] has returned, for non-negative
    fill values and a non-negative time scalar: [QMAX] is the floor of the
    total of [dtde_q], and the largest entry of [q_pix_array] is
    [max(1, QMAX)], which is attained; it is [QMAX] itself exactly when the
    total is at least 1. *)
Theorem InterpolatePhi_QMAX_floor_of_total (log10 : Q -> Q)
    (dtde_l : list Q) (cte_frac : Q)
    (dtde_q : list Q) (q_pix_array : list Z) (pix_q_array : list Q) (QMAX : Z) :
  (forall p : Z, (1 <= p)%Z -> 0 <= log10 (inject_Z p)) ->
  Forall (fun x => 0 <= x) dtde_l ->
  0 <= cte_frac ->
  _InterpolatePhi log10 dtde_l cte_frac
    = Ok (dtde_q, q_pix_array, pix_q_array, QMAX) ->
  QMAX = Qfloor (Np.sum dtde_q) /\
  Z.max 1 QMAX ∈ q_pix_array /\
  Forall (fun q => (q <= Z.max 1 QMAX)%Z) q_pix_array /\
  (Z.max 1 QMAX = QMAX <-> 1 <= Np.sum dtde_q).
Proof.
  intros Hlog Hl Hc Hr. rewrite InterpolatePhi_unfold in Hr.
  apply InterpolatePhi_upto_Ok in Hr as (Hq & -> & ->).
  pose proof (dtde_q_nonneg log10 Hlog _ _ Hl Hc _ _ (p1_range_ge_1 p_max) Hq)
    as H0.
  pose proof (dtde_q_nonempty _ _ _ _ Hlog Hq) as Hne.
  destruct (q_pix_array_max dtde_q Hne H0) as [Hin Hmax].
  pose proof (sum_nonneg _ H0) as Hs.
  rewrite np_int_floor in * by exact Hs.
  repeat split; auto.
  - intros H. apply floor_ge_1. lia.
  - intros H. apply floor_ge_1 in H. lia.
Qed.

Lemma InterpolatePhi_QMAX_floor_of_total_witness :
  exists dtde_q q_pix_array pix_q_array QMAX,
    _InterpolatePhi log10_floor (replicate 11 0.1) 1
      = Ok (dtde_q, q_pix_array, pix_q_array, QMAX) /\
    QMAX = Qfloor (Np.sum dtde_q) /\
    Z.max 1 QMAX ∈ q_pix_array /\
    Forall (fun q => (q <= Z.max 1 QMAX)%Z) q_pix_array /\
    (Z.max 1 QMAX = QMAX <-> 1 <= Np.sum dtde_q).
Proof.
  assert (Forall (fun x => 0 <= x) (replicate 11%nat 0.1)) as Hl
    by (repeat constructor; vm_compute; discriminate).
  assert (0 <= 1) as Hc by (vm_compute; discriminate).
  destruct (InterpolatePhi_upto_returns log10_floor log10_floor_nonneg p_max
              (replicate 11 0.1) 1 Hl Hc
              (fun p _ => log10_floor_nodes p)
              ltac:(repeat constructor; vm_compute; discriminate))
    as [[[[dtde_q q_pix_array] pix_q_array] QMAX] Hr].
  rewrite <- InterpolatePhi_unfold in Hr.
  exists dtde_q, q_pix_array, pix_q_array, QMAX. split; [exact Hr |].
  exact (InterpolatePhi_QMAX_floor_of_total log10_floor (replicate 11 0.1) 1
           dtde_q q_pix_array pix_q_array QMAX log10_floor_nonneg Hl Hc Hr).
Defined.

Lemma fold_left_Qplus_zeros (l : list Q) (s : Q) :
  Forall (fun x => x == 0) l -> fold_left Qplus l s == s.
Proof.
  intros H. revert s. induction H as [| x l Hx _ IH]; intros s; simpl.
  - reflexivity.
  - rewrite IH, Hx. ring.
Qed.

(** C6 as stated fails when the fill curve sums to less than 1: with a
    time scalar of 0 every entry of [dtde_q] is 0, so [QMAX] is 0, while
    every entry of [q_pix_array] is 1. *)
Lemma InterpolatePhi_QMAX_below_mapping :
  returns (_InterpolatePhi log10_floor (replicate 11 0.1) 0)
    (fun r =>
       let '(dtde_q, q_pix_array, pix_q_array, QMAX) := r in
       QMAX = 0%Z /\
       1%Z ∈ q_pix_array /\
       Forall (fun q => q = 1%Z) q_pix_array /\
       ~ QMAX ∈ q_pix_array).
Proof.
  assert (Forall (fun x => 0 <= x) (replicate 11%nat 0.1)) as Hl
    by (repeat constructor; vm_compute; discriminate).
  assert (0 <= 0) as Hc by (vm_compute; discriminate).
  destruct (InterpolatePhi_upto_returns log10_floor log10_floor_nonneg p_max
              (replicate 11 0.1) 0 Hl Hc
              (fun p _ => log10_floor_nodes p)
              ltac:(repeat constructor; vm_compute; discriminate))
    as [[[[dtde_q q_pix_array] pix_q_array] QMAX] Hr].
  exists (dtde_q, q_pix_array, pix_q_array, QMAX).
  split; [rewrite InterpolatePhi_unfold; exact Hr |].
  apply InterpolatePhi_upto_Ok in Hr as (Hq & -> & ->).
  pose proof (dtde_q_nonneg _ log10_floor_nonneg _ _ Hl Hc _ _
                (p1_range_ge_1 p_max) Hq) as H0.
  pose proof (dtde_q_nonempty _ _ _ _ log10_floor_nonneg Hq) as Hne.
  destruct (dtde_q_entries _ log10_floor_nonneg _ _ _ _ (p1_range_ge_1 p_max) Hq)
    as [_ Hent].
  assert (Forall (fun x => x == 0) dtde_q) as Hz.
  { eapply Forall_impl; [exact Hent |].
    intros x (a & b & f & _ & _ & _ & _ & ->). ring. }
  assert (np_int (Np.sum dtde_q) = 0%Z) as Hsum.
  { rewrite (np_int_comp _ 0); [reflexivity |].
    unfold Np.sum. now apply fold_left_Qplus_zeros. }
  destruct (q_pix_array_max dtde_q Hne H0) as [Hin Hmax].
  rewrite Hsum in *. change (Z.max 1 0) with 1%Z in *.
  pose proof (q_pix_array_ge_1 (ctde_q_of dtde_q)) as Hge.
  assert (Forall (fun q => q = 1%Z) (q_pix_array_of (ctde_q_of dtde_q))) as Hall.
  { pose proof (List.Forall_and Hmax Hge) as H.
    eapply Forall_impl; [exact H |]. intros q [? ?]. lia. }
  repeat split; auto.
  intros H0in. rewrite Forall_forall in Hall. specialize (Hall _ H0in). lia.
Qed.

Lemma CalcCteFrac_linear_in_epoch_witness :
  (~ 55105.0 == 52335.0 ->
     returns (CalcCteFrac_with PixCteCorr.c1 PixCteCorr.c2 56000 "WFC")
       (fun frac => frac == (56000 - 52335.0) / (55105.0 - 52335.0)) /\
     returns (CalcCteFrac_with PixCteCorr.c1 PixCteCorr.c2 52335.0 "WFC")
       (fun frac => frac == 0) /\
     returns (CalcCteFrac_with PixCteCorr.c1 PixCteCorr.c2 55105.0 "WFC")
       (fun frac => frac == 1)) /\
  (55105.0 == 52335.0 ->
     CalcCteFrac_with PixCteCorr.c1 PixCteCorr.c2 56000 "WFC"
       = Raise ZeroDivisionError) /\
  returns (_CalcCteFrac 56000 "WFC")
    (fun frac => frac == (56000 - 52335.0) / (55105.0 - 52335.0)).
Proof.
  apply (CalcCteFrac_linear_in_epoch PixCteCorr.c1 PixCteCorr.c2 "WFC"
           52335.0 55105.0 56000); reflexivity.
Defined.

(** ** [_TrackChargeTrap] *)

Lemma np_sum_finite (vals : list Q) (s : Q) :
  fold_left np_add (map Fin vals) (Fin s) = Fin (fold_left Qplus vals s).
Proof.
  revert s. induction vals as [| x vals IH]; intros s; [reflexivity |].
  cbn [map fold_left np_add]. apply IH.
Qed.

Lemma normalize_finite (vals : list Q) :
  ~ Np.sum vals == 0 ->
  normalize (map Fin vals) = map Fin (map (fun a => a / Np.sum vals) vals).
Proof.
  intros Hs. unfold normalize, Np.np_sum. rewrite np_sum_finite.
  fold (Np.sum vals). rewrite !map_map. apply map_ext. intros a.
  cbn [np_div]. apply Qeq_bool_false in Hs. now rewrite Hs.
Qed.

Lemma normalize_zero_sum (vals : list Q) :
  Np.sum vals == 0 ->
  normalize (map Fin vals) = map (fun _ => NonFin) vals.
Proof.
  intros Hs. unfold normalize, Np.np_sum. rewrite np_sum_finite.
  fold (Np.sum vals). rewrite map_map. apply map_ext. intros a.
  cbn [np_div]. apply Qeq_bool_iff in Hs. now rewrite Hs.
Qed.

Lemma fold_left_Qplus_scaled (l : list Q) (s t : Q) :
  ~ s == 0 ->
  fold_left Qplus (map (fun a => a / s) l) (t / s) == fold_left Qplus l t / s.
Proof.
  intros Hs. revert t. induction l as [| x l IH]; intros t; [reflexivity |].
  cbn [map fold_left]. rewrite <- IH. apply fold_left_Qplus_comp. now field.
Qed.

(** A column divided by its sum sums to one. *)
Lemma normalized_sum (vals : list Q) :
  ~ Np.sum vals == 0 ->
  Np.sum (map (fun a => a / Np.sum vals) vals) == 1.
Proof.
  intros Hs. unfold Np.sum at 1.
  rewrite (fold_left_Qplus_comp _ 0 (0 / Np.sum vals)) by now field.
  rewrite fold_left_Qplus_scaled by exact Hs.
  fold (Np.sum vals). now field.
Qed.

Lemma open_column_finite (vals : list Q) :
  open_column (map Fin vals) = map Fin (running_sum 0 vals).
Proof.
  unfold open_column. generalize 0 as s.
  induction vals as [| x vals IH]; intros s; [reflexivity |].
  cbn [map np_running_sum running_sum np_add]. now rewrite IH.
Qed.

Lemma raw_leak_columns_length (log10 : Q -> Q) (QMAX : Z)
    (pix_q_array : list Q) (chg_leak_kt : array) (columns : list (list npfloat)) :
  raw_leak_columns log10 QMAX pix_q_array chg_leak_kt = Ok columns ->
  length columns = Z.to_nat QMAX.
Proof.
  unfold raw_leak_columns. destruct (QMAX <? 0)%Z; [discriminate |].
  destruct (mapM _ _) as [cols |]; [| discriminate]. rewrite bind_Ok.
  destruct (decide (length chg_leak_kt = 0%nat)).
  - intros [= <-]. apply length_replicate.
  - destruct (decide (length cols = Z.to_nat QMAX)) as [Hl |].
    + now intros [= <-].
    + destruct cols as [| c [| ? ?]]; try discriminate.
      intros [= <-]. apply length_replicate.
Qed.

Lemma TrackChargeTrap_Ok (log10 : Q -> Q) (QMAX : Z) (pix_q_array : list Q)
    (chg_leak_kt : array) (columns : list (list npfloat)) :
  raw_leak_columns log10 QMAX pix_q_array chg_leak_kt = Ok columns ->
  _TrackChargeTrap log10 QMAX pix_q_array chg_leak_kt
    = Ok (map normalize columns, map open_column (map normalize columns)).
Proof. intros H. unfold _TrackChargeTrap. now rewrite H, bind_Ok. Qed.

Lemma normalized_nonneg (vals : list Q) :
  0 < Np.sum vals -> Forall (fun v => 0 <= v) vals ->
  Forall (fun v => 0 <= v) (map (fun a => a / Np.sum vals) vals).
Proof.
  intros Hs Hv. apply Forall_map. eapply Forall_impl; [exact Hv |].
  intros a Ha. cbv beta in *. apply Qle_shift_div_l; [exact Hs | lra].
Qed.

(** C4, as amended.  Of the tables built by [_TrackChargeTrap], take a
    column [q] whose entries before the normalisation are finite and sum to
    a positive number.  The normalised leak column has as many entries as
    there are offsets and sums to 1, and the last entry of the open column
    is 1.  When the entries before the normalisation are moreover
    non-negative, the open column is non-decreasing along the offsets. *)
Theorem TrackChargeTrap_column_sums_to_one (log10 : Q -> Q) (QMAX : Z)
    (pix_q_array : list Q) (chg_leak_kt : array)
    (columns : list (list npfloat)) (q : nat) (vals : list Q) :
  raw_leak_columns log10 QMAX pix_q_array chg_leak_kt = Ok columns ->
  columns !! q = Some (map Fin vals) ->
  0 < Np.sum vals ->
  returns (_TrackChargeTrap log10 QMAX pix_q_array chg_leak_kt)
    (fun tables =>
       length (fst tables) = Z.to_nat QMAX /\
       length (snd tables) = Z.to_nat QMAX /\
       exists leak_q open_q : list Q,
         fst tables !! q = Some (map Fin leak_q) /\
         snd tables !! q = Some (map Fin open_q) /\
         length leak_q = length vals /\
         length open_q = length vals /\
         Np.sum leak_q == 1 /\
         (exists top, last open_q = Some top /\ top == 1) /\
         (Forall (fun v => 0 <= v) vals -> StronglySorted Qle open_q)).
Proof.
  intros Hraw Hq Hs.
  rewrite (TrackChargeTrap_Ok _ _ _ _ _ Hraw). apply returns_Ok. cbn [fst snd].
  pose proof (raw_leak_columns_length _ _ _ _ _ Hraw) as Hlen.
  assert (~ Np.sum vals == 0) as Hne by lra.
  set (leak_q := map (fun a => a / Np.sum vals) vals).
  split; [now rewrite length_map |]. split; [now rewrite !length_map |].
  exists leak_q, (running_sum 0 leak_q).
  split; [| split; [| split; [| split; [| split; [| split]]]]].
  - rewrite list_lookup_fmap, Hq. cbn [fmap option_fmap option_map].
    now rewrite normalize_finite.
  - rewrite !list_lookup_fmap, Hq. cbn [fmap option_fmap option_map].
    now rewrite normalize_finite, open_column_finite.
  - subst leak_q. apply length_map.
  - subst leak_q. now rewrite running_sum_length, length_map.
  - now apply normalized_sum.
  - exists (fold_left Qplus leak_q 0). split.
    + rewrite running_sum_last. subst leak_q.
      destruct vals as [| v vals]; [| reflexivity].
      exfalso. unfold Np.sum in Hs. cbn [fold_left] in Hs. lra.
    + now apply normalized_sum.
  - intros Hv. apply running_sum_sorted. now apply normalized_nonneg.
Qed.

Lemma TrackChargeTrap_column_sums_to_one_witness :
  returns
    (_TrackChargeTrap log10_floor 2 [3; 0; 500]
       [[1; 2; 3; 4]; [1; 1; 1; 1]; [0; 0; 0; 0]])
    (fun tables =>
       length (fst tables) = Z.to_nat 2 /\
       length (snd tables) = Z.to_nat 2 /\
       exists leak_q open_q : list Q,
         fst tables !! 0%nat = Some (map Fin leak_q) /\
         snd tables !! 0%nat = Some (map Fin open_q) /\
         length leak_q = 3%nat /\
         length open_q = 3%nat /\
         Np.sum leak_q == 1 /\
         (exists top, last open_q = Some top /\ top == 1) /\
         (Forall (fun v => 0 <= v)
            [1 + (1 - 1) * (2 - 1); 1 + (1 - 1) * (1 - 1);
             0 + (1 - 1) * (0 - 0)] ->
          StronglySorted Qle open_q)).
Proof.
  eapply (TrackChargeTrap_column_sums_to_one log10_floor 2 [3; 0; 500]
            [[1; 2; 3; 4]; [1; 1; 1; 1]; [0; 0; 0; 0]] _ 0
            [1 + (1 - 1) * (2 - 1); 1 + (1 - 1) * (1 - 1);
             0 + (1 - 1) * (0 - 0)]).
  - vm_compute. reflexivity.
  - vm_compute. reflexivity.
  - vm_compute. reflexivity.
Defined.

(** C4 as stated fails for a column with a negative entry.  The leak
    profile of 100 offsets whose rows are [2], [-1] and then zeros gives a
    column of positive sum 1 whose open column falls from 2 at the first
    offset to 1 at the second. *)
Lemma TrackChargeTrap_open_column_decreases :
  returns
    (raw_leak_columns log10_floor 1 [3]
       ([2; 2; 2; 2] :: [-1; -1; -1; -1] :: replicate 98 [0; 0; 0; 0]))
    (fun columns =>
       exists column total,
         columns = [column] /\ length column = 100%nat /\
         Np.np_sum column = Fin total /\ 0 < total) /\
  returns
    (_TrackChargeTrap log10_floor 1 [3]
       ([2; 2; 2; 2] :: [-1; -1; -1; -1] :: replicate 98 [0; 0; 0; 0]))
    (fun tables =>
       exists open_q a b,
         snd tables = [open_q] /\
         open_q !! 0%nat = Some (Fin a) /\ open_q !! 1%nat = Some (Fin b) /\
         a == 2 /\ b == 1 /\ ~ a <= b).
Proof.
  split.
  - eexists. split; [vm_compute; reflexivity |].
    do 2 eexists. split; [reflexivity |]. split; [reflexivity |].
    split; vm_compute; reflexivity.
  - eexists. split; [vm_compute; reflexivity |].
    do 3 eexists. split; [reflexivity |].
    split; [reflexivity |]. split; [reflexivity |].
    split; [vm_compute; reflexivity |]. split; [vm_compute; reflexivity |].
    intros H. vm_compute in H. apply H. reflexivity.
Qed.

(** C8, as amended.  [_TrackChargeTrap] does not look at the sum of a
    column: once the table before the normalisation is computed, it returns
    the two tables.  A column of finite entries whose sum is not zero,
    negative sums included, is divided by its sum and sums to 1 afterwards;
    a column whose sum is zero becomes non-finite at every entry.  No
    failure for a degenerate column exists. *)
Theorem TrackChargeTrap_returns_without_check (log10 : Q -> Q) (QMAX : Z)
    (pix_q_array : list Q) (chg_leak_kt : array)
    (columns : list (list npfloat)) :
  raw_leak_columns log10 QMAX pix_q_array chg_leak_kt = Ok columns ->
  returns (_TrackChargeTrap log10 QMAX pix_q_array chg_leak_kt)
    (fun tables =>
       fst tables = map normalize columns /\
       snd tables = map open_column (fst tables) /\
       forall (q : nat) (vals : list Q),
         columns !! q = Some (map Fin vals) ->
         (~ Np.sum vals == 0 ->
          exists leak_q,
            fst tables !! q = Some (map Fin leak_q) /\
            leak_q = map (fun a => a / Np.sum vals) vals /\
            Np.sum leak_q == 1) /\
         (Np.sum vals == 0 ->
          fst tables !! q = Some (map (fun _ => NonFin) vals))).
Proof.
  intros Hraw.
  rewrite (TrackChargeTrap_Ok _ _ _ _ _ Hraw). apply returns_Ok. cbn [fst snd].
  split; [reflexivity |]. split; [reflexivity |].
  intros q vals Hq. split.
  - intros Hne. eexists. split; [| split; [reflexivity |]].
    + rewrite list_lookup_fmap, Hq. cbn [fmap option_fmap option_map].
      now rewrite normalize_finite.
    + now apply normalized_sum.
  - intros Hz. rewrite list_lookup_fmap, Hq. cbn [fmap option_fmap option_map].
    now rewrite normalize_zero_sum.
Qed.

Lemma TrackChargeTrap_returns_without_check_witness :
  returns
    (_TrackChargeTrap log10_floor 1 [3] [[-1; -1; -1; -1]; [0; 0; 0; 0]])
    (fun tables =>
       fst tables =
         map normalize [[Fin (-1 + (1 - 1) * (-1 - -1));
                         Fin (0 + (1 - 1) * (0 - 0))]] /\
       snd tables = map open_column (fst tables) /\
       forall (q : nat) (vals : list Q),
         [[Fin (-1 + (1 - 1) * (-1 - -1));
           Fin (0 + (1 - 1) * (0 - 0))]] !! q = Some (map Fin vals) ->
         (~ Np.sum vals == 0 ->
          exists leak_q,
            fst tables !! q = Some (map Fin leak_q) /\
            leak_q = map (fun a => a / Np.sum vals) vals /\
            Np.sum leak_q == 1) /\
         (Np.sum vals == 0 ->
          fst tables !! q = Some (map (fun _ => NonFin) vals))).
Proof.
  apply (TrackChargeTrap_returns_without_check log10_floor 1 [3]
           [[-1; -1; -1; -1]; [0; 0; 0; 0]]).
  vm_compute. reflexivity.
Defined.

(** C8 as stated fails: for a leak profile of 100 offsets, a column whose
    sum before the normalisation is negative and one whose sum is zero both
    come back in a table, the first divided by its negative sum, the second
    non-finite. *)
Lemma TrackChargeTrap_degenerate_columns_return :
  returns
    (raw_leak_columns log10_floor 1 [3]
       ([-1; -1; -1; -1] :: replicate 99 [0; 0; 0; 0]))
    (fun columns =>
       exists column total,
         columns = [column] /\ Np.np_sum column = Fin total /\ total < 0) /\
  returns
    (_TrackChargeTrap log10_floor 1 [3]
       ([-1; -1; -1; -1] :: replicate 99 [0; 0; 0; 0]))
    (fun tables =>
       exists leak_q a,
         fst tables = [leak_q] /\ length leak_q = 100%nat /\
         leak_q !! 0%nat = Some (Fin a) /\ a == 1) /\
  returns
    (raw_leak_columns log10_floor 1 [3] (replicate 100 [0; 0; 0; 0]))
    (fun columns =>
       exists column total,
         columns = [column] /\ Np.np_sum column = Fin total /\ total == 0) /\
  _TrackChargeTrap log10_floor 1 [3] (replicate 100 [0; 0; 0; 0])
    = Ok ([replicate 100 NonFin], [replicate 100 NonFin]).
Proof.
  split; [| split; [| split]].
  - eexists. split; [vm_compute; reflexivity |].
    do 2 eexists. split; [reflexivity |]. split; vm_compute; reflexivity.
  - eexists. split; [vm_compute; reflexivity |].
    do 2 eexists. split; [reflexivity |]. split; [reflexivity |].
    split; [reflexivity |]. vm_compute. reflexivity.
  - eexists. split; [vm_compute; reflexivity |].
    do 2 eexists. split; [reflexivity |]. split; vm_compute; reflexivity.
  - vm_compute. reflexivity.
Qed.

(** *** Shapes and entries of the arrays the loop writes *)

Lemma same_shape_shaped {A B} h w (a : list (list A)) (b : list (list B)) :
  Np.same_shape a b -> Np.shaped h w b -> Np.shaped h w a.
Proof.
  unfold Np.same_shape, Np.shaped. intros H [Hl Hr]. split.
  - rewrite <- Hl. eapply Forall2_length; eauto.
  - clear Hl. induction H as [| r s a b Hrs _ IH]; constructor;
      inversion Hr; subst; auto.
Qed.

Lemma model100_three_rows (r1 r2 r3 : list Q) (readNoise : Q) :
  model100 [r1; r2; r3] readNoise = Raise ValueError.
Proof. reflexivity. Qed.

Lemma model100_four_rows (r1 r2 r3 r4 : list Q) (readNoise : Q) :
  model100 [r1; r2; r3; r4] readNoise = Raise ValueError.
Proof. reflexivity. Qed.

(** Whenever the separation returns, both arrays have the shape of the
    input. *)
Lemma DecomposeRN_Ok_shaped h w (data_e : array) (model nitrn : Z)
    (readNoise : Q) (sigArr nseArr : array) :
  Np.shaped h w data_e ->
  _DecomposeRN data_e model nitrn readNoise = Ok (sigArr, nseArr) ->
  Np.shaped h w sigArr /\ Np.shaped h w nseArr.
Proof.
  intros Hd Hok.
  enough (separated data_e (sigArr, nseArr)) as (Hs & Hn & _)
    by (split; eapply same_shape_shaped; eauto).
  unfold _DecomposeRN in Hok.
  destruct (model =? 1)%Z; [| destruct (model =? 100)%Z].
  - destruct (decide (h = 0%nat)) as [-> | Hh].
    + destruct Hd as [Hl _]. apply nil_length_inv in Hl. subst data_e.
      discriminate Hok.
    + destruct (model1_separated h w data_e nitrn Hd ltac:(lia))
        as (out & Hout & Hsep).
      rewrite Hok in Hout. now injection Hout as <-.
  - destruct (decide (h = 3%nat)) as [-> | H3];
      [| destruct (decide (h = 4%nat)) as [-> | H4]].
    + destruct Hd as [Hl _].
      destruct data_e as [| r1 [| r2 [| r3 [| ? ?]]]]; try discriminate Hl.
      rewrite model100_three_rows in Hok. discriminate Hok.
    + destruct Hd as [Hl _].
      destruct data_e as [| r1 [| r2 [| r3 [| r4 [| ? ?]]]]]; try discriminate Hl.
      rewrite model100_four_rows in Hok. discriminate Hok.
    + destruct (model100_separated h w data_e readNoise Hd H3 H4)
        as (out & Hout & Hsep).
      rewrite Hok in Hout. now injection Hout as <-.
  - injection Hok as <- <-. repeat split; simpl.
    + apply same_shape_refl.
    + apply zeros_like_same_shape.
    + apply add_zeros_like.
Qed.

Lemma item_map2 (f : Q -> Q -> Q) h w (a b : array) (r c : nat) :
  Np.shaped h w a -> Np.shaped h w b -> (r < h)%nat -> (c < w)%nat ->
  Np.item (Np.map2 f a b) r c = f (Np.item a r c) (Np.item b r c).
Proof.
  intros [Ha Hra] [Hb Hrb] Hr Hc. unfold Np.item, Np.map2.
  destruct (lookup_lt_is_Some_2 a r ltac:(lia)) as [ra Hla].
  destruct (lookup_lt_is_Some_2 b r ltac:(lia)) as [rb Hlb].
  pose proof (Forall_lookup_1 _ _ _ _ Hra Hla) as Hwa.
  pose proof (Forall_lookup_1 _ _ _ _ Hrb Hlb) as Hwb.
  cbv beta in Hwa, Hwb.
  destruct (lookup_lt_is_Some_2 ra c ltac:(lia)) as [x Hx].
  destruct (lookup_lt_is_Some_2 rb c ltac:(lia)) as [y Hy].
  rewrite lookup_zip_with, Hla, Hlb. cbn [mbind option_bind].
  rewrite lookup_zip_with, Hx, Hy. reflexivity.
Qed.

Lemma item_amap (f : Q -> Q) h w (a : array) (r c : nat) :
  Np.shaped h w a -> (r < h)%nat -> (c < w)%nat ->
  Np.item (Np.amap f a) r c = f (Np.item a r c).
Proof.
  intros [Ha Hra] Hr Hc. unfold Np.item, Np.amap.
  destruct (lookup_lt_is_Some_2 a r ltac:(lia)) as [ra Hla].
  pose proof (Forall_lookup_1 _ _ _ _ Hra Hla) as Hwa. cbv beta in Hwa.
  destruct (lookup_lt_is_Some_2 ra c ltac:(lia)) as [x Hx].
  change (map (map f) a) with (fmap (M := list) (fmap (M := list) f) a).
  rewrite list_lookup_fmap, Hla. cbn [fmap option_fmap option_map mbind option_bind].
  rewrite list_lookup_fmap, Hx. reflexivity.
Qed.

(** Arrays of one shape: numpy pairs the entries, and the write takes the
    array as it is. *)
Lemma broadcast_rows {A B C} (f : A -> B -> C)
    (a : list (list A)) (b : list (list B)) :
  Np.same_shape a b ->
  mapM (fun p => Np.broadcast_row f p.1 p.2) (zip a b) = Ok (Np.map2 f a b).
Proof.
  induction 1 as [| ra rb a b Hr _ IH]; [reflexivity |].
  change (zip (ra :: a) (rb :: b)) with ((ra, rb) :: zip a b).
  cbn [mapM fst snd]. rewrite IH. unfold Np.broadcast_row.
  rewrite decide_True by exact Hr. reflexivity.
Qed.

Lemma broadcast_shaped {A B C} (f : A -> B -> C) h w
    (a : list (list A)) (b : list (list B)) :
  Np.shaped h w a -> Np.shaped h w b ->
  Np.broadcast f a b = Ok (Np.map2 f a b).
Proof.
  intros Ha Hb. unfold Np.broadcast.
  rewrite decide_True by (destruct Ha, Hb; congruence).
  apply broadcast_rows. exact (shaped_same_shape h w a b Ha Hb).
Qed.

Lemma assign_rows {A} (a v : list (list A)) :
  Np.same_shape v a ->
  mapM (fun p => Np.assign_row p.1 p.2) (zip a v) = Ok v.
Proof.
  induction 1 as [| rv ra v a Hr _ IH]; [reflexivity |].
  change (zip (ra :: a) (rv :: v)) with ((ra, rv) :: zip a v).
  cbn [mapM fst snd]. rewrite IH. unfold Np.assign_row.
  rewrite decide_True by exact Hr. reflexivity.
Qed.

Lemma assign_all_shaped {A} h w (a v : list (list A)) :
  Np.shaped h w a -> Np.shaped h w v -> Np.assign_all a v = Ok v.
Proof.
  intros Ha Hv. unfold Np.assign_all.
  rewrite decide_True by (destruct Ha, Hv; congruence).
  apply assign_rows. exact (shaped_same_shape h w v a Hv Ha).
Qed.

(** The buffer keeps its shape, whatever is written into it. *)
Lemma fill_row_length {A} (buf out : list A) :
  length (Np.fill_row buf out) = length buf.
Proof.
  unfold Np.fill_row. rewrite length_app, length_take, length_drop. lia.
Qed.

Lemma fill_shaped {A} h w (buf out : list (list A)) :
  Np.shaped h w buf -> Np.shaped h w (Np.fill buf out).
Proof.
  intros [Hl Hr]. unfold Np.fill. split.
  - rewrite length_app, length_zip_with, length_drop. lia.
  - apply Forall_app. split.
    + apply Forall_lookup. intros i r Hi.
      apply lookup_zip_with_Some in Hi as (x & y & -> & Hx & _).
      rewrite fill_row_length. exact (Forall_lookup_1 _ _ _ _ Hr Hx).
    + now apply Forall_drop.
Qed.

(** A buffer that the kernel has filled entirely holds what it wrote. *)
Lemma fill_same_shape {A} (buf out : list (list A)) :
  Np.same_shape buf out -> Np.fill buf out = out.
Proof.
  unfold Np.fill. induction 1 as [| rb ro buf out Hr Hs IH]; [reflexivity |].
  cbn [zip_with length drop app]. f_equal; [| exact IH].
  unfold Np.fill_row. rewrite Hr, firstn_all, <- Hr, drop_all.
  apply app_nil_r.
Qed.

(** A pass that reached the call of the C extension has separated a noise
    array of the shape of the quadrant, and its buffer has that shape. *)
Lemma call_kernel_shaped FixYCte tb cfg h w (sciAmpOrig : array)
    (amp : string) (g : Q) (sciAmpNse sciAmpCor : array) (retCode : Z) :
  Np.shaped h w sciAmpOrig ->
  call_kernel FixYCte tb cfg sciAmpOrig amp =
    Ok (g, sciAmpNse, sciAmpCor, retCode) ->
  Np.shaped h w sciAmpNse /\ Np.shaped h w sciAmpCor.
Proof.
  intros Hd Hk. unfold call_kernel in Hk.
  destruct (dict_getitem (gain cfg) amp) as [g' |]; [| discriminate Hk].
  rewrite bind_Ok in Hk.
  destruct (dict_getitem (rdns cfg) amp) as [rn |]; [| discriminate Hk].
  rewrite bind_Ok in Hk.
  destruct (_DecomposeRN sciAmpOrig (noise cfg) (rn2_nit cfg) rn)
    as [[sig nse] |] eqn:Hdec; [| discriminate Hk].
  rewrite bind_Ok in Hk. cbv zeta in Hk.
  destruct (FixYCte _ _ _ _ _ _ _) as [cor ret].
  injection Hk as <- <- <- <-. split.
  - eapply DecomposeRN_Ok_shaped; eauto.
  - apply fill_shaped. unfold Np.zeros_like. now apply shaped_amap.
Qed.

(** ** [YCte]: the loop over the amplifiers *)

Section AmpLoop.

Variable sqrt : Q -> Q.
Variable FixYCte :
  list (list npfloat) -> Z -> list Z -> list (list npfloat) ->
  list (list npfloat) -> string -> string -> array * Z.
Variables (tb : tables) (cfg : settings).

Let kernel := call_kernel FixYCte tb cfg.
Let step := correct_amp sqrt FixYCte tb cfg.

(** What one pass of the loop makes of the quadrant of [amp], on a science
    and an error array of one shape. *)
Lemma correct_amp_outcome (qd : quadrants) (amp : string) (h w : nat)
    (sciAmpOrig errAmpSig : array) (g : Q) (sciAmpNse sciAmpCor : array)
    (retCode : Z) :
  sciQuadData qd !! amp = Some sciAmpOrig ->
  errQuadData qd !! amp = Some errAmpSig ->
  Np.shaped h w sciAmpOrig ->
  Np.shaped h w errAmpSig ->
  kernel sciAmpOrig amp = Ok (g, sciAmpNse, sciAmpCor, retCode) ->
  step qd amp =
  Ok (if decide (retCode = 0%Z)
      then {| sciQuadData :=
                <[amp := Np.amap (astype_sci cfg amp)
                           (sciAmpFin_of g sciAmpCor sciAmpNse)]>
                  (sciQuadData qd);
              errQuadData :=
                <[amp := Np.amap (astype_err cfg amp)
                           (errAmpFin_of sqrt errAmpSig
                              (sciAmpFin_of g sciAmpCor sciAmpNse) sciAmpOrig)]>
                  (errQuadData qd);
              failed := failed qd |}
      else {| sciQuadData := sciQuadData qd;
              errQuadData := errQuadData qd;
              failed := failed qd ++ [amp] |}).
Proof.
  intros Hsci Herr Ho He Hk. unfold step, correct_amp, dict_getitem.
  rewrite Hsci, bind_Ok. fold kernel. rewrite Hk, bind_Ok.
  destruct (decide (retCode = 0%Z)) as [-> | Hne];
    [| apply Z.eqb_neq in Hne; rewrite Hne; reflexivity].
  cbn [Z.eqb negb].
  destruct (call_kernel_shaped _ _ _ _ _ _ _ _ _ _ _ Ho Hk) as [Hn Hc].
  assert (Np.shaped h w (sciAmpFin_of g sciAmpCor sciAmpNse)) as Hfin
    by (apply shaped_map2; [now apply shaped_amap | exact Hn]).
  assert (Np.shaped h w
            (errAmpFin_of sqrt errAmpSig
               (sciAmpFin_of g sciAmpCor sciAmpNse) sciAmpOrig)) as Hefin
    by (apply shaped_map2; [exact He |];
        apply shaped_amap; now apply shaped_map2).
  rewrite (broadcast_shaped _ h w) by (try apply shaped_amap; assumption).
  rewrite bind_Ok. fold (sciAmpFin_of g sciAmpCor sciAmpNse).
  rewrite (assign_all_shaped h w) by (try apply shaped_amap; assumption).
  rewrite bind_Ok.
  rewrite (broadcast_shaped _ h w) by assumption.
  rewrite bind_Ok, Herr, bind_Ok.
  rewrite (broadcast_shaped _ h w)
    by (try apply shaped_amap; try apply shaped_map2; assumption).
  rewrite bind_Ok.
  fold (Np.sub (sciAmpFin_of g sciAmpCor sciAmpNse) sciAmpOrig).
  fold (errAmpFin_of sqrt errAmpSig
          (sciAmpFin_of g sciAmpCor sciAmpNse) sciAmpOrig).
  rewrite (assign_all_shaped h w) by (try apply shaped_amap; assumption).
  reflexivity.
Qed.

Let runnable := runnable FixYCte tb cfg.
Let settled := settled sqrt FixYCte tb cfg.

Lemma correct_amps_outcome (ampList : list string) (qd : quadrants) :
  NoDup ampList ->
  (forall amp, amp ∈ ampList -> runnable qd amp) ->
  exists qd',
    correct_amps sqrt FixYCte tb cfg ampList qd = Ok qd' /\
    (forall amp, amp ∉ ampList ->
       sciQuadData qd' !! amp = sciQuadData qd !! amp /\
       errQuadData qd' !! amp = errQuadData qd !! amp) /\
    (forall amp, amp ∈ failed qd -> amp ∈ failed qd') /\
    (forall amp, amp ∈ ampList -> settled qd qd' amp).
Proof.
  intros Hnd. revert qd.
  induction Hnd as [| a l Ha Hnd IH]; intros qd Hrun.
  - exists qd. split; [reflexivity |]. split; [auto |]. split; [auto |].
    intros amp Hin. apply elem_of_nil in Hin. contradiction.
  - destruct (Hrun a ltac:(left))
      as (orig & e & [[[g nse] cor] ret] & h & w & Hs & He & Ho & Hes & Hk).
    unfold correct_amps. cbn [foldM]. fold step.
    rewrite (correct_amp_outcome qd a h w orig e g nse cor ret Hs He Ho Hes Hk),
      bind_Ok.
    set (qd1 := if decide (ret = 0%Z) then _ else _).
    assert (forall amp, amp <> a ->
              sciQuadData qd1 !! amp = sciQuadData qd !! amp /\
              errQuadData qd1 !! amp = errQuadData qd !! amp) as Hframe.
    { intros amp Hne. subst qd1. destruct (decide (ret = 0%Z)); cbn.
      - now rewrite !lookup_insert_ne by congruence.
      - auto. }
    assert (forall amp, amp ∈ failed qd -> amp ∈ failed qd1) as Hfail.
    { intros amp Hin. subst qd1. destruct (decide (ret = 0%Z)); cbn; [auto |].
      apply elem_of_app. now left. }
    destruct (IH qd1) as (qd' & Hloop & Hout & Hfail' & Hset).
    { intros amp Hin. assert (amp <> a) as Hne by (intros ->; contradiction).
      destruct (Hrun amp ltac:(now right))
        as (o & e' & r & h' & w' & ? & ? & ? & ? & ?).
      destruct (Hframe amp Hne) as [Hf1 Hf2]. exists o, e', r, h', w'.
      rewrite Hf1, Hf2. auto. }
    unfold correct_amps in Hloop. fold step in Hloop. rewrite Hloop.
    exists qd'. split; [reflexivity |]. split; [| split].
    + intros amp Hnin. apply not_elem_of_cons in Hnin as [Hne Hnl].
      destruct (Hout amp Hnl) as [-> ->]. now apply Hframe.
    + auto.
    + intros amp Hin. apply elem_of_cons in Hin as [-> | Hin].
      * intros o e' g' nse' cor' ret' Hs' He' Hk'.
        rewrite Hs in Hs'. injection Hs' as <-.
        rewrite He in He'. injection He' as <-.
        rewrite Hk in Hk'. injection Hk' as <- <- <- <-.
        destruct (Hout a Ha) as [Ho1 Ho2]. rewrite Ho1, Ho2.
        subst qd1. split; intros Hret.
        -- rewrite decide_False in * by exact Hret. cbn.
           repeat split; auto. apply Hfail'. cbn. apply elem_of_app. right.
           now apply list_elem_of_singleton.
        -- rewrite decide_True in * by exact Hret. cbn.
           now rewrite !lookup_insert_eq.
      * assert (amp <> a) as Hne by (intros ->; contradiction).
        intros o e' g' nse' cor' ret' Hs' He' Hk'.
        destruct (Hframe amp Hne) as [Hf1 Hf2].
        apply (Hset amp Hin o e' g' nse' cor' ret'); [congruence | congruence | exact Hk'].
Qed.

End AmpLoop.

(** The loop on the exposure of the examples: amplifier A is corrected by
    20 electrons and its error goes from 0 to 2; amplifier B fails and is
    passed through. *)
Example correct_amps_two_quadrants :
  exists qd' sciA,
    correct_amps sqrt_floor FixYCte_plus10 no_tables gain_two two_amps
      two_quadrants = Ok qd' /\
    sciQuadData qd' !! "A"%string = Some sciA /\
    Np.array_eq sciA [[50; 60]; [70; 80]] /\
    errQuadData qd' !! "A"%string = Some [[2; 2]; [2; 2]] /\
    sciQuadData qd' !! "B"%string = Some [[31; 41]; [51; 61]] /\
    errQuadData qd' !! "B"%string = Some [[1; 1]; [1; 1]] /\
    failed qd' = ["B"%string].
Proof.
  eexists _, _. split; [vm_compute; reflexivity |].
  split; [vm_compute; reflexivity |].
  split; [repeat constructor |].
  repeat split; vm_compute; reflexivity.
Qed.

(** An error array that has not the shape of the science array: the sum
    [errAmpSig**2 + dcte**2] cannot be broadcast, and the loop ends with
    [ValueError].  An error array of one row is repeated in the sum, and
    the write into it raises. *)
Example correct_amps_shape_mismatch_raises :
  correct_amps sqrt_floor FixYCte_plus10 no_tables gain_two ["A"%string]
    {| sciQuadData := {[ "A"%string := [[30; 40]; [50; 60]] ]};
       errQuadData := {[ "A"%string := [[0; 0]; [0; 0]; [0; 0]] ]};
       failed := [] |} = Raise ValueError /\
  correct_amps sqrt_floor FixYCte_plus10 no_tables gain_two ["A"%string]
    {| sciQuadData := {[ "A"%string := [[30; 40]; [50; 60]] ]};
       errQuadData := {[ "A"%string := [[0; 0]] ]};
       failed := [] |} = Raise ValueError.
Proof. split; vm_compute; reflexivity. Qed.

(** The quadrants of the examples are of two by two pixels, and their
    passes reach the call of the kernel. *)
Lemma two_quadrants_runnable (amp : string) :
  amp ∈ two_amps -> runnable FixYCte_plus10 no_tables gain_two two_quadrants amp.
Proof.
  intros Hin. unfold two_amps in Hin.
  apply elem_of_cons in Hin as [-> | Hin];
    [| apply list_elem_of_singleton in Hin as ->].
  - eexists _, _, _, 2%nat, 2%nat. split; [reflexivity |]. split; [reflexivity |].
    split; [split; [reflexivity | repeat constructor] |].
    split; [split; [reflexivity | repeat constructor] |].
    vm_compute. reflexivity.
  - eexists _, _, _, 2%nat, 2%nat. split; [reflexivity |]. split; [reflexivity |].
    split; [split; [reflexivity | repeat constructor] |].
    split; [split; [reflexivity | repeat constructor] |].
    vm_compute. reflexivity.
Defined.

(** C2.  The loop over the amplifiers, run on quadrants whose science and
    error arrays have one shape and whose pass reaches the call of the C
    extension, returns: no status of the kernel ends it.  A quadrant for
    which the kernel returned a status other than 0 keeps its science array
    and its error array as they were before the loop and is reported as
    failed; a quadrant of the same run for which it returned 0 holds the
    corrected signal, in electrons, with the noise added back, cast to the
    dtype of the science array. *)
Theorem YCte_failed_quadrant_passes_through (sqrt : Q -> Q)
    (FixYCte : list (list npfloat) -> Z -> list Z -> list (list npfloat) ->
               list (list npfloat) -> string -> string -> array * Z)
    (tb : tables) (cfg : settings) (ampList : list string) (qd : quadrants) :
  NoDup ampList ->
  (forall amp, amp ∈ ampList -> runnable FixYCte tb cfg qd amp) ->
  exists qd',
    correct_amps sqrt FixYCte tb cfg ampList qd = Ok qd' /\
    forall amp sciAmpOrig g sciAmpNse sciAmpCor retCode,
      amp ∈ ampList ->
      sciQuadData qd !! amp = Some sciAmpOrig ->
      call_kernel FixYCte tb cfg sciAmpOrig amp =
        Ok (g, sciAmpNse, sciAmpCor, retCode) ->
      (retCode <> 0%Z ->
         sciQuadData qd' !! amp = sciQuadData qd !! amp /\
         errQuadData qd' !! amp = errQuadData qd !! amp /\
         amp ∈ failed qd') /\
      (retCode = 0%Z ->
         sciQuadData qd' !! amp =
           Some (Np.amap (astype_sci cfg amp)
                   (sciAmpFin_of g sciAmpCor sciAmpNse))).
Proof.
  intros Hnd Hrun.
  destruct (correct_amps_outcome sqrt FixYCte tb cfg ampList qd Hnd Hrun)
    as (qd' & Hloop & _ & _ & Hset).
  exists qd'. split; [exact Hloop |].
  intros amp orig g nse cor ret Hin Hs Hk.
  destruct (Hrun amp Hin) as (orig' & e & r & h & w & Hs' & He & _).
  destruct (Hset amp Hin orig e g nse cor ret Hs He Hk) as [Hfail Hdone].
  split; intros Hret.
  - destruct (Hfail Hret) as (H1 & H2 & H3). rewrite H1, H2, Hs, He. auto.
  - now destruct (Hdone Hret).
Qed.

Lemma YCte_failed_quadrant_passes_through_witness :
  exists qd',
    correct_amps sqrt_floor FixYCte_plus10 no_tables gain_two two_amps
      two_quadrants = Ok qd' /\
    forall amp sciAmpOrig g sciAmpNse sciAmpCor retCode,
      amp ∈ two_amps ->
      sciQuadData two_quadrants !! amp = Some sciAmpOrig ->
      call_kernel FixYCte_plus10 no_tables gain_two sciAmpOrig amp =
        Ok (g, sciAmpNse, sciAmpCor, retCode) ->
      (retCode <> 0%Z ->
         sciQuadData qd' !! amp = sciQuadData two_quadrants !! amp /\
         errQuadData qd' !! amp = errQuadData two_quadrants !! amp /\
         amp ∈ failed qd') /\
      (retCode = 0%Z ->
         sciQuadData qd' !! amp =
           Some (Np.amap (astype_sci gain_two amp)
                   (sciAmpFin_of g sciAmpCor sciAmpNse))).
Proof.
  apply (YCte_failed_quadrant_passes_through sqrt_floor FixYCte_plus10
           no_tables gain_two two_amps two_quadrants).
  - apply (bool_decide_unpack _). vm_compute. reflexivity.
  - exact two_quadrants_runnable.
Defined.

(** C3 as stated fails on a science array of integers: the kernel leaves
    10 DN, at a gain of 10.05 the corrected value is 100.5 electrons and
    the pixel written is 100.  The error written is the integer part of the
    root of [4.5^2 + 10.05^2], which is 11, and not that of
    [4.5^2 + 10^2], which is 10: the roots themselves differ where their
    integer parts do. *)
Lemma YCte_error_from_value_before_cast :
  exists qd' sciAmpNew errAmpNew,
    correct_amps sqrt_floor FixYCte_plus10 no_tables gain_integer_pixels
      ["A"%string] one_pixel = Ok qd' /\
    sciQuadData qd' !! "A"%string = Some sciAmpNew /\
    errQuadData qd' !! "A"%string = Some errAmpNew /\
    Np.item sciAmpNew 0 0 == 100 /\
    Np.item errAmpNew 0 0 == 11 /\
    ~ Np.item errAmpNew 0 0 ==
        sqrt_floor (4.5 ^ 2 + (0.1 * Qabs (Np.item sciAmpNew 0 0 - 0)) ^ 2).
Proof.
  eexists _, _, _. split; [vm_compute; reflexivity |].
  split; [vm_compute; reflexivity |]. split; [vm_compute; reflexivity |].
  split; [reflexivity |]. split; [reflexivity |].
  vm_compute. discriminate.
Qed.

(** C3.  For every quadrant of the run for which the kernel returned 0, on
    a science and an error array of one shape: the loop leaves the quadrant
    with arrays of that shape.  With [corrected] the corrected signal times
    the gain plus the noise, as computed, the pixel of the science array is
    [corrected] cast to the dtype of the science array, and the pixel of the
    error array is [sqrt (err^2 + (0.1 * |corrected - original|)^2)] cast to
    the dtype of the error array, for the pixel [err] of the error array
    and the pixel [original] of the science array before the loop. *)
Theorem YCte_error_in_quadrature (sqrt : Q -> Q)
    (FixYCte : list (list npfloat) -> Z -> list Z -> list (list npfloat) ->
               list (list npfloat) -> string -> string -> array * Z)
    (tb : tables) (cfg : settings) (ampList : list string) (qd : quadrants) :
  NoDup ampList ->
  (forall amp, amp ∈ ampList -> runnable FixYCte tb cfg qd amp) ->
  exists qd',
    correct_amps sqrt FixYCte tb cfg ampList qd = Ok qd' /\
    forall amp h w sciAmpOrig errAmpSig g sciAmpNse sciAmpCor,
      amp ∈ ampList ->
      sciQuadData qd !! amp = Some sciAmpOrig ->
      errQuadData qd !! amp = Some errAmpSig ->
      call_kernel FixYCte tb cfg sciAmpOrig amp =
        Ok (g, sciAmpNse, sciAmpCor, 0%Z) ->
      Np.shaped h w sciAmpOrig ->
      Np.shaped h w errAmpSig ->
      exists sciAmpNew errAmpNew,
        sciQuadData qd' !! amp = Some sciAmpNew /\
        errQuadData qd' !! amp = Some errAmpNew /\
        Np.shaped h w sciAmpNew /\
        Np.shaped h w errAmpNew /\
        forall r c, (r < h)%nat -> (c < w)%nat ->
          Np.item sciAmpNew r c =
            astype_sci cfg amp
              (Np.item sciAmpCor r c * g + Np.item sciAmpNse r c) /\
          Np.item errAmpNew r c =
            astype_err cfg amp
              (sqrt (Np.item errAmpSig r c ^ 2 +
                     (0.1 * Qabs (Np.item sciAmpCor r c * g
                                  + Np.item sciAmpNse r c
                                  - Np.item sciAmpOrig r c)) ^ 2)).
Proof.
  intros Hnd Hrun.
  destruct (correct_amps_outcome sqrt FixYCte tb cfg ampList qd Hnd Hrun)
    as (qd' & Hloop & _ & _ & Hset).
  exists qd'. split; [exact Hloop |].
  intros amp h w orig e g nse cor Hin Hs He Hk Ho Hes.
  destruct (Hset amp Hin orig e g nse cor 0%Z Hs He Hk) as [_ Hdone].
  destruct (Hdone eq_refl) as [Hsci Herr].
  destruct (call_kernel_shaped _ _ _ _ _ _ _ _ _ _ _ Ho Hk) as [Hn Hc].
  assert (Np.shaped h w (Np.amap (fun c => c * g) cor)) as Hcg
    by now apply shaped_amap.
  assert (Np.shaped h w (sciAmpFin_of g cor nse)) as Hfin
    by (unfold sciAmpFin_of, Np.add; now apply shaped_map2).
  assert (Np.shaped h w (Np.sub (sciAmpFin_of g cor nse) orig)) as Hsub
    by (unfold Np.sub; now apply shaped_map2).
  assert (Np.shaped h w
            (Np.amap (fun d => 0.1 * Qabs d)
               (Np.sub (sciAmpFin_of g cor nse) orig))) as Hdcte
    by now apply shaped_amap.
  assert (Np.shaped h w (errAmpFin_of sqrt e (sciAmpFin_of g cor nse) orig))
    as Hefin by (unfold errAmpFin_of; now apply shaped_map2).
  assert (forall r c, (r < h)%nat -> (c < w)%nat ->
            Np.item (sciAmpFin_of g cor nse) r c
            = Np.item cor r c * g + Np.item nse r c) as Hpix.
  { intros r c Hr Hcw. unfold sciAmpFin_of, Np.add.
    rewrite (item_map2 _ h w) by assumption.
    now rewrite (item_amap _ h w) by assumption. }
  eexists _, _.
  split; [exact Hsci |]. split; [exact Herr |].
  split; [now apply shaped_amap |]. split; [now apply shaped_amap |].
  intros r c Hr Hcw. split.
  - rewrite (item_amap _ h w) by assumption. now rewrite Hpix.
  - rewrite (item_amap _ h w) by assumption. f_equal.
    unfold errAmpFin_of. cbv zeta.
    rewrite (item_map2 _ h w) by assumption.
    rewrite (item_amap _ h w) by assumption.
    unfold Np.sub at 1. rewrite (item_map2 _ h w) by assumption.
    now rewrite Hpix.
Qed.

Lemma YCte_error_in_quadrature_witness :
  exists qd',
    correct_amps sqrt_floor FixYCte_plus10 no_tables gain_two two_amps
      two_quadrants = Ok qd' /\
    forall amp h w sciAmpOrig errAmpSig g sciAmpNse sciAmpCor,
      amp ∈ two_amps ->
      sciQuadData two_quadrants !! amp = Some sciAmpOrig ->
      errQuadData two_quadrants !! amp = Some errAmpSig ->
      call_kernel FixYCte_plus10 no_tables gain_two sciAmpOrig amp =
        Ok (g, sciAmpNse, sciAmpCor, 0%Z) ->
      Np.shaped h w sciAmpOrig ->
      Np.shaped h w errAmpSig ->
      exists sciAmpNew errAmpNew,
        sciQuadData qd' !! amp = Some sciAmpNew /\
        errQuadData qd' !! amp = Some errAmpNew /\
        Np.shaped h w sciAmpNew /\
        Np.shaped h w errAmpNew /\
        forall r c, (r < h)%nat -> (c < w)%nat ->
          Np.item sciAmpNew r c =
            astype_sci gain_two amp
              (Np.item sciAmpCor r c * g + Np.item sciAmpNse r c) /\
          Np.item errAmpNew r c =
            astype_err gain_two amp
              (sqrt_floor (Np.item errAmpSig r c ^ 2 +
                           (0.1 * Qabs (Np.item sciAmpCor r c * g
                                        + Np.item sciAmpNse r c
                                        - Np.item sciAmpOrig r c)) ^ 2)).
Proof.
  apply (YCte_error_in_quadrature sqrt_floor FixYCte_plus10
           no_tables gain_two two_amps two_quadrants).
  - apply (bool_decide_unpack _). vm_compute. reflexivity.
  - exact two_quadrants_runnable.
Defined.

(** * Further properties of the module *)

(** ** [_TrackChargeTrap] on a physical leak profile *)

Lemma lp_of_finite (log10 : Q -> Q) (p : Q) :
  0 <= p -> exists v, lp_of log10 p = Fin v /\ 1 <= v /\ v <= 4.
Proof.
  intros Hp. unfold lp_of.
  destruct (Qlt_bool p 0) eqn:E; [apply Qlt_bool_iff in E; lra |].
  destruct (Qeq_bool p 0).
  - exists lp_min. unfold lp_min. repeat split; lra.
  - eexists. split; [reflexivity |].
    apply (np_clip_bounds (log10 p) lp_min lp_max). unfold lp_min, lp_max. lra.
Qed.

Lemma k_of_interval (v : Q) :
  1 <= v -> v <= 4 ->
  (0 <= k_of (Fin v) <= 2)%Z /\
  0 <= v - inject_Z (k_of (Fin v) + 1) /\ v - inject_Z (k_of (Fin v) + 1) <= 1.
Proof.
  intros H1 H4. unfold k_of.
  destruct (Qlt_bool v 2) eqn:E2.
  - apply Qlt_bool_iff in E2. change (inject_Z (0 + 1)) with 1.
    split; [lia |]. split; lra.
  - apply Qlt_bool_false in E2. destruct (Qle_bool 3 v) eqn:E3.
    + apply Qle_bool_iff in E3. change (inject_Z (2 + 1)) with 3.
      split; [lia |]. split; lra.
    + apply Qle_bool_false in E3. change (inject_Z (1 + 1)) with 2.
      split; [lia |]. split; lra.
Qed.

Lemma getitem2_item h w (a : array) (t k : nat) :
  Np.shaped h w a -> (t < h)%nat -> (k < w)%nat ->
  Np.getitem2 a (Z.of_nat t) (Z.of_nat k) = Ok (Np.item a t k).
Proof.
  intros [Hl Hr] Ht Hk. unfold Np.getitem2, Np.item, getitem.
  destruct (lookup_lt_is_Some_2 a t ltac:(lia)) as [row Hrow].
  pose proof (Forall_lookup_1 _ _ _ _ Hr Hrow) as Hw. cbv beta in Hw.
  destruct (lookup_lt_is_Some_2 row k ltac:(lia)) as [x Hx].
  rewrite py_index_nonneg by lia. rewrite bind_Ok, Nat2Z.id, Hrow, bind_Ok.
  rewrite py_index_nonneg by lia. rewrite bind_Ok, Nat2Z.id, Hx.
  cbn [mbind option_bind default]. rewrite Hx. reflexivity.
Qed.

Lemma zrange_len_seq (s n : nat) :
  zrange_len (Z.of_nat s) n = map Z.of_nat (seq s n).
Proof.
  revert s. induction n as [| n IH]; intros s; [reflexivity |].
  cbn [zrange_len seq map]. f_equal.
  replace (Z.of_nat s + 1)%Z with (Z.of_nat (S s)) by lia. apply IH.
Qed.

Lemma mapM_Ok_map {A B} (f : A -> result B) (g : A -> B) (l : list A) :
  Forall (fun x => f x = Ok (g x)) l -> mapM f l = Ok (map g l).
Proof.
  induction 1 as [| x l Hx _ IH]; [reflexivity |].
  cbn [mapM map]. now rewrite Hx, bind_Ok, IH, bind_Ok.
Qed.

Lemma sum_ge_entry (l : list Q) (s x : Q) (i : nat) :
  Forall (fun v => 0 <= v) l -> l !! i = Some x ->
  s + x <= fold_left Qplus l s.
Proof.
  intros Hl. revert s i. induction Hl as [| a l Ha Hl IH]; intros s i Hi.
  - discriminate Hi.
  - destruct i as [| i]; cbn [fold_left].
    + injection Hi as ->. now apply fold_left_Qplus_ge.
    + specialize (IH (s + a) i Hi). lra.
Qed.

(** The entry at offset [t] of a column before the normalisation, for a
    finite [lp] in [1, 4]: it lies between two adjacent columns of the
    profile. *)
Lemma leak_entry_finite h w (chg_leak_kt : array) (v : Q) (t : nat) :
  Np.shaped h w chg_leak_kt -> (4 <= w)%nat -> (t < h)%nat ->
  1 <= v -> v <= 4 ->
  let k := Z.to_nat (k_of (Fin v)) in
  let flp := v - inject_Z (k_of (Fin v) + 1) in
  leak_entry chg_leak_kt (Fin v) (Z.of_nat t) =
    Ok (Fin (Np.item chg_leak_kt t k
             + flp * (Np.item chg_leak_kt t (S k) - Np.item chg_leak_kt t k))).
Proof.
  intros Hs Hw Ht H1 H4 k flp.
  destruct (k_of_interval v H1 H4) as [Hk _].
  unfold leak_entry. cbv zeta.
  assert (k_of (Fin v) = Z.of_nat k) as Hkk by (subst k; lia).
  assert ((k_of (Fin v) + 1)%Z = Z.of_nat (S k)) as Hk2 by (subst k; lia).
  assert (S k < w)%nat as Hkw by (subst k; lia).
  subst flp. rewrite Hk2, Hkk. clearbody k.
  rewrite (getitem2_item h w _ t k) by (try assumption; lia).
  rewrite bind_Ok. cbv beta.
  rewrite (getitem2_item h w _ t (S k)) by (try assumption; lia).
  rewrite bind_Ok. cbv beta.
  rewrite bind_Ok. reflexivity.
Qed.

Lemma item_nonneg (a : array) (t k : nat) :
  Forall (Forall (fun x => 0 <= x)) a -> 0 <= Np.item a t k.
Proof.
  intros Ha. unfold Np.item.
  destruct (a !! t) as [row |] eqn:Hrow; cbn [mbind option_bind default]; [| lra].
  destruct (row !! k) as [x |] eqn:Hx; cbn [default]; [| lra].
  exact (Forall_lookup_1 _ _ _ _ (Forall_lookup_1 _ _ _ _ Ha Hrow) Hx).
Qed.

Lemma item_pos (a : array) (row : list Q) (t k : nat) :
  a !! t = Some row -> Forall (fun x => 0 < x) row -> (k < length row)%nat ->
  0 < Np.item a t k.
Proof.
  intros Hrow Hpos Hk. unfold Np.item. rewrite Hrow.
  cbn [mbind option_bind].
  destruct (lookup_lt_is_Some_2 row k Hk) as [x Hx]. rewrite Hx.
  exact (Forall_lookup_1 _ _ _ _ Hpos Hx).
Qed.

Lemma convex_pos (a b f : Q) :
  0 < a -> 0 < b -> 0 <= f -> f <= 1 -> 0 < a + f * (b - a).
Proof.
  intros Ha Hb H0 H1.
  assert (0 <= (1 - f) * a) by (apply Qmult_le_0_compat; lra).
  assert (0 <= f * b) by (apply Qmult_le_0_compat; lra).
  destruct (Qlt_le_dec f 1) as [Hf | Hf].
  - assert (0 < (1 - f) * a) by (apply Qmult_lt_0_compat; lra).
    assert (a + f * (b - a) == (1 - f) * a + f * b) as -> by ring. lra.
  - assert (f == 1) as Hf1 by lra.
    assert (a + f * (b - a) == b + (f - 1) * (b - a)) as -> by ring.
    rewrite Hf1. assert ((1 - 1) * (b - a) == 0) as -> by ring. lra.
Qed.

Section LeakColumns.

Variables (h w : nat) (chg_leak_kt : array).
Hypothesis Hshape : Np.shaped h w chg_leak_kt.
Hypothesis Hcols : (4 <= w)%nat.

(** The column before the normalisation, for a finite [lp]. *)
Let raw_column (v : Q) : list Q :=
  let k := Z.to_nat (k_of (Fin v)) in
  let flp := v - inject_Z (k_of (Fin v) + 1) in
  map (fun t => Np.item chg_leak_kt t k
                + flp * (Np.item chg_leak_kt t (S k) - Np.item chg_leak_kt t k))
      (seq 0 h).

Lemma raw_column_computed (v : Q) :
  1 <= v -> v <= 4 ->
  mapM (leak_entry chg_leak_kt (Fin v)) (range 0 (Z.of_nat h))
    = Ok (map Fin (raw_column v)).
Proof.
  intros H1 H4. unfold range.
  replace (Z.to_nat (Z.of_nat h - 0)) with h by lia.
  change (zrange_len 0 h) with (zrange_len (Z.of_nat 0) h).
  rewrite (zrange_len_seq 0 h). unfold raw_column. cbv zeta.
  rewrite (mapM_Ok_map _
             (fun t => Fin (Np.item chg_leak_kt (Z.to_nat t) (Z.to_nat (k_of (Fin v)))
                + (v - inject_Z (k_of (Fin v) + 1))
                  * (Np.item chg_leak_kt (Z.to_nat t) (S (Z.to_nat (k_of (Fin v))))
                     - Np.item chg_leak_kt (Z.to_nat t) (Z.to_nat (k_of (Fin v))))))).
  - rewrite !map_map. f_equal. apply map_ext. intros t. now rewrite Nat2Z.id.
  - apply Forall_map. apply Forall_forall. intros t Ht.
    apply elem_of_seq in Ht. cbv beta. rewrite Nat2Z.id.
    apply (leak_entry_finite h w); auto. lia.
Qed.

Lemma raw_column_length (v : Q) : length (raw_column v) = h.
Proof. unfold raw_column. cbv zeta. now rewrite length_map, length_seq. Qed.

Lemma raw_column_nonneg (v : Q) :
  1 <= v -> v <= 4 ->
  Forall (Forall (fun x => 0 <= x)) chg_leak_kt ->
  Forall (fun x => 0 <= x) (raw_column v).
Proof.
  intros H1 H4 Hnn. destruct (k_of_interval v H1 H4) as (_ & Hf0 & Hf1).
  unfold raw_column. cbv zeta. apply Forall_map. apply Forall_forall.
  intros t _. cbv beta. apply convex_nonneg; auto using item_nonneg.
Qed.

Lemma raw_column_sum_pos (v : Q) (t0 : nat) (row : list Q) :
  1 <= v -> v <= 4 ->
  Forall (Forall (fun x => 0 <= x)) chg_leak_kt ->
  chg_leak_kt !! t0 = Some row -> Forall (fun x => 0 < x) row ->
  0 < Np.sum (raw_column v).
Proof.
  intros H1 H4 Hnn Hrow Hpos.
  destruct (k_of_interval v H1 H4) as (Hk & Hf0 & Hf1).
  destruct Hshape as [Hl Hr].
  pose proof (Forall_lookup_1 _ _ _ _ Hr Hrow) as Hw. cbv beta in Hw.
  pose proof (lookup_lt_Some _ _ _ Hrow) as Ht0.
  set (k := Z.to_nat (k_of (Fin v))).
  set (x := Np.item chg_leak_kt t0 k
            + (v - inject_Z (k_of (Fin v) + 1))
              * (Np.item chg_leak_kt t0 (S k) - Np.item chg_leak_kt t0 k)).
  assert (0 < x) as Hx.
  { subst x. apply convex_pos; auto; eapply item_pos; eauto; subst k; lia. }
  assert (raw_column v !! t0 = Some x) as Hlook.
  { unfold raw_column. cbv zeta. rewrite list_lookup_fmap.
    rewrite lookup_seq_lt by lia. reflexivity. }
  pose proof (sum_ge_entry _ 0 x t0 (raw_column_nonneg v H1 H4 Hnn) Hlook) as H.
  unfold Np.sum. lra.
Qed.

(** For a finite [lp] in [1, 4] and a profile without negative entries
    that has a row of positive entries: the column is computed, and its
    entries are finite, non-negative and of positive sum. *)
Lemma raw_column_physical (v : Q) (t0 : nat) (row : list Q) :
  1 <= v -> v <= 4 ->
  Forall (Forall (fun x => 0 <= x)) chg_leak_kt ->
  chg_leak_kt !! t0 = Some row -> Forall (fun x => 0 < x) row ->
  exists vals,
    mapM (leak_entry chg_leak_kt (Fin v)) (range 0 (Z.of_nat h))
      = Ok (map Fin vals) /\
    length vals = h /\ Forall (fun x => 0 <= x) vals /\ 0 < Np.sum vals.
Proof.
  intros H1 H4 Hnn Hrow Hpos. exists (raw_column v).
  split; [now apply raw_column_computed |].
  split; [apply raw_column_length |].
  split; [now apply raw_column_nonneg |].
  now apply (raw_column_sum_pos v t0 row).
Qed.

End LeakColumns.

Lemma mapM_Forall {A B} (f : A -> result B) (P : B -> Prop) (l : list A) :
  Forall (fun x => exists y, f x = Ok y /\ P y) l ->
  exists ys, mapM f l = Ok ys /\ length ys = length l /\ Forall P ys.
Proof.
  induction 1 as [| x l (y & Hy & HP) _ (ys & Hys & Hlen & HPs)].
  - exists []. auto.
  - exists (y :: ys). cbn [mapM length]. rewrite Hy, bind_Ok, Hys, bind_Ok.
    auto.
Qed.

(** For a leak profile of at least four columns without negative entries
    that has a row of positive entries, [QMAX] between 0 and the length of
    [pix_q_array], and no negative entry in [pix_q_array]: the table before
    the normalisation is computed, it has [QMAX] columns, and every column
    has finite, non-negative entries of positive sum. *)
Lemma raw_leak_columns_physical (log10 : Q -> Q) (QMAX : Z)
    (pix_q_array : list Q) (h w : nat) (chg_leak_kt : array)
    (t0 : nat) (row : list Q) :
  Np.shaped h w chg_leak_kt -> (4 <= w)%nat ->
  Forall (Forall (fun x => 0 <= x)) chg_leak_kt ->
  chg_leak_kt !! t0 = Some row -> Forall (fun x => 0 < x) row ->
  (0 <= QMAX <= Z.of_nat (length pix_q_array))%Z ->
  Forall (fun p => 0 <= p) pix_q_array ->
  exists columns,
    raw_leak_columns log10 QMAX pix_q_array chg_leak_kt = Ok columns /\
    length columns = Z.to_nat QMAX /\
    Forall (fun col => exists vals,
              col = map Fin vals /\ length vals = h /\
              Forall (fun x => 0 <= x) vals /\ 0 < Np.sum vals) columns.
Proof.
  intros Hshape Hw Hnn Hrow Hpos HQ Hpix.
  pose proof (lookup_lt_Some _ _ _ Hrow) as Ht0.
  pose proof Hshape as [Hlen _].
  unfold raw_leak_columns.
  destruct (QMAX <? 0)%Z eqn:E; [lia |].
  destruct (mapM_Forall
              (fun lpq => mapM (leak_entry chg_leak_kt lpq)
                            (range 0 (Z.of_nat (length chg_leak_kt))))
              (fun col => exists vals,
                 col = map Fin vals /\ length vals = h /\
                 Forall (fun x => 0 <= x) vals /\ 0 < Np.sum vals)
              (map (lp_of log10) (slice pix_q_array 0 QMAX)))
    as (columns & Hm & Hl & Hc).
  { apply Forall_map. apply Forall_slice.
    eapply Forall_impl; [exact Hpix |]. intros p Hp. cbv beta.
    destruct (lp_of_finite log10 p Hp) as (v & -> & H1 & H4).
    rewrite Hlen.
    destruct (raw_column_physical h w chg_leak_kt Hshape Hw v t0 row
                H1 H4 Hnn Hrow Hpos) as (vals & Hv & ?).
    exists (map Fin vals). split; [exact Hv |]. exists vals. auto. }
  rewrite Hm, bind_Ok.
  rewrite length_map, length_slice in Hl.
  assert (length columns = Z.to_nat QMAX) as Hcl
    by (rewrite Hl; slice_arith).
  exists columns. rewrite decide_False by lia. rewrite decide_True by exact Hcl.
  auto.
Qed.



(** Closed facts about every entry of a list of rationals. *)
Ltac forall_Q :=
  repeat first [ apply Forall_nil_2 | apply Forall_cons_2 ];
  try (vm_compute; first [ reflexivity | discriminate ]).


(** ** [_InterpolatePhi]: the mapping from trap counts back to charge levels *)

(** The assignments [pix_q_array[q - 1] = p1] of a list of pairs, made in
    order on an array [a], for trap counts [q >= 1]: every pair leaves at
    entry [q - 1] its own level or that of a later pair with the same [q],
    and an entry that no pair names is as it was. *)
Lemma assign_in_order (l : list (Z * Z)) (a a' : list Q) :
  Forall (fun qp => (1 <= fst qp)%Z) l ->
  foldM (fun a '(q, p1) =>
           j ← py_index (length a) (q - 1);
           Ok (<[j := inject_Z p1]> a)) l a = Ok a' ->
  length a' = length a /\
  Forall (fun qp => (fst qp <= Z.of_nat (length a))%Z) l /\
  (forall i q p1, l !! i = Some (q, p1) ->
     exists i' p1', (i <= i')%nat /\ l !! i' = Some (q, p1') /\
       a' !! Z.to_nat (q - 1) = Some (inject_Z p1')) /\
  (forall j : nat,
     (forall i q p1, l !! i = Some (q, p1) -> Z.to_nat (q - 1) <> j) ->
     a' !! j = a !! j).
Proof.
  intros Hl. revert a. induction Hl as [| [q0 p0] l Hq0 Hl IH]; intros a Hf.
  - cbn [foldM] in Hf. injection Hf as <-. split; [reflexivity |].
    split; [constructor |]. split; [intros i q p1 Hi; discriminate Hi | auto].
  - cbn [foldM fst] in *.
    destruct (py_index (length a) (q0 - 1)) as [j |] eqn:Hj; [| discriminate Hf].
    rewrite bind_Ok in Hf. cbv beta in Hf. rewrite bind_Ok in Hf.
    pose proof (py_index_lt _ _ _ Hj) as Hjlt.
    assert (j = Z.to_nat (q0 - 1)) as Hjeq.
    { unfold py_index in Hj.
      destruct ((0 <=? q0 - 1) && (q0 - 1 <? Z.of_nat (length a)))%Z eqn:E.
      - now injection Hj as <-.
      - exfalso. destruct ((- Z.of_nat (length a) <=? q0 - 1) && (q0 - 1 <? 0))%Z eqn:E2;
          [| discriminate Hj]. zbool; lia. }
    destruct (IH _ Hf) as (Hlen & Hbound & Hlast & Hfree).
    rewrite length_insert in Hlen, Hbound.
    split; [exact Hlen |]. split; [constructor; [cbn [fst]; lia | exact Hbound] |].
    split.
    + intros i q p1 Hi. destruct i as [| i].
      * injection Hi as <- <-.
        destruct (decide (Exists (fun qp => fst qp = q0) l)) as [Hex | Hno].
        -- apply Exists_exists in Hex as ([q1 p1] & Hin & Hq1).
           cbn [fst] in Hq1. subst q1.
           apply list_elem_of_lookup in Hin as [i Hi].
           destruct (Hlast i q0 p1 Hi) as (i' & p1' & Hle & Hi' & Ha').
           exists (S i'), p1'. split; [lia |]. auto.
        -- exists 0%nat, p0. split; [lia |]. split; [reflexivity |].
           rewrite Hfree.
           ++ rewrite <- Hjeq. now apply list_lookup_insert_eq.
           ++ intros i q p1 Hi Heq. apply Hno. apply Exists_exists.
              exists (q, p1). split; [eapply list_elem_of_lookup_2; eauto |].
              cbn [fst].
              pose proof (Forall_lookup_1 _ _ _ _ Hl Hi) as Hq. cbn [fst] in Hq.
              lia.
      * destruct (Hlast i q p1 Hi) as (i' & p1' & Hle & Hi' & Ha').
        exists (S i'), p1'. split; [lia |]. auto.
    + intros j' Hno. rewrite Hfree.
      * apply list_lookup_insert_ne. rewrite Hjeq.
        exact (Hno 0%nat q0 p0 eq_refl).
      * intros i q p1 Hi. exact (Hno (S i) q p1 Hi).
Qed.

Lemma p1_range_lookup (n i : nat) :
  (i < n)%nat ->
  map (fun p => (p + 1)%Z) (range 0 (Z.of_nat n)) !! i = Some (Z.of_nat i + 1)%Z.
Proof.
  intros Hi. unfold range. rewrite list_lookup_fmap.
  rewrite lookup_zrange_len by lia. reflexivity.
Qed.

(** What a returning call of [_InterpolatePhi] has computed, the inverse
    mapping included. *)
Lemma InterpolatePhi_upto_Ok_inverse (log10 : Q -> Q) (n : nat)
    (dtde_l : list Q) (cte_frac : Q) dtde_q q_pix_array pix_q_array QMAX :
  InterpolatePhi_upto log10 n dtde_l cte_frac
    = Ok (dtde_q, q_pix_array, pix_q_array, QMAX) ->
  pix_q_array_of n q_pix_array
    (map (fun p => (p + 1)%Z) (range 0 (Z.of_nat n))) = Ok pix_q_array.
Proof.
  unfold InterpolatePhi_upto.
  destruct (dtde_q_of log10 _ dtde_l cte_frac) as [dq |]; [| discriminate].
  rewrite bind_Ok.
  destruct (pix_q_array_of n _ _) as [pq |] eqn:Hpq; [| discriminate].
  rewrite bind_Ok. intros [= <- <- <- <-]. exact Hpq.
Qed.

Section InverseMapping.

Variables (n : nat) (q_pix_array : list Z) (pix_q_array : list Q).
Hypothesis Hlen : length q_pix_array = n.
Hypothesis Hge : Forall (fun q => (1 <= q)%Z) q_pix_array.
Hypothesis Hpq :
  pix_q_array_of n q_pix_array
    (map (fun p => (p + 1)%Z) (range 0 (Z.of_nat n))) = Ok pix_q_array.

Let pairs := zip q_pix_array (map (fun p => (p + 1)%Z) (range 0 (Z.of_nat n))).

Lemma pairs_lookup (i : nat) (q p1 : Z) :
  pairs !! i = Some (q, p1) <->
  q_pix_array !! i = Some q /\ p1 = (Z.of_nat i + 1)%Z.
Proof.
  unfold pairs. rewrite lookup_zip_with_Some. split.
  - intros (x & y & [= <- <-] & Hx & Hy).
    pose proof (lookup_lt_Some _ _ _ Hx) as Hi. rewrite Hlen in Hi.
    rewrite p1_range_lookup in Hy by exact Hi. injection Hy as <-. auto.
  - intros [Hq ->]. exists q, (Z.of_nat i + 1)%Z.
    pose proof (lookup_lt_Some _ _ _ Hq) as Hi. rewrite Hlen in Hi.
    rewrite p1_range_lookup by exact Hi. auto.
Qed.

Lemma inverse_mapping :
  length pix_q_array = n /\
  Forall (fun q => (q <= Z.of_nat n)%Z) q_pix_array /\
  (forall (i : nat) (q : Z), q_pix_array !! i = Some q ->
     exists i' : nat, (i <= i')%nat /\ q_pix_array !! i' = Some q /\
       pix_q_array !! Z.to_nat (q - 1) = Some (inject_Z (Z.of_nat i' + 1))) /\
  (forall j : nat, (j < n)%nat -> (Z.of_nat j + 1)%Z ∉ q_pix_array ->
     pix_q_array !! j = Some 0) /\
  Forall (fun v => 0 <= v) pix_q_array.
Proof.
  unfold pix_q_array_of in Hpq. fold pairs in Hpq.
  assert (Forall (fun qp => (1 <= fst qp)%Z) pairs) as Hp1.
  { apply Forall_lookup. intros i [q p1] Hi. apply pairs_lookup in Hi as [Hq _].
    exact (Forall_lookup_1 _ _ _ _ Hge Hq). }
  destruct (assign_in_order pairs _ _ Hp1 Hpq) as (Hl & Hb & Hlast & Hfree).
  rewrite length_replicate in Hl, Hb.
  assert (forall j : nat, (j < n)%nat -> (Z.of_nat j + 1)%Z ∉ q_pix_array ->
            pix_q_array !! j = Some 0) as Hunset.
  { intros j Hj Hno. rewrite Hfree.
    - now apply lookup_replicate_2.
    - intros i q p1 Hi Hq. apply pairs_lookup in Hi as [Hi _].
      apply Hno. pose proof (Forall_lookup_1 _ _ _ _ Hge Hi) as H1.
      cbv beta in H1. replace (Z.of_nat j + 1)%Z with q by lia.
      eapply list_elem_of_lookup_2; eauto. }
  assert (forall (i : nat) (q : Z), q_pix_array !! i = Some q ->
            exists i' : nat, (i <= i')%nat /\ q_pix_array !! i' = Some q /\
              pix_q_array !! Z.to_nat (q - 1)
                = Some (inject_Z (Z.of_nat i' + 1))) as Hround.
  { intros i q Hq.
    destruct (Hlast i q (Z.of_nat i + 1)%Z) as (i' & p1' & Hle & Hi' & Ha').
    { apply pairs_lookup. auto. }
    apply pairs_lookup in Hi' as [Hq' ->]. eauto. }
  split; [exact Hl |]. split.
  { apply Forall_lookup. intros i q Hq.
    assert (pairs !! i = Some (q, (Z.of_nat i + 1)%Z)) as Hi
      by (apply pairs_lookup; auto).
    exact (Forall_lookup_1 _ _ _ _ Hb Hi). }
  split; [exact Hround |]. split; [exact Hunset |].
  apply Forall_lookup. intros j v Hv.
  pose proof (lookup_lt_Some _ _ _ Hv) as Hj. rewrite Hl in Hj.
  destruct (decide ((Z.of_nat j + 1)%Z ∈ q_pix_array)) as [Hin | Hno].
  - apply list_elem_of_lookup in Hin as [i Hi].
    destruct (Hround i _ Hi) as (i' & _ & _ & Hp).
    replace (Z.to_nat (Z.of_nat j + 1 - 1)) with j in Hp by lia.
    rewrite Hp in Hv. injection Hv as <-.
    change 0 with (inject_Z 0). rewrite <- Zle_Qle. lia.
  - rewrite (Hunset j Hj Hno) in Hv. injection Hv as <-. lra.
Qed.

End InverseMapping.

(** X2.  For non-negative fill values that, scaled, do not exceed 1, a
    non-negative time scalar and node indices inside [dtde_l]:
    [_InterpolatePhi] returns three arrays of 49999 entries and a [QMAX]
    between 0 and 49999.  Every trap count of [q_pix_array] lies in
    [1 .. 49999]; [pix_q_array] sends the trap count [q] of a charge level
    to that level or to a higher level with the same trap count, so that
    going back through [q_pix_array] gives [q] again; it is 0 at the trap
    counts no level has, and nowhere negative.  The assignments of
    [pix_q_array[q_pix_array - 1] = p1_range] are taken in index order. *)
Theorem InterpolatePhi_inverse_mapping (log10 : Q -> Q)
    (dtde_l : list Q) (cte_frac : Q) :
  (forall p : Z, (1 <= p)%Z -> 0 <= log10 (inject_Z p)) ->
  Forall (fun x => 0 <= x) dtde_l ->
  0 <= cte_frac ->
  (forall p : Z, (1 <= p <= 49999)%Z ->
     (np_int (1 + 2 * log10 (inject_Z p)) < Z.of_nat (length dtde_l))%Z) ->
  Forall (fun x => x * cte_frac <= 1) dtde_l ->
  returns (_InterpolatePhi log10 dtde_l cte_frac)
    (fun r =>
       let '(dtde_q, q_pix_array, pix_q_array, QMAX) := r in
       Z.of_nat (length dtde_q) = 49999%Z /\
       Z.of_nat (length q_pix_array) = 49999%Z /\
       Z.of_nat (length pix_q_array) = 49999%Z /\
       (0 <= QMAX <= 49999)%Z /\
       Forall (fun q => (1 <= q <= 49999)%Z) q_pix_array /\
       (forall (i : nat) (q : Z), q_pix_array !! i = Some q ->
          exists i' : nat, (i <= i')%nat /\ q_pix_array !! i' = Some q /\
            pix_q_array !! Z.to_nat (q - 1)
              = Some (inject_Z (Z.of_nat i' + 1))) /\
       (forall j : nat, (Z.of_nat j < 49999)%Z ->
          (Z.of_nat j + 1)%Z ∉ q_pix_array -> pix_q_array !! j = Some 0) /\
       Forall (fun v => 0 <= v) pix_q_array).
Proof.
  intros Hlog Hl Hc Hnodes Hone.
  pose proof p_max_value as Hpm.
  assert (forall p : Z, (1 <= p <= Z.of_nat p_max)%Z ->
            (np_int (1 + 2 * log10 (inject_Z p)) < Z.of_nat (length dtde_l))%Z)
    as Hnodes' by (intros p Hp; apply Hnodes; lia).
  destruct (InterpolatePhi_upto_returns log10 Hlog p_max dtde_l cte_frac
              Hl Hc Hnodes' Hone) as [[[[dq qp] pq] QMAX] Hr].
  rewrite InterpolatePhi_unfold. exists (dq, qp, pq, QMAX).
  split; [exact Hr |].
  pose proof (InterpolatePhi_upto_Ok_inverse _ _ _ _ _ _ _ _ Hr) as Hpq.
  apply InterpolatePhi_upto_Ok in Hr as (Hq & Hqp & HQ).
  destruct (dtde_q_entries log10 Hlog _ _ _ _ (p1_range_ge_1 p_max) Hq)
    as [Hlen _].
  rewrite p1_range_length in Hlen.
  pose proof (dtde_q_nonneg log10 Hlog _ _ Hl Hc _ _ (p1_range_ge_1 p_max) Hq)
    as H0.
  pose proof (dtde_q_at_most_one log10 Hlog p_max dtde_l cte_frac Hone _ Hq)
    as H1.
  assert (length qp = p_max) as Hlq.
  { rewrite Hqp. unfold q_pix_array_of, ctde_q_of.
    now rewrite length_map, running_sum_length. }
  assert (Forall (fun q => (1 <= q)%Z) qp) as Hge
    by (rewrite Hqp; apply q_pix_array_ge_1).
  destruct (inverse_mapping p_max qp pq Hlq Hge Hpq)
    as (Hlp & Hle & Hround & Hunset & Hnn).
  split; [lia |]. split; [lia |]. split; [lia |]. split.
  { rewrite HQ. pose proof (sum_nonneg _ H0) as Hs.
    pose proof (fold_left_Qplus_le dq 0 H1) as Htot. rewrite Hlen in Htot.
    fold (Np.sum dq) in Htot.
    pose proof (np_int_nonneg _ Hs).
    pose proof (np_int_le_nat (Np.sum dq) p_max Hs ltac:(lra)). lia. }
  split.
  { pose proof (List.Forall_and Hge Hle) as H.
    eapply Forall_impl; [exact H |]. intros q [? ?]. cbv beta in *. lia. }
  split; [exact Hround |]. split; [| exact Hnn].
  intros j Hj. apply Hunset. lia.
Qed.

Lemma InterpolatePhi_inverse_mapping_witness :
  returns (_InterpolatePhi log10_floor (replicate 11 0.1) 1)
    (fun r =>
       let '(dtde_q, q_pix_array, pix_q_array, QMAX) := r in
       Z.of_nat (length dtde_q) = 49999%Z /\
       Z.of_nat (length q_pix_array) = 49999%Z /\
       Z.of_nat (length pix_q_array) = 49999%Z /\
       (0 <= QMAX <= 49999)%Z /\
       Forall (fun q => (1 <= q <= 49999)%Z) q_pix_array /\
       (forall (i : nat) (q : Z), q_pix_array !! i = Some q ->
          exists i' : nat, (i <= i')%nat /\ q_pix_array !! i' = Some q /\
            pix_q_array !! Z.to_nat (q - 1)
              = Some (inject_Z (Z.of_nat i' + 1))) /\
       (forall j : nat, (Z.of_nat j < 49999)%Z ->
          (Z.of_nat j + 1)%Z ∉ q_pix_array -> pix_q_array !! j = Some 0) /\
       Forall (fun v => 0 <= v) pix_q_array).
Proof.
  apply (InterpolatePhi_inverse_mapping log10_floor (replicate 11 0.1) 1).
  - exact log10_floor_nonneg.
  - repeat constructor; vm_compute; discriminate.
  - vm_compute. discriminate.
  - intros p _. exact (log10_floor_nodes p).
  - repeat constructor; vm_compute; discriminate.
Defined.

(** ** [_DecomposeRN]: the noise of model 100 *)

Lemma map2_amap_same {A B C D} (f : B -> C -> D) (g : A -> B) (k : A -> C)
    (a : list (list A)) :
  Np.map2 f (Np.amap g a) (Np.amap k a) = Np.amap (fun x => f (g x) (k x)) a.
Proof.
  unfold Np.map2, Np.amap.
  induction a as [| r a IH]; [reflexivity |]. cbn [map zip_with]. f_equal; [| exact IH].
  clear IH. induction r as [| x r IHr]; [reflexivity |].
  cbn [map zip_with]. now f_equal.
Qed.

Lemma amap_id {A} (a : list (list A)) : Np.amap (fun x => x) a = a.
Proof.
  unfold Np.amap. induction a as [| r a IH]; [reflexivity |].
  cbn [map]. rewrite IH. f_equal. apply map_id.
Qed.

Lemma map2_amap_left {A B C} (f : B -> A -> C) (g : A -> B)
    (a : list (list A)) :
  Np.map2 f (Np.amap g a) a = Np.amap (fun x => f (g x) x) a.
Proof.
  rewrite <- (amap_id a) at 2. apply map2_amap_same.
Qed.

(** The taper of model 100 on one residual [x]: nothing above [4 *
    readNoise], the distance to [4 * readNoise] with the sign of the
    residual above [2 * readNoise], the residual itself below. *)
Lemma taper_bound (readNoise x : Q) :
  0 <= readNoise ->
  let nseSigLo := 2 * readNoise in
  let nseSigHi := 2 * nseSigLo in
  let n1 := if Qlt_bool nseSigHi (Qabs x) then 0 else x in
  Qabs (if Qlt_bool nseSigLo (Qabs x)
        then (nseSigHi - Qabs x) * np_sign n1 else n1) <= 2 * readNoise.
Proof.
  intros Hrn. cbv zeta.
  pose proof (Qabs_nonneg x) as Ha.
  assert (Qabs x <= Qabs x) as Hx by lra. apply Qabs_le_iff in Hx.
  apply Qabs_le_iff. unfold np_sign.
  set (a := Qabs x) in *. clearbody a.
  destruct (Qlt_bool (2 * (2 * readNoise)) a) eqn:E4;
    [apply Qlt_bool_iff in E4 | apply Qlt_bool_false in E4];
    qcases; split; lra.
Qed.

(** The noise of model 100 is the taper of the residual against some
    smoothed signal, entry by entry, and the signal is the input minus that
    noise. *)
Lemma model100_Ok_taper (data_e : array) (readNoise : Q) (out : array * array) :
  model100 data_e readNoise = Ok out ->
  exists sigArr : array,
    snd out =
      Np.amap (fun x =>
                 let n1 := if Qlt_bool (2 * (2 * readNoise)) (Qabs x)
                           then 0 else x in
                 if Qlt_bool (2 * readNoise) (Qabs x)
                 then (2 * (2 * readNoise) - Qabs x) * np_sign n1 else n1)
              (Np.sub data_e sigArr) /\
    fst out = Np.sub data_e (snd out).
Proof.
  unfold model100. cbv zeta.
  destruct (Np.bcast2 Qplus _ _) as [s1 |]; [| discriminate]. rewrite bind_Ok.
  destruct (Np.bcast2 Qplus _ _) as [s2 |]; [| discriminate]. rewrite bind_Ok.
  destruct (Np.set_slice _ _ _ _) as [sigArr |]; [| discriminate].
  rewrite bind_Ok. intros [= <-]. exists sigArr. cbn [fst snd].
  split; [| reflexivity].
  set (n0 := Np.sub data_e sigArr).
  rewrite map2_amap_left, map2_amap_same. reflexivity.
Qed.

(** X3.  With a read noise that is not negative, the noise that model 100
    returns is at most twice the read noise in absolute value at every
    pixel, and the signal is the input minus that noise. *)
Theorem model100_noise_within_twice_readnoise (h w : nat) (data_e : array)
    (nitrn : Z) (readNoise : Q) :
  Np.shaped h w data_e -> h <> 3%nat -> h <> 4%nat -> 0 <= readNoise ->
  returns (_DecomposeRN data_e 100 nitrn readNoise)
    (fun out =>
       Forall (Forall (fun v => Qabs v <= 2 * readNoise)) (snd out) /\
       fst out = Np.sub data_e (snd out)).
Proof.
  intros Hd H3 H4 Hrn.
  change (_DecomposeRN data_e 100 nitrn readNoise) with (model100 data_e readNoise).
  destruct (model100_separated h w data_e readNoise Hd H3 H4) as (out & Hout & _).
  exists out. split; [exact Hout |].
  destruct (model100_Ok_taper _ _ _ Hout) as (sigArr & Hn & Hs).
  split; [| exact Hs]. rewrite Hn. apply amap_Forall. intros x.
  now apply taper_bound.
Qed.

Lemma model100_noise_within_twice_readnoise_witness :
  returns (_DecomposeRN [[10; 0]; [0; 30]; [50; 0]; [0; 0]; [7; 7]; [0; 1]] 100 7 5)
    (fun out =>
       Forall (Forall (fun v => Qabs v <= 2 * 5)) (snd out) /\
       fst out = Np.sub [[10; 0]; [0; 30]; [50; 0]; [0; 0]; [7; 7]; [0; 1]] (snd out)).
Proof.
  apply (model100_noise_within_twice_readnoise 6 2
           [[10; 0]; [0; 30]; [50; 0]; [0; 0]; [7; 7]; [0; 1]] 7 5).
  - split; [reflexivity | repeat constructor].
  - lia.
  - lia.
  - vm_compute. discriminate.
Defined.

(** ** [_DecomposeRN]: the pixels model 1 leaves alone *)

Lemma flag_true_lookup (m : list (list bool)) (r c : nat) :
  flag m r c = true <-> exists row, m !! r = Some row /\ row !! c = Some true.
Proof.
  unfold flag. destruct (m !! r) as [row |]; cbn [mbind option_bind default].
  - destruct (row !! c) as [[] |] eqn:E; cbn [default];
      split; try discriminate; eauto.
    + intros (row' & [= <-] & H). congruence.
    + intros (row' & [= <-] & H). congruence.
  - split; [discriminate | intros (row & H & _); discriminate].
Qed.

Lemma flag_map2 {A B} (f : A -> B -> bool) (a : list (list A))
    (b : list (list B)) (r c : nat) :
  flag (Np.map2 f a b) r c = true ->
  exists x y, (exists ra, a !! r = Some ra /\ ra !! c = Some x) /\
              (exists rb, b !! r = Some rb /\ rb !! c = Some y) /\
              f x y = true.
Proof.
  intros H. apply flag_true_lookup in H as (row & Hrow & Hc).
  unfold Np.map2 in Hrow.
  apply lookup_zip_with_Some in Hrow as (ra & rb & -> & Ha & Hb).
  apply lookup_zip_with_Some in Hc as (x & y & Hf & Hx & Hy).
  exists x, y. eauto 10.
Qed.

(** Clearing takes a flag away and never sets one. *)
Lemma clear_masked (flags mask : list (list bool)) (r c : nat) :
  flag mask r c = true -> flag (clear flags mask) r c = false.
Proof.
  intros Hm. apply not_true_is_false. intros H.
  apply flag_map2 in H as (x & y & _ & (rb & Hb & Hy) & Hf).
  apply flag_true_lookup in Hm as (rm & Hrm & Hcm).
  rewrite Hrm in Hb. injection Hb as <-. rewrite Hcm in Hy. injection Hy as <-.
  destruct x; discriminate Hf.
Qed.

Lemma clear_unset (flags mask : list (list bool)) (r c : nat) :
  flag flags r c = false -> flag (clear flags mask) r c = false.
Proof.
  intros Hf. apply not_true_is_false. intros H.
  apply flag_map2 in H as (x & y & (ra & Ha & Hx) & _ & Hxy).
  assert (flag flags r c = true) as Ht.
  { apply flag_true_lookup. exists ra. split; [exact Ha |].
    destruct x; [exact Hx | discriminate Hxy]. }
  congruence.
Qed.

Lemma rows_above_flag h w (m : list (list bool)) (r c : nat) :
  Np.shaped h w m -> (1 <= r)%nat ->
  flag m r c = true -> flag (rows_above m) (r - 1) c = true.
Proof.
  intros [Hl _] Hr H. apply flag_true_lookup in H as (row & Hrow & Hc).
  apply flag_true_lookup. exists row. split; [| exact Hc].
  pose proof (lookup_lt_Some _ _ _ Hrow) as Hlt.
  unfold rows_above. rewrite lookup_app_l by (rewrite length_drop; lia).
  rewrite lookup_drop. now replace (1 + (r - 1))%nat with r by lia.
Qed.

Lemma rows_below_flag h w (m : list (list bool)) (r c : nat) :
  Np.shaped h w m -> (r + 1 < h)%nat ->
  flag m r c = true -> flag (rows_below m) (r + 1) c = true.
Proof.
  intros [Hl _] Hr H. apply flag_true_lookup in H as (row & Hrow & Hc).
  apply flag_true_lookup. exists row. split; [| exact Hc].
  unfold rows_below, Np.full_like, Np.amap.
  rewrite lookup_app_r by (rewrite length_take, length_map; lia).
  rewrite length_take, length_map.
  replace (r + 1 - 1 `min` length m)%nat with r by lia.
  rewrite lookup_take_lt by lia. exact Hrow.
Qed.

Lemma flag_idx h w (data_e : array) (f : list (list bool)) (r c : nat) :
  Np.shaped h w data_e -> (r < h)%nat -> (c < w)%nat ->
  out_of_band (Np.item data_e r c) = true ->
  flag f r c = true ->
  flag (Np.map2 (fun d f => out_of_band d && f) data_e f) r c = true.
Proof.
  intros [Hl Hr] Hrh Hcw Hout Hf.
  apply flag_true_lookup in Hf as (rf & Hrf & Hcf).
  destruct (lookup_lt_is_Some_2 data_e r ltac:(lia)) as [rd Hrd].
  pose proof (Forall_lookup_1 _ _ _ _ Hr Hrd) as Hw. cbv beta in Hw.
  destruct (lookup_lt_is_Some_2 rd c ltac:(lia)) as [d Hd].
  unfold Np.item in Hout. rewrite Hrd in Hout. cbn [mbind option_bind] in Hout.
  rewrite Hd in Hout. cbn [default from_option id] in Hout.
  apply flag_true_lookup. exists (zip_with (fun d f => out_of_band d && f) rd rf).
  split.
  - unfold Np.map2. apply lookup_zip_with_Some. eauto.
  - apply lookup_zip_with_Some. exists d, true. rewrite Hout. auto.
Qed.

(** A pixel outside the band, off the first and the last row, takes the
    flag from itself and from the pixels below and above it. *)
Lemma doNsCor_out_of_band h w (data_e : array) (flags : list (list bool))
    (r c : nat) :
  Np.shaped h w data_e -> doNsCor data_e = Ok flags ->
  (1 <= r)%nat -> (r + 1 < h)%nat -> (c < w)%nat ->
  out_of_band (Np.item data_e r c) = true ->
  flag flags (r - 1) c = false /\ flag flags r c = false /\
  flag flags (r + 1) c = false.
Proof.
  intros Hd Hflags Hr1 Hr2 Hc Hout. unfold doNsCor in Hflags.
  cbv zeta in Hflags.
  pose proof (shaped_amap (fun _ => true) _ _ _ Hd) as H0.
  fold (@Np.full_like Q bool true data_e) in H0.
  set (f0 := Np.full_like true data_e) in *.
  unfold Np.set_row in Hflags.
  rewrite py_index_first in Hflags by (destruct H0; lia).
  rewrite !bind_Ok in Hflags. cbv beta in Hflags.
  set (f1 := alter _ 0%nat f0) in *.
  assert (Np.shaped h w f1) as H1.
  { destruct H0 as [? ?]. subst f1. split; [now rewrite length_alter |].
    apply Forall_alter; [assumption |]. intros ? _ ?. now rewrite length_map. }
  rewrite py_index_last in Hflags by (destruct H1; lia).
  rewrite !bind_Ok in Hflags. cbv beta in Hflags.
  destruct H1 as [Hl1 _]. rewrite Hl1 in Hflags.
  set (f2 := alter _ (h - 1)%nat f1) in *.
  injection Hflags as <-.
  set (idx := Np.map2 _ data_e f2).
  assert (flag f2 r c = true) as Hf2.
  { apply flag_true_lookup. destruct Hd as [Hl Hrows].
    destruct (lookup_lt_is_Some_2 data_e r ltac:(lia)) as [rd Hrd].
    pose proof (Forall_lookup_1 _ _ _ _ Hrows Hrd) as Hw. cbv beta in Hw.
    exists (map (fun _ => true) rd). split.
    - subst f2 f1 f0. rewrite !list_lookup_alter_ne by lia.
      unfold Np.full_like, Np.amap. rewrite list_lookup_fmap, Hrd. reflexivity.
    - rewrite list_lookup_fmap.
      destruct (lookup_lt_is_Some_2 rd c ltac:(lia)) as [d ->]. reflexivity. }
  assert (flag idx r c = true) as Hidx
    by (subst idx; apply (flag_idx h w); auto; lia).
  assert (Np.shaped h w idx) as Hsi.
  { subst idx. apply shaped_map2; [exact Hd |]. destruct H0 as [? ?].
    subst f2 f1. split; [now rewrite !length_alter |].
    repeat (apply Forall_alter; [| intros ? _ ?; now rewrite length_map]).
    assumption. }
  split; [| split].
  - apply clear_unset, clear_masked. now apply (rows_above_flag h w).
  - apply clear_unset, clear_unset, clear_masked. exact Hidx.
  - apply clear_masked. now apply (rows_below_flag h w).
Qed.

Lemma item_lookup (a : array) (r c : nat) (row : list Q) :
  a !! r = Some row -> Np.item a r c = default 0 (row !! c).
Proof. intros H. unfold Np.item. now rewrite H. Qed.

Lemma item_same_row (a b : array) (r r' c : nat) :
  a !! r = b !! r' -> Np.item a r c = Np.item b r' c.
Proof. intros H. unfold Np.item. now rewrite H. Qed.

Lemma flag_same_row (a b : list (list bool)) (r r' c : nat) :
  a !! r = b !! r' -> flag a r c = flag b r' c.
Proof. intros H. unfold flag. now rewrite H. Qed.

Lemma item_map2_flag (f : bool -> Q -> Q) h w (m : list (list bool))
    (b : array) (r c : nat) :
  Np.shaped h w m -> Np.shaped h w b -> (r < h)%nat -> (c < w)%nat ->
  Np.item (Np.map2 f m b) r c = f (flag m r c) (Np.item b r c).
Proof.
  intros [Ha Hra] [Hb Hrb] Hr Hc. unfold Np.item, flag, Np.map2.
  destruct (lookup_lt_is_Some_2 m r ltac:(lia)) as [ra Hla].
  destruct (lookup_lt_is_Some_2 b r ltac:(lia)) as [rb Hlb].
  pose proof (Forall_lookup_1 _ _ _ _ Hra Hla) as Hwa.
  pose proof (Forall_lookup_1 _ _ _ _ Hrb Hlb) as Hwb.
  cbv beta in Hwa, Hwb.
  destruct (lookup_lt_is_Some_2 ra c ltac:(lia)) as [x Hx].
  destruct (lookup_lt_is_Some_2 rb c ltac:(lia)) as [y Hy].
  rewrite lookup_zip_with, Hla, Hlb. cbn [mbind option_bind].
  rewrite lookup_zip_with, Hx, Hy. reflexivity.
Qed.

Lemma slice_central_lookup {A} (a : list (list A)) (r : nat) :
  (1 <= r)%nat -> (r + 1 < length a)%nat ->
  slice a 1 (-1) !! (r - 1)%nat = a !! r.
Proof.
  intros H1 H2. rewrite slice_central.
  rewrite lookup_take_lt by lia. rewrite lookup_drop. f_equal. lia.
Qed.

(** One pass leaves an entry without a flag as it is. *)
Lemma pass_keeps_unflagged h w (flags : list (list bool)) (sigArr : array)
    (r c : nat) :
  Np.shaped h w sigArr -> Np.shaped h w flags ->
  (r < h)%nat -> (c < w)%nat -> flag flags r c = false ->
  Np.item (remove_one_electron (slice flags 1 (-1)) sigArr) r c
    == Np.item sigArr r c.
Proof.
  intros Hs Hf Hr Hc Hflag.
  assert (Np.shaped (h - 2) w (slice flags 1 (-1))) as Hcen.
  { pose proof (shaped_slice _ _ _ 1 (-1) Hf) as H.
    replace (h - 2)%nat with (slice_bound h (-1) - slice_bound h 1)%nat; [exact H |].
    unfold slice_bound; simpl; lia. }
  destruct (decide (r = 0%nat)) as [-> | Hr0].
  { rewrite (item_same_row _ sigArr 0 0 c); [reflexivity |].
    now apply (remove_one_electron_first h w). }
  destruct (decide (r = h - 1)%nat) as [-> | Hr1].
  { rewrite (item_same_row _ sigArr (h - 1) (h - 1) c); [reflexivity |].
    pose proof (remove_one_electron_last h w _ _ Hs Hcen) as Hlast.
    pose proof (remove_one_electron_shaped h w _ _ Hs Hcen) as [Hl' _].
    rewrite !last_lookup, Hl' in Hlast. destruct Hs as [Hl _]. rewrite Hl in Hlast.
    now replace (pred h) with (h - 1)%nat in Hlast by lia. }
  assert (Np.shaped (h - 2) w (slice sigArr 1 (-1))) as Hrc.
  { pose proof (shaped_slice _ _ _ 1 (-1) Hs) as H.
    replace (h - 2)%nat with (slice_bound h (-1) - slice_bound h 1)%nat; [exact H |].
    unfold slice_bound; simpl; lia. }
  assert (Np.shaped (h - 2) w (slice sigArr 0 (-2))) as Hlow.
  { pose proof (shaped_slice _ _ _ 0 (-2) Hs) as H.
    replace (h - 2)%nat with (slice_bound h (-2) - slice_bound h 0)%nat; [exact H |].
    unfold slice_bound; simpl; lia. }
  assert (Np.shaped (h - 2) w (slice_from sigArr 2)) as Hupp.
  { pose proof (shaped_slice_from _ _ _ 2 Hs) as H.
    replace (h - 2)%nat with (h - slice_bound h 2)%nat; [exact H |].
    unfold slice_bound; simpl; lia. }
  unfold remove_one_electron, Np.write_view.
  set (rowCen := slice sigArr 1 (-1)) in *.
  set (resid := Np.sub rowCen (Np.scale _ _)).
  assert (Np.shaped (h - 2) w resid) as Hres
    by (subst resid; unfold Np.sub, Np.add, Np.scale;
        auto 10 using shaped_map2, shaped_amap).
  set (sel := Np.map2 _ (slice flags 1 (-1)) resid).
  assert (Np.shaped (h - 2) w sel) as Hsel
    by (subst sel; now apply shaped_map2).
  set (col_dd := Np.amap _ sel).
  assert (Np.shaped (h - 2) w col_dd) as Hdd
    by (subst col_dd; now apply shaped_amap).
  assert (Np.shaped (h - 2) w (Np.sub rowCen col_dd)) as Hnew
    by (unfold Np.sub; now apply shaped_map2).
  pose proof Hnew as [Hnl _]. pose proof Hs as [Hl _]. pose proof Hf as [Hfl _].
  rewrite (item_same_row _ (Np.sub rowCen col_dd) r (r - 1) c).
  2:{ rewrite lookup_app_r by (rewrite length_take; lia).
      rewrite length_take, Hl. rewrite lookup_app_l by lia.
      f_equal. lia. }
  unfold Np.sub at 1. rewrite (item_map2 _ (h - 2) w) by (try assumption; lia).
  subst col_dd. rewrite (item_amap _ (h - 2) w) by (try assumption; lia).
  subst sel. rewrite (item_map2_flag _ (h - 2) w) by (try assumption; lia).
  rewrite (flag_same_row _ flags (r - 1) r c)
    by (apply slice_central_lookup; lia).
  rewrite Hflag.
  rewrite (item_same_row rowCen sigArr (r - 1) r c)
    by (subst rowCen; apply slice_central_lookup; lia).
  change (np_clip 0 (-1) 1) with 0. ring.
Qed.

Lemma iter_keeps_unflagged h w (flags : list (list bool)) (data_e : array)
    (n r c : nat) :
  Np.shaped h w data_e -> Np.shaped h w flags ->
  (r < h)%nat -> (c < w)%nat -> flag flags r c = false ->
  Np.item (Nat.iter n (remove_one_electron (slice flags 1 (-1))) data_e) r c
    == Np.item data_e r c.
Proof.
  intros Hd Hf Hr Hc Hflag.
  assert (Np.shaped (h - 2) w (slice flags 1 (-1))) as Hcen.
  { pose proof (shaped_slice _ _ _ 1 (-1) Hf) as H.
    replace (h - 2)%nat with (slice_bound h (-1) - slice_bound h 1)%nat; [exact H |].
    unfold slice_bound; simpl; lia. }
  induction n as [| n IH]; [reflexivity |].
  rewrite Nat.iter_succ.
  pose proof (iter_remove_one_electron_shaped _ _ _ _ n Hd Hcen) as Hs.
  rewrite (pass_keeps_unflagged h w) by assumption. exact IH.
Qed.

(** X4.  In model 1, a pixel below -20 or above 100 electrons that is neither on
    the first nor on the last row is not corrected, and neither are the
    pixels just below and just above it in its column: at the three of
    them the signal is the input and the noise is 0, whatever [nitrn]. *)
Theorem model1_out_of_band_untouched (h w : nat) (data_e : array)
    (nitrn : Z) (readNoise : Q) (r c : nat) :
  Np.shaped h w data_e ->
  (1 <= r)%nat -> (r + 1 < h)%nat -> (c < w)%nat ->
  Np.item data_e r c < -20 \/ 100 < Np.item data_e r c ->
  returns (_DecomposeRN data_e 1 nitrn readNoise)
    (fun out =>
       forall r' : nat, (r - 1 <= r' <= r + 1)%nat ->
         Np.item (fst out) r' c == Np.item data_e r' c /\
         Np.item (snd out) r' c == 0).
Proof.
  intros Hd Hr1 Hr2 Hc Hband.
  change (_DecomposeRN data_e 1 nitrn readNoise) with (model1 data_e nitrn).
  unfold model1.
  destruct (doNsCor_shaped h w data_e Hd ltac:(lia)) as (flags & Hflags & Hf).
  rewrite Hflags, bind_Ok. apply returns_Ok. cbn [fst snd].
  assert (out_of_band (Np.item data_e r c) = true) as Hout.
  { unfold out_of_band, nseLo, nseHi. apply orb_true_iff.
    destruct Hband as [H | H]; [left | right]; now apply Qlt_bool_iff. }
  destruct (doNsCor_out_of_band h w _ _ r c Hd Hflags Hr1 Hr2 Hc Hout)
    as (Hlow & Hcen & Hupp).
  intros r' Hr'.
  assert (flag flags r' c = false) as Hflag.
  { destruct (decide (r' = r)) as [-> | ?]; [exact Hcen |].
    destruct (decide (r' = r - 1)%nat) as [-> | ?]; [exact Hlow |].
    replace r' with (r + 1)%nat by lia. exact Hupp. }
  pose proof (iter_keeps_unflagged h w flags data_e (Z.to_nat nitrn) r' c
                Hd Hf ltac:(lia) Hc Hflag) as Hsig.
  split; [exact Hsig |].
  assert (Np.shaped (h - 2) w (slice flags 1 (-1))) as Hfc.
  { pose proof (shaped_slice _ _ _ 1 (-1) Hf) as H.
    replace (h - 2)%nat with (slice_bound h (-1) - slice_bound h 1)%nat; [exact H |].
    unfold slice_bound; simpl; lia. }
  pose proof (iter_remove_one_electron_shaped _ _ _ _ (Z.to_nat nitrn) Hd Hfc) as Hs.
  unfold Np.sub. rewrite (item_map2 _ h w) by (try assumption; lia).
  rewrite Hsig. ring.
Qed.

Lemma model1_out_of_band_untouched_witness :
  returns
    (_DecomposeRN [[3; 3]; [9; 4]; [0; 500]; [9; 6]; [3; 3]] 1 7 5)
    (fun out =>
       forall r' : nat, (2 - 1 <= r' <= 2 + 1)%nat ->
         Np.item (fst out) r' 1
           == Np.item [[3; 3]; [9; 4]; [0; 500]; [9; 6]; [3; 3]] r' 1 /\
         Np.item (snd out) r' 1 == 0).
Proof.
  apply (model1_out_of_band_untouched 5 2
           [[3; 3]; [9; 4]; [0; 500]; [9; 6]; [3; 3]] 7 5 2 1).
  - split; [reflexivity | repeat constructor].
  - lia.
  - lia.
  - lia.
  - right. vm_compute. reflexivity.
Defined.

(** ** [_CalcCteFrac] and [YCte]: the detector and the date *)

(** X5.  For WFC the time scale grows strictly with the date of the exposure; it
    is negative exactly before the first epoch, MJD 52335, and above 1
    exactly after the second, MJD 55105. *)
Theorem CalcCteFrac_WFC_increasing (mjd1 mjd2 : Q) :
  exists frac1 frac2 : Q,
    _CalcCteFrac mjd1 "WFC" = Ok frac1 /\
    _CalcCteFrac mjd2 "WFC" = Ok frac2 /\
    (mjd1 < mjd2 <-> frac1 < frac2) /\
    (frac1 < 0 <-> mjd1 < 52335) /\
    (1 < frac1 <-> 55105 < mjd1).
Proof.
  assert (forall mjd, _CalcCteFrac mjd "WFC" = Ok ((mjd - 52335.0) / (55105.0 - 52335.0)))
    as Hval.
  { intros mjd. unfold _CalcCteFrac.
    rewrite (CalcCteFrac_with_epochs _ _ _ 52335.0 55105.0) by reflexivity.
    apply truediv_nonzero. intros H. vm_compute in H. discriminate. }
  exists ((mjd1 - 52335.0) / (55105.0 - 52335.0)),
         ((mjd2 - 52335.0) / (55105.0 - 52335.0)).
  split; [apply Hval |]. split; [apply Hval |].
  assert (forall mjd, (mjd - 52335.0) / (55105.0 - 52335.0)
                      == (mjd - 52335) * (1 # 2770)) as Heq.
  { intros mjd. unfold Qdiv.
    assert (/ (55105.0 - 52335.0) == 1 # 2770) as -> by reflexivity.
    assert (52335.0 == 52335) as -> by reflexivity. reflexivity. }
  rewrite !Heq. repeat split; intros H; lra.
Qed.

(** X6.  [YCte] works on WFC only: for any other detector it raises [KeyError]
    at the time scale, before a calibration table is interpolated or a
    quadrant is read. *)
Theorem YCte_other_detector_raises (log10 sqrt : Q -> Q)
    (FixYCte : list (list npfloat) -> Z -> list Z -> list (list npfloat) ->
               list (list npfloat) -> string -> string -> array * Z)
    (ex : exposure) (ref : pctefile) (noise : Z) (logName : string) :
  detector ex <> "WFC"%string ->
  _CalcCteFrac (expstart ex) (detector ex) = Raise KeyError /\
  YCte log10 sqrt FixYCte ex ref noise logName = Raise KeyError.
Proof.
  intros Hdet.
  assert (_CalcCteFrac (expstart ex) (detector ex) = Raise KeyError) as Hfrac.
  { unfold _CalcCteFrac, CalcCteFrac_with, dict_getitem, c1.
    rewrite lookup_singleton_ne by congruence. reflexivity. }
  split; [exact Hfrac |]. unfold YCte. rewrite Hfrac. reflexivity.
Qed.

Lemma YCte_other_detector_raises_witness :
  _CalcCteFrac (expstart hrc_exposure) (detector hrc_exposure) = Raise KeyError /\
  YCte log10_floor sqrt_floor FixYCte_plus10 hrc_exposure
    {| dtde_l := []; chg_leak := []; psi_node := []; RN2_NIT := 7 |} 1 ""
    = Raise KeyError.
Proof.
  apply (YCte_other_detector_raises log10_floor sqrt_floor FixYCte_plus10
           hrc_exposure).
  vm_compute. discriminate.
Defined.

(** ** [YCte]: the amplifiers are corrected independently *)

Section AmpOrder.

Variable sqrt : Q -> Q.
Variable FixYCte :
  list (list npfloat) -> Z -> list Z -> list (list npfloat) ->
  list (list npfloat) -> string -> string -> array * Z.
Variables (tb : tables) (cfg : settings).

(** What the loop leaves at an amplifier is fixed by the arrays the
    amplifier had before the loop. *)
Lemma settled_determined (qd qd1 qd2 : quadrants) (amp : string) :
  runnable FixYCte tb cfg qd amp ->
  settled sqrt FixYCte tb cfg qd qd1 amp ->
  settled sqrt FixYCte tb cfg qd qd2 amp ->
  sciQuadData qd1 !! amp = sciQuadData qd2 !! amp /\
  errQuadData qd1 !! amp = errQuadData qd2 !! amp.
Proof.
  intros (orig & e & [[[g nse] cor] ret] & h & w & Hs & He & _ & _ & Hk) H1 H2.
  destruct (H1 _ _ _ _ _ _ Hs He Hk) as [Hf1 Hd1].
  destruct (H2 _ _ _ _ _ _ Hs He Hk) as [Hf2 Hd2].
  destruct (decide (ret = 0%Z)) as [H0 | H0].
  - destruct (Hd1 H0) as [-> ->]. destruct (Hd2 H0) as [-> ->]. auto.
  - destruct (Hf1 H0) as (-> & -> & _). destruct (Hf2 H0) as (-> & -> & _). auto.
Qed.

End AmpOrder.

(** X7.  The loop treats the amplifiers one by one and independently: run on
    quadrants whose science and error arrays have one shape and whose pass
    reaches the call of the C extension, with the amplifiers in another
    order, it returns the same science and error arrays; and it leaves the
    arrays of every amplifier that is not in the list as they were. *)
Theorem YCte_loop_order_independent (sqrt : Q -> Q)
    (FixYCte : list (list npfloat) -> Z -> list Z -> list (list npfloat) ->
               list (list npfloat) -> string -> string -> array * Z)
    (tb : tables) (cfg : settings) (ampList ampList' : list string)
    (qd : quadrants) :
  NoDup ampList -> ampList ≡ₚ ampList' ->
  (forall amp, amp ∈ ampList -> runnable FixYCte tb cfg qd amp) ->
  exists qd1 qd2,
    correct_amps sqrt FixYCte tb cfg ampList qd = Ok qd1 /\
    correct_amps sqrt FixYCte tb cfg ampList' qd = Ok qd2 /\
    sciQuadData qd1 = sciQuadData qd2 /\
    errQuadData qd1 = errQuadData qd2 /\
    forall amp, amp ∉ ampList ->
      sciQuadData qd1 !! amp = sciQuadData qd !! amp /\
      errQuadData qd1 !! amp = errQuadData qd !! amp.
Proof.
  intros Hnd Hperm Hrun.
  assert (NoDup ampList') as Hnd' by now rewrite <- Hperm.
  assert (forall amp, amp ∈ ampList' -> runnable FixYCte tb cfg qd amp) as Hrun'
    by (intros amp Hin; apply Hrun; now rewrite Hperm).
  destruct (correct_amps_outcome sqrt FixYCte tb cfg ampList qd Hnd Hrun)
    as (qd1 & Hl1 & Hframe1 & _ & Hset1).
  destruct (correct_amps_outcome sqrt FixYCte tb cfg ampList' qd Hnd' Hrun')
    as (qd2 & Hl2 & Hframe2 & _ & Hset2).
  exists qd1, qd2. split; [exact Hl1 |]. split; [exact Hl2 |].
  assert (forall amp,
            sciQuadData qd1 !! amp = sciQuadData qd2 !! amp /\
            errQuadData qd1 !! amp = errQuadData qd2 !! amp) as Hsame.
  { intros amp. destruct (decide (amp ∈ ampList)) as [Hin | Hout].
    - apply (settled_determined sqrt FixYCte tb cfg qd); auto.
      apply Hset2. now rewrite <- Hperm.
    - destruct (Hframe1 amp Hout) as [-> ->].
      destruct (Hframe2 amp) as [-> ->]; [now rewrite <- Hperm | auto]. }
  split; [apply map_eq; intros amp; apply Hsame |].
  split; [apply map_eq; intros amp; apply Hsame |].
  exact Hframe1.
Qed.

Lemma YCte_loop_order_independent_witness :
  exists qd1 qd2,
    correct_amps sqrt_floor FixYCte_plus10 no_tables gain_two two_amps
      two_quadrants = Ok qd1 /\
    correct_amps sqrt_floor FixYCte_plus10 no_tables gain_two
      ["B"; "A"]%string two_quadrants = Ok qd2 /\
    sciQuadData qd1 = sciQuadData qd2 /\
    errQuadData qd1 = errQuadData qd2 /\
    forall amp, amp ∉ two_amps ->
      sciQuadData qd1 !! amp = sciQuadData two_quadrants !! amp /\
      errQuadData qd1 !! amp = errQuadData two_quadrants !! amp.
Proof.
  apply (YCte_loop_order_independent sqrt_floor FixYCte_plus10 no_tables
           gain_two two_amps ["B"; "A"]%string two_quadrants).
  - apply (bool_decide_unpack _). vm_compute. reflexivity.
  - apply perm_swap.
  - exact two_quadrants_runnable.
Defined.

(** ** [_InterpolatePsi]: the range of the dense table *)

Section DenseTable.

Variables (w nn : nat) (chg_leak : array) (psi_node : list Z).
Hypothesis Hleak : Np.shaped nn w chg_leak.
Hypothesis Hlen : length psi_node = nn.
Hypothesis Hnn : (1 <= nn)%nat.
Hypothesis Hfirst : node_offset psi_node 0 = 1%Z.
Hypothesis Hinc :
  forall j : nat, (S j < nn)%nat ->
    (node_offset psi_node j < node_offset psi_node (S j))%Z.
Hypothesis Hlast : (node_offset psi_node (nn - 1) <= 100)%Z.

(** The table that [_InterpolatePsi] returns: the rows that the loop over
    the pairs of nodes has filled, with the last row replaced by the last
    node. *)
Lemma InterpolatePsi_rows :
  exists (kt : array) (row : list Q),
    _InterpolatePsi chg_leak psi_node = Ok (<[99%nat := row]> kt) /\
    chg_leak !! (nn - 1)%nat = Some row /\
    Np.shaped 100 w kt /\
    (forall j r c : nat,
       (S j < nn)%nat ->
       (node_offset psi_node j - 1 <= Z.of_nat r
          < node_offset psi_node (S j) - 1)%Z ->
       (c < w)%nat ->
       Np.item kt r c = interpolated chg_leak psi_node j r c) /\
    (forall r c : nat,
       (node_offset psi_node (nn - 1) - 1 <= Z.of_nat r)%Z -> Np.item kt r c = 0).
Proof.
  unfold _InterpolatePsi.
  rewrite (shape1_shaped _ _ _ Hleak) by lia. rewrite bind_Ok.
  pose proof Hleak as [Hll Hlr]. rewrite Hll.
  unfold range at 2.
  replace (Z.to_nat (Z.of_nat nn - 1 - 0)) with (nn - 1)%nat by lia.
  destruct (interpolate_all w nn chg_leak psi_node Hleak Hlen Hfirst Hinc Hlast
              (nn - 1) 0 (replicate max_node (replicate w 0)))
    as (kt & Hfold & Hsh & Hdone & Hzero);
    [lia | exact Hnn | exact (filled_zeros w nn chg_leak psi_node Hlen) |].
  change (Z.of_nat 0) with 0%Z in Hfold. rewrite Hfold, bind_Ok.
  destruct (lookup_lt_is_Some_2 chg_leak (nn - 1)) as [row Hrow]; [lia |].
  rewrite (getitem_last chg_leak row)
    by (rewrite last_lookup, Hll; now replace (pred nn) with (nn - 1)%nat by lia).
  rewrite bind_Ok. pose proof Hsh as [Hkl Hkr].
  rewrite Hkl, py_index_last by (unfold max_node; lia). rewrite bind_Ok.
  exists kt, row. unfold max_node in *.
  split; [reflexivity |]. split; [exact Hrow |]. split; [exact Hsh |].
  split; [| exact Hzero].
  intros j r c Hj Hr Hc. apply Hdone; [lia | exact Hr | exact Hc].
Qed.

End DenseTable.

(** Every offset below a node lies between two adjacent nodes. *)
Lemma node_segment (psi_node : list Z) (k : nat) (x : Z) :
  (node_offset psi_node 0 <= x < node_offset psi_node k)%Z ->
  exists j : nat, (S j <= k)%nat /\
    (node_offset psi_node j <= x < node_offset psi_node (S j))%Z.
Proof.
  induction k as [| k IH]; intros Hx; [lia |].
  destruct (Z_lt_le_dec x (node_offset psi_node k)) as [Hlt | Hge].
  - destruct (IH ltac:(lia)) as (j & Hj & Hjx). exists j. split; [lia | exact Hjx].
  - exists k. split; [lia | lia].
Qed.

Lemma Forall_item (P : Q -> Prop) h w (a : array) :
  Np.shaped h w a ->
  (forall r c : nat, (r < h)%nat -> (c < w)%nat -> P (Np.item a r c)) ->
  Forall (Forall P) a.
Proof.
  intros [Hl Hr] H. apply Forall_lookup. intros r row Hrow.
  pose proof (lookup_lt_Some _ _ _ Hrow) as Hrh.
  pose proof (Forall_lookup_1 _ _ _ _ Hr Hrow) as Hw. cbv beta in Hw.
  apply Forall_lookup. intros c x Hx.
  pose proof (lookup_lt_Some _ _ _ Hx) as Hcw.
  specialize (H r c ltac:(lia) ltac:(lia)).
  rewrite (item_lookup _ _ _ _ Hrow), Hx in H. exact H.
Qed.

Lemma item_Forall (P : Q -> Prop) h w (a : array) (r c : nat) :
  Np.shaped h w a -> Forall (Forall P) a -> (r < h)%nat -> (c < w)%nat ->
  P (Np.item a r c).
Proof.
  intros [Hl Hr] H Hrh Hcw.
  destruct (lookup_lt_is_Some_2 a r ltac:(lia)) as [row Hrow].
  pose proof (Forall_lookup_1 _ _ _ _ Hr Hrow) as Hw. cbv beta in Hw.
  destruct (lookup_lt_is_Some_2 row c ltac:(lia)) as [x Hx].
  rewrite (item_lookup _ _ _ _ Hrow), Hx.
  exact (Forall_lookup_1 _ _ _ _ (Forall_lookup_1 _ _ _ _ H Hrow) Hx).
Qed.

Lemma fraction_of_segment (p q x : Z) :
  (p <= x < q)%Z ->
  0 <= (inject_Z x - inject_Z p) / inject_Z (q - p) /\
  (inject_Z x - inject_Z p) / inject_Z (q - p) <= 1.
Proof.
  intros H.
  assert (0 < inject_Z (q - p)) as Hd
    by (change 0 with (inject_Z 0); rewrite <- Zlt_Qlt; lia).
  assert (0 <= inject_Z x - inject_Z p) as Hn.
  { unfold Qminus. rewrite <- inject_Z_opp, <- inject_Z_plus.
    change 0 with (inject_Z 0). rewrite <- Zle_Qle. lia. }
  assert (inject_Z x - inject_Z p <= inject_Z (q - p)) as Hle.
  { unfold Qminus. rewrite <- inject_Z_opp, <- inject_Z_plus, <- Zle_Qle. lia. }
  split.
  - apply Qle_shift_div_l; [exact Hd | lra].
  - apply Qle_shift_div_r; [exact Hd | lra].
Qed.

Lemma InterpolatePsi_bounded (w nn : nat) (chg_leak : array)
    (psi_node : list Z) (M : Q) :
  Np.shaped nn w chg_leak -> length psi_node = nn -> (1 <= nn)%nat ->
  node_offset psi_node 0 = 1%Z ->
  (forall j : nat, (S j < nn)%nat ->
     (node_offset psi_node j < node_offset psi_node (S j))%Z) ->
  (node_offset psi_node (nn - 1) <= 100)%Z ->
  Forall (Forall (fun v => 0 <= v /\ v <= M)) chg_leak ->
  exists chg_leak_kt,
    _InterpolatePsi chg_leak psi_node = Ok chg_leak_kt /\
    Np.shaped 100 w chg_leak_kt /\
    Forall (Forall (fun v => 0 <= v /\ v <= M)) chg_leak_kt /\
    chg_leak_kt !! 99%nat = chg_leak !! (nn - 1)%nat.
Proof.
  intros Hleak Hlen Hnn Hfirst Hinc Hlast Hrange.
  destruct (InterpolatePsi_rows w nn chg_leak psi_node Hleak Hlen Hnn Hfirst
              Hinc Hlast) as (kt & row & Hok & Hrow & Hsh & Hdone & Hzero).
  exists (<[99%nat := row]> kt). split; [exact Hok |].
  pose proof Hsh as [Hkl Hkr]. pose proof Hleak as [Hll Hlr].
  pose proof (Forall_lookup_1 _ _ _ _ Hlr Hrow) as Hroww. cbv beta in Hroww.
  assert (Np.shaped 100 w (<[99%nat := row]> kt)) as Hsh'.
  { split; [now rewrite length_insert |]. now apply Forall_insert. }
  split; [exact Hsh' |]. split; [| rewrite Hrow; apply list_lookup_insert_eq; lia].
  apply (Forall_item _ 100 w); [exact Hsh' |]. intros r c Hr Hc.
  rewrite item_insert_row by lia.
  destruct (decide (r = 99%nat)) as [-> | Hne].
  - destruct (lookup_lt_is_Some_2 row c ltac:(lia)) as [x Hx]. rewrite Hx.
    exact (Forall_lookup_1 _ _ _ _ (Forall_lookup_1 _ _ _ _ Hrange Hrow) Hx).
  - destruct (Z_lt_le_dec (Z.of_nat r + 1) (node_offset psi_node (nn - 1)))
      as [Hlt | Hge].
    + destruct (node_segment psi_node (nn - 1) (Z.of_nat r + 1))
        as (j & Hj & Hseg); [lia |].
      rewrite (Hdone j r c) by lia. unfold interpolated. cbv zeta.
      pose proof (item_Forall _ nn w chg_leak j c Hleak Hrange ltac:(lia) Hc)
        as [Ha0 HaM].
      pose proof (item_Forall _ nn w chg_leak (S j) c Hleak Hrange ltac:(lia) Hc)
        as [Hb0 HbM].
      destruct (fraction_of_segment _ _ _ Hseg) as [Hf0 Hf1].
      split; [now apply convex_nonneg | now apply convex_le].
    + rewrite Hzero by lia.
      pose proof (item_Forall _ nn w chg_leak 0 c Hleak Hrange ltac:(lia) Hc)
        as [Ha0 HaM].
      split; lra.
Qed.

(** X8.  For calibration nodes with strictly increasing offsets that start at 1
    and end at or below 100, and calibration values between 0 and [M]:
    every entry of the dense table of [_InterpolatePsi] lies between 0 and
    [M] as well.  The interpolation does not leave the range of the
    calibration values, and the table has 100 rows of as many entries as
    the calibration has columns. *)
Theorem InterpolatePsi_within_calibration_range (w nn : nat)
    (chg_leak : array) (psi_node : list Z) (M : Q) :
  Np.shaped nn w chg_leak -> length psi_node = nn -> (1 <= nn)%nat ->
  node_offset psi_node 0 = 1%Z ->
  (forall j : nat, (S j < nn)%nat ->
     (node_offset psi_node j < node_offset psi_node (S j))%Z) ->
  (node_offset psi_node (nn - 1) <= 100)%Z ->
  Forall (Forall (fun v => 0 <= v /\ v <= M)) chg_leak ->
  returns (_InterpolatePsi chg_leak psi_node)
    (fun chg_leak_kt =>
       Np.shaped 100 w chg_leak_kt /\
       Forall (Forall (fun v => 0 <= v /\ v <= M)) chg_leak_kt).
Proof.
  intros Hleak Hlen Hnn Hfirst Hinc Hlast Hrange.
  destruct (InterpolatePsi_bounded w nn chg_leak psi_node M Hleak Hlen Hnn
              Hfirst Hinc Hlast Hrange) as (kt & Hok & Hsh & Hb & _).
  exists kt. auto.
Qed.

Lemma InterpolatePsi_within_calibration_range_witness :
  returns
    (_InterpolatePsi [[4; 3; 2; 1]; [2; 2; 1; 1]; [0; 1; 0; 1]] [1; 3; 100]%Z)
    (fun chg_leak_kt =>
       Np.shaped 100 4 chg_leak_kt /\
       Forall (Forall (fun v => 0 <= v /\ v <= 4)) chg_leak_kt).
Proof.
  apply (InterpolatePsi_within_calibration_range 4 3
           [[4; 3; 2; 1]; [2; 2; 1; 1]; [0; 1; 0; 1]] [1; 3; 100]%Z 4).
  - split; [reflexivity | repeat constructor].
  - reflexivity.
  - lia.
  - reflexivity.
  - intros [| [| j]] Hj; [vm_compute; reflexivity | vm_compute; reflexivity | lia].
  - vm_compute. discriminate.
  - repeat (apply Forall_cons_2 || apply Forall_nil_2);
      split; vm_compute; discriminate.
Defined.

(** ** [YCte] from the headers to the corrected quadrants *)

Lemma row_bounded (l : list Q) : exists M, Forall (fun v => v <= M) l.
Proof.
  induction l as [| x l [M HM]]; [exists 0; constructor |].
  destruct (Qlt_le_dec M x) as [Hlt | Hle].
  - exists x. constructor; [lra |].
    eapply Forall_impl; [exact HM |]. intros v Hv. cbv beta in Hv. lra.
  - exists M. now constructor.
Qed.

Lemma array_bounded (a : array) :
  exists M, Forall (Forall (fun v => v <= M)) a.
Proof.
  induction a as [| r a [M HM]]; [exists 0; constructor |].
  destruct (row_bounded r) as [Mr Hr].
  destruct (Qlt_le_dec M Mr) as [Hlt | Hle].
  - exists Mr. constructor; [exact Hr |].
    eapply Forall_impl; [exact HM |]. intros row Hrow. cbv beta in Hrow.
    eapply Forall_impl; [exact Hrow |]. intros v Hv. cbv beta in Hv. lra.
  - exists M. constructor; [| exact HM].
    eapply Forall_impl; [exact Hr |]. intros v Hv. cbv beta in Hv. lra.
Qed.

Lemma Forall2d_and (P R : Q -> Prop) (a : array) :
  Forall (Forall P) a -> Forall (Forall R) a ->
  Forall (Forall (fun v => P v /\ R v)) a.
Proof.
  intros HP HR. pose proof (List.Forall_and HP HR) as H.
  eapply Forall_impl; [exact H |]. intros r [H1 H2]. cbv beta in *.
  pose proof (List.Forall_and H1 H2) as H'.
  eapply Forall_impl; [exact H' |]. auto.
Qed.

Lemma Forall2d_fst (P R : Q -> Prop) (a : array) :
  Forall (Forall (fun v => P v /\ R v)) a -> Forall (Forall P) a.
Proof.
  intros H. eapply Forall_impl; [exact H |]. intros r Hr. cbv beta in Hr.
  eapply Forall_impl; [exact Hr |]. now intros v [? _].
Qed.

(** The dummy read noise of every amplifier of the list. *)
Lemma rdns_dummy (ampList : list string) (amp : string) :
  amp ∈ ampList ->
  (list_to_map (map (fun amp => (amp, 0)) ampList) : gmap string Q) !! amp
    = Some 0.
Proof.
  intros Hin. apply elem_of_list_to_map_1'.
  - intros y Hy. apply list_elem_of_fmap in Hy as (a & [= _ ->] & _). reflexivity.
  - apply list_elem_of_fmap. exists amp. auto.
Qed.

(** A pass reaches the call of the C extension when the gain and the read
    noise of the amplifier are there and the separation returns. *)
Lemma call_kernel_returns FixYCte tb cfg (sciAmpOrig : array) (amp : string)
    (g rn : Q) (out : array * array) :
  gain cfg !! amp = Some g -> rdns cfg !! amp = Some rn ->
  _DecomposeRN sciAmpOrig (noise cfg) (rn2_nit cfg) rn = Ok out ->
  exists r, call_kernel FixYCte tb cfg sciAmpOrig amp = Ok r.
Proof.
  intros Hg Hrn Hd. unfold call_kernel, dict_getitem.
  rewrite Hg, bind_Ok, Hrn, bind_Ok, Hd, bind_Ok.
  destruct out as [sig nse]. destruct (FixYCte _ _ _ _ _ _ _) as [cor ret].
  eauto.
Qed.

(** The separation returns for every model but 100 on a rectangular input
    with at least one row, and for the models other than 1 and 100 on every
    input. *)
Lemma DecomposeRN_returns h w (data_e : array) (model nitrn : Z) (readNoise : Q) :
  model <> 100%Z ->
  (model = 1%Z -> Np.shaped h w data_e /\ (1 <= h)%nat) ->
  exists out, _DecomposeRN data_e model nitrn readNoise = Ok out.
Proof.
  intros H100 H1. unfold _DecomposeRN.
  destruct (model =? 1)%Z eqn:E1.
  - apply Z.eqb_eq in E1. destruct (H1 E1) as [Hd Hh].
    destruct (model1_separated h w data_e nitrn Hd Hh) as (out & Hout & _). eauto.
  - apply Z.eqb_neq in H100. rewrite H100. eauto.
Qed.

(** What [_InterpolatePhi] hands to [_TrackChargeTrap] on a physical fill
    curve: a [QMAX] between 0 and the length of [pix_q_array], and no
    negative entry in [pix_q_array]. *)
Lemma InterpolatePhi_physical (log10 : Q -> Q) (dtde_l : list Q) (cte_frac : Q) :
  (forall p : Z, (1 <= p)%Z -> 0 <= log10 (inject_Z p)) ->
  Forall (fun x => 0 <= x) dtde_l ->
  0 <= cte_frac ->
  (forall p : Z, (1 <= p <= 49999)%Z ->
     (np_int (1 + 2 * log10 (inject_Z p)) < Z.of_nat (length dtde_l))%Z) ->
  Forall (fun x => x * cte_frac <= 1) dtde_l ->
  exists dtde_q q_pix_array pix_q_array QMAX,
    _InterpolatePhi log10 dtde_l cte_frac
      = Ok (dtde_q, q_pix_array, pix_q_array, QMAX) /\
    (0 <= QMAX <= Z.of_nat (length pix_q_array))%Z /\
    Forall (fun v => 0 <= v) pix_q_array.
Proof.
  intros Hlog Hl Hc Hnodes Hone.
  pose proof p_max_value as Hpm.
  assert (forall p : Z, (1 <= p <= Z.of_nat p_max)%Z ->
            (np_int (1 + 2 * log10 (inject_Z p)) < Z.of_nat (length dtde_l))%Z)
    as Hnodes' by (intros p Hp; apply Hnodes; lia).
  destruct (InterpolatePhi_upto_returns log10 Hlog p_max dtde_l cte_frac
              Hl Hc Hnodes' Hone) as [[[[dq qp] pq] QMAX] Hr].
  exists dq, qp, pq, QMAX. rewrite InterpolatePhi_unfold.
  split; [exact Hr |].
  pose proof (InterpolatePhi_upto_Ok_inverse _ _ _ _ _ _ _ _ Hr) as Hpq.
  apply InterpolatePhi_upto_Ok in Hr as (Hq & Hqp & HQ).
  destruct (dtde_q_entries log10 Hlog _ _ _ _ (p1_range_ge_1 p_max) Hq)
    as [Hlen _].
  rewrite p1_range_length in Hlen.
  pose proof (dtde_q_nonneg log10 Hlog _ _ Hl Hc _ _ (p1_range_ge_1 p_max) Hq)
    as H0.
  pose proof (dtde_q_at_most_one log10 Hlog p_max dtde_l cte_frac Hone _ Hq)
    as H1.
  assert (length qp = p_max) as Hlq.
  { rewrite Hqp. unfold q_pix_array_of, ctde_q_of.
    now rewrite length_map, running_sum_length. }
  assert (Forall (fun q => (1 <= q)%Z) qp) as Hge
    by (rewrite Hqp; apply q_pix_array_ge_1).
  destruct (inverse_mapping p_max qp pq Hlq Hge Hpq)
    as (Hlp & _ & _ & _ & Hnn).
  split; [| exact Hnn].
  rewrite HQ, Hlp. pose proof (sum_nonneg _ H0) as Hs.
  pose proof (fold_left_Qplus_le dq 0 H1) as Htot. rewrite Hlen in Htot.
  fold (Np.sum dq) in Htot.
  pose proof (np_int_nonneg _ Hs).
  pose proof (np_int_le_nat (Np.sum dq) p_max Hs ltac:(lra)). lia.
Qed.

(** The time scale of a WFC exposure. *)
Lemma CalcCteFrac_WFC (mjd : Q) :
  _CalcCteFrac mjd "WFC" = Ok ((mjd - 52335.0) / (55105.0 - 52335.0)) /\
  (mjd - 52335.0) / (55105.0 - 52335.0) == (mjd - 52335) / 2770.
Proof.
  split.
  - unfold _CalcCteFrac.
    rewrite (CalcCteFrac_with_epochs _ _ _ 52335.0 55105.0) by reflexivity.
    apply truediv_nonzero. intros H. vm_compute in H. discriminate.
  - unfold Qdiv.
    assert (/ (55105.0 - 52335.0) == / 2770) as -> by reflexivity.
    assert (52335.0 == 52335) as -> by reflexivity. reflexivity.
Qed.

(** X9.  [YCte] on a well-formed WFC exposure.  The exposure is not older than
    the first epoch; the nodes of PSI have strictly increasing offsets from
    1 to at most 100, its table has at least four columns, no negative
    value and a last node of positive values; PHI has no negative value,
    reaches every node index the charge levels ask for and, scaled to the
    date, takes at most one trap per level; the noise model is not 100; the
    amplifiers are distinct, and each has a gain, a science array and an
    error array of the shape of the science array, with at least one row
    under model 1.  Then
    all the tables are built and the loop runs to its end, whatever the
    kernel reports: every amplifier of the list still has its two arrays,
    and the arrays of any other amplifier are as they were. *)
Theorem YCte_returns_on_well_formed_input (log10 sqrt : Q -> Q)
    (FixYCte : list (list npfloat) -> Z -> list Z -> list (list npfloat) ->
               list (list npfloat) -> string -> string -> array * Z)
    (ex : exposure) (ref : pctefile) (noise : Z) (logName : string)
    (nn w : nat) (last_node : list Q) :
  (forall p : Z, (1 <= p)%Z -> 0 <= log10 (inject_Z p)) ->
  detector ex = "WFC"%string -> 52335 <= expstart ex ->
  Np.shaped nn w (chg_leak ref) -> length (psi_node ref) = nn ->
  (1 <= nn)%nat -> (4 <= w)%nat ->
  node_offset (psi_node ref) 0 = 1%Z ->
  (forall j : nat, (S j < nn)%nat ->
     (node_offset (psi_node ref) j < node_offset (psi_node ref) (S j))%Z) ->
  (node_offset (psi_node ref) (nn - 1) <= 100)%Z ->
  Forall (Forall (fun v => 0 <= v)) (chg_leak ref) ->
  chg_leak ref !! (nn - 1)%nat = Some last_node ->
  Forall (fun v => 0 < v) last_node ->
  Forall (fun x => 0 <= x) (dtde_l ref) ->
  (forall p : Z, (1 <= p <= 49999)%Z ->
     (np_int (1 + 2 * log10 (inject_Z p)) < Z.of_nat (length (dtde_l ref)))%Z) ->
  Forall (fun x => x * ((expstart ex - 52335) / 2770) <= 1) (dtde_l ref) ->
  noise <> 100%Z -> NoDup (ampList ex) ->
  (forall amp, amp ∈ ampList ex ->
     exists (sciAmp errAmp : array) (g : Q) (h' w' : nat),
       sci ex !! amp = Some sciAmp /\ err ex !! amp = Some errAmp /\
       hdr_gain ex !! amp = Some g /\
       Np.shaped h' w' sciAmp /\ Np.shaped h' w' errAmp /\
       (noise = 1%Z -> (1 <= h')%nat)) ->
  returns (YCte log10 sqrt FixYCte ex ref noise logName)
    (fun qd' =>
       (forall amp, amp ∈ ampList ex ->
          is_Some (sciQuadData qd' !! amp) /\
          is_Some (errQuadData qd' !! amp)) /\
       (forall amp, amp ∉ ampList ex ->
          sciQuadData qd' !! amp = sci ex !! amp /\
          errQuadData qd' !! amp = err ex !! amp)).
Proof.
  intros Hlog Hdet Hdate Hleak Hlen Hnn Hw Hfirst Hinc Hlast Hleak0 Hrow Hpos
    Hphi0 Hnodes Hone Hnoise Hnd Hamps.
  unfold YCte. rewrite Hdet.
  destruct (CalcCteFrac_WFC (expstart ex)) as [Hfrac Heq].
  rewrite Hfrac, bind_Ok.
  set (cte_frac := (expstart ex - 52335.0) / (55105.0 - 52335.0)) in *.
  assert (0 <= cte_frac) as Hc.
  { rewrite Heq. apply Qle_shift_div_l; lra. }
  assert (Forall (fun x => x * cte_frac <= 1) (dtde_l ref)) as Hone'.
  { eapply Forall_impl; [exact Hone |]. intros x Hx. cbv beta in Hx.
    now rewrite Heq. }
  destruct (array_bounded (chg_leak ref)) as [M HM].
  destruct (InterpolatePsi_bounded w nn (chg_leak ref) (psi_node ref) M
              Hleak Hlen Hnn Hfirst Hinc Hlast (Forall2d_and _ _ _ Hleak0 HM))
    as (kt & Hkt & Hsh & Hkt0 & Hkt99).
  apply Forall2d_fst in Hkt0. rewrite Hrow in Hkt99.
  rewrite Hkt, bind_Ok.
  destruct (InterpolatePhi_physical log10 (dtde_l ref) cte_frac
              Hlog Hphi0 Hc Hnodes Hone')
    as (dq & qp & pq & QMAX & Hphi & HQ & Hpq0).
  rewrite Hphi, bind_Ok. cbv zeta.
  destruct (raw_leak_columns_physical log10 QMAX pq 100 w kt 99 last_node
              Hsh Hw Hkt0 Hkt99 Hpos HQ Hpq0) as (columns & Hraw & _ & _).
  rewrite (TrackChargeTrap_Ok _ _ _ _ _ Hraw), bind_Ok.
  set (tb := {| QMAX := QMAX |}). set (cfg := {| outLog := logName |}).
  set (qd := {| failed := [] |}).
  assert (forall amp, amp ∈ ampList ex -> runnable FixYCte tb cfg qd amp) as Hrun.
  { intros amp Hin.
    destruct (Hamps amp Hin)
      as (s & e & g & h' & w' & Hs & He & Hg & Hss & Hes & Hh1).
    assert (rdns cfg !! amp = Some 0) as Hrn.
    { subst cfg. cbn [rdns]. apply Z.eqb_neq in Hnoise. rewrite Hnoise.
      cbn [negb]. now apply rdns_dummy. }
    destruct (DecomposeRN_returns h' w' s noise (RN2_NIT ref) 0 Hnoise
                ltac:(auto)) as [out Hout].
    destruct (call_kernel_returns FixYCte tb cfg s amp g 0 out Hg Hrn Hout)
      as [r Hr].
    exists s, e, r, h', w'. auto. }
  destruct (correct_amps_outcome sqrt FixYCte tb cfg (ampList ex) qd Hnd Hrun)
    as (qd' & Hloop & Hframe & _ & Hset).
  exists qd'. split; [exact Hloop |]. split; [| exact Hframe].
  intros amp Hin.
  destruct (Hrun amp Hin)
    as (s & e & [[[g nse] cor] ret] & h' & w' & Hs & He & _ & _ & Hk).
  destruct (Hset amp Hin s e g nse cor ret Hs He Hk) as [Hfail Hdone].
  destruct (decide (ret = 0%Z)) as [H0 | H0].
  - destruct (Hdone H0) as [-> ->]. split; eauto.
  - destruct (Hfail H0) as (-> & -> & _). split; eauto.
Qed.

Lemma YCte_returns_on_well_formed_input_witness :
  returns (YCte log10_floor sqrt_floor FixYCte_plus10 wfc_exposure
             three_nodes 1 "")
    (fun qd' =>
       (forall amp, amp ∈ ampList wfc_exposure ->
          is_Some (sciQuadData qd' !! amp) /\
          is_Some (errQuadData qd' !! amp)) /\
       (forall amp, amp ∉ ampList wfc_exposure ->
          sciQuadData qd' !! amp = sci wfc_exposure !! amp /\
          errQuadData qd' !! amp = err wfc_exposure !! amp)).
Proof.
  apply (YCte_returns_on_well_formed_input log10_floor sqrt_floor
           FixYCte_plus10 wfc_exposure three_nodes 1 "" 3 4 [1; 1; 1; 1]).
  - exact log10_floor_nonneg.
  - reflexivity.
  - vm_compute. discriminate.
  - split; [reflexivity | repeat constructor].
  - reflexivity.
  - lia.
  - lia.
  - reflexivity.
  - intros [| [| j]] Hj; [vm_compute; reflexivity | vm_compute; reflexivity | lia].
  - vm_compute. discriminate.
  - forall_Q.
  - reflexivity.
  - forall_Q.
  - forall_Q.
  - intros p _. exact (log10_floor_nodes p).
  - forall_Q.
  - lia.
  - apply (bool_decide_unpack _). vm_compute. reflexivity.
  - intros amp Hin. cbn [ampList wfc_exposure] in Hin. unfold two_amps in Hin.
    apply elem_of_cons in Hin as [-> | Hin];
      [| apply list_elem_of_singleton in Hin as ->].
    + eexists _, _, _, 2%nat, 2%nat.
      split; [reflexivity |]. split; [reflexivity |]. split; [reflexivity |].
      split; [split; [reflexivity | repeat constructor] |].
      split; [split; [reflexivity | repeat constructor] | lia].
    + eexists _, _, _, 2%nat, 2%nat.
      split; [reflexivity |]. split; [reflexivity |]. split; [reflexivity |].
      split; [split; [reflexivity | repeat constructor] |].
      split; [split; [reflexivity | repeat constructor] | lia].
Defined.

(** ** [_ResolveRefFile] *)

Lemma append_cons (a : ascii) (s t : string) :
  String a s +:+ t = String a (s +:+ t).
Proof. reflexivity. Qed.

Lemma append_empty_l (s : string) : EmptyString +:+ s = s.
Proof. reflexivity. Qed.

Lemma append_empty_r (s : string) : s +:+ EmptyString = s.
Proof.
  induction s as [| a s IH]; [reflexivity |].
  now rewrite append_cons, IH.
Qed.

Lemma append_assoc (s t u : string) : (s +:+ t) +:+ u = s +:+ (t +:+ u).
Proof.
  induction s as [| a s IH]; [reflexivity |].
  now rewrite !append_cons, IH.
Qed.

Lemma prefix_char (c a : ascii) (s : string) :
  String.prefix (String c EmptyString) (String a s) = bool_decide (c = a).
Proof.
  cbn. destruct (ascii_dec c a) as [-> | Hne].
  - rewrite bool_decide_true by reflexivity. now destruct s.
  - now rewrite bool_decide_false.
Qed.

(** A text without the separator is one piece. *)
Lemma split_from_plain (c : ascii) (cur s : string) :
  without_char c s ->
  split_from (String c EmptyString) 0 cur s = [cur +:+ s].
Proof.
  revert cur. induction s as [| a s IH]; intros cur Hs.
  - cbn. now rewrite append_empty_r.
  - destruct Hs as [Ha Hs]. cbn [split_from]. rewrite prefix_char.
    rewrite bool_decide_false by congruence.
    rewrite IH by exact Hs. now rewrite append_assoc.
Qed.

(** The first piece ends at the first separator. *)
Lemma split_from_first (c : ascii) (cur d rest : string) :
  without_char c d ->
  split_from (String c EmptyString) 0 cur (d +:+ String c rest)
    = (cur +:+ d) :: split_from (String c EmptyString) 0 EmptyString rest.
Proof.
  revert cur. induction d as [| a d IH]; intros cur Hd.
  - rewrite append_empty_l. cbn [split_from]. rewrite prefix_char.
    rewrite bool_decide_true by reflexivity. now rewrite append_empty_r.
  - destruct Hd as [Ha Hd]. rewrite append_cons. cbn [split_from].
    rewrite prefix_char.
    rewrite bool_decide_false by congruence.
    rewrite IH by exact Hd. now rewrite append_assoc.
Qed.

Section RefFileProperties.

Variable getenv : string -> option string.
Variable os_sep : string.
Variable abspath : string -> string.

(** The directory that stands for the variable [name]: its value followed
    by [os.sep], or nothing when the variable is unset or empty. *)
Let directory_of (name : string) : string :=
  match getenv name with
  | Some p => if decide (p = EmptyString) then EmptyString else p +:+ os_sep
  | None => EmptyString
  end.

Lemma ResolveRefFile_pieces (refText sep : string) (s0 s1 : string)
    (pieces : list string) :
  str_split refText sep = Ok (s0 :: s1 :: pieces) ->
  _ResolveRefFile getenv os_sep abspath refText sep
    = Ok (directory_of s0 +:+ s1).
Proof.
  intros Hs. unfold _ResolveRefFile. rewrite Hs, bind_Ok. cbv zeta.
  cbn [length]. change (1 <? S (S (length pieces)))%nat with true. cbv iota.
  rewrite (getitem_nonneg _ 0 s0) by (try reflexivity; lia). rewrite bind_Ok.
  rewrite (getitem_nonneg _ 1 s1) by (try reflexivity; lia). rewrite bind_Ok.
  reflexivity.
Qed.

End RefFileProperties.

(** X10.  A text of the form [dir$file], with no separator in [dir] nor in
    [file], resolves to the value of the environment variable [dir],
    [os.sep] and [file]; when the variable is unset or empty it resolves to
    [file] alone and nothing is raised.  Whatever follows a second
    separator is dropped. *)
Theorem ResolveRefFile_directory_variable
    (getenv : string -> option string) (os_sep : string)
    (abspath : string -> string) (c : ascii) (dir file tail : string) :
  without_char c dir -> without_char c file ->
  _ResolveRefFile getenv os_sep abspath
    (dir +:+ String c (file +:+ String c tail)) (String c EmptyString)
  = _ResolveRefFile getenv os_sep abspath
      (dir +:+ String c file) (String c EmptyString) /\
  _ResolveRefFile getenv os_sep abspath
    (dir +:+ String c file) (String c EmptyString)
  = Ok (match getenv dir with
        | Some p => if decide (p = EmptyString) then file
                    else p +:+ os_sep +:+ file
        | None => file
        end).
Proof.
  intros Hd Hf.
  assert (forall rest pieces,
            split_from (String c EmptyString) 0 EmptyString rest = file :: pieces ->
            _ResolveRefFile getenv os_sep abspath (dir +:+ String c rest)
              (String c EmptyString)
            = Ok (match getenv dir with
                  | Some p => if decide (p = EmptyString) then file
                              else p +:+ os_sep +:+ file
                  | None => file
                  end)) as Hres.
  { intros rest pieces Hrest.
    rewrite (ResolveRefFile_pieces getenv os_sep abspath _ _ dir file pieces).
    - destruct (getenv dir) as [p |]; [| reflexivity].
      destruct (decide (p = EmptyString)); [reflexivity |].
      now rewrite append_assoc.
    - unfold str_split. rewrite split_from_first by exact Hd.
      now rewrite append_empty_l, Hrest. }
  split.
  - rewrite (Hres (file +:+ String c tail)
               (split_from (String c EmptyString) 0 EmptyString tail))
      by (rewrite split_from_first by exact Hf; reflexivity).
    rewrite (Hres file []) by (rewrite split_from_plain by exact Hf; reflexivity).
    reflexivity.
  - apply (Hres file []). now rewrite split_from_plain by exact Hf.
Qed.

Lemma ResolveRefFile_directory_variable_witness :
  _ResolveRefFile (fun v => if decide (v = "jref"%string)
                            then Some "/grp/hst/cdbs/jref"%string else None)
    "/" (fun s => "/cwd/" +:+ s)
    ("jref" +:+ String "$" ("pcte.fits" +:+ String "$" "x")) "$"
  = _ResolveRefFile (fun v => if decide (v = "jref"%string)
                              then Some "/grp/hst/cdbs/jref"%string else None)
      "/" (fun s => "/cwd/" +:+ s)
      ("jref" +:+ String "$" "pcte.fits") "$" /\
  _ResolveRefFile (fun v => if decide (v = "jref"%string)
                            then Some "/grp/hst/cdbs/jref"%string else None)
    "/" (fun s => "/cwd/" +:+ s)
    ("jref" +:+ String "$" "pcte.fits") "$"
  = Ok (match (if decide ("jref"%string = "jref"%string)
               then Some "/grp/hst/cdbs/jref"%string else None) with
        | Some p => if decide (p = EmptyString) then "pcte.fits"%string
                    else p +:+ "/" +:+ "pcte.fits"
        | None => "pcte.fits"%string
        end).
Proof.
  apply (ResolveRefFile_directory_variable
           (fun v => if decide (v = "jref"%string)
                     then Some "/grp/hst/cdbs/jref"%string else None)
           "/" (fun s => "/cwd/" +:+ s) "$" "jref" "pcte.fits" "x").
  - cbn. repeat split; discriminate.
  - cbn. repeat split; discriminate.
Defined.

(** X11.  A text without the separator resolves to its absolute path, whatever
    the environment holds; an empty separator raises [ValueError]. *)
Theorem ResolveRefFile_plain_name
    (getenv : string -> option string) (os_sep : string)
    (abspath : string -> string) (c : ascii) (refText : string) :
  without_char c refText ->
  _ResolveRefFile getenv os_sep abspath refText (String c EmptyString)
    = Ok (abspath refText) /\
  _ResolveRefFile getenv os_sep abspath refText EmptyString = Raise ValueError.
Proof.
  intros Hs. split; [| reflexivity].
  unfold _ResolveRefFile, str_split.
  rewrite split_from_plain by exact Hs. rewrite bind_Ok. reflexivity.
Qed.

Lemma ResolveRefFile_plain_name_witness :
  _ResolveRefFile (fun _ => Some "/data"%string) "/" (fun s => "/cwd/" +:+ s)
    "pcte.fits" "$" = Ok ("/cwd/" +:+ "pcte.fits") /\
  _ResolveRefFile (fun _ => Some "/data"%string) "/" (fun s => "/cwd/" +:+ s)
    "pcte.fits" "" = Raise ValueError.
Proof.
  apply (ResolveRefFile_plain_name (fun _ => Some "/data"%string) "/"
           (fun s => "/cwd/" +:+ s) "$" "pcte.fits").
  cbn. repeat split; discriminate.
Defined.

(** ** [_InterpolatePhi]: a table of PHI that is too short *)

(** The only exception of an index is [IndexError]. *)
Lemma getitem_Ok_or_IndexError {A} (l : list A) (i : Z) :
  (exists x, getitem l i = Ok x) \/ getitem l i = Raise IndexError.
Proof.
  unfold getitem. destruct (py_index (length l) i) as [j | e] eqn:E.
  - rewrite bind_Ok. destruct (l !! j); eauto.
  - right. unfold py_index in E.
    destruct ((0 <=? i) && (i <? Z.of_nat (length l)))%Z; [discriminate |].
    destruct ((- Z.of_nat (length l) <=? i) && (i <? 0))%Z; [discriminate |].
    injection E as <-. reflexivity.
Qed.

Lemma getitem_beyond {A} (l : list A) (i : Z) :
  (Z.of_nat (length l) <= i)%Z -> getitem l i = Raise IndexError.
Proof.
  intros Hi. unfold getitem, py_index.
  destruct ((0 <=? i) && (i <? Z.of_nat (length l)))%Z eqn:E1;
    [exfalso; zbool; lia |].
  destruct ((- Z.of_nat (length l) <=? i) && (i <? 0))%Z eqn:E2;
    [exfalso; zbool; lia |].
  reflexivity.
Qed.

Lemma mapM_getitem_Ok_or_IndexError {A} (l : list A) (idx : list Z) :
  (exists vals, mapM (getitem l) idx = Ok vals) \/
  mapM (getitem l) idx = Raise IndexError.
Proof.
  induction idx as [| i idx IH]; [left; eexists; reflexivity |].
  cbn [mapM]. destruct (getitem_Ok_or_IndexError l i) as [[x ->] | ->].
  - rewrite bind_Ok. destruct IH as [[vals ->] | ->].
    + rewrite bind_Ok. eauto.
    + now right.
  - now right.
Qed.

Lemma mapM_getitem_beyond {A} (l : list A) (idx : list Z) (i : Z) :
  i ∈ idx -> (Z.of_nat (length l) <= i)%Z ->
  mapM (getitem l) idx = Raise IndexError.
Proof.
  intros Hin Hi. induction idx as [| j idx IH]; [inversion Hin |].
  cbn [mapM]. apply elem_of_cons in Hin as [<- | Hin].
  - now rewrite getitem_beyond.
  - destruct (getitem_Ok_or_IndexError l j) as [[x ->] | ->]; [| reflexivity].
    rewrite bind_Ok, (IH Hin). reflexivity.
Qed.

Lemma bind_Raise {A B} (e : exn) (f : A -> result B) : Raise e ≫= f = Raise e.
Proof. reflexivity. Qed.

Lemma InterpolatePhi_upto_short_table (log10 : Q -> Q) (n : nat)
    (dtde_l : list Q) (cte_frac : Q) (p : Z) :
  (1 <= p <= Z.of_nat n)%Z ->
  (Z.of_nat (length dtde_l) <= np_int (1 + 2 * log10 (inject_Z p)))%Z ->
  InterpolatePhi_upto log10 n dtde_l cte_frac = Raise IndexError.
Proof.
  intros Hp Hshort. unfold InterpolatePhi_upto, dtde_q_of. cbv zeta.
  set (p1_range := map (fun p => (p + 1)%Z) (range 0 (Z.of_nat n))).
  set (ll := map np_int (map _ p1_range)).
  assert (np_int (1 + 2 * log10 (inject_Z p)) ∈ ll) as Hin.
  { subst ll. rewrite map_map. apply list_elem_of_fmap. exists p.
    split; [reflexivity |]. subst p1_range.
    apply (list_elem_of_lookup_2 _ (Z.to_nat (p - 1))).
    rewrite p1_range_lookup by lia. f_equal. lia. }
  destruct (mapM_getitem_Ok_or_IndexError dtde_l
              (map (fun l => (l - 1)%Z) ll)) as [[lo ->] | ->].
  - rewrite bind_Ok, (mapM_getitem_beyond dtde_l ll _ Hin Hshort).
    now rewrite !bind_Raise.
  - now rewrite !bind_Raise.
Qed.

(** X12.  When the charge level [p] asks for a node that [dtde_l] does not have,
    [_InterpolatePhi] raises [IndexError]: the nodes must reach index
    [int(1 + 2 log10 p)] for every level [p] from 1 to 49999. *)
Theorem InterpolatePhi_short_table_raises (log10 : Q -> Q)
    (dtde_l : list Q) (cte_frac : Q) (p : Z) :
  (1 <= p <= 49999)%Z ->
  (Z.of_nat (length dtde_l) <= np_int (1 + 2 * log10 (inject_Z p)))%Z ->
  _InterpolatePhi log10 dtde_l cte_frac = Raise IndexError.
Proof.
  intros Hp Hshort. rewrite InterpolatePhi_unfold.
  pose proof p_max_value as Hpm.
  apply (InterpolatePhi_upto_short_table log10 p_max dtde_l cte_frac p);
    [lia | exact Hshort].
Qed.

Lemma InterpolatePhi_short_table_raises_witness :
  _InterpolatePhi log10_floor [0.1; 0.1] 1 = Raise IndexError.
Proof.
  apply (InterpolatePhi_short_table_raises log10_floor [0.1; 0.1] 1 10).
  - lia.
  - vm_compute. discriminate.
Defined.

(** ** [YCte] on an exposure older than the first epoch *)

Lemma np_int_below_minus_one (x : Q) : x <= -1 -> (np_int x <= -1)%Z.
Proof.
  intros H. unfold np_int.
  destruct (Qle_bool 0 x) eqn:E; [apply Qle_bool_iff in E; lra |].
  change (-1)%Z with (Qceiling (-1)). now apply Qceiling_resp_le.
Qed.

Lemma np_int_nonpos (x : Q) : x <= 0 -> (np_int x <= 0)%Z.
Proof.
  intros H. unfold np_int. destruct (Qle_bool 0 x) eqn:E.
  - apply Qle_bool_iff in E. change 0%Z with (Qfloor 0).
    apply Qfloor_resp_le. lra.
  - change 0%Z with (Qceiling 0). now apply Qceiling_resp_le.
Qed.

Lemma running_sum_le (sumt : Q) (l : list Q) :
  Forall (fun x => x <= 0) l ->
  Forall (fun c => c <= sumt) (running_sum sumt l).
Proof.
  intros H. revert sumt. induction H as [| x l Hx _ IH]; intros sumt;
    cbn [running_sum]; constructor.
  - lra.
  - eapply Forall_impl; [apply IH |]. intros c Hc. cbv beta in Hc. lra.
Qed.

Lemma fold_left_Qplus_le_each (l : list Q) (s b : Q) :
  Forall (fun x => x <= b) l ->
  fold_left Qplus l s <= s + inject_Z (Z.of_nat (length l)) * b.
Proof.
  intros H. revert s. induction H as [| x l Hx _ IH]; intros s.
  - cbn [fold_left length]. change (inject_Z (Z.of_nat 0)) with 0. lra.
  - cbn [fold_left length]. specialize (IH (s + x)).
    rewrite Nat2Z.inj_succ, <- Z.add_1_r, inject_Z_plus.
    change (inject_Z 1) with 1. lra.
Qed.

Lemma convex_ge (a b f m : Q) :
  m <= a -> m <= b -> 0 <= f -> f <= 1 -> m <= a + f * (b - a).
Proof.
  intros Ha Hb H0 H1.
  assert (0 <= (1 - f) * (a - m)) by (apply Qmult_le_0_compat; lra).
  assert (0 <= f * (b - m)) by (apply Qmult_le_0_compat; lra).
  assert (a + f * (b - a) == m + ((1 - f) * (a - m) + f * (b - m))) as -> by ring.
  lra.
Qed.

(** [_InterpolatePhi] with a negative time scalar, on fill values that are
    at least [m > 0]: every trap count is 1, and [QMAX], the total
    truncated toward zero, is negative once the total reaches -1. *)
Lemma InterpolatePhi_negative_scalar (log10 : Q -> Q) (dtde_l : list Q)
    (cte_frac m : Q) :
  (forall p : Z, (1 <= p)%Z -> 0 <= log10 (inject_Z p)) ->
  (forall p : Z, (1 <= p <= 49999)%Z ->
     (np_int (1 + 2 * log10 (inject_Z p)) < Z.of_nat (length dtde_l))%Z) ->
  Forall (fun x => m <= x) dtde_l -> 0 < m -> cte_frac < 0 ->
  49999 * (m * cte_frac) <= -1 ->
  exists dtde_q q_pix_array pix_q_array QMAX,
    _InterpolatePhi log10 dtde_l cte_frac
      = Ok (dtde_q, q_pix_array, pix_q_array, QMAX) /\
    Forall (fun q => q = 1%Z) q_pix_array /\
    (QMAX < 0)%Z.
Proof.
  intros Hlog Hnodes Hm Hm0 Hc Htot.
  pose proof p_max_value as Hpm.
  assert (forall p : Z, (1 <= p <= Z.of_nat p_max)%Z ->
            (np_int (1 + 2 * log10 (inject_Z p)) < Z.of_nat (length dtde_l))%Z)
    as Hnodes' by (intros p Hp; apply Hnodes; lia).
  destruct (dtde_q_of_returns log10 Hlog p_max dtde_l cte_frac Hnodes')
    as [dq Hq].
  destruct (dtde_q_entries log10 Hlog _ _ _ _ (p1_range_ge_1 p_max) Hq)
    as [Hlen Hent].
  rewrite p1_range_length in Hlen.
  assert (Forall (fun x => x <= m * cte_frac) dq) as Hneg.
  { eapply Forall_impl; [exact Hent |].
    intros x (a & b & f & Ha & Hb & Hf0 & Hf1 & ->).
    rewrite Forall_forall in Hm.
    pose proof (convex_ge a b f m (Hm a Ha) (Hm b Hb) Hf0 Hf1) as Hge.
    assert (0 <= (a + f * (b - a) - m) * - cte_frac)
      by (apply Qmult_le_0_compat; lra).
    assert ((a + f * (b - a)) * cte_frac
            == m * cte_frac - (a + f * (b - a) - m) * - cte_frac) as -> by ring.
    lra. }
  assert (m * cte_frac < 0) as Hmc.
  { assert (0 < m * - cte_frac) by (apply Qmult_lt_0_compat; lra).
    assert (m * cte_frac == - (m * - cte_frac)) as -> by ring. lra. }
  assert (Forall (fun x => x <= 0) dq) as Hneg0.
  { eapply Forall_impl; [exact Hneg |]. intros x Hx. cbv beta in Hx. lra. }
  assert (Forall (fun q => q = 1%Z) (q_pix_array_of (ctde_q_of dq))) as Hones.
  { unfold q_pix_array_of, ctde_q_of. apply Forall_map.
    eapply Forall_impl; [apply (running_sum_le 0 dq Hneg0) |].
    intros c Hc0. cbv beta in *. pose proof (np_int_nonpos c Hc0). lia. }
  destruct (pix_q_array_of_returns p_max (q_pix_array_of (ctde_q_of dq))
              (map (fun p => (p + 1)%Z) (range 0 (Z.of_nat p_max))))
    as [pq Hpq].
  { eapply Forall_impl; [exact Hones |]. intros q ->. lia. }
  exists dq, (q_pix_array_of (ctde_q_of dq)), pq, (np_int (Np.sum dq)).
  split; [| split; [exact Hones |]].
  - rewrite InterpolatePhi_unfold. unfold InterpolatePhi_upto.
    rewrite Hq, bind_Ok. cbv zeta. rewrite Hpq, bind_Ok. reflexivity.
  - pose proof (fold_left_Qplus_le_each dq 0 _ Hneg) as Hs.
    fold (Np.sum dq) in Hs. rewrite Hlen, Hpm in Hs.
    change (inject_Z 49999) with 49999 in Hs.
    pose proof (np_int_below_minus_one (Np.sum dq) ltac:(lra)). lia.
Qed.

(** X13.  [YCte] on a WFC exposure taken before the first epoch, MJD 52335.  The
    time scale is negative, so that the fill curve is negative at every
    level; when PHI is at least [m > 0] at every node and
    [49999 * m * (52335 - expstart) / 2770 >= 1], the total of the curve is
    at most -1, [_YCTE_QMAX] is negative and [_TrackChargeTrap] raises
    [ValueError] for a table of a negative number of columns.  No quadrant
    is read. *)
Theorem YCte_before_first_epoch_raises (log10 sqrt : Q -> Q)
    (FixYCte : list (list npfloat) -> Z -> list Z -> list (list npfloat) ->
               list (list npfloat) -> string -> string -> array * Z)
    (ex : exposure) (ref : pctefile) (noise : Z) (logName : string)
    (nn w : nat) (m : Q) :
  (forall p : Z, (1 <= p)%Z -> 0 <= log10 (inject_Z p)) ->
  detector ex = "WFC"%string -> expstart ex < 52335 ->
  Np.shaped nn w (chg_leak ref) -> length (psi_node ref) = nn ->
  (1 <= nn)%nat ->
  node_offset (psi_node ref) 0 = 1%Z ->
  (forall j : nat, (S j < nn)%nat ->
     (node_offset (psi_node ref) j < node_offset (psi_node ref) (S j))%Z) ->
  (node_offset (psi_node ref) (nn - 1) <= 100)%Z ->
  (forall p : Z, (1 <= p <= 49999)%Z ->
     (np_int (1 + 2 * log10 (inject_Z p)) < Z.of_nat (length (dtde_l ref)))%Z) ->
  Forall (fun x => m <= x) (dtde_l ref) -> 0 < m ->
  1 <= 49999 * m * ((52335 - expstart ex) / 2770) ->
  YCte log10 sqrt FixYCte ex ref noise logName = Raise ValueError.
Proof.
  intros Hlog Hdet Hdate Hleak Hlen Hnn Hfirst Hinc Hlast Hnodes Hm Hm0 Htot.
  unfold YCte. rewrite Hdet.
  destruct (CalcCteFrac_WFC (expstart ex)) as [Hfrac Heq].
  rewrite Hfrac, bind_Ok.
  set (cte_frac := (expstart ex - 52335.0) / (55105.0 - 52335.0)) in *.
  assert (cte_frac == - ((52335 - expstart ex) / 2770)) as Heq'
    by (rewrite Heq; field).
  assert (0 < (52335 - expstart ex) / 2770) as Hpos
    by (apply Qlt_shift_div_l; lra).
  assert (cte_frac < 0) as Hc by lra.
  assert (49999 * (m * cte_frac) <= -1) as Htot'.
  { rewrite Heq'.
    assert (49999 * (m * - ((52335 - expstart ex) / 2770))
            == - (49999 * m * ((52335 - expstart ex) / 2770))) as -> by ring.
    lra. }
  destruct (InterpolatePsi_rows w nn (chg_leak ref) (psi_node ref) Hleak Hlen
              Hnn Hfirst Hinc Hlast) as (kt & row & Hkt & _).
  rewrite Hkt, bind_Ok.
  destruct (InterpolatePhi_negative_scalar log10 (dtde_l ref) cte_frac m
              Hlog Hnodes Hm Hm0 Hc Htot')
    as (dq & qp & pq & QMAX & Hphi & _ & HQ).
  rewrite Hphi, bind_Ok. cbv zeta.
  unfold _TrackChargeTrap, raw_leak_columns.
  apply Z.ltb_lt in HQ. rewrite HQ. reflexivity.
Qed.

Lemma YCte_before_first_epoch_raises_witness :
  YCte log10_floor sqrt_floor FixYCte_plus10 early_exposure three_nodes 1 ""
    = Raise ValueError.
Proof.
  apply (YCte_before_first_epoch_raises log10_floor sqrt_floor FixYCte_plus10
           early_exposure three_nodes 1 "" 3 4 0.1).
  - exact log10_floor_nonneg.
  - reflexivity.
  - vm_compute. reflexivity.
  - split; [reflexivity | repeat constructor].
  - reflexivity.
  - lia.
  - reflexivity.
  - intros [| [| j]] Hj; [vm_compute; reflexivity | vm_compute; reflexivity | lia].
  - vm_compute. discriminate.
  - intros p _. exact (log10_floor_nodes p).
  - forall_Q.
  - vm_compute. reflexivity.
  - vm_compute. discriminate.
Defined.

(** ** [_InterpolatePsi_NOT_USED]: the slow version builds the same table *)

Lemma cell_lt {A} h w (a : list (list A)) (r c : nat) :
  Np.shaped h w a -> (r < h)%nat -> (c < w)%nat -> is_Some (cell a r c).
Proof.
  intros [Hl Hr] Hrh Hcw. unfold cell.
  destruct (lookup_lt_is_Some_2 a r ltac:(lia)) as [row Hrow]. rewrite Hrow.
  pose proof (Forall_lookup_1 _ _ _ _ Hr Hrow) as Hw. cbv beta in Hw.
  cbn [mbind option_bind]. apply lookup_lt_is_Some_2. lia.
Qed.

Lemma cell_item (a : array) (r c : nat) (x : Q) :
  cell a r c = Some x -> Np.item a r c = x.
Proof. unfold cell, Np.item. now intros ->. Qed.

Lemma set_item_spec {A} h w (a : list (list A)) (t k : nat) (v : A) :
  Np.shaped h w a -> (t < h)%nat -> (k < w)%nat ->
  exists a',
    set_item a (Z.of_nat t) (Z.of_nat k) v = Ok a' /\
    Np.shaped h w a' /\
    forall r c : nat,
      cell a' r c = if decide (r = t /\ c = k) then Some v else cell a r c.
Proof.
  intros [Hl Hr] Ht Hk. unfold set_item.
  destruct (lookup_lt_is_Some_2 a t ltac:(lia)) as [row Hrow].
  pose proof (Forall_lookup_1 _ _ _ _ Hr Hrow) as Hw. cbv beta in Hw.
  rewrite py_index_nonneg by lia. rewrite bind_Ok, Nat2Z.id.
  rewrite (getitem_nonneg a (Z.of_nat t) row) by (rewrite ?Nat2Z.id; auto; lia).
  rewrite bind_Ok. rewrite py_index_nonneg by lia. rewrite bind_Ok, Nat2Z.id.
  eexists. split; [reflexivity |]. split.
  - split; [now rewrite length_insert |].
    apply Forall_insert; [exact Hr |]. now rewrite length_insert.
  - intros r c. unfold cell.
    destruct (decide (r = t)) as [-> | Hne].
    + rewrite list_lookup_insert_eq by lia. cbn [mbind option_bind].
      destruct (decide (c = k)) as [-> | Hnc].
      * rewrite decide_True by auto. apply list_lookup_insert_eq. lia.
      * rewrite decide_False by (intros [_ ?]; contradiction).
        rewrite list_lookup_insert_ne by congruence. now rewrite Hrow.
    + rewrite list_lookup_insert_ne by congruence.
      now rewrite decide_False by (intros [? _]; contradiction).
Qed.

Section FillByEntry.

Context {A : Type}.
Variables (h w : nat).

(** A loop over the rows [t0 .. t0 + m - 1] that stores [f t] at column
    [k]. *)
Lemma fill_rows (body : list (list A) -> Z -> result (list (list A)))
    (f : nat -> A) (k : nat) (m t0 : nat) (a : list (list A)) :
  (forall (a : list (list A)) (t : nat),
     Np.shaped h w a -> (t0 <= t < t0 + m)%nat ->
     body a (Z.of_nat t) = set_item a (Z.of_nat t) (Z.of_nat k) (f t)) ->
  Np.shaped h w a -> (t0 + m <= h)%nat -> (k < w)%nat ->
  exists a',
    foldM body (zrange_len (Z.of_nat t0) m) a = Ok a' /\
    Np.shaped h w a' /\
    forall r c : nat,
      cell a' r c =
      if decide ((t0 <= r < t0 + m)%nat /\ c = k) then Some (f r)
      else cell a r c.
Proof.
  revert t0 a. induction m as [| m IH]; intros t0 a Hbody Ha Hm Hk.
  - exists a. split; [reflexivity |]. split; [exact Ha |].
    intros r c. now rewrite decide_False by lia.
  - cbn [zrange_len foldM]. rewrite Hbody by (auto; lia).
    destruct (set_item_spec h w a t0 k (f t0) Ha ltac:(lia) Hk)
      as (a1 & -> & Ha1 & Hc1).
    rewrite bind_Ok. replace (Z.of_nat t0 + 1)%Z with (Z.of_nat (S t0)) by lia.
    destruct (IH (S t0) a1) as (a' & Hfold & Ha' & Hc'); auto; try lia.
    { intros a2 t Ha2 Ht. apply Hbody; auto. lia. }
    exists a'. split; [exact Hfold |]. split; [exact Ha' |].
    intros r c. rewrite Hc', Hc1.
    destruct (decide (c = k)) as [-> | Hck].
    + destruct (decide (r = t0)) as [-> | Hr0].
      * rewrite (decide_False (P := (S t0 <= t0 < _)%nat /\ _)) by lia.
        rewrite decide_True by auto. now rewrite decide_True by lia.
      * rewrite (decide_False (P := r = t0 /\ _)) by (intros [? _]; contradiction).
        destruct (decide ((S t0 <= r < S t0 + m)%nat /\ k = k)) as [[? _] | Hn].
        -- now rewrite decide_True by lia.
        -- now rewrite decide_False by lia.
    + rewrite !decide_False by (intros [_ ?]; contradiction). reflexivity.
Qed.

(** The loop over the columns [k0 .. k0 + n - 1] around it. *)
Lemma fill_columns_by_entry
    (body : Z -> list (list A) -> Z -> result (list (list A)))
    (f : nat -> nat -> A) (m t0 n k0 : nat) (a : list (list A)) :
  (forall (a : list (list A)) (t k : nat),
     Np.shaped h w a -> (t0 <= t < t0 + m)%nat -> (k0 <= k < k0 + n)%nat ->
     body (Z.of_nat k) a (Z.of_nat t)
       = set_item a (Z.of_nat t) (Z.of_nat k) (f t k)) ->
  Np.shaped h w a -> (t0 + m <= h)%nat -> (k0 + n <= w)%nat ->
  exists a',
    foldM (fun a k => foldM (body k) (zrange_len (Z.of_nat t0) m) a)
      (zrange_len (Z.of_nat k0) n) a = Ok a' /\
    Np.shaped h w a' /\
    forall r c : nat,
      cell a' r c =
      if decide ((t0 <= r < t0 + m)%nat /\ (k0 <= c < k0 + n)%nat)
      then Some (f r c) else cell a r c.
Proof.
  revert k0 a. induction n as [| n IH]; intros k0 a Hbody Ha Hm Hn.
  - exists a. split; [reflexivity |]. split; [exact Ha |].
    intros r c. now rewrite decide_False by lia.
  - cbn [zrange_len foldM].
    destruct (fill_rows (body (Z.of_nat k0)) (fun t => f t k0) k0 m t0 a)
      as (a1 & -> & Ha1 & Hc1); auto; try lia.
    { intros a2 t Ha2 Ht. apply Hbody; auto. lia. }
    rewrite bind_Ok. replace (Z.of_nat k0 + 1)%Z with (Z.of_nat (S k0)) by lia.
    destruct (IH (S k0) a1) as (a' & Hfold & Ha' & Hc'); auto; try lia.
    { intros a2 t k Ha2 Ht Hk. apply Hbody; auto. lia. }
    exists a'. split; [exact Hfold |]. split; [exact Ha' |].
    intros r c. rewrite Hc', Hc1.
    destruct (decide ((t0 <= r < t0 + m)%nat)) as [Hr | Hr].
    + destruct (decide (c = k0)) as [-> | Hck].
      * rewrite (decide_False (P := _ /\ (S k0 <= k0 < _)%nat)) by lia.
        rewrite decide_True by auto. now rewrite decide_True by lia.
      * rewrite (decide_False (P := _ /\ c = k0)) by (intros [_ ?]; contradiction).
        destruct (decide ((t0 <= r < t0 + m)%nat /\ (S k0 <= c < S k0 + n)%nat))
          as [[_ ?] | Hn'].
        -- now rewrite decide_True by lia.
        -- now rewrite decide_False by lia.
    + rewrite !decide_False by (intros [? _]; contradiction). reflexivity.
Qed.

End FillByEntry.

Lemma Qle_bool_inject_Z (p t : Z) :
  Qle_bool (inject_Z p) (inject_Z t) = (p <=? t)%Z.
Proof.
  destruct (p <=? t)%Z eqn:E.
  - apply Qle_bool_iff. rewrite <- Zle_Qle. lia.
  - apply Qle_bool_false. rewrite <- Zlt_Qlt. lia.
Qed.

Lemma tlist_lookup (psi_node : list Z) (tt : nat) :
  (1 <= tt <= length psi_node)%nat ->
  getitem (0 :: map inject_Z psi_node) (Z.of_nat tt)
    = Ok (inject_Z (node_offset psi_node (tt - 1))).
Proof.
  intros Htt. apply getitem_nonneg; [lia |]. rewrite Nat2Z.id.
  destruct tt as [| tt]; [lia |]. cbn [lookup list_lookup].
  replace (S tt - 1)%nat with tt by lia.
  change (map inject_Z psi_node !! tt
          = Some (inject_Z (node_offset psi_node tt))).
  rewrite list_lookup_fmap. unfold node_offset.
  destruct (lookup_lt_is_Some_2 psi_node tt ltac:(lia)) as [p ->]. reflexivity.
Qed.

Lemma last_node_upto_steps (psi_node : list Z) (t : Z) (m s u : nat) :
  (1 <= s)%nat -> (s + m <= length psi_node)%nat ->
  foldM (fun ttu tt =>
           v ← getitem (0 :: map inject_Z psi_node) tt;
           Ok (if Qle_bool v (inject_Z t) then tt else ttu))
        (zrange_len (Z.of_nat s) m) (Z.of_nat u)
  = Ok (Z.of_nat
          (fold_left
             (fun u tt => if (node_offset psi_node (tt - 1) <=? t)%Z then tt else u)
             (seq s m) u)).
Proof.
  revert s u. induction m as [| m IH]; intros s u Hs Hm; [reflexivity |].
  cbn [zrange_len foldM seq fold_left].
  rewrite tlist_lookup by lia. rewrite bind_Ok, Qle_bool_inject_Z, bind_Ok.
  replace (Z.of_nat s + 1)%Z with (Z.of_nat (S s)) by lia.
  destruct (node_offset psi_node (s - 1) <=? t)%Z; apply IH; lia.
Qed.

Lemma last_node_upto_value (psi_node : list Z) (t : Z) :
  (1 <= length psi_node)%nat ->
  last_node_upto (0 :: map inject_Z psi_node)
    (range 1 (Z.of_nat (length psi_node))) t
  = Ok (Z.of_nat (last_node_of psi_node t)).
Proof.
  intros Hn. unfold last_node_upto, range, last_node_of.
  replace (Z.to_nat (Z.of_nat (length psi_node) - 1))
    with (length psi_node - 1)%nat by lia.
  change 1%Z with (Z.of_nat 1). apply last_node_upto_steps; lia.
Qed.

(** What the loop over [tt] has found. *)
Lemma last_node_steps_spec (psi_node : list Z) (t : Z) (m s u u' : nat) :
  (1 <= s)%nat -> (1 <= u)%nat -> (u <= Nat.max 1 (s - 1))%nat ->
  (node_offset psi_node (u - 1) <= t)%Z ->
  (forall tt : nat, (u < tt < s)%nat -> (t < node_offset psi_node (tt - 1))%Z) ->
  u' = fold_left
         (fun u tt => if (node_offset psi_node (tt - 1) <=? t)%Z then tt else u)
         (seq s m) u ->
  (1 <= u')%nat /\ (u' <= Nat.max 1 (s + m - 1))%nat /\
  (node_offset psi_node (u' - 1) <= t)%Z /\
  (forall tt : nat, (u' < tt < s + m)%nat -> (t < node_offset psi_node (tt - 1))%Z).
Proof.
  revert s u u'. induction m as [| m IH]; intros s u u' Hs H1 Hu Hle Hgt ->.
  - cbn [seq fold_left]. replace (s + 0)%nat with s by lia. auto.
  - cbn [seq fold_left]. replace (s + S m)%nat with (S s + m)%nat by lia.
    destruct (node_offset psi_node (s - 1) <=? t)%Z eqn:E.
    + eapply (IH (S s) s); [| | | | | reflexivity]; try lia.
    + eapply (IH (S s) u); [| | | | | reflexivity]; auto; try lia.
      intros tt Htt.
      destruct (decide (tt = s)) as [-> | Hne]; [lia | apply Hgt; lia].
Qed.

Lemma last_node_of_spec (psi_node : list Z) (t : Z) :
  (2 <= length psi_node)%nat -> (node_offset psi_node 0 <= t)%Z ->
  (1 <= last_node_of psi_node t <= length psi_node - 1)%nat /\
  (node_offset psi_node (last_node_of psi_node t - 1) <= t)%Z /\
  (forall tt : nat, (last_node_of psi_node t < tt < length psi_node)%nat ->
     (t < node_offset psi_node (tt - 1))%Z).
Proof.
  intros Hn H0.
  destruct (last_node_steps_spec psi_node t (length psi_node - 1) 1 1
              (last_node_of psi_node t))
    as (H1 & H2 & H3 & H4); auto; try lia.
  replace (1 + (length psi_node - 1))%nat with (length psi_node) in * by lia.
  split; [lia |]. split; [exact H3 | exact H4].
Qed.

Lemma getitem2_padded h w (a : array) (r c : nat) :
  Np.shaped h w a -> (1 <= r <= h)%nat -> (1 <= c <= w)%nat ->
  Np.getitem2 (replicate (w + 1) 0 :: map (cons 0) a) (Z.of_nat r) (Z.of_nat c)
    = Ok (Np.item a (r - 1) (c - 1)).
Proof.
  intros Ha Hr Hc.
  assert (Np.shaped (S h) (S w) (replicate (w + 1) 0 :: map (cons 0) a)) as Hp.
  { destruct Ha as [Hl Hrows]. split; [cbn [length]; rewrite length_map, Hl; reflexivity |].
    constructor; [rewrite length_replicate; lia |].
    apply Forall_map. eapply Forall_impl; [exact Hrows |].
    intros row Hrow. cbn [length]. cbv beta in *. lia. }
  rewrite (getitem2_item (S h) (S w) _ r c Hp) by lia.
  f_equal. unfold Np.item.
  destruct r as [| r]; [lia |]. destruct c as [| c]; [lia |].
  replace (S r - 1)%nat with r by lia. replace (S c - 1)%nat with c by lia.
  rewrite lookup_cons.
  change (map (cons 0) a) with (fmap (M := list) (cons 0) a).
  rewrite list_lookup_fmap. destruct (a !! r) as [row |]; reflexivity.
Qed.

Section SlowPsi.

Variables (w nn : nat) (chg_leak : array) (psi_node : list Z).
Hypothesis Hleak : Np.shaped nn w chg_leak.
Hypothesis Hlen : length psi_node = nn.
Hypothesis Hnn : (2 <= nn)%nat.
Hypothesis Hfirst : node_offset psi_node 0 = 1%Z.
Hypothesis Hinc :
  forall j : nat, (S j < nn)%nat ->
    (node_offset psi_node j < node_offset psi_node (S j))%Z.

Lemma interpolate_at_value (chg_leak_kt : list (list npfloat)) (t k : nat) :
  (1 <= t)%nat -> (1 <= k <= w)%nat ->
  interpolate_at (0 :: map inject_Z psi_node)
    (replicate (w + 1) 0 :: map (cons 0) chg_leak)
    (range 1 (Z.of_nat (length psi_node))) (Z.of_nat k) chg_leak_kt (Z.of_nat t)
  = set_item chg_leak_kt (Z.of_nat t) (Z.of_nat k) (slow_value chg_leak psi_node t k).
Proof.
  intros Ht Hk. unfold interpolate_at, slow_value. cbv zeta.
  rewrite last_node_upto_value by lia. rewrite bind_Ok.
  destruct (last_node_of_spec psi_node (Z.of_nat t) ltac:(lia) ltac:(lia))
    as (Hu & Hle & Hgt).
  set (u := last_node_of psi_node (Z.of_nat t)) in *.
  rewrite (tlist_lookup psi_node u) by lia. rewrite bind_Ok.
  replace (Z.of_nat u + 1)%Z with (Z.of_nat (S u)) by lia.
  rewrite (tlist_lookup psi_node (S u)) by lia. rewrite !bind_Ok.
  replace (S u - 1)%nat with u by lia.
  pose proof (Hinc (u - 1) ltac:(lia)) as Hlt.
  replace (S (u - 1)) with u in Hlt by lia.
  rewrite (getitem2_padded nn w) by (try assumption; lia). rewrite bind_Ok.
  rewrite (getitem2_padded nn w) by (try assumption; lia). rewrite !bind_Ok.
  replace (S u - 1)%nat with u by lia.
  f_equal. unfold np_div.
  assert (Qeq_bool (inject_Z (node_offset psi_node u)
                    - inject_Z (node_offset psi_node (u - 1))) 0 = false) as ->.
  { apply Qeq_bool_false. intros H.
    assert (inject_Z (node_offset psi_node (u - 1))
            < inject_Z (node_offset psi_node u)) by now rewrite <- Zlt_Qlt.
    lra. }
  reflexivity.
Qed.

Lemma slow_table :
  exists kt' : list (list npfloat),
    _InterpolatePsi_NOT_USED chg_leak psi_node = Ok kt' /\
    Np.shaped 100 w kt' /\
    forall r c : nat, (r < 100)%nat -> (c < w)%nat ->
      cell kt' r c = Some (slow_value chg_leak psi_node (S r) (S c)).
Proof.
  unfold _InterpolatePsi_NOT_USED.
  rewrite (shape1_shaped _ _ _ Hleak) by lia. rewrite bind_Ok. cbv zeta.
  assert (range 1 (Z.of_nat w + 1) = zrange_len (Z.of_nat 1) w) as ->
    by (unfold range; f_equal; lia).
  assert (range 1 (Z.of_nat max_node + 1) = zrange_len (Z.of_nat 1) 100) as ->
    by (unfold range, max_node; f_equal).
  unfold max_node.
  destruct (fill_columns_by_entry 101 (w + 1)
              (interpolate_at (0 :: map inject_Z psi_node)
                 (replicate (w + 1) 0 :: map (cons 0) chg_leak)
                 (range 1 (Z.of_nat (length psi_node))))
              (slow_value chg_leak psi_node) 100 1 w 1
              (replicate (100 + 1) (replicate (w + 1) (Fin 0))))
    as (a' & Hfold & Ha' & Hcell); try lia.
  { intros a t k _ Ht Hk. apply interpolate_at_value; lia. }
  { split; [apply length_replicate |].
    apply Forall_replicate, length_replicate. }
  rewrite Hfold, bind_Ok. eexists. split; [reflexivity |].
  destruct Ha' as [Hl Hr]. split.
  - split; [rewrite length_map, length_drop; lia |].
    apply Forall_map, Forall_drop. eapply Forall_impl; [exact Hr |].
    intros row Hrow. cbv beta in *. rewrite length_drop. lia.
  - intros r c Hr' Hc'.
    specialize (Hcell (S r) (S c)). rewrite decide_True in Hcell by lia.
    rewrite <- Hcell. unfold cell.
    change (map (drop 1) (drop 1 a')) with (fmap (M := list) (drop 1) (drop 1 a')).
    rewrite list_lookup_fmap, lookup_drop.
    change (1 + r)%nat with (S r).
    destruct (a' !! S r) as [row |]; [| reflexivity].
    cbn [fmap option_fmap option_map mbind option_bind].
    now rewrite lookup_drop.
Qed.

Hypothesis Hlast : node_offset psi_node (nn - 1) = 100%Z.

(** The value of the slow loop at offset [r + 1] is the value that
    [_InterpolatePsi] has in row [r]: the interpolation between the two
    nodes around the offset, and the last node at offset 100. *)
Lemma slow_value_agrees (kt : array) (row : list Q) (r c : nat) :
  chg_leak !! (nn - 1)%nat = Some row ->
  Np.shaped 100 w kt ->
  (forall j r c : nat,
     (S j < nn)%nat ->
     (node_offset psi_node j - 1 <= Z.of_nat r
        < node_offset psi_node (S j) - 1)%Z ->
     (c < w)%nat ->
     Np.item kt r c = interpolated chg_leak psi_node j r c) ->
  (r < 100)%nat -> (c < w)%nat ->
  exists v, slow_value chg_leak psi_node (S r) (S c) = Fin v /\
            v == Np.item (<[99%nat := row]> kt) r c.
Proof.
  intros Hrow Hsh Hdone Hr Hc. unfold slow_value. cbv zeta.
  eexists. split; [reflexivity |].
  destruct (last_node_of_spec psi_node (Z.of_nat (S r)) ltac:(lia) ltac:(lia))
    as (Hu & Hle & Hgt).
  set (u := last_node_of psi_node (Z.of_nat (S r))) in *.
  replace (S c - 1)%nat with c by lia.
  pose proof (Hinc (u - 1) ltac:(lia)) as Hlt.
  replace (S (u - 1)) with u in Hlt by lia.
  destruct Hsh as [Hkl _].
  rewrite item_insert_row by lia.
  destruct (decide (r = 99%nat)) as [-> | Hne].
  - assert (u = (nn - 1)%nat) as Hu1.
    { destruct (decide (u = (nn - 1)%nat)) as [? | Hn]; [assumption |].
      pose proof (Hgt (nn - 1)%nat ltac:(lia)) as H.
      pose proof (Hinc (nn - 1 - 1)%nat ltac:(lia)) as H'.
      replace (S (nn - 1 - 1)) with (nn - 1)%nat in H' by lia. lia. }
    rewrite Hu1 in *. rewrite Hlast.
    rewrite (item_lookup _ _ _ _ Hrow).
    assert (~ inject_Z 100 - inject_Z (node_offset psi_node (nn - 1 - 1)) == 0)
      as Hd.
    { intros H.
      assert (inject_Z (node_offset psi_node (nn - 1 - 1)) < inject_Z 100)
        by (rewrite <- Zlt_Qlt; lia).
      lra. }
    change (inject_Z (Z.of_nat 100)) with (inject_Z 100). field. exact Hd.
  - assert (Z.of_nat (S r) < node_offset psi_node u)%Z as Hupper.
    { destruct (decide (u = (nn - 1)%nat)) as [-> | Hn]; [lia |].
      pose proof (Hgt (S u) ltac:(lia)) as H.
      now replace (S u - 1)%nat with u in H by lia. }
    rewrite (Hdone (u - 1)%nat r c) by (try lia; replace (S (u - 1)) with u by lia; lia).
    unfold interpolated. cbv zeta. replace (S (u - 1)) with u by lia.
    assert (~ inject_Z (node_offset psi_node u)
              - inject_Z (node_offset psi_node (u - 1)) == 0) as Hd.
    { intros H.
      assert (inject_Z (node_offset psi_node (u - 1))
              < inject_Z (node_offset psi_node u)) by (rewrite <- Zlt_Qlt; lia).
      lra. }
    rewrite Nat2Z.inj_succ, <- Z.add_1_r.
    unfold Z.sub. rewrite !inject_Z_plus, inject_Z_opp.
    field. exact Hd.
Qed.

End SlowPsi.

Lemma Forall2_cells {A B} (R : A -> B -> Prop) h w
    (a : list (list A)) (b : list (list B)) :
  Np.shaped h w a -> Np.shaped h w b ->
  (forall r c x y, cell a r c = Some x -> cell b r c = Some y -> R x y) ->
  Forall2 (Forall2 R) a b.
Proof.
  intros [Hla Hra] [Hlb Hrb] H.
  apply Forall2_same_length_lookup_2; [congruence |].
  intros r ra rb Ha Hb.
  pose proof (Forall_lookup_1 _ _ _ _ Hra Ha) as Hwa.
  pose proof (Forall_lookup_1 _ _ _ _ Hrb Hb) as Hwb. cbv beta in *.
  apply Forall2_same_length_lookup_2; [congruence |].
  intros c x y Hx Hy. apply (H r c); unfold cell.
  - now rewrite Ha.
  - now rewrite Hb.
Qed.

(** X14.  For at least two nodes with strictly increasing offsets from 1 to
    exactly 100, [_InterpolatePsi_NOT_USED] returns the table of
    [_InterpolatePsi], entry by entry: every entry is finite and equal to
    the entry of the table in use.  The docstring of the slow version says
    as much; it holds when the last node is at offset 100. *)
Theorem InterpolatePsi_NOT_USED_same_table (w nn : nat) (chg_leak : array)
    (psi_node : list Z) :
  Np.shaped nn w chg_leak -> length psi_node = nn -> (2 <= nn)%nat ->
  node_offset psi_node 0 = 1%Z ->
  (forall j : nat, (S j < nn)%nat ->
     (node_offset psi_node j < node_offset psi_node (S j))%Z) ->
  node_offset psi_node (nn - 1) = 100%Z ->
  exists (kt : array) (kt' : list (list npfloat)),
    _InterpolatePsi chg_leak psi_node = Ok kt /\
    _InterpolatePsi_NOT_USED chg_leak psi_node = Ok kt' /\
    Np.shaped 100 w kt /\ Np.shaped 100 w kt' /\
    Forall2 (Forall2 (fun x y => exists v, y = Fin v /\ v == x)) kt kt'.
Proof.
  intros Hleak Hlen Hnn Hfirst Hinc Hlast.
  destruct (InterpolatePsi_rows w nn chg_leak psi_node Hleak Hlen
              ltac:(lia) Hfirst Hinc ltac:(lia))
    as (kt0 & row & Hok & Hrow & Hsh & Hdone & _).
  destruct (slow_table w nn chg_leak psi_node Hleak Hlen Hnn Hfirst Hinc)
    as (kt' & Hok' & Hsh' & Hcell').
  exists (<[99%nat := row]> kt0), kt'.
  split; [exact Hok |]. split; [exact Hok' |].
  assert (Np.shaped 100 w (<[99%nat := row]> kt0)) as Hsh1.
  { destruct Hsh as [Hl Hr]. destruct Hleak as [_ Hlr].
    split; [now rewrite length_insert |].
    apply Forall_insert; [exact Hr |].
    exact (Forall_lookup_1 _ _ _ _ Hlr Hrow). }
  split; [exact Hsh1 |]. split; [exact Hsh' |].
  apply (Forall2_cells _ 100 w); [exact Hsh1 | exact Hsh' |].
  intros r c x y Hx Hy.
  assert (r < 100 /\ c < w)%nat as [Hr Hc].
  { unfold cell in Hx. destruct Hsh1 as [Hl Hrows].
    destruct ((<[99%nat := row]> kt0) !! r) as [rw |] eqn:E; [| discriminate Hx].
    pose proof (lookup_lt_Some _ _ _ E).
    pose proof (Forall_lookup_1 _ _ _ _ Hrows E) as Hw. cbv beta in Hw.
    cbn [mbind option_bind] in Hx. pose proof (lookup_lt_Some _ _ _ Hx). lia. }
  rewrite (Hcell' r c Hr Hc) in Hy. injection Hy as <-.
  destruct (slow_value_agrees w nn chg_leak psi_node Hlen Hnn Hfirst Hinc Hlast
              kt0 row r c Hrow Hsh Hdone Hr Hc) as (v & Hv & Hveq).
  exists v. split; [exact Hv |]. now rewrite (cell_item _ _ _ _ Hx) in Hveq.
Qed.

Lemma InterpolatePsi_NOT_USED_same_table_witness :
  exists (kt : array) (kt' : list (list npfloat)),
    _InterpolatePsi [[4; 3; 2; 1]; [2; 2; 1; 1]; [0; 1; 0; 1]] [1; 3; 100]%Z
      = Ok kt /\
    _InterpolatePsi_NOT_USED [[4; 3; 2; 1]; [2; 2; 1; 1]; [0; 1; 0; 1]]
      [1; 3; 100]%Z = Ok kt' /\
    Np.shaped 100 4 kt /\ Np.shaped 100 4 kt' /\
    Forall2 (Forall2 (fun x y => exists v, y = Fin v /\ v == x)) kt kt'.
Proof.
  apply (InterpolatePsi_NOT_USED_same_table 4 3
           [[4; 3; 2; 1]; [2; 2; 1; 1]; [0; 1; 0; 1]] [1; 3; 100]%Z).
  - split; [reflexivity | repeat constructor].
  - reflexivity.
  - lia.
  - reflexivity.
  - intros [| [| j]] Hj; [vm_compute; reflexivity | vm_compute; reflexivity | lia].
  - reflexivity.
Defined.

(** With a last node below offset 100 the two differ: the table in use is
    zero from the last node on, the last row apart, and the slow version
    goes on along the last pair of nodes.  With a single node the slow
    version raises [IndexError]. *)
Example InterpolatePsi_NOT_USED_differs :
  (exists kt kt',
     _InterpolatePsi [[4; 3]; [2; 2]] [1; 3]%Z = Ok kt /\
     _InterpolatePsi_NOT_USED [[4; 3]; [2; 2]] [1; 3]%Z = Ok kt' /\
     kt !! 3%nat = Some [0; 0] /\
     exists a b, kt' !! 3%nat = Some [Fin a; Fin b] /\ a == 1 /\ b == 3 # 2) /\
  _InterpolatePsi_NOT_USED [[4; 3]] [1]%Z = Raise IndexError.
Proof.
  split; [| vm_compute; reflexivity].
  eexists _, _. split; [vm_compute; reflexivity |].
  split; [vm_compute; reflexivity |]. split; [reflexivity |].
  eexists _, _. split; [reflexivity |]. split; reflexivity.
Qed.

(** ** [_InterpolatePhi_NOT_USED]: the slow version fills the same arrays *)

(** Behind a leading entry the indices from 1 on are those of the array
    itself, out of range alike. *)
Lemma getitem_padded {A} (z : A) (l : list A) (i : Z) :
  (1 <= i)%Z -> getitem (z :: l) i = getitem l (i - 1).
Proof.
  intros Hi. unfold getitem, py_index. cbn [length].
  destruct ((0 <=? i) && (i <? Z.of_nat (S (length l))))%Z eqn:E1.
  - zbool.
    destruct ((0 <=? i - 1) && (i - 1 <? Z.of_nat (length l)))%Z eqn:E2;
      [| exfalso; zbool; lia].
    rewrite !bind_Ok. replace (Z.to_nat i) with (S (Z.to_nat (i - 1))) by lia.
    reflexivity.
  - destruct ((- Z.of_nat (S (length l)) <=? i) && (i <? 0))%Z eqn:E3;
      [exfalso; zbool; lia |].
    destruct ((0 <=? i - 1) && (i - 1 <? Z.of_nat (length l)))%Z eqn:E2;
      [exfalso; zbool; lia |].
    destruct ((- Z.of_nat (length l) <=? i - 1) && (i - 1 <? 0))%Z eqn:E4;
      [exfalso; zbool; lia |].
    reflexivity.
Qed.

Lemma set_entry_Ok_or_IndexError {A} (a : list A) (i : Z) (v : A) :
  (exists a', set_entry a i v = Ok a') \/ set_entry a i v = Raise IndexError.
Proof.
  unfold set_entry, py_index.
  destruct ((0 <=? i) && (i <? Z.of_nat (length a)))%Z; [left; eexists; reflexivity |].
  destruct ((- Z.of_nat (length a) <=? i) && (i <? 0))%Z;
    [left; eexists; reflexivity | right; reflexivity].
Qed.

(** Writing the entry [s + 1] of an array filled up to [s]. *)
Lemma set_entry_next {A} (l : list A) (s m : nat) (z d v : A) :
  l !! s = Some v ->
  set_entry (z :: take s l ++ replicate (S m) d) (Z.of_nat s + 1) v
    = Ok (z :: take (S s) l ++ replicate m d).
Proof.
  intros Hv. pose proof (lookup_lt_Some _ _ _ Hv) as Hs.
  unfold set_entry, py_index. cbn [length].
  rewrite length_app, length_take, length_replicate.
  destruct ((0 <=? Z.of_nat s + 1) &&
            (Z.of_nat s + 1 <? Z.of_nat (S (s `min` length l + S m))))%Z eqn:E;
    [| exfalso; zbool; lia].
  rewrite bind_Ok. replace (Z.to_nat (Z.of_nat s + 1)) with (S s) by lia.
  change (<[S s := v]> (z :: take s l ++ replicate (S m) d))
    with (z :: <[s := v]> (take s l ++ replicate (S m) d)).
  rewrite insert_app_r_alt by (rewrite length_take; lia).
  rewrite length_take. replace (s - s `min` length l)%nat with 0%nat by lia.
  rewrite (take_S_r _ _ _ Hv), <- app_assoc. reflexivity.
Qed.

Lemma getitem_filled {A} (l : list A) (s m : nat) (z d v : A) :
  l !! s = Some v ->
  getitem (z :: take (S s) l ++ replicate m d) (Z.of_nat s + 1) = Ok v.
Proof.
  intros Hv. pose proof (lookup_lt_Some _ _ _ Hv) as Hs.
  apply getitem_nonneg; [lia |].
  replace (Z.to_nat (Z.of_nat s + 1)) with (S s) by lia.
  rewrite lookup_cons. rewrite lookup_app_l by (rewrite length_take; lia).
  rewrite lookup_take_lt by lia. exact Hv.
Qed.

Lemma running_sum_lookup (l : list Q) (sumt : Q) (s : nat) (v : Q) :
  l !! s = Some v ->
  running_sum sumt l !! s = Some (fold_left Qplus (take s l) sumt + v).
Proof.
  revert sumt s. induction l as [| x l IH]; intros sumt s Hv; [discriminate |].
  destruct s as [| s]; cbn [running_sum].
  - injection Hv as ->. reflexivity.
  - rewrite lookup_cons. cbn [take fold_left]. now apply IH.
Qed.

Lemma foldM_Ok_or {A S} (e : exn) (body : S -> A -> result S) (l : list A) :
  (forall s x, (exists s', body s x = Ok s') \/ body s x = Raise e) ->
  forall s, (exists s', foldM body l s = Ok s') \/ foldM body l s = Raise e.
Proof.
  intros Hb. induction l as [| x l IH]; intros s; [left; eexists; reflexivity |].
  cbn [foldM]. destruct (Hb s x) as [[s' ->] | ->]; [| now right].
  rewrite bind_Ok. apply IH.
Qed.

Lemma foldM_Ok_Forall {A S} (P : A -> Prop) (body : S -> A -> result S)
    (l : list A) :
  (forall s x s', body s x = Ok s' -> P x) ->
  forall s s', foldM body l s = Ok s' -> Forall P l.
Proof.
  intros Hb. induction l as [| x l IH]; intros s s' H; [constructor |].
  cbn [foldM] in H. destruct (body s x) as [s1 |] eqn:E; [| discriminate].
  rewrite bind_Ok in H. constructor; [exact (Hb _ _ _ E) | exact (IH _ _ H)].
Qed.

Lemma mapM_getitem_Forall {A} (l : list A) (idx : list Z) :
  Forall (fun i => exists v, getitem l i = Ok v) idx ->
  exists vals, mapM (getitem l) idx = Ok vals.
Proof.
  induction 1 as [| i idx [v Hv] _ [vs IH]]; [eexists; reflexivity |].
  cbn [mapM]. rewrite Hv, bind_Ok, IH, bind_Ok. eauto.
Qed.

Lemma set_entry_padded {A} (z : A) (a : list A) (i : Z) (v : A) :
  (1 <= i)%Z ->
  set_entry (z :: a) i v = (a' ← set_entry a (i - 1) v; Ok (z :: a')).
Proof.
  intros Hi. unfold set_entry, py_index. cbn [length].
  destruct ((0 <=? i) && (i <? Z.of_nat (S (length a))))%Z eqn:E1.
  - zbool.
    destruct ((0 <=? i - 1) && (i - 1 <? Z.of_nat (length a)))%Z eqn:E2;
      [| exfalso; zbool; lia].
    rewrite !bind_Ok. replace (Z.to_nat i) with (S (Z.to_nat (i - 1))) by lia.
    reflexivity.
  - destruct ((- Z.of_nat (S (length a)) <=? i) && (i <? 0))%Z eqn:E3;
      [exfalso; zbool; lia |].
    destruct ((0 <=? i - 1) && (i - 1 <? Z.of_nat (length a)))%Z eqn:E2;
      [exfalso; zbool; lia |].
    destruct ((- Z.of_nat (length a) <=? i - 1) && (i - 1 <? 0))%Z eqn:E4;
      [exfalso; zbool; lia |].
    reflexivity.
Qed.

Section SlowFill.

Variable log10 : Q -> Q.
Variables (dtde_l2 : list Q) (cte_frac : Q).

(** The entries of [dtde_q], with the nodes they are read from. *)
Lemma dtde_q_lookup (p1_range : list Z) (dtde_q : list Q) (i : nat) (p : Z) :
  dtde_q_of log10 p1_range dtde_l2 cte_frac = Ok dtde_q ->
  p1_range !! i = Some p ->
  exists lo hi,
    getitem dtde_l2 (np_int (1 + 2 * log10 (inject_Z p)) - 1) = Ok lo /\
    getitem dtde_l2 (np_int (1 + 2 * log10 (inject_Z p))) = Ok hi /\
    dtde_q !! i
      = Some ((lo + (1 + 2 * log10 (inject_Z p)
                     - inject_Z (np_int (1 + 2 * log10 (inject_Z p))))
                    * (hi - lo)) * cte_frac).
Proof.
  unfold dtde_q_of.
  set (rl := map _ p1_range). set (ll := map np_int rl).
  set (fl := zip_with _ rl ll). set (kl := map _ ll).
  destruct (mapM (getitem dtde_l2) kl) as [lo |] eqn:Elo; [| discriminate].
  rewrite bind_Ok.
  destruct (mapM (getitem dtde_l2) ll) as [hi |] eqn:Ehi; [| discriminate].
  rewrite !bind_Ok. intros [= <-] Hp.
  apply mapM_getitem_Ok in Elo, Ehi.
  assert (rl !! i = Some (1 + 2 * log10 (inject_Z p))) as Hrl
    by (subst rl; now rewrite list_lookup_fmap, Hp).
  assert (ll !! i = Some (np_int (1 + 2 * log10 (inject_Z p)))) as Hll
    by (subst ll; now rewrite list_lookup_fmap, Hrl).
  assert (kl !! i = Some (np_int (1 + 2 * log10 (inject_Z p)) - 1)%Z) as Hkl
    by (subst kl; now rewrite list_lookup_fmap, Hll).
  destruct (Forall2_lookup_l _ _ _ _ _ Elo Hkl) as (a & Ha & Hga).
  destruct (Forall2_lookup_l _ _ _ _ _ Ehi Hll) as (b & Hb & Hgb).
  exists a, b. split; [exact Hga |]. split; [exact Hgb |].
  rewrite list_lookup_fmap, !lookup_zip_with, Ha, Hb.
  subst fl. rewrite lookup_zip_with, Hrl, Hll. reflexivity.
Qed.

(** A gather of [dtde_q_of] raises nothing but [IndexError]. *)
Lemma dtde_q_of_Ok_or_IndexError (p1_range : list Z) :
  (exists dtde_q, dtde_q_of log10 p1_range dtde_l2 cte_frac = Ok dtde_q) \/
  dtde_q_of log10 p1_range dtde_l2 cte_frac = Raise IndexError.
Proof.
  unfold dtde_q_of.
  set (rl := map _ p1_range). set (ll := map np_int rl).
  set (fl := zip_with _ rl ll). set (kl := map _ ll).
  destruct (mapM_getitem_Ok_or_IndexError dtde_l2 kl) as [[lo ->] | ->];
    [| now right].
  rewrite bind_Ok.
  destruct (mapM_getitem_Ok_or_IndexError dtde_l2 ll) as [[hi ->] | ->];
    [| now right].
  rewrite !bind_Ok. left. eexists. reflexivity.
Qed.

Lemma dtde_q_of_Forall (p1_range : list Z) :
  Forall (fun p =>
            (exists lo, getitem dtde_l2
                          (np_int (1 + 2 * log10 (inject_Z p)) - 1) = Ok lo) /\
            (exists hi, getitem dtde_l2
                          (np_int (1 + 2 * log10 (inject_Z p))) = Ok hi))
         p1_range ->
  exists dtde_q, dtde_q_of log10 p1_range dtde_l2 cte_frac = Ok dtde_q.
Proof.
  intros H. unfold dtde_q_of.
  set (rl := map _ p1_range). set (ll := map np_int rl).
  set (fl := zip_with _ rl ll). set (kl := map _ ll).
  destruct (mapM_getitem_Forall dtde_l2 kl) as [lo ->].
  { subst kl ll rl. rewrite !Forall_fmap. eapply Forall_impl; [exact H |].
    intros p [Hlo _]. exact Hlo. }
  rewrite bind_Ok.
  destruct (mapM_getitem_Forall dtde_l2 ll) as [hi ->].
  { subst ll rl. rewrite !Forall_fmap. eapply Forall_impl; [exact H |].
    intros p [_ Hhi]. exact Hhi. }
  rewrite !bind_Ok. eexists. reflexivity.
Qed.

(** A pass of the loop raises nothing but [IndexError], and it reads the
    two nodes of its level. *)
Lemma interpolate_level_Ok_or_IndexError (st : slow_phi) (p : Z) :
  (exists st', interpolate_level log10 (0 :: dtde_l2) cte_frac st p = Ok st') \/
  interpolate_level log10 (0 :: dtde_l2) cte_frac st p = Raise IndexError.
Proof.
  unfold interpolate_level. cbv zeta.
  destruct (getitem_Ok_or_IndexError (0 :: dtde_l2)
              (np_int (1 + 2 * log10 (inject_Z p)))) as [[lo ->] | ->];
    [| now right].
  rewrite bind_Ok.
  destruct (getitem_Ok_or_IndexError (0 :: dtde_l2)
              (np_int (1 + 2 * log10 (inject_Z p)) + 1)) as [[hi ->] | ->];
    [| now right].
  rewrite !bind_Ok.
  match goal with |- context [set_entry ?a ?i ?v] =>
    destruct (set_entry_Ok_or_IndexError a i v) as [[dq ->] | ->];
      [| now right] end.
  rewrite bind_Ok.
  destruct (getitem_Ok_or_IndexError dq p) as [[v ->] | ->]; [| now right].
  rewrite bind_Ok.
  match goal with |- context [set_entry ?a ?i ?v] =>
    destruct (set_entry_Ok_or_IndexError a i v) as [[cq ->] | ->];
      [| now right] end.
  rewrite bind_Ok.
  match goal with |- context [set_entry ?a ?i ?v] =>
    destruct (set_entry_Ok_or_IndexError a i v) as [[qp ->] | ->];
      [| now right] end.
  rewrite bind_Ok.
  match goal with |- context [set_entry ?a ?i ?v] =>
    destruct (set_entry_Ok_or_IndexError a i v) as [[pq ->] | ->];
      [| now right] end.
  rewrite bind_Ok. left. eexists. reflexivity.
Qed.

Lemma interpolate_level_reads (st : slow_phi) (p : Z) (st' : slow_phi) :
  interpolate_level log10 (0 :: dtde_l2) cte_frac st p = Ok st' ->
  (exists lo, getitem (0 :: dtde_l2)
                (np_int (1 + 2 * log10 (inject_Z p))) = Ok lo) /\
  (exists hi, getitem (0 :: dtde_l2)
                (np_int (1 + 2 * log10 (inject_Z p)) + 1) = Ok hi).
Proof.
  unfold interpolate_level. cbv zeta.
  destruct (getitem (0 :: dtde_l2) (np_int (1 + 2 * log10 (inject_Z p))))
    as [lo |]; [| discriminate].
  rewrite bind_Ok.
  destruct (getitem (0 :: dtde_l2) (np_int (1 + 2 * log10 (inject_Z p)) + 1))
    as [hi |]; [| discriminate].
  intros _. eauto.
Qed.

End SlowFill.

Section SlowSteps.

Variable log10 : Q -> Q.
Variables (dtde_l2 : list Q) (cte_frac : Q).
Variables (n : nat) (dtde_q : list Q).

Hypothesis dtde_q_length : length dtde_q = n.
Hypothesis dtde_q_levels : forall (i : nat) (v : Q),
  dtde_q !! i = Some v ->
  exists lo hi,
    getitem (0 :: dtde_l2)
      (np_int (1 + 2 * log10 (inject_Z (Z.of_nat i + 1)))) = Ok lo /\
    getitem (0 :: dtde_l2)
      (np_int (1 + 2 * log10 (inject_Z (Z.of_nat i + 1))) + 1) = Ok hi /\
    v = (lo + (1 + 2 * log10 (inject_Z (Z.of_nat i + 1))
               - inject_Z (np_int (1 + 2 * log10 (inject_Z (Z.of_nat i + 1)))))
              * (hi - lo)) * cte_frac.

(** One pass of the loop on arrays filled up to level [s]. *)
Lemma slow_phi_step (m s : nat) (a : list Q) (qs : Z) (v : Q) :
  dtde_q !! s = Some v ->
  interpolate_level log10 (0 :: dtde_l2) cte_frac
    {| slow_dtde_q := 0 :: take s dtde_q ++ replicate (S m) 0;
       slow_ctde_q := 0 :: take s (ctde_q_of dtde_q) ++ replicate (S m) 0;
       slow_q_pix_array :=
         0 :: take s (map inject_Z (q_pix_array_of (ctde_q_of dtde_q)))
           ++ replicate (S m) 0;
       slow_pix_q_array := 0 :: a;
       slow_sumt := fold_left Qplus (take s dtde_q) 0;
       slow_q := qs |} (Z.of_nat s + 1)
  = (pix_q_array ← set_entry (0 :: a)
                     (Z.max (np_int (fold_left Qplus (take (S s) dtde_q) 0)) 1)
                     (inject_Z (Z.of_nat s + 1));
     Ok {| slow_dtde_q := 0 :: take (S s) dtde_q ++ replicate m 0;
           slow_ctde_q := 0 :: take (S s) (ctde_q_of dtde_q) ++ replicate m 0;
           slow_q_pix_array :=
             0 :: take (S s) (map inject_Z (q_pix_array_of (ctde_q_of dtde_q)))
               ++ replicate m 0;
           slow_pix_q_array := pix_q_array;
           slow_sumt := fold_left Qplus (take (S s) dtde_q) 0;
           slow_q := Z.max (np_int (fold_left Qplus (take (S s) dtde_q) 0)) 1 |}).
Proof.
  intros Hv.
  destruct (dtde_q_levels s v Hv) as (lo & hi & Hlo & Hhi & Hval).
  pose proof (running_sum_lookup dtde_q 0 s v Hv) as Hc.
  fold (ctde_q_of dtde_q) in Hc.
  assert (fold_left Qplus (take (S s) dtde_q) 0
          = fold_left Qplus (take s dtde_q) 0 + v) as ->
    by (rewrite (take_S_r _ _ _ Hv), fold_left_app; reflexivity).
  set (sumt := fold_left Qplus (take s dtde_q) 0 + v) in *.
  assert (map inject_Z (q_pix_array_of (ctde_q_of dtde_q)) !! s
          = Some (inject_Z (Z.max (np_int sumt) 1))) as Hqf.
  { change (map inject_Z ?l) with (fmap (M := list) inject_Z l).
    unfold q_pix_array_of. now rewrite !list_lookup_fmap, Hc. }
  unfold interpolate_level.
  cbn [slow_dtde_q slow_ctde_q slow_q_pix_array slow_pix_q_array slow_sumt].
  cbv zeta. rewrite Hlo, bind_Ok, Hhi, bind_Ok, bind_Ok.
  rewrite <- Hval.
  rewrite (set_entry_next dtde_q s m 0 0 v Hv), bind_Ok.
  rewrite (getitem_filled dtde_q s m 0 0 v Hv), bind_Ok.
  fold sumt.
  rewrite (set_entry_next (ctde_q_of dtde_q) s m 0 0 sumt Hc), bind_Ok.
  assert ((if (np_int sumt <? 1)%Z then 1%Z else np_int sumt)
          = Z.max (np_int sumt) 1) as ->
    by (destruct (np_int sumt <? 1)%Z eqn:E; zbool; lia).
  rewrite (set_entry_next _ s m 0 0 _ Hqf), bind_Ok.
  reflexivity.
Qed.

(** The loop of the slow version from level [s + 1] on, beside the
    assignments to [pix_q_array] that the version in use still has to
    make: both raise, or both end with the same arrays. *)
Lemma slow_phi_steps (m s : nat) (a : list Q) (qs : Z) :
  (s + m = n)%nat -> length a = n ->
  foldM (interpolate_level log10 (0 :: dtde_l2) cte_frac)
    (zrange_len (Z.of_nat s + 1) m)
    {| slow_dtde_q := 0 :: take s dtde_q ++ replicate m 0;
       slow_ctde_q := 0 :: take s (ctde_q_of dtde_q) ++ replicate m 0;
       slow_q_pix_array :=
         0 :: take s (map inject_Z (q_pix_array_of (ctde_q_of dtde_q)))
           ++ replicate m 0;
       slow_pix_q_array := 0 :: a;
       slow_sumt := fold_left Qplus (take s dtde_q) 0;
       slow_q := qs |}
  = match foldM (fun a '(q, p1) =>
                   j ← py_index (length a) (q - 1);
                   Ok (<[j := inject_Z p1]> a))
            (drop s (zip (q_pix_array_of (ctde_q_of dtde_q))
                         (map (fun p => (p + 1)%Z) (range 0 (Z.of_nat n))))) a
    with
    | Ok pix_q_array =>
        Ok {| slow_dtde_q := 0 :: dtde_q;
              slow_ctde_q := 0 :: ctde_q_of dtde_q;
              slow_q_pix_array :=
                0 :: map inject_Z (q_pix_array_of (ctde_q_of dtde_q));
              slow_pix_q_array := 0 :: pix_q_array;
              slow_sumt := fold_left Qplus dtde_q 0;
              slow_q := match m with
                        | O => qs
                        | S _ => Z.max (np_int (fold_left Qplus dtde_q 0)) 1
                        end |}
    | Raise e => Raise e
    end.
Proof.
  assert (length (ctde_q_of dtde_q) = n) as Hlc
    by (unfold ctde_q_of; now rewrite running_sum_length).
  assert (length (q_pix_array_of (ctde_q_of dtde_q)) = n) as Hlq
    by (unfold q_pix_array_of; now rewrite length_map).
  revert s a qs. induction m as [| m IH]; intros s a qs Hs Ha.
  - rewrite drop_ge
      by (rewrite length_zip_with, Hlq, length_map; unfold range;
          rewrite length_zrange_len; lia).
    cbn [zrange_len foldM replicate].
    rewrite !app_nil_r, !take_ge by (rewrite ?length_map; lia).
    reflexivity.
  - assert (s < n)%nat as Hsn by lia.
    destruct (lookup_lt_is_Some_2 dtde_q s) as [v Hv]; [lia |].
    pose proof (running_sum_lookup dtde_q 0 s v Hv) as Hc.
    fold (ctde_q_of dtde_q) in Hc.
    assert (fold_left Qplus (take (S s) dtde_q) 0
            = fold_left Qplus (take s dtde_q) 0 + v) as Hsum
      by (rewrite (take_S_r _ _ _ Hv), fold_left_app; reflexivity).
    assert (q_pix_array_of (ctde_q_of dtde_q) !! s
            = Some (Z.max (np_int (fold_left Qplus (take (S s) dtde_q) 0)) 1))
      as Hq
      by (unfold q_pix_array_of; now rewrite list_lookup_fmap, Hc, Hsum).
    set (sumt := fold_left Qplus (take (S s) dtde_q) 0) in *.
    rewrite (drop_S _ (Z.max (np_int sumt) 1, (Z.of_nat s + 1)%Z) s)
      by (rewrite lookup_zip_with, Hq, p1_range_lookup by lia; reflexivity).
    cbn [zrange_len foldM].
    rewrite (slow_phi_step m s a qs v Hv). fold sumt.
    rewrite set_entry_padded by lia. unfold set_entry.
    destruct (py_index (length a) (Z.max (np_int sumt) 1 - 1)) as [j | e];
      [| reflexivity].
    rewrite !bind_Ok.
    replace (Z.of_nat s + 1 + 1)%Z with (Z.of_nat (S s) + 1)%Z by lia.
    rewrite (IH (S s)) by (rewrite ?length_insert; lia).
    destruct (foldM _ _ _) as [pix |]; [| reflexivity].
    do 2 f_equal. destruct m as [| m']; [| reflexivity].
    subst sumt. rewrite take_ge by lia. reflexivity.
Qed.

End SlowSteps.

Lemma node_index_ge_1 (log10 : Q -> Q) (p : Z) :
  0 <= log10 (inject_Z p) ->
  (1 <= np_int (1 + 2 * log10 (inject_Z p)))%Z.
Proof.
  intros H. rewrite np_int_floor by lra. apply floor_ge_1. lra.
Qed.

(** The two versions on a dense domain [1 .. n]. *)
Lemma InterpolatePhi_NOT_USED_upto_spec (log10 : Q -> Q) (n : nat)
    (dtde_l2 : list Q) (cte_frac : Q) :
  (forall p : Z, (1 <= p)%Z -> 0 <= log10 (inject_Z p)) ->
  (1 <= n)%nat ->
  InterpolatePhi_NOT_USED_upto log10 n dtde_l2 cte_frac
  = match InterpolatePhi_upto log10 n dtde_l2 cte_frac with
    | Ok (dtde_q, q_pix_array, pix_q_array, QMAX) =>
        Ok (dtde_q, map inject_Z q_pix_array, pix_q_array, Z.max QMAX 1)
    | Raise e => Raise e
    end.
Proof.
  intros Hlog Hn. unfold InterpolatePhi_upto. cbv zeta.
  set (ps := map (fun p => (p + 1)%Z) (range 0 (Z.of_nat n))).
  unfold InterpolatePhi_NOT_USED_upto. cbv zeta.
  assert (range 1 (Z.of_nat (S n)) = zrange_len (Z.of_nat 0 + 1) n) as ->
    by (unfold range; f_equal; lia).
  destruct (dtde_q_of_Ok_or_IndexError log10 dtde_l2 cte_frac ps)
    as [[dq Hdq] | Hraise].
  - rewrite Hdq, bind_Ok.
    assert (length dq = n) as Hlen.
    { destruct (dtde_q_entries log10 Hlog dtde_l2 cte_frac ps dq) as [Hl _].
      - eapply Forall_impl; [apply p1_range_bounds |]. intros p Hp.
        cbv beta in Hp. lia.
      - exact Hdq.
      - rewrite Hl. apply p1_range_length. }
    assert (forall (i : nat) (v : Q), dq !! i = Some v ->
              exists lo hi,
                getitem (0 :: dtde_l2)
                  (np_int (1 + 2 * log10 (inject_Z (Z.of_nat i + 1)))) = Ok lo /\
                getitem (0 :: dtde_l2)
                  (np_int (1 + 2 * log10 (inject_Z (Z.of_nat i + 1))) + 1)
                  = Ok hi /\
                v = (lo + (1 + 2 * log10 (inject_Z (Z.of_nat i + 1))
                           - inject_Z (np_int (1 + 2 * log10
                                                 (inject_Z (Z.of_nat i + 1)))))
                          * (hi - lo)) * cte_frac) as Hlev.
    { intros i v Hv. pose proof (lookup_lt_Some _ _ _ Hv) as Hi.
      destruct (dtde_q_lookup log10 dtde_l2 cte_frac ps dq i (Z.of_nat i + 1)
                  Hdq (p1_range_lookup n i ltac:(lia)))
        as (lo & hi & Hlo & Hhi & Hx).
      pose proof (node_index_ge_1 log10 (Z.of_nat i + 1)
                    (Hlog (Z.of_nat i + 1)%Z ltac:(lia))) as Hll.
      exists lo, hi. rewrite !getitem_padded by lia.
      split; [exact Hlo |]. split.
      - rewrite <- Hhi. f_equal. lia.
      - rewrite Hv in Hx. now injection Hx. }
    pose proof (slow_phi_steps log10 dtde_l2 cte_frac n dq Hlen Hlev n 0%nat
                  (replicate n 0) 0%Z eq_refl (length_replicate _ _)) as Hsteps.
    change (take 0 ?l ++ ?r) with r in Hsteps.
    change (0 :: replicate n 0) with (replicate (S n) 0) in Hsteps.
    change (fold_left Qplus (take 0 dq) 0) with 0 in Hsteps.
    change (drop 0 ?l) with l in Hsteps.
    rewrite Hsteps. unfold pix_q_array_of. fold ps.
    destruct (foldM _ (zip _ ps) _) as [pix |]; [| reflexivity].
    rewrite !bind_Ok.
    cbn [slow_dtde_q slow_q_pix_array slow_pix_q_array slow_q drop].
    destruct n as [| n']; [lia |]. reflexivity.
  - rewrite Hraise, bind_Raise.
    destruct (foldM_Ok_or IndexError
                (interpolate_level log10 (0 :: dtde_l2) cte_frac)
                (zrange_len (Z.of_nat 0 + 1) n)
                (interpolate_level_Ok_or_IndexError log10 dtde_l2 cte_frac)
                {| slow_dtde_q := replicate (S n) 0;
                   slow_ctde_q := replicate (S n) 0;
                   slow_q_pix_array := replicate (S n) 0;
                   slow_pix_q_array := replicate (S n) 0;
                   slow_sumt := 0; slow_q := 0 |})
      as [[st Hst] | ->]; [exfalso | reflexivity].
    pose proof (foldM_Ok_Forall _ _ _
                  (interpolate_level_reads log10 dtde_l2 cte_frac) _ _ Hst)
      as Hreads.
    destruct (dtde_q_of_Forall log10 dtde_l2 cte_frac ps) as [dq Hdq];
      [| congruence].
    apply Forall_lookup. intros i p Hp.
    pose proof (lookup_lt_Some _ _ _ Hp) as Hi.
    unfold ps in Hi. rewrite p1_range_length in Hi.
    unfold ps in Hp. rewrite (p1_range_lookup n i Hi) in Hp. injection Hp as <-.
    pose proof (Forall_lookup_1 _ _ _ _ Hreads
                  (lookup_zrange_len (Z.of_nat 0 + 1) n i Hi)) as Hr.
    cbv beta in Hr.
    replace (Z.of_nat 0 + 1 + Z.of_nat i)%Z with (Z.of_nat i + 1)%Z in Hr by lia.
    pose proof (node_index_ge_1 log10 (Z.of_nat i + 1)
                  (Hlog (Z.of_nat i + 1)%Z ltac:(lia))) as Hll.
    rewrite !getitem_padded in Hr by lia.
    replace (np_int (1 + 2 * log10 (inject_Z (Z.of_nat i + 1))) + 1 - 1)%Z
      with (np_int (1 + 2 * log10 (inject_Z (Z.of_nat i + 1)))) in Hr by lia.
    exact Hr.
Qed.

(** X15.  With a logarithm that is not negative from 1 on,
    [_InterpolatePhi_NOT_USED] ends as [_InterpolatePhi] does: when one
    raises so does the other, with the same exception, and when they
    return, [dtde_q] and [pix_q_array] are the same arrays and
    [q_pix_array] holds the same numbers, as floats.  The value left in
    [_YCTE_QMAX] is not the same: the slow version leaves the last [q] of
    its loop, which is never below 1, and the version in use the integer
    part of the total, which is 0 for a total below 1. *)
Theorem InterpolatePhi_NOT_USED_same_arrays (log10 : Q -> Q)
    (dtde_l2 : list Q) (cte_frac : Q) :
  (forall p : Z, (1 <= p)%Z -> 0 <= log10 (inject_Z p)) ->
  _InterpolatePhi_NOT_USED log10 dtde_l2 cte_frac
  = match _InterpolatePhi log10 dtde_l2 cte_frac with
    | Ok (dtde_q, q_pix_array, pix_q_array, QMAX) =>
        Ok (dtde_q, map inject_Z q_pix_array, pix_q_array, Z.max QMAX 1)
    | Raise e => Raise e
    end.
Proof.
  intros Hlog. unfold _InterpolatePhi_NOT_USED, _InterpolatePhi.
  apply InterpolatePhi_NOT_USED_upto_spec; [exact Hlog |].
  pose proof p_max_value. lia.
Qed.

Lemma InterpolatePhi_NOT_USED_same_arrays_witness :
  exists dtde_q q_pix_array pix_q_array QMAX,
    _InterpolatePhi log10_floor (replicate 11 0.1) 1
      = Ok (dtde_q, q_pix_array, pix_q_array, QMAX) /\
    _InterpolatePhi_NOT_USED log10_floor (replicate 11 0.1) 1
      = Ok (dtde_q, map inject_Z q_pix_array, pix_q_array, Z.max QMAX 1).
Proof.
  destruct (InterpolatePhi_physical log10_floor (replicate 11 0.1) 1)
    as (dtde_q & q_pix_array & pix_q_array & QMAX & Hok & _).
  - exact log10_floor_nonneg.
  - repeat constructor; vm_compute; discriminate.
  - vm_compute. discriminate.
  - intros p _. exact (log10_floor_nodes p).
  - repeat constructor; vm_compute; discriminate.
  - exists dtde_q, q_pix_array, pix_q_array, QMAX. split; [exact Hok |].
    rewrite (InterpolatePhi_NOT_USED_same_arrays log10_floor
               (replicate 11 0.1) 1 log10_floor_nonneg), Hok.
    reflexivity.
Defined.

(** On twelve charge levels and a time scale of 0 both versions return;
    the slow one leaves 1 in [_YCTE_QMAX] and the one in use 0. *)
Example InterpolatePhi_NOT_USED_QMAX_differs :
  (exists dtde_q q_pix_array pix_q_array,
     InterpolatePhi_NOT_USED_upto log10_floor 12 (replicate 11 0.4) 0
       = Ok (dtde_q, q_pix_array, pix_q_array, 1%Z)) /\
  (exists dtde_q q_pix_array pix_q_array,
     InterpolatePhi_upto log10_floor 12 (replicate 11 0.4) 0
       = Ok (dtde_q, q_pix_array, pix_q_array, 0%Z)).
Proof.
  split; eexists _, _, _; vm_compute; reflexivity.
Qed.

(** ** [_TrackChargeTrap_NOT_USED]: the slow version builds the same tables *)

Lemma getitem2_cell {A} (a : list (list A)) (t k : nat) (x : A) :
  cell a t k = Some x -> Np.getitem2 a (Z.of_nat t) (Z.of_nat k) = Ok x.
Proof.
  unfold cell, Np.getitem2. intros H.
  destruct (a !! t) as [row |] eqn:Hrow; [| discriminate].
  cbn [mbind option_bind] in H.
  rewrite (getitem_nonneg a (Z.of_nat t) row) by (rewrite ?Nat2Z.id; auto; lia).
  rewrite bind_Ok. apply getitem_nonneg; [lia | now rewrite Nat2Z.id].
Qed.

Lemma lookup_default {A} (l : list A) (i : nat) (d : A) :
  (i < length l)%nat -> l !! i = Some (default d (l !! i)).
Proof.
  intros Hi. destruct (lookup_lt_is_Some_2 l i Hi) as [x ->]. reflexivity.
Qed.

Lemma cell_drop_first {A} (a : list (list A)) (r c : nat) :
  cell (map (drop 1) (drop 1 a)) r c = cell a (S r) (S c).
Proof.
  unfold cell. change (map (drop 1) ?l) with (fmap (M := list) (drop 1) l).
  rewrite list_lookup_fmap, lookup_drop. cbn [Nat.add].
  destruct (a !! S r) as [row |]; [| reflexivity].
  cbn [fmap option_fmap option_map mbind option_bind].
  rewrite lookup_drop. reflexivity.
Qed.

Lemma shaped_drop_first {A} (h w : nat) (a : list (list A)) :
  Np.shaped (S h) (S w) a -> Np.shaped h w (map (drop 1) (drop 1 a)).
Proof.
  intros [Hl Hr]. split.
  - rewrite length_map, length_drop. lia.
  - apply Forall_map. apply Forall_drop. eapply Forall_impl; [exact Hr |].
    intros row Hrow. cbv beta in *. rewrite length_drop. lia.
Qed.

Section FillWithState.

Context {A St : Type}.
Variables (h w : nat).

(** A loop over the rows [t0 .. t0 + m - 1] that stores [g t] at column
    [k] and carries a state besides the array: [mk a t] is what the pass
    for row [t] starts from.  The pass may read the rows of column [k] that
    it has not stored yet. *)
Lemma fill_rows_state (body : St -> Z -> result St)
    (mk : list (list A) -> nat -> St) (g : nat -> A) (k : nat)
    (a0 : list (list A)) (m t0 : nat) (a : list (list A)) :
  (forall (a : list (list A)) (t : nat),
     Np.shaped h w a -> (t0 <= t < t0 + m)%nat ->
     (forall r : nat, (t <= r)%nat -> cell a r k = cell a0 r k) ->
     body (mk a t) (Z.of_nat t)
       = (a' ← set_item a (Z.of_nat t) (Z.of_nat k) (g t); Ok (mk a' (S t)))) ->
  Np.shaped h w a -> (t0 + m <= h)%nat -> (k < w)%nat ->
  (forall r : nat, (t0 <= r)%nat -> cell a r k = cell a0 r k) ->
  exists a',
    foldM body (zrange_len (Z.of_nat t0) m) (mk a t0) = Ok (mk a' (t0 + m)%nat) /\
    Np.shaped h w a' /\
    forall r c : nat,
      cell a' r c =
      if decide ((t0 <= r < t0 + m)%nat /\ c = k) then Some (g r)
      else cell a r c.
Proof.
  revert t0 a. induction m as [| m IH]; intros t0 a Hbody Ha Hm Hk Hinv.
  - exists a. rewrite Nat.add_0_r. split; [reflexivity |]. split; [exact Ha |].
    intros r c. now rewrite decide_False by lia.
  - cbn [zrange_len foldM]. rewrite Hbody by (auto; lia).
    destruct (set_item_spec h w a t0 k (g t0) Ha ltac:(lia) Hk)
      as (a1 & -> & Ha1 & Hc1).
    rewrite !bind_Ok. replace (Z.of_nat t0 + 1)%Z with (Z.of_nat (S t0)) by lia.
    destruct (IH (S t0) a1) as (a' & Hfold & Ha' & Hc'); auto; try lia.
    { intros a2 t Ha2 Ht Hinv2. apply Hbody; auto. lia. }
    { intros r Hr. rewrite Hc1. rewrite decide_False by lia. apply Hinv. lia. }
    exists a'. replace (t0 + S m)%nat with (S t0 + m)%nat by lia.
    split; [exact Hfold |]. split; [exact Ha' |].
    intros r c. rewrite Hc', Hc1.
    destruct (decide (c = k)) as [-> | Hck].
    + destruct (decide (r = t0)) as [-> | Hr0].
      * rewrite (decide_False (P := (S t0 <= t0 < _)%nat /\ _)) by lia.
        rewrite decide_True by auto. now rewrite decide_True by lia.
      * rewrite (decide_False (P := r = t0 /\ _)) by (intros [? _]; contradiction).
        destruct (decide ((S t0 <= r < S t0 + m)%nat /\ k = k)) as [[? _] | Hn].
        -- now rewrite decide_True by lia.
        -- now rewrite decide_False by lia.
    + rewrite !decide_False by (intros [_ ?]; contradiction). reflexivity.
Qed.

End FillWithState.

Lemma np_running_sum_lookup (l : list npfloat) (sumt : npfloat) (s : nat) :
  (s < length l)%nat ->
  np_running_sum sumt l !! s = Some (fold_left np_add (take (S s) l) sumt).
Proof.
  revert sumt s. induction l as [| x l IH]; intros sumt s Hs; [cbn in Hs; lia |].
  destruct s as [| s]; cbn [np_running_sum]; [reflexivity |].
  rewrite lookup_cons. cbn [length] in Hs. rewrite IH by lia. reflexivity.
Qed.

Lemma fold_left_take_S {A B} (f : A -> B -> A) (l : list B) (s : nat) (v : B)
    (x : A) :
  l !! s = Some v ->
  fold_left f (take (S s) l) x = f (fold_left f (take s l) x) v.
Proof.
  intros Hv. rewrite (take_S_r _ _ _ Hv), fold_left_app. reflexivity.
Qed.

Section SlowColumn.

Variables (chg_leak_kt2 : array) (lp : npfloat) (k : Z).
Variables (h n q : nat) (column : list npfloat).

Hypothesis column_length : length column = h.
Hypothesis column_entries : forall (t : nat) (x : npfloat),
  column !! t = Some x ->
  slow_leak_entry chg_leak_kt2 lp k (Z.of_nat (S t)) = Ok x.
Hypothesis q_range : (1 <= q <= n)%nat.

(** The first loop over [t] stores the column and adds it up. *)
Lemma slow_raw_column (chg_leak_tq : list (list npfloat)) :
  Np.shaped (S h) (S n) chg_leak_tq ->
  exists tq,
    foldM (fun '(chg_leak_tq, sumt) t =>
             x ← slow_leak_entry chg_leak_kt2 lp k t;
             chg_leak_tq ← set_item chg_leak_tq t (Z.of_nat q) x;
             y ← Np.getitem2 chg_leak_tq t (Z.of_nat q);
             Ok (chg_leak_tq, np_add sumt y))
          (zrange_len (Z.of_nat 1) h) (chg_leak_tq, Fin 0)
      = Ok (tq, Np.np_sum column) /\
    Np.shaped (S h) (S n) tq /\
    forall r c : nat,
      cell tq r c =
      if decide ((1 <= r < 1 + h)%nat /\ c = q) then column !! (r - 1)%nat
      else cell chg_leak_tq r c.
Proof.
  intros Hs.
  destruct (fill_rows_state (S h) (S n)
              (fun '(chg_leak_tq, sumt) t =>
                 x ← slow_leak_entry chg_leak_kt2 lp k t;
                 chg_leak_tq ← set_item chg_leak_tq t (Z.of_nat q) x;
                 y ← Np.getitem2 chg_leak_tq t (Z.of_nat q);
                 Ok (chg_leak_tq, np_add sumt y))
              (fun a t => (a, fold_left np_add (take (t - 1) column) (Fin 0)))
              (fun t => default (Fin 0) (column !! (t - 1)%nat))
              q chg_leak_tq h 1 chg_leak_tq)
    as (tq & Hfold & Hshape & Hcells); auto; try lia.
  - intros a t Ha Ht _.
    pose proof (lookup_default column (t - 1) (Fin 0) ltac:(lia)) as Hx.
    set (x := default (Fin 0) (column !! (t - 1)%nat)) in *.
    pose proof (column_entries _ _ Hx) as He.
    replace (S (t - 1)) with t in He by lia. rewrite He, bind_Ok.
    destruct (set_item_spec (S h) (S n) a t q x Ha ltac:(lia) ltac:(lia))
      as (a1 & -> & Ha1 & Hc1).
    rewrite !bind_Ok.
    rewrite (getitem2_cell a1 t q x)
      by (rewrite Hc1; now rewrite decide_True by auto).
    rewrite bind_Ok. do 2 f_equal.
    replace (S t - 1)%nat with (S (t - 1)) by lia.
    now rewrite (fold_left_take_S _ _ _ _ _ Hx).
  - change (fold_left np_add (take (1 - 1) column) (Fin 0)) with (Fin 0) in Hfold.
    exists tq. split.
    + rewrite Hfold. do 2 f_equal. replace (1 + h - 1)%nat with h by lia.
      now rewrite take_ge by lia.
    + split; [exact Hshape |]. intros r c. rewrite Hcells.
      destruct (decide ((1 <= r < 1 + h)%nat /\ c = q)) as [[Hr _] |];
        [| reflexivity].
      symmetry. apply lookup_default. lia.
Qed.

(** The second loop divides the column by its sum, entry by entry. *)
Lemma slow_normalized_column (sumt : npfloat) (tq1 : list (list npfloat)) :
  Np.shaped (S h) (S n) tq1 ->
  (forall r : nat, (1 <= r < 1 + h)%nat -> cell tq1 r q = column !! (r - 1)%nat) ->
  exists tq,
    foldM (fun chg_leak_tq t =>
             y ← Np.getitem2 chg_leak_tq t (Z.of_nat q);
             set_item chg_leak_tq t (Z.of_nat q) (np_div y sumt))
          (zrange_len (Z.of_nat 1) h) tq1
      = Ok tq /\
    Np.shaped (S h) (S n) tq /\
    forall r c : nat,
      cell tq r c =
      if decide ((1 <= r < 1 + h)%nat /\ c = q)
      then map (fun x => np_div x sumt) column !! (r - 1)%nat
      else cell tq1 r c.
Proof.
  intros Hs Hcol.
  destruct (fill_rows_state (S h) (S n)
              (fun chg_leak_tq t =>
                 y ← Np.getitem2 chg_leak_tq t (Z.of_nat q);
                 set_item chg_leak_tq t (Z.of_nat q) (np_div y sumt))
              (fun a _ => a)
              (fun t => np_div (default (Fin 0) (column !! (t - 1)%nat)) sumt)
              q tq1 h 1 tq1)
    as (tq & Hfold & Hshape & Hcells); auto; try lia.
  - intros a t Ha Ht Hinv.
    pose proof (lookup_default column (t - 1) (Fin 0) ltac:(lia)) as Hx.
    set (x := default (Fin 0) (column !! (t - 1)%nat)) in *.
    rewrite (getitem2_cell a t q x)
      by (rewrite Hinv by lia; rewrite Hcol by lia; exact Hx).
    rewrite bind_Ok.
    destruct (set_item (A := npfloat) a (Z.of_nat t) (Z.of_nat q) (np_div x sumt));
      reflexivity.
  - exists tq. split; [exact Hfold |]. split; [exact Hshape |].
    intros r c. rewrite Hcells.
    destruct (decide ((1 <= r < 1 + h)%nat /\ c = q)) as [[Hr _] |];
      [| reflexivity].
    rewrite list_lookup_fmap.
    rewrite (lookup_default column (r - 1) (Fin 0)) by lia. reflexivity.
Qed.

(** The third loop stores the running sums of the column of [tq]. *)
Lemma slow_open_column (tq chg_open_tq : list (list npfloat))
    (leak : list npfloat) :
  length leak = h ->
  Np.shaped (S h) (S n) chg_open_tq ->
  (forall r : nat, (1 <= r < 1 + h)%nat -> cell tq r q = leak !! (r - 1)%nat) ->
  exists oq sumt,
    foldM (fun '(chg_open_tq, sumt) t =>
             y ← Np.getitem2 tq t (Z.of_nat q);
             let sumt := np_add sumt y in
             chg_open_tq ← set_item chg_open_tq t (Z.of_nat q) sumt;
             Ok (chg_open_tq, sumt))
          (zrange_len (Z.of_nat 1) h) (chg_open_tq, Fin 0)
      = Ok (oq, sumt) /\
    Np.shaped (S h) (S n) oq /\
    forall r c : nat,
      cell oq r c =
      if decide ((1 <= r < 1 + h)%nat /\ c = q)
      then open_column leak !! (r - 1)%nat
      else cell chg_open_tq r c.
Proof.
  clear column column_length column_entries. intros Hl Hs Hcol.
  destruct (fill_rows_state (S h) (S n)
              (fun '(chg_open_tq, sumt) t =>
                 y ← Np.getitem2 tq t (Z.of_nat q);
                 let sumt := np_add sumt y in
                 chg_open_tq ← set_item chg_open_tq t (Z.of_nat q) sumt;
                 Ok (chg_open_tq, sumt))
              (fun a t => (a, fold_left np_add (take (t - 1) leak) (Fin 0)))
              (fun t => fold_left np_add (take t leak) (Fin 0))
              q chg_open_tq h 1 chg_open_tq)
    as (oq & Hfold & Hshape & Hcells); auto; try lia.
  - intros a t Ha Ht _.
    pose proof (lookup_default leak (t - 1) (Fin 0) ltac:(lia)) as Hx.
    set (x := default (Fin 0) (leak !! (t - 1)%nat)) in *.
    rewrite (getitem2_cell tq t q x) by (rewrite Hcol by lia; exact Hx).
    rewrite bind_Ok. cbv zeta.
    replace (S t - 1)%nat with t by lia.
    replace (take t leak) with (take (S (t - 1)) leak) by (f_equal; lia).
    rewrite (fold_left_take_S _ _ _ _ _ Hx). reflexivity.
  - change (fold_left np_add (take (1 - 1) leak) (Fin 0)) with (Fin 0) in Hfold.
    exists oq, (fold_left np_add (take (1 + h - 1) leak) (Fin 0)).
    split; [exact Hfold |]. split; [exact Hshape |].
    intros r c. rewrite Hcells.
    destruct (decide ((1 <= r < 1 + h)%nat /\ c = q)) as [[Hr _] |];
      [| reflexivity].
    unfold open_column. rewrite np_running_sum_lookup by lia.
    replace (S (r - 1)) with r by lia. reflexivity.
Qed.

End SlowColumn.

Lemma slow_lp_of_clip (log10 : Q -> Q) (p : Q) :
  slow_lp_of log10 p = lp_of log10 p.
Proof.
  unfold slow_lp_of, lp_of, np_clip. cbv zeta.
  destruct (Qlt_bool p 0); [reflexivity |].
  destruct (Qeq_bool p 0); [reflexivity |].
  destruct (Qlt_bool (log10 p) lp_min); reflexivity.
Qed.

Lemma slow_k_of_finite (v : Q) : slow_k_of (Fin v) = (k_of (Fin v) + 1)%Z.
Proof.
  unfold slow_k_of, k_of, Qlt_bool. cbv zeta.
  destruct (Qle_bool 2 v), (Qle_bool 3 v); reflexivity.
Qed.

Lemma k_of_range (lp : npfloat) : (0 <= k_of lp <= 2)%Z.
Proof.
  unfold k_of. destruct lp as [v |]; [| lia].
  destruct (Qlt_bool v 2); [lia |]. destruct (Qle_bool 3 v); lia.
Qed.

Section LeakEntries.

Variable log10 : Q -> Q.
Variables (h w : nat) (chg_leak_kt : array).

Hypothesis kt_shaped : Np.shaped h w chg_leak_kt.
Hypothesis kt_columns : (4 <= w)%nat.

(** The entry that the version in use computes. *)
Lemma leak_entry_value (p : Q) (t : nat) :
  (t < h)%nat ->
  leak_entry chg_leak_kt (lp_of log10 p) (Z.of_nat t)
    = Ok (raw_leak log10 chg_leak_kt p t).
Proof.
  intros Ht. unfold leak_entry, raw_leak. cbv zeta.
  pose proof (k_of_range (lp_of log10 p)) as Hk.
  set (lp := lp_of log10 p) in *. set (k := k_of lp) in *.
  pose proof (getitem2_item h w chg_leak_kt t (Z.to_nat k) kt_shaped Ht
                ltac:(lia)) as Ha.
  rewrite Z2Nat.id in Ha by lia.
  pose proof (getitem2_item h w chg_leak_kt t (S (Z.to_nat k)) kt_shaped Ht
                ltac:(lia)) as Hb.
  replace (Z.of_nat (S (Z.to_nat k))) with (k + 1)%Z in Hb by lia.
  rewrite Ha, bind_Ok, Hb, !bind_Ok. subst k. destruct lp; reflexivity.
Qed.

(** The entry that the slow version computes, one row and one column
    further in the padded profile. *)
Lemma slow_leak_entry_value (p : Q) (t : nat) :
  (t < h)%nat ->
  slow_leak_entry (replicate (w + 1) 0 :: map (cons 0) chg_leak_kt)
    (slow_lp_of log10 p) (slow_k_of (slow_lp_of log10 p)) (Z.of_nat (S t))
    = Ok (raw_leak log10 chg_leak_kt p t).
Proof.
  intros Ht. rewrite slow_lp_of_clip. unfold slow_leak_entry, raw_leak.
  pose proof (k_of_range (lp_of log10 p)) as Hk.
  destruct (lp_of log10 p) as [v |].
  - rewrite slow_k_of_finite. set (k := k_of (Fin v)) in *.
    pose proof (getitem2_padded h w chg_leak_kt (S t) (S (Z.to_nat k))
                  kt_shaped ltac:(lia) ltac:(lia)) as Ha.
    replace (Z.of_nat (S (Z.to_nat k))) with (k + 1)%Z in Ha by lia.
    pose proof (getitem2_padded h w chg_leak_kt (S t) (S (S (Z.to_nat k)))
                  kt_shaped ltac:(lia) ltac:(lia)) as Hb.
    replace (Z.of_nat (S (S (Z.to_nat k)))) with (k + 1 + 1)%Z in Hb by lia.
    rewrite Ha, bind_Ok, Hb, !bind_Ok. cbv zeta.
    replace (S t - 1)%nat with t by lia.
    replace (S (Z.to_nat k) - 1)%nat with (Z.to_nat k) by lia.
    replace (S (S (Z.to_nat k)) - 1)%nat with (S (Z.to_nat k)) by lia.
    reflexivity.
  - cbn [slow_k_of].
    pose proof (getitem2_padded h w chg_leak_kt (S t) 3 kt_shaped
                  ltac:(lia) ltac:(lia)) as Ha.
    change (Z.of_nat 3) with 3%Z in Ha.
    pose proof (getitem2_padded h w chg_leak_kt (S t) 4 kt_shaped
                  ltac:(lia) ltac:(lia)) as Hb.
    change (Z.of_nat 4) with (3 + 1)%Z in Hb.
    rewrite Ha, bind_Ok, Hb, !bind_Ok. reflexivity.
Qed.

End LeakEntries.

Section SlowTables.

Variable log10 : Q -> Q.
Variables (h w n : nat) (chg_leak_kt : array) (pix_q_array : list Q).

Hypothesis kt_shaped : Np.shaped h w chg_leak_kt.
Hypothesis kt_columns : (4 <= w)%nat.
Hypothesis pix_length : (n <= length pix_q_array)%nat.

(** A pass of the loop over [q] fills column [q] of both tables, rows
    1 to [h], and leaves the rest as it was. *)
Lemma track_trap_column (q : nat) (tq oq : list (list npfloat)) :
  Np.shaped (S h) (S n) tq -> Np.shaped (S h) (S n) oq -> (1 <= q <= n)%nat ->
  exists tq' oq',
    track_trap log10 (replicate (w + 1) 0 :: map (cons 0) chg_leak_kt)
      (0 :: pix_q_array) (zrange_len (Z.of_nat 1) h) (tq, oq) (Z.of_nat q)
      = Ok (tq', oq') /\
    Np.shaped (S h) (S n) tq' /\ Np.shaped (S h) (S n) oq' /\
    (forall r c : nat,
       cell tq' r c =
       if decide ((1 <= r < 1 + h)%nat /\ c = q)
       then leak_column log10 chg_leak_kt h
              (default 0 (pix_q_array !! (q - 1)%nat)) !! (r - 1)%nat
       else cell tq r c) /\
    (forall r c : nat,
       cell oq' r c =
       if decide ((1 <= r < 1 + h)%nat /\ c = q)
       then open_column
              (leak_column log10 chg_leak_kt h
                 (default 0 (pix_q_array !! (q - 1)%nat))) !! (r - 1)%nat
       else cell oq r c).
Proof.
  intros Hs Ho Hq. unfold track_trap.
  assert (getitem (0 :: pix_q_array) (Z.of_nat q)
          = Ok (default 0 (pix_q_array !! (q - 1)%nat))) as ->.
  { apply getitem_nonneg; [lia |]. rewrite Nat2Z.id.
    destruct q as [| q']; [lia |]. rewrite lookup_cons.
    replace (S q' - 1)%nat with q' by lia. apply lookup_default. lia. }
  set (p := default 0 (pix_q_array !! (q - 1)%nat)).
  rewrite bind_Ok. cbv zeta.
  set (column := map (raw_leak log10 chg_leak_kt p) (seq 0 h)).
  assert (length column = h) as Hlen
    by (subst column; now rewrite length_map, length_seq).
  destruct (slow_raw_column (replicate (w + 1) 0 :: map (cons 0) chg_leak_kt)
              (slow_lp_of log10 p) (slow_k_of (slow_lp_of log10 p)) h n q
              column Hlen) with (chg_leak_tq := tq)
    as (tq1 & H1 & Hs1 & Hc1); auto.
  { intros t x Hx. subst column. rewrite list_lookup_fmap in Hx.
    apply fmap_Some in Hx as (t' & Ht' & ->).
    apply lookup_seq in Ht' as [-> Ht]. cbn [Nat.add].
    now apply (slow_leak_entry_value log10 h w). }
  rewrite H1, bind_Ok. cbv beta iota.
  destruct (slow_normalized_column h n q column Hlen Hq (Np.np_sum column)
              tq1 Hs1) as (tq2 & H2 & Hs2 & Hc2).
  { intros r Hr. rewrite Hc1. now rewrite decide_True by auto. }
  rewrite H2, bind_Ok.
  destruct (slow_open_column h n q Hq tq2 oq (normalize column))
    as (oq' & sumt & H3 & Hs3 & Hc3); auto.
  { unfold normalize. now rewrite length_map. }
  { intros r Hr. rewrite Hc2. now rewrite decide_True by auto. }
  cbv zeta in H3. rewrite H3, bind_Ok. cbv beta iota.
  exists tq2, oq'. split; [reflexivity |]. split; [exact Hs2 |].
  split; [exact Hs3 |]. split.
  - intros r c. rewrite Hc2.
    destruct (decide ((1 <= r < 1 + h)%nat /\ c = q)) as [[Hr ->] | Hn];
      [reflexivity |].
    rewrite Hc1. now rewrite decide_False by exact Hn.
  - exact Hc3.
Qed.

(** The loop over the columns [q0 .. q0 + m - 1]. *)
Lemma track_trap_columns (m q0 : nat) (tq oq : list (list npfloat)) :
  Np.shaped (S h) (S n) tq -> Np.shaped (S h) (S n) oq ->
  (1 <= q0)%nat -> (q0 + m <= 1 + n)%nat ->
  exists tq' oq',
    foldM (track_trap log10 (replicate (w + 1) 0 :: map (cons 0) chg_leak_kt)
             (0 :: pix_q_array) (zrange_len (Z.of_nat 1) h))
      (zrange_len (Z.of_nat q0) m) (tq, oq)
      = Ok (tq', oq') /\
    Np.shaped (S h) (S n) tq' /\ Np.shaped (S h) (S n) oq' /\
    (forall r c : nat,
       cell tq' r c =
       if decide ((1 <= r < 1 + h)%nat /\ (q0 <= c < q0 + m)%nat)
       then leak_column log10 chg_leak_kt h
              (default 0 (pix_q_array !! (c - 1)%nat)) !! (r - 1)%nat
       else cell tq r c) /\
    (forall r c : nat,
       cell oq' r c =
       if decide ((1 <= r < 1 + h)%nat /\ (q0 <= c < q0 + m)%nat)
       then open_column
              (leak_column log10 chg_leak_kt h
                 (default 0 (pix_q_array !! (c - 1)%nat))) !! (r - 1)%nat
       else cell oq r c).
Proof.
  revert q0 tq oq. induction m as [| m IH]; intros q0 tq oq Hs Ho Hq0 Hm.
  - exists tq, oq. split; [reflexivity |]. split; [exact Hs |].
    split; [exact Ho |].
    split; intros r c; now rewrite decide_False by lia.
  - cbn [zrange_len foldM].
    destruct (track_trap_column q0 tq oq Hs Ho ltac:(lia))
      as (tq1 & oq1 & -> & Hs1 & Ho1 & Hc1 & Hd1).
    rewrite bind_Ok. replace (Z.of_nat q0 + 1)%Z with (Z.of_nat (S q0)) by lia.
    destruct (IH (S q0) tq1 oq1 Hs1 Ho1 ltac:(lia) ltac:(lia))
      as (tq' & oq' & Hfold & Hs' & Ho' & Hc' & Hd').
    exists tq', oq'. split; [exact Hfold |]. split; [exact Hs' |].
    split; [exact Ho' |].
    split; intros r c; [rewrite Hc', Hc1 | rewrite Hd', Hd1].
    all: destruct (decide ((1 <= r < 1 + h)%nat)) as [Hr | Hr];
      [| rewrite !decide_False by (intros [? _]; contradiction); reflexivity].
    all: destruct (decide (c = q0)) as [-> | Hck].
    all: try (rewrite (decide_False (P := _ /\ (S q0 <= q0 < _)%nat)) by lia;
              rewrite decide_True by auto; now rewrite decide_True by lia).
    all: rewrite (decide_False (P := _ /\ c = q0))
           by (intros [_ ?]; contradiction).
    all: destruct (decide ((1 <= r < 1 + h)%nat /\ (S q0 <= c < S q0 + m)%nat))
           as [[_ ?] | Hn'];
      [now rewrite decide_True by lia | now rewrite decide_False by lia].
Qed.

End SlowTables.

Lemma np_running_sum_length (sumt : npfloat) (l : list npfloat) :
  length (np_running_sum sumt l) = length l.
Proof.
  revert sumt. induction l as [| x l IH]; intros sumt; [reflexivity |].
  cbn [np_running_sum length]. now rewrite IH.
Qed.

Lemma mapM_map_Ok {A B C} (f : B -> result C) (g : A -> B) (k : A -> C)
    (l : list A) :
  Forall (fun x => f (g x) = Ok (k x)) l -> mapM f (map g l) = Ok (map k l).
Proof.
  induction 1 as [| x l Hx _ IH]; [reflexivity |].
  cbn [mapM map]. now rewrite Hx, bind_Ok, IH, bind_Ok.
Qed.

Lemma cell_replicate {A} (a b r c : nat) (x : A) :
  cell (replicate a (replicate b x)) r c
    = if decide ((r < a)%nat /\ (c < b)%nat) then Some x else None.
Proof.
  unfold cell. destruct (decide (r < a)%nat) as [Hr | Hr].
  - rewrite lookup_replicate_2 by exact Hr. cbn [mbind option_bind].
    destruct (decide (c < b)%nat) as [Hc | Hc].
    + rewrite decide_True by auto. now apply lookup_replicate_2.
    + rewrite decide_False by (intros [_ ?]; contradiction).
      apply lookup_replicate_None. lia.
  - rewrite decide_False by (intros [? _]; contradiction).
    assert (replicate a (replicate b x) !! r = None) as ->
      by (apply lookup_replicate_None; lia).
    reflexivity.
Qed.

Lemma slice_first {A} (l : list A) (stop : Z) :
  (0 <= stop <= Z.of_nat (length l))%Z ->
  slice l 0 stop = take (Z.to_nat stop) l.
Proof.
  intros H. unfold slice.
  assert (slice_bound (length l) 0 = 0%nat) as -> by slice_arith.
  assert (slice_bound (length l) stop = Z.to_nat stop) as -> by slice_arith.
  rewrite Nat.sub_0_r. reflexivity.
Qed.

Section SameTables.

Variable log10 : Q -> Q.
Variables (h w : nat) (QMAX : Z) (chg_leak_kt : array) (pix_q_array : list Q).

Hypothesis kt_shaped : Np.shaped h w chg_leak_kt.
Hypothesis kt_rows : (1 <= h)%nat.
Hypothesis kt_columns : (4 <= w)%nat.
Hypothesis QMAX_range : (0 <= QMAX <= Z.of_nat (length pix_q_array))%Z.

(** The tables of the version in use, column by column. *)
Lemma TrackChargeTrap_columns :
  exists leak open,
    _TrackChargeTrap log10 QMAX pix_q_array chg_leak_kt = Ok (leak, open) /\
    (forall q t : nat,
       cell leak q t =
       if decide ((t < h)%nat /\ (q < Z.to_nat QMAX)%nat)
       then leak_column log10 chg_leak_kt h
              (default 0 (pix_q_array !! q)) !! t
       else None) /\
    (forall q t : nat,
       cell open q t =
       if decide ((t < h)%nat /\ (q < Z.to_nat QMAX)%nat)
       then open_column (leak_column log10 chg_leak_kt h
                           (default 0 (pix_q_array !! q))) !! t
       else None).
Proof.
  set (n := Z.to_nat QMAX).
  set (columns := map (fun p => map (raw_leak log10 chg_leak_kt p) (seq 0 h))
                    (take n pix_q_array)).
  assert (raw_leak_columns log10 QMAX pix_q_array chg_leak_kt = Ok columns)
    as Hraw.
  { unfold raw_leak_columns. pose proof kt_shaped as [Hl _].
    destruct (QMAX <? 0)%Z eqn:E; [lia |].
    rewrite slice_first by exact QMAX_range. fold n.
    rewrite (mapM_map_Ok _ _
               (fun p => map (raw_leak log10 chg_leak_kt p) (seq 0 h))).
    - rewrite bind_Ok. fold columns. rewrite decide_False by lia.
      rewrite decide_True; [reflexivity |].
      subst columns. rewrite length_map, length_take. lia.
    - apply Forall_forall. intros p _. cbv beta. rewrite Hl. unfold range.
      replace (Z.to_nat (Z.of_nat h - 0)) with h by lia.
      change (zrange_len 0 h) with (zrange_len (Z.of_nat 0) h).
      rewrite (zrange_len_seq 0 h).
      apply mapM_map_Ok. apply Forall_forall. intros t Ht.
      apply elem_of_seq in Ht. apply (leak_entry_value log10 h w); auto. lia. }
  exists (map normalize columns), (map open_column (map normalize columns)).
  split; [exact (TrackChargeTrap_Ok log10 _ _ _ _ Hraw) |].
  assert (forall q : nat,
            map normalize columns !! q =
            if decide (q < n)%nat
            then Some (leak_column log10 chg_leak_kt h
                         (default 0 (pix_q_array !! q)))
            else None) as Hcol.
  { intros q. change (map normalize columns)
      with (fmap (M := list) normalize columns).
    subst columns. change (map ?f (take n pix_q_array))
      with (fmap (M := list) f (take n pix_q_array)).
    rewrite !list_lookup_fmap.
    destruct (decide (q < n)%nat) as [Hq | Hq].
    - rewrite lookup_take_lt by exact Hq.
      rewrite (lookup_default pix_q_array q 0) by lia. reflexivity.
    - rewrite lookup_take_ge by lia. reflexivity. }
  assert (forall p, length (leak_column log10 chg_leak_kt h p) = h) as Hlen.
  { intros p. unfold leak_column, normalize.
    now rewrite !length_map, length_seq. }
  split; intros q t; unfold cell.
  - rewrite Hcol. destruct (decide (q < n)%nat) as [Hq | Hq].
    + cbn [mbind option_bind].
      destruct (decide (t < h)%nat) as [Ht | Ht].
      * now rewrite decide_True by auto.
      * rewrite decide_False by (intros [? _]; contradiction).
        apply lookup_ge_None_2. rewrite Hlen. lia.
    + now rewrite decide_False by (intros [_ ?]; contradiction).
  - change (map open_column ?l) with (fmap (M := list) open_column l).
    rewrite list_lookup_fmap, Hcol.
    destruct (decide (q < n)%nat) as [Hq | Hq].
    + cbn [fmap option_fmap option_map mbind option_bind].
      destruct (decide (t < h)%nat) as [Ht | Ht].
      * now rewrite decide_True by auto.
      * rewrite decide_False by (intros [? _]; contradiction).
        apply lookup_ge_None_2. unfold open_column.
        rewrite np_running_sum_length, Hlen. lia.
    + now rewrite decide_False by (intros [_ ?]; contradiction).
Qed.

(** The tables of the slow version, entry by entry. *)
Lemma TrackChargeTrap_NOT_USED_cells :
  exists leak open,
    _TrackChargeTrap_NOT_USED log10 QMAX pix_q_array chg_leak_kt
      = Ok (leak, open) /\
    Np.shaped h (Z.to_nat QMAX) leak /\ Np.shaped h (Z.to_nat QMAX) open /\
    (forall t q : nat,
       cell leak t q =
       if decide ((t < h)%nat /\ (q < Z.to_nat QMAX)%nat)
       then leak_column log10 chg_leak_kt h
              (default 0 (pix_q_array !! q)) !! t
       else None) /\
    (forall t q : nat,
       cell open t q =
       if decide ((t < h)%nat /\ (q < Z.to_nat QMAX)%nat)
       then open_column (leak_column log10 chg_leak_kt h
                           (default 0 (pix_q_array !! q))) !! t
       else None).
Proof.
  set (n := Z.to_nat QMAX). pose proof kt_shaped as [Hl _].
  unfold _TrackChargeTrap_NOT_USED. cbv zeta.
  rewrite (shape1_shaped h w _ kt_shaped) by lia. rewrite bind_Ok.
  destruct (QMAX + 1 <? 0)%Z eqn:E; [lia |].
  rewrite Hl.
  assert (range 1 (Z.of_nat h + 1) = zrange_len (Z.of_nat 1) h) as ->
    by (unfold range; f_equal; lia).
  assert (range 1 (QMAX + 1) = zrange_len (Z.of_nat 1) n) as ->
    by (unfold range; f_equal; lia).
  replace (Z.to_nat (QMAX + 1)) with (S n) by lia.
  replace (h + 1)%nat with (S h) by lia.
  assert (Np.shaped (S h) (S n)
            (replicate (S h) (replicate (S n) (Fin 0)))) as Hz.
  { split; [apply length_replicate |].
    apply Forall_replicate. apply length_replicate. }
  destruct (track_trap_columns log10 h w n chg_leak_kt pix_q_array kt_shaped
              kt_columns ltac:(lia) n 1 _ _ Hz Hz ltac:(lia) ltac:(lia))
    as (tq & oq & -> & Hs & Ho & Hc & Hd).
  rewrite bind_Ok. cbv beta iota.
  exists (map (drop 1) (drop 1 tq)), (map (drop 1) (drop 1 oq)).
  split; [reflexivity |].
  split; [now apply shaped_drop_first |].
  split; [now apply shaped_drop_first |].
  split; intros t q; rewrite cell_drop_first; [rewrite Hc | rewrite Hd].
  all: destruct (decide ((t < h)%nat /\ (q < n)%nat)) as [[Ht Hq] | Hn].
  all: try (rewrite decide_True by lia;
            replace (S q - 1)%nat with q by lia;
            replace (S t - 1)%nat with t by lia; reflexivity).
  all: rewrite decide_False by lia.
  all: rewrite cell_replicate; now rewrite decide_False by lia.
Qed.

End SameTables.

(** X16.  For an interpolated profile of [h] rows, at least one, and at least
    four columns, and [QMAX] between 0 and the length of [pix_q_array]:
    [_TrackChargeTrap_NOT_USED] returns the two tables of
    [_TrackChargeTrap], entry by entry, as arrays of [h] rows and [QMAX]
    columns, in exact arithmetic.  The entries are the same floats, not
    finite ones where the version in use has none. *)
Theorem TrackChargeTrap_NOT_USED_same_tables (log10 : Q -> Q) (h w : nat)
    (QMAX : Z) (pix_q_array : list Q) (chg_leak_kt : array) :
  Np.shaped h w chg_leak_kt -> (1 <= h)%nat -> (4 <= w)%nat ->
  (0 <= QMAX <= Z.of_nat (length pix_q_array))%Z ->
  exists leak open leak' open',
    _TrackChargeTrap log10 QMAX pix_q_array chg_leak_kt = Ok (leak, open) /\
    _TrackChargeTrap_NOT_USED log10 QMAX pix_q_array chg_leak_kt
      = Ok (leak', open') /\
    Np.shaped h (Z.to_nat QMAX) leak' /\ Np.shaped h (Z.to_nat QMAX) open' /\
    (forall t q : nat, cell leak' t q = cell leak q t) /\
    (forall t q : nat, cell open' t q = cell open q t).
Proof.
  intros Hs Hh Hw HQ.
  destruct (TrackChargeTrap_columns log10 h w QMAX chg_leak_kt pix_q_array
              Hs Hh Hw HQ) as (leak & open & Hok & Hc & Hd).
  destruct (TrackChargeTrap_NOT_USED_cells log10 h w QMAX chg_leak_kt
              pix_q_array Hs Hh Hw HQ)
    as (leak' & open' & Hok' & Hs' & Ho' & Hc' & Hd').
  exists leak, open, leak', open'.
  split; [exact Hok |]. split; [exact Hok' |].
  split; [exact Hs' |]. split; [exact Ho' |].
  split; intros t q.
  - now rewrite Hc, Hc'.
  - now rewrite Hd, Hd'.
Qed.

Lemma TrackChargeTrap_NOT_USED_same_tables_witness :
  exists leak open leak' open',
    _TrackChargeTrap log10_floor 3 [5; 0; 200; 7]
      [[4; 3; 2; 1]; [2; 2; 1; 1]; [0; 1; 0; 1]] = Ok (leak, open) /\
    _TrackChargeTrap_NOT_USED log10_floor 3 [5; 0; 200; 7]
      [[4; 3; 2; 1]; [2; 2; 1; 1]; [0; 1; 0; 1]] = Ok (leak', open') /\
    Np.shaped 3 (Z.to_nat 3) leak' /\ Np.shaped 3 (Z.to_nat 3) open' /\
    (forall t q : nat, cell leak' t q = cell leak q t) /\
    (forall t q : nat, cell open' t q = cell open q t).
Proof.
  apply (TrackChargeTrap_NOT_USED_same_tables log10_floor 3 4 3
           [5; 0; 200; 7] [[4; 3; 2; 1]; [2; 2; 1; 1]; [0; 1; 0; 1]]).
  - split; [reflexivity | repeat constructor].
  - lia.
  - lia.
  - cbn [length]. lia.
Defined.

(** Outside these bounds the two differ: with [_YCTE_QMAX = -1] the version
    in use asks for a table with a negative number of columns and raises,
    and the slow version returns two tables without columns. *)
Example TrackChargeTrap_NOT_USED_differs :
  _TrackChargeTrap log10_floor (-1) [5; 0; 200; 7]
    [[4; 3; 2; 1]; [2; 2; 1; 1]; [0; 1; 0; 1]] = Raise ValueError /\
  _TrackChargeTrap_NOT_USED log10_floor (-1) [5; 0; 200; 7]
    [[4; 3; 2; 1]; [2; 2; 1; 1]; [0; 1; 0; 1]]
    = Ok ([[]; []; []], [[]; []; []]).
Proof. split; vm_compute; reflexivity. Qed.
